(** * Findings-to-issues reconciliation pipeline

    A shallow embedding of [automation/process-codeql-results.js]:
    report parsing, grouping, filtering, issue rendering, the dedup
    lookup, create/update, and the auto-close sweep, together with the
    properties the specification states about them.

    Conventions.
    - A JavaScript string is the list of its UTF-16 code units
      ([jsstring]); [lit] embeds an ASCII literal, other characters of
      the source templates are written as explicit code units.
    - Case mapping ([toLowerCase], [toUpperCase]) maps the ASCII letters
      and leaves every other code unit as it is; what is stated about
      case (titles, keyword matching) is stated for ASCII text.
    - Where a table of [prompt-mappings.json] is read under a key that
      comes from the report (a level, a rule), it is read as JavaScript
      reads an object: a key without an entry of its own finds the
      members every object inherits ([getProperty]).
    - The texts and numbers of a report have the types the SARIF format
      gives them: strings, and whole line and column numbers.
    - Code that calls the issue tracker, the prompt host, the clock or
      the log runs in the monad [M]: a state [St] is threaded through and
      a computation either returns or throws an error message. *)

From Stdlib Require Import String Ascii List NArith ZArith Bool Lia.
From Stdlib Require Import Permutation.
From Stdlib Require Decimal DecimalPos.
Import ListNotations.

Set Implicit Arguments.

(* ================================================================== *)
(** * JavaScript strings *)
(* ================================================================== *)

Definition jsstring := list N.

Definition lit (s : string) : jsstring :=
  map N_of_ascii (list_ascii_of_string s).

Fixpoint str_eqb (a b : jsstring) : bool :=
  match a, b with
  | [], [] => true
  | x :: a', y :: b' => N.eqb x y && str_eqb a' b'
  | _, _ => false
  end.

(** [s.startsWith(p)], arguments in the order prefix, string. *)
Fixpoint startsWith (p s : jsstring) : bool :=
  match p, s with
  | [], _ => true
  | x :: p', y :: s' => N.eqb x y && startsWith p' s'
  | _ :: _, [] => false
  end.

(** [s.includes(sub)] *)
Fixpoint includes (s sub : jsstring) : bool :=
  startsWith sub s ||
  match s with
  | [] => false
  | _ :: s' => includes s' sub
  end.

(** [s.substring(0, n)] *)
Definition substring0 (n : nat) (s : jsstring) : jsstring := firstn n s.

(** [arr.includes(x)] on an array of strings. *)
Definition arr_includes (l : list jsstring) (x : jsstring) : bool :=
  existsb (str_eqb x) l.

(** [arr.indexOf(x)], -1 when absent. *)
Fixpoint indexOf_from (i : Z) (l : list jsstring) (x : jsstring) : Z :=
  match l with
  | [] => (-1)%Z
  | y :: l' => if str_eqb y x then i else indexOf_from (i + 1)%Z l' x
  end.

Definition indexOf (l : list jsstring) (x : jsstring) : Z := indexOf_from 0%Z l x.

(** A JavaScript [Set] of strings: insertion ordered, no duplicates. *)
Definition set_add (x : jsstring) (s : list jsstring) : list jsstring :=
  if arr_includes s x then s else s ++ [x].

Definition set_has (s : list jsstring) (x : jsstring) : bool := arr_includes s x.

(** ** Numbers as text

    A whole number is printed as [String(n)] and template interpolation
    print it: in plain decimal below 10^21, from there on as the shortest
    digits that read back as the same double, followed by an exponent. *)
Fixpoint uint_codes (d : Decimal.uint) : jsstring :=
  match d with
  | Decimal.Nil => []
  | Decimal.D0 d => 48%N :: uint_codes d
  | Decimal.D1 d => 49%N :: uint_codes d
  | Decimal.D2 d => 50%N :: uint_codes d
  | Decimal.D3 d => 51%N :: uint_codes d
  | Decimal.D4 d => 52%N :: uint_codes d
  | Decimal.D5 d => 53%N :: uint_codes d
  | Decimal.D6 d => 54%N :: uint_codes d
  | Decimal.D7 d => 55%N :: uint_codes d
  | Decimal.D8 d => 56%N :: uint_codes d
  | Decimal.D9 d => 57%N :: uint_codes d
  end.

(** The decimal digits of a whole number. *)
Definition decimal (n : N) : jsstring := uint_codes (N.to_uint n).

(** The double nearest to a whole number, ties to the even mantissa: the
    value a number of that size has in JavaScript. *)
Definition toDouble (n : N) : N :=
  let bits := N.size n in
  if (bits <=? 53)%N then n
  else
    let shift := (bits - 53)%N in
    let q := N.shiftr n shift in
    let rest := (n - N.shiftl q shift)%N in
    let half := N.shiftl 1 (shift - 1) in
    let up := (half <? rest)%N || ((rest =? half)%N && N.odd q) in
    N.shiftl (if up then q + 1 else q)%N shift.

(** The digit string [s] of [k] digits for which [s * 10^(e-k)] is read
    back as [x] and lies closest to it, if there is one. *)
Definition digitsOfLength (x : N) (e k : nat) : option N :=
  let p := (10 ^ N.of_nat (e - k))%N in
  let lo := (x / p)%N in
  let hi := (lo + 1)%N in
  let okLo := (toDouble (lo * p) =? x)%N in
  let okHi := (hi <? 10 ^ N.of_nat k)%N && (toDouble (hi * p) =? x)%N in
  match okLo, okHi with
  | true, true =>
      let below := (x - lo * p)%N in
      let above := (hi * p - x)%N in
      if (below <? above)%N then Some lo
      else if (above <? below)%N then Some hi
      else if N.even lo then Some lo else Some hi
  | true, false => Some lo
  | false, true => Some hi
  | false, false => None
  end.

(** The shortest such digit string, tried from [k] digits on. *)
Fixpoint shortestDigits (fuel : nat) (x : N) (e k : nat) : N :=
  match fuel with
  | O => (x / 10 ^ N.of_nat (e - k))%N
  | S fuel' =>
      match digitsOfLength x e k with
      | Some s => s
      | None => shortestDigits fuel' x e (S k)
      end
  end.

(** [d.ddd] followed by [e+n]: the form of the numbers from 10^21 on. *)
Definition exponential (x : N) : jsstring :=
  let e := length (decimal x) in
  if (toDouble (10 ^ N.of_nat e) =? x)%N && negb (10 ^ N.of_nat e =? x)%N
  then 49%N :: lit "e+" ++ decimal (N.of_nat e)
  else
    match decimal (shortestDigits 17 x e 1) with
    | [] => []
    | d :: [] => d :: lit "e+" ++ decimal (N.of_nat (e - 1))
    | d :: ds => d :: 46%N :: ds ++ lit "e+" ++ decimal (N.of_nat (e - 1))
    end.

(** [String(n)] *)
Definition num (n : N) : jsstring :=
  let x := toDouble n in
  if (x <? 10 ^ 21)%N then decimal x
  else if (2 ^ 1024 <=? x)%N then lit "Infinity"
  else exponential x.

Definition numNat (n : nat) : jsstring := num (N.of_nat n).

(** The text of an integer-valued number or of [NaN] ([None]). *)
Definition numberText (z : option Z) : jsstring :=
  match z with
  | None => [78; 97; 78]%N
  | Some (Zneg p) => 45%N :: num (Npos p)
  | Some z => num (Z.to_N z)
  end.

Definition isDigit (c : N) : bool := (48 <=? c)%N && (c <=? 57)%N.

(** [\s] of a JavaScript regular expression. *)
Definition isSpace (c : N) : bool :=
  existsb (N.eqb c)
    [9; 10; 11; 12; 13; 32; 160; 5760; 8192; 8193; 8194; 8195; 8196; 8197;
     8198; 8199; 8200; 8201; 8202; 8232; 8233; 8239; 8287; 12288; 65279]%N.

Definition lowerChar (c : N) : N :=
  if (65 <=? c)%N && (c <=? 90)%N then (c + 32)%N else c.

Definition upperChar (c : N) : N :=
  if (97 <=? c)%N && (c <=? 122)%N then (c - 32)%N else c.

(** [s.toLowerCase()] and [s.toUpperCase()], as they act on ASCII text. *)
Definition toLowerCase (s : jsstring) : jsstring := map lowerChar s.
Definition toUpperCase (s : jsstring) : jsstring := map upperChar s.

(** A text of ASCII characters only. *)
Definition isAscii (s : jsstring) : bool := forallb (fun c => (c <? 128)%N) s.

(** [s.trim()] *)
Fixpoint trimStart (s : jsstring) : jsstring :=
  match s with
  | c :: s' => if isSpace c then trimStart s' else s
  | [] => []
  end.

Definition trim (s : jsstring) : jsstring := rev (trimStart (rev (trimStart s))).

(** [a || b] on strings: the empty string is falsy. *)
Definition orStr (a b : jsstring) : jsstring :=
  match a with [] => b | _ => a end.

(** The entry a JSON object holds under a key of its own. *)
Fixpoint assoc {V : Type} (k : jsstring) (l : list (jsstring * V)) : option V :=
  match l with
  | [] => None
  | (k', v) :: l' => if str_eqb k' k then Some v else assoc k l'
  end.

(** The members every object inherits from [Object.prototype]. *)
Definition objectPrototype : list jsstring :=
  [lit "constructor"; lit "__defineGetter__"; lit "__defineSetter__";
   lit "hasOwnProperty"; lit "__lookupGetter__"; lit "__lookupSetter__";
   lit "isPrototypeOf"; lit "propertyIsEnumerable"; lit "toString";
   lit "valueOf"; lit "__proto__"; lit "toLocaleString"].

(** What reading [table[key]] finds: an entry of the table's own, else a
    member the table inherits under that name, else nothing
    ([undefined]). *)
Inductive Lookup (V : Type) :=
| Own (v : V)
| Inherited (member : jsstring)
| Missing.

Arguments Missing {V}.
Arguments Inherited {V} member.

Definition getProperty {V : Type} (table : list (jsstring * V)) (key : jsstring)
  : Lookup V :=
  match assoc key table with
  | Some v => Own v
  | None => if arr_includes objectPrototype key then Inherited key else Missing
  end.

(** The text an inherited member turns into where a string is asked for
    (a template literal, a property key): the source text of a built-in
    function, or [[object Object]] for the prototype itself. *)
Definition memberText (member : jsstring) : jsstring :=
  if str_eqb member (lit "__proto__") then lit "[object Object]"
  else
    lit "function "
    ++ (if str_eqb member (lit "constructor") then lit "Object" else member)
    ++ lit "() { [native code] }".

(* ================================================================== *)
(** * Findings and grouping *)
(* ================================================================== *)

(** One element of the array [parseSARIFResults] returns. *)
Record Finding := mkFinding {
  f_ruleId : jsstring;
  f_ruleName : jsstring;
  f_ruleHelp : jsstring;
  f_message : jsstring;
  f_level : jsstring;
  f_severity : jsstring;
  f_filePath : jsstring;
  f_startLine : N;
  f_endLine : N;
  f_startColumn : N;
  f_endColumn : N;
  f_codeSnippet : jsstring;
  f_tool : jsstring;
  f_toolVersion : jsstring
}.

Record Occurrence := mkOccurrence {
  o_startLine : N;
  o_endLine : N;
  o_startColumn : N;
  o_endColumn : N;
  o_codeSnippet : jsstring;
  o_message : jsstring
}.

Record GroupedFinding := mkGrouped {
  g_ruleId : jsstring;
  g_ruleName : jsstring;
  g_ruleHelp : jsstring;
  g_filePath : jsstring;
  g_level : jsstring;
  g_severity : jsstring;
  g_tool : jsstring;
  g_toolVersion : jsstring;
  g_message : jsstring;
  g_occurrences : list Occurrence
}.

Definition colon : jsstring := lit ":".

(** [`${finding.ruleId}:${finding.filePath}`] *)
Definition groupKey (f : Finding) : jsstring :=
  f_ruleId f ++ colon ++ f_filePath f.

Definition newGroup (f : Finding) : GroupedFinding :=
  {| g_ruleId := f_ruleId f;
     g_ruleName := f_ruleName f;
     g_ruleHelp := f_ruleHelp f;
     g_filePath := f_filePath f;
     g_level := f_level f;
     g_severity := f_severity f;
     g_tool := f_tool f;
     g_toolVersion := f_toolVersion f;
     g_message := f_message f;
     g_occurrences := [] |}.

Definition occurrenceOf (f : Finding) : Occurrence :=
  {| o_startLine := f_startLine f;
     o_endLine := f_endLine f;
     o_startColumn := f_startColumn f;
     o_endColumn := f_endColumn f;
     o_codeSnippet := f_codeSnippet f;
     o_message := f_message f |}.

Definition pushOccurrence (o : Occurrence) (g : GroupedFinding) : GroupedFinding :=
  {| g_ruleId := g_ruleId g;
     g_ruleName := g_ruleName g;
     g_ruleHelp := g_ruleHelp g;
     g_filePath := g_filePath g;
     g_level := g_level g;
     g_severity := g_severity g;
     g_tool := g_tool g;
     g_toolVersion := g_toolVersion g;
     g_message := g_message g;
     g_occurrences := g_occurrences g ++ [o] |}.

(** The [Map] of [groupFindingsByRuleAndFile]: entries in insertion order. *)
Definition GroupMap := list (jsstring * GroupedFinding).

Definition map_has (m : GroupMap) (k : jsstring) : bool :=
  existsb (fun e => str_eqb (fst e) k) m.

(** [groups.set(key, v)] for a key the map does not hold yet. *)
Definition map_set (m : GroupMap) (k : jsstring) (v : GroupedFinding) : GroupMap :=
  m ++ [(k, v)].

(** [groups.get(key).occurrences.push(o)]: the entry is updated in place. *)
Fixpoint map_push (m : GroupMap) (k : jsstring) (o : Occurrence) : GroupMap :=
  match m with
  | [] => []
  | (k', g) :: m' =>
      if str_eqb k' k then (k', pushOccurrence o g) :: m'
      else (k', g) :: map_push m' k o
  end.

Definition groupStep (groups : GroupMap) (finding : Finding) : GroupMap :=
  let key := groupKey finding in
  let groups1 := if map_has groups key then groups
                 else map_set groups key (newGroup finding) in
  map_push groups1 key (occurrenceOf finding).

Definition groupFindingsByRuleAndFile (findings : list Finding) : list GroupedFinding :=
  map snd (fold_left groupStep findings []).

(* ================================================================== *)
(** * Configuration, mapping tables and the outside world *)
(* ================================================================== *)

(** [config]: the environment-derived settings.  [maxIssuesPerRun] is the
    result of [parseInt]: [None] stands for [NaN]. *)
Record Config := mkConfig {
  promptRepo : jsstring;
  promptBranch : jsstring;
  severityThreshold : jsstring;
  maxIssuesPerRun : option Z;
  enableMaintainability : bool;
  enableThreatModel : bool;
  autoAssign : list jsstring;
  excludedPaths : list jsstring;
  owner : jsstring;
  repo : jsstring;
  sarifPath : jsstring;
  branch : jsstring;
  sha : jsstring
}.

(** An entry of [mappings.owasp_categories]. *)
Record Category := mkCategory {
  c_name : jsstring;
  c_prompt_file : jsstring;
  c_maintainability : option (list jsstring);
  c_threat_model : option (list jsstring)
}.

(** An entry of [mappings.maintainability_triggers]. *)
Record Trigger := mkTrigger {
  t_keywords : list jsstring;
  t_prompt_file : jsstring
}.

(** [prompt-mappings.json] is not part of the sources at hand; its tables
    are taken as a parameter of this shape, the one the code reads. *)
Record Mappings := mkMappings {
  severity_mapping : list (jsstring * jsstring);
  codeql_to_owasp : list (jsstring * jsstring);
  owasp_categories : list (jsstring * Category);
  label_mapping : list (jsstring * jsstring);
  maintainability_triggers : list (jsstring * Trigger)
}.

(** The value [mapToOWASP] returns: [{ key: owaspKey, ...category }]. *)
Record OwaspInfo := mkOwaspInfo {
  oi_key : jsstring;
  oi_category : Category
}.

(** What spreading a value without fields of its own leaves of a
    category. *)
Definition noCategory : Category := mkCategory [] [] None None.

(** Outcome of the HTTP request of [fetchPrompt]. *)
Inductive HttpResult :=
| Http200 (content : jsstring)
| Http404
| HttpError (message : jsstring).

(** Outcome of reading a source file in [extractCodeSnippet]. *)
Inductive FileResult :=
| FileMissing
| FileUnreadable (message : jsstring)
| FileContent (content : jsstring).

(** ** The analysis report *)

(** A report is taken with the types the SARIF format gives its entries:
    texts are strings, line and column numbers are whole numbers (the
    [@param {number} startLine - Start line number (1-indexed)] of
    [extractCodeSnippet]).  What the format leaves open is kept: entries
    may be absent, [null] may stand where a run or a result is expected,
    and [runs] and [results] need not be lists.  A text that is absent
    reads as the empty string wherever the code treats the two alike
    ([x || default]); an identifier, which the code prints and compares,
    is [None] when absent. *)

Record Rule := mkRule {
  rule_id : option jsstring;
  rule_shortDescription : jsstring;
  rule_name : jsstring;
  rule_helpText : jsstring;
  rule_fullDescription : jsstring
}.

(** [region.snippet?.text]: absent, a string, or a value of another type
    that is not falsy. *)
Inductive SnippetText :=
| SnippetAbsent
| SnippetString (text : jsstring)
| SnippetOther.

(** [physicalLocation.region]; a number that is absent reads as 0, which
    the code treats alike ([x || default]). *)
Record Region := mkRegion {
  reg_startLine : N;
  reg_endLine : N;
  reg_startColumn : N;
  reg_endColumn : N;
  reg_snippet : SnippetText
}.

Record PhysicalLocation := mkLocation {
  loc_uri : jsstring;
  loc_region : option Region
}.

(** One element of [run.results]. *)
Record SarifResult := mkSarifResult {
  r_ruleId : option jsstring;
  r_messageText : jsstring;
  r_level : jsstring;
  r_location : option PhysicalLocation
}.

(** [run.results]: a list, in which [None] is a [null] entry (an absent or
    falsy value reads as the empty list), or a value that is neither falsy
    nor iterable (a number, [true], an object), with the message of the
    error that iterating it raises. *)
Inductive RunResults :=
| ResultsList (results : list (option SarifResult))
| ResultsNotIterable (message : jsstring).

(** [driver.rules]: a list, in which [None] is a [null] entry (an absent
    or [null] value reads as the empty list), or a value that is no list,
    with the message of the error that calling its [find] raises. *)
Inductive RunRules :=
| RulesList (rules : list (option Rule))
| RulesNotArray (message : jsstring).

(** One element of [sarif.runs]. *)
Record SarifRun := mkSarifRun {
  run_toolName : jsstring;
  run_semanticVersion : jsstring;
  run_version : jsstring;
  run_rules : RunRules;
  run_results : RunResults
}.

(** What is found at the report path: no file; text [JSON.parse] rejects
    with a message; the value [null]; a value whose [runs] is neither
    falsy nor iterable, with the message of the error that iterating it
    raises; or a value with its runs, in which [None] is a [null] entry
    (an absent or falsy [runs] reads as the empty list). *)
Inductive ReportFile :=
| ReportMissing
| ReportMalformed (message : jsstring)
| ReportNull
| ReportRunsNotIterable (message : jsstring)
| ReportParsed (runs : list (option SarifRun)).

(** What the process finds around it: settings, tables, and the answers of
    the collaborators that are functions of their request. *)
Record Env := mkEnv {
  config : Config;
  mappings : Mappings;
  promptHashes : list (jsstring * list (jsstring * jsstring));
  httpGet : jsstring -> HttpResult;
  sha256hex : jsstring -> jsstring;
  readSource : jsstring -> FileResult;
  sarifFile : jsstring -> ReportFile;
  summaryFile : jsstring;
  isoTime : N -> jsstring
}.

(** ** The issue tracker *)

Inductive IssueState := StOpen | StClosed.

Record Issue := mkIssue {
  i_number : N;
  i_title : jsstring;
  i_body : jsstring;
  i_labels : list jsstring;
  i_state : IssueState;
  i_assignees : list jsstring;
  i_comments : list jsstring
}.

(** A request sent to the tracker. *)
Inductive Call :=
| CallList
| CallCreate
| CallUpdate (number : N)
| CallClose (number : N)
| CallComment (number : N)
| CallAddLabels (number : N).

Definition isMutation (c : Call) : bool :=
  match c with CallList => false | _ => true end.

(** The tracker: its issues in the order a listing returns them (newest
    first), the number the next issue gets, the scripted outcome of the
    coming requests ([Some msg]: the request fails with [msg]), and the
    requests received so far. *)
Record Tracker := mkTracker {
  issues : list Issue;
  nextNumber : N;
  faults : list (option jsstring);
  calls : list Call
}.

Inductive Level := INFO | WARN | ERROR | SUCCESS.

(** An entry of [results.errors]. *)
Record ErrorEntry := mkErrorEntry {
  e_ruleId : jsstring;
  e_filePath : jsstring;
  e_error : jsstring
}.

(** The [results] object of [processFindings]. *)
Record Results := mkResults {
  total : nat;
  created : nat;
  updated : nat;
  skipped : nat;
  closed : nat;
  errors : list ErrorEntry;
  by_severity : list (jsstring * nat);
  by_owasp : list (jsstring * nat)
}.

(** The variables of one [processFindings] activation. *)
Record Run := mkRun {
  results : Results;
  processedCount : nat;
  currentVulnerabilities : list jsstring
}.

(** Everything a computation can read and change. *)
Record St := mkSt {
  tracker : Tracker;
  logs : list (Level * jsstring);
  promptCache : list (jsstring * option jsstring);
  clock : N;
  run : Run
}.

Definition set_tracker (t : Tracker) (s : St) : St :=
  mkSt t (logs s) (promptCache s) (clock s) (run s).
Definition set_logs (l : list (Level * jsstring)) (s : St) : St :=
  mkSt (tracker s) l (promptCache s) (clock s) (run s).
Definition set_promptCache (c : list (jsstring * option jsstring)) (s : St) : St :=
  mkSt (tracker s) (logs s) c (clock s) (run s).
Definition set_clock (c : N) (s : St) : St :=
  mkSt (tracker s) (logs s) (promptCache s) c (run s).
Definition set_run (r : Run) (s : St) : St :=
  mkSt (tracker s) (logs s) (promptCache s) (clock s) r.

(** ** The monad of effectful code *)

Inductive Res (A : Type) :=
| Ok (a : A)
| Throw (message : jsstring).
Arguments Ok {A} a.
Arguments Throw {A} message.

Definition M (A : Type) : Type := St -> Res A * St.

Definition ret {A} (a : A) : M A := fun s => (Ok a, s).

Definition bind {A B} (m : M A) (k : A -> M B) : M B :=
  fun s => match m s with
           | (Ok a, s') => k a s'
           | (Throw e, s') => (Throw e, s')
           end.

Definition throw {A} (e : jsstring) : M A := fun s => (Throw e, s).

(** [try { m } catch (error) { h error }] *)
Definition try_catch {A} (m : M A) (h : jsstring -> M A) : M A :=
  fun s => match m s with
           | (Ok a, s') => (Ok a, s')
           | (Throw e, s') => h e s'
           end.

Definition get : M St := fun s => (Ok s, s).
Definition modify (f : St -> St) : M unit := fun s => (Ok tt, f s).

Declare Scope m_scope.
Delimit Scope m_scope with m.
Notation "x <- c1 ;; c2" := (bind c1 (fun x => c2))
  (at level 100, c1 at next level, right associativity) : m_scope.
Notation "c1 ;; c2" := (bind c1 (fun _ => c2))
  (at level 100, right associativity) : m_scope.
Open Scope m_scope.

(** [log(level, message)]: the entry is appended; what the sink does to
    the text afterwards (sanitising, JSON encoding) is not modelled. *)
Definition log (level : Level) (message : jsstring) : M unit :=
  modify (fun s => set_logs (logs s ++ [(level, message)]) s).

(** [new Date().toISOString()] *)
Definition now (env : Env) : M jsstring :=
  fun s => (Ok (isoTime env (clock s)), set_clock (clock s + 1)%N s).

(** A request reaches the tracker: it is recorded, and the next scripted
    outcome decides whether it fails. *)
Definition request (c : Call) : M unit :=
  fun s =>
    let t := tracker s in
    match faults t with
    | Some msg :: rest =>
        (Throw msg, set_tracker (mkTracker (issues t) (nextNumber t) rest (calls t ++ [c])) s)
    | None :: rest =>
        (Ok tt, set_tracker (mkTracker (issues t) (nextNumber t) rest (calls t ++ [c])) s)
    | [] =>
        (Ok tt, set_tracker (mkTracker (issues t) (nextNumber t) [] (calls t ++ [c])) s)
    end.

Definition set_issues (l : list Issue) : M unit :=
  modify (fun s =>
    let t := tracker s in
    set_tracker (mkTracker l (nextNumber t) (faults t) (calls t)) s).

Definition sentinel : jsstring := lit "codeql-finding".

Definition isOpen (i : Issue) : bool :=
  match i_state i with StOpen => true | StClosed => false end.

Definition listed (label : jsstring) (i : Issue) : bool :=
  isOpen i && arr_includes (i_labels i) label.

(** [octokit.rest.issues.listForRepo({ labels, state: 'open', per_page })]:
    one page of the open issues that carry the label. *)
Definition listForRepo (label : jsstring) (per_page : nat) : M (list Issue) :=
  request CallList ;;
  s <- get ;;
  ret (firstn per_page (filter (listed label) (issues (tracker s)))).

Definition updateIssueIn (n : N) (f : Issue -> Issue) (l : list Issue) : list Issue :=
  map (fun i => if N.eqb (i_number i) n then f i else i) l.

Definition findIssue (n : N) (l : list Issue) : option Issue :=
  find (fun i => N.eqb (i_number i) n) l.

Definition notFound : jsstring := lit "Not Found".

(** A request on an existing issue: [f] is applied to it and the new
    value is the response. *)
Definition onIssue (c : Call) (n : N) (f : Issue -> Issue) : M Issue :=
  request c ;;
  s <- get ;;
  match findIssue n (issues (tracker s)) with
  | None => throw notFound
  | Some i => set_issues (updateIssueIn n f (issues (tracker s))) ;; ret (f i)
  end.

(** [issues.update({ issue_number, body, labels })] *)
Definition issuesUpdate (n : N) (body : jsstring) (labels : list jsstring) : M Issue :=
  onIssue (CallUpdate n) n
    (fun i => mkIssue (i_number i) (i_title i) body labels (i_state i)
                      (i_assignees i) (i_comments i)).

(** [issues.update({ issue_number, state: 'closed' })] *)
Definition issuesClose (n : N) : M Issue :=
  onIssue (CallClose n) n
    (fun i => mkIssue (i_number i) (i_title i) (i_body i) (i_labels i) StClosed
                      (i_assignees i) (i_comments i)).

(** [issues.createComment({ issue_number, body })] *)
Definition issuesCreateComment (n : N) (text : jsstring) : M Issue :=
  onIssue (CallComment n) n
    (fun i => mkIssue (i_number i) (i_title i) (i_body i) (i_labels i) (i_state i)
                      (i_assignees i) (i_comments i ++ [text])).

(** [issues.addLabels({ issue_number, labels })] *)
Definition issuesAddLabels (n : N) (labels : list jsstring) : M Issue :=
  onIssue (CallAddLabels n) n
    (fun i => mkIssue (i_number i) (i_title i) (i_body i)
                      (fold_left (fun acc l => set_add l acc) labels (i_labels i))
                      (i_state i) (i_assignees i) (i_comments i)).

(** [issues.create({ title, body, labels, assignees })] *)
Definition issuesCreate (title body : jsstring) (labels assignees : list jsstring) : M Issue :=
  request CallCreate ;;
  s <- get ;;
  let t := tracker s in
  let i := mkIssue (nextNumber t) title body labels StOpen assignees [] in
  modify (fun s => set_tracker
            (mkTracker (i :: issues t) (nextNumber t + 1)%N (faults t) (calls t)) s) ;;
  ret i.

(* ================================================================== *)
(** * The pipeline *)
(* ================================================================== *)

Definition nl : jsstring := [10%N].
Definition backtick : N := 96%N.

Fixpoint takeWhile (p : N -> bool) (s : jsstring) : jsstring :=
  match s with
  | c :: s' => if p c then c :: takeWhile p s' else []
  | [] => []
  end.

Fixpoint dropWhile (p : N -> bool) (s : jsstring) : jsstring :=
  match s with
  | c :: s' => if p c then dropWhile p s' else s
  | [] => []
  end.

(** [s.replace(pat, '')] with a string pattern: the first occurrence goes. *)
Fixpoint removeFirst (pat s : jsstring) : jsstring :=
  if startsWith pat s then skipn (length pat) s
  else match s with
       | [] => []
       | c :: s' => c :: removeFirst pat s'
       end.

(** [s.split(sep)] for a one-character separator. *)
Fixpoint split (sep : N) (s : jsstring) : list jsstring :=
  match s with
  | [] => [[]]
  | c :: s' =>
      if N.eqb c sep then [] :: split sep s'
      else match split sep s' with
           | w :: ws => (c :: w) :: ws
           | [] => [[c]]
           end
  end.

(** [arr.join(sep)] *)
Fixpoint join (sep : jsstring) (l : list jsstring) : jsstring :=
  match l with
  | [] => []
  | [w] => w
  | w :: ws => w ++ sep ++ join sep ws
  end.

(** [word.charAt(0).toUpperCase() + word.slice(1)] *)
Definition capitalize (w : jsstring) : jsstring :=
  match w with
  | [] => []
  | c :: w' => upperChar c :: w'
  end.

Definition dotMd : jsstring := lit ".md".

Definition extractMaintainabilityTitle (filename : jsstring) : jsstring :=
  join (lit " ") (map capitalize (split 45%N (removeFirst dotMd filename))).

Definition extractStrideTitle (filename : jsstring) : jsstring :=
  join (lit " ") (map capitalize (split 45%N (removeFirst dotMd filename))).

(** [filename.match(/A(\d{2})/)]: the two digits of the first match. *)
Fixpoint matchOwaspNum (s : jsstring) : option jsstring :=
  match s with
  | [] => None
  | c :: s' =>
      match s' with
      | d1 :: d2 :: _ =>
          if N.eqb c 65 && isDigit d1 && isDigit d2 then Some [d1; d2]
          else matchOwaspNum s'
      | _ => None
      end
  end.

Definition isLineTerminator (c : N) : bool :=
  N.eqb c 10 || N.eqb c 13 || N.eqb c 8232 || N.eqb c 8233.

(** A character of the class [[^(—\n]]. *)
Definition titleChar (c : N) : bool :=
  negb (N.eqb c 40 || N.eqb c 8212 || N.eqb c 10).

(** After the [#]: [\s+] is given [k] characters, then [k - 1], and so on
    down to one, until the class that follows finds a character. *)
Fixpoint titleBacktrack (k : nat) (rest : jsstring) : option jsstring :=
  match k with
  | O => None
  | S k' =>
      match takeWhile titleChar (skipn k rest) with
      | [] => titleBacktrack k' rest
      | cap => Some cap
      end
  end.

Definition matchTitleAt (s : jsstring) : option jsstring :=
  match s with
  | c :: rest =>
      if N.eqb c 35 then titleBacktrack (length (takeWhile isSpace rest)) rest
      else None
  | [] => None
  end.

(** [content.match(/^#\s+([^(—\n]+)/m)]: the capture of the first match. *)
Fixpoint matchTitle (lineStart : bool) (s : jsstring) : option jsstring :=
  match s with
  | [] => None
  | c :: s' =>
      match (if lineStart then matchTitleAt s else None) with
      | Some cap => Some cap
      | None => matchTitle (isLineTerminator c) s'
      end
  end.

(** [extractOwaspInfo(filename, content)]: the pair [(num, title)]. *)
Definition extractOwaspInfo (filename content : jsstring) : jsstring * jsstring :=
  let num := match matchOwaspNum filename with
             | Some ds => lit "A" ++ ds
             | None => []
             end in
  let title := match matchTitle true content with
               | Some cap => trim cap
               | None => []
               end in
  (num, title).

(** [path.basename(p)] (POSIX). *)
Definition basename (p : jsstring) : jsstring :=
  rev (takeWhile (fun c => negb (N.eqb c 47))
         (dropWhile (fun c => N.eqb c 47) (rev p))).

(** [path.extname(p)] (POSIX): from the last dot of the last segment,
    unless that dot opens the segment or the segment is [..]. *)
Definition extname (p : jsstring) : jsstring :=
  let b := basename p in
  let afterDot := rev (takeWhile (fun c => negb (N.eqb c 46)) (rev b)) in
  let upToDot := firstn (length b - length afterDot) b in
  match upToDot with
  | [] => []
  | [_] => []
  | _ => if str_eqb b (lit "..") then [] else 46%N :: afterDot
  end.

Definition languageMap : list (jsstring * jsstring) :=
  [ (lit ".js", lit "javascript");
    (lit ".ts", lit "typescript");
    (lit ".jsx", lit "javascript");
    (lit ".tsx", lit "typescript");
    (lit ".py", lit "python");
    (lit ".java", lit "java");
    (lit ".go", lit "go");
    (lit ".cs", lit "csharp");
    (lit ".rb", lit "ruby");
    (lit ".php", lit "php") ].

(** ** Filtering *)

(** [shouldExcludePath(filePath)] *)
Definition shouldExcludePath (cfg : Config) (filePath : jsstring) : bool :=
  existsb (fun excludedPath => includes filePath excludedPath) (excludedPaths cfg).

Definition severityLevels : list jsstring :=
  [lit "low"; lit "medium"; lit "high"; lit "critical"].

(** [meetsSeverityThreshold(severity)] *)
Definition meetsSeverityThreshold (cfg : Config) (severity : jsstring) : bool :=
  let thresholdIndex := indexOf severityLevels (severityThreshold cfg) in
  let severityIndex := indexOf severityLevels severity in
  (thresholdIndex <=? severityIndex)%Z.

(** [mappings.codeql_to_owasp[ruleId]], when it is truthy: the key of the
    table's own entry, or the text of the member the table inherits under
    the name of the rule. *)
Definition owaspKeyOf (mp : Mappings) (ruleId : jsstring) : option jsstring :=
  match getProperty (codeql_to_owasp mp) ruleId with
  | Own [] | Missing => None
  | Own owaspKey => Some owaspKey
  | Inherited member => Some (memberText member)
  end.

(** [mappings.owasp_categories[owaspKey]], when it is truthy. *)
Definition categoryOf (mp : Mappings) (owaspKey : jsstring) : option Category :=
  match getProperty (owasp_categories mp) owaspKey with
  | Own category => Some category
  | Inherited _ => Some noCategory
  | Missing => None
  end.

(** [mapToOWASP(ruleId)]; [None] is [null]. *)
Definition mapToOWASP (mp : Mappings) (ruleId : jsstring) : M (option OwaspInfo) :=
  match owaspKeyOf mp ruleId with
  | None =>
      log WARN (lit "No OWASP mapping found for rule: " ++ ruleId) ;;
      ret None
  | Some owaspKey =>
      match categoryOf mp owaspKey with
      | None =>
          log ERROR (lit "OWASP category not found: " ++ owaspKey) ;;
          ret None
      | Some category => ret (Some (mkOwaspInfo owaspKey category))
      end
  end.

(** ** Maintainability detection *)

(** The inner loop over [trigger.keywords], up to its [break]. *)
Definition triggerFires (searchText : jsstring) (t : Trigger) : bool :=
  existsb (fun keyword => includes searchText (toLowerCase keyword)) (t_keywords t).

Fixpoint detectLoop (ruleId searchText : jsstring)
    (entries : list (jsstring * Trigger)) (concerns : list jsstring) : M (list jsstring) :=
  match entries with
  | [] => ret concerns
  | (key, trigger) :: rest =>
      if triggerFires searchText trigger then
        log INFO (lit "Detected maintainability concern: " ++ key ++ lit " for " ++ ruleId) ;;
        detectLoop ruleId searchText rest (set_add (t_prompt_file trigger) concerns)
      else detectLoop ruleId searchText rest concerns
  end.

(** [detectMaintainabilityConcerns(groupedFinding)] *)
Definition detectMaintainabilityConcerns (env : Env) (g : GroupedFinding) : M (list jsstring) :=
  if negb (enableMaintainability (config env)) then ret []
  else
    let searchText :=
      toLowerCase (g_message g ++ lit " " ++ g_ruleHelp g ++ lit " " ++ g_ruleId g) in
    detectLoop (g_ruleId g) searchText (maintainability_triggers (mappings env)) [].

(** ** Prompt fetching *)

(** [verifyPromptUrl], on the protocol and host name the URL parses to. *)
Definition verifyPromptUrl (protocol hostname : jsstring) : M bool :=
  if negb (str_eqb protocol (lit "https:")) then
    log ERROR (lit "Blocked non-HTTPS prompt URL") ;; ret false
  else if negb (arr_includes [lit "raw.githubusercontent.com"] hostname) then
    log ERROR (lit "Blocked prompt fetch from untrusted domain") ;; ret false
  else ret true.

(** [verifyPromptIntegrity(content, expectedHash)] *)
Definition verifyPromptIntegrity (env : Env) (content expectedHash : jsstring) : bool :=
  str_eqb (lit "sha256:" ++ sha256hex env content) expectedHash.

Definition cacheSet (k : jsstring) (v : option jsstring) : M unit :=
  modify (fun s => set_promptCache ((k, v) :: promptCache s) s).

(** [fetchPrompt(category, file)]; [None] is [null]. *)
Definition fetchPrompt (env : Env) (category file : jsstring) : M (option jsstring) :=
  let cacheKey := category ++ lit "/" ++ file in
  s <- get ;;
  match assoc cacheKey (promptCache s) with
  | Some cached =>
      log INFO (lit "Using cached prompt: " ++ cacheKey) ;;
      ret cached
  | None =>
      match match assoc category (promptHashes env) with
            | Some files => assoc file files
            | None => None
            end with
      | None | Some [] =>
          log ERROR (lit "Prompt not in hash manifest: " ++ cacheKey) ;;
          ret None
      | Some expectedHash =>
          let url := lit "https://raw.githubusercontent.com/" ++ promptRepo (config env)
                     ++ lit "/" ++ promptBranch (config env)
                     ++ lit "/examples/promptpack/" ++ category ++ lit "/" ++ file in
          allowed <- verifyPromptUrl (lit "https:") (lit "raw.githubusercontent.com") ;;
          if negb allowed then ret None
          else
            log INFO (lit "Fetching prompt: " ++ cacheKey) ;;
            match httpGet env url with
            | Http200 content =>
                if negb (verifyPromptIntegrity env content expectedHash) then
                  log ERROR (lit "Prompt integrity verification FAILED: " ++ cacheKey) ;;
                  ret None
                else
                  cacheSet cacheKey (Some content) ;;
                  log SUCCESS (lit "Prompt verified and cached: " ++ cacheKey) ;;
                  ret (Some content)
            | Http404 =>
                log WARN (lit "Prompt not found: " ++ cacheKey) ;;
                cacheSet cacheKey None ;;
                ret None
            | HttpError message =>
                log ERROR (lit "Failed to fetch prompt: " ++ cacheKey) ;;
                cacheSet cacheKey None ;;
                ret None
            end
      end
  end.

(** ** Issue body and title *)

Record Prompt := mkPrompt {
  p_filename : jsstring;
  p_content : jsstring
}.

(** The [prompts] object [processFindings] hands to [createIssueBody]. *)
Record Prompts := mkPrompts {
  owaspKey : jsstring;
  owaspCategory : jsstring;
  owaspFile : jsstring;
  owaspPrompts : list Prompt;
  maintainabilityPrompts : list Prompt;
  threatModelPrompts : list Prompt
}.

(** [count > 1 ? 's' : ''] *)
Definition plural (count : nat) : jsstring :=
  if Nat.ltb 1 count then lit "s" else [].

Definition languageOf (filePath : jsstring) : jsstring :=
  match assoc (toLowerCase (extname filePath)) languageMap with
  | Some l => l
  | None => lit "text"
  end.

(** The marker the dedup lookup searches for: the text between backticks. *)
Definition quoted (s : jsstring) : jsstring := backtick :: s ++ [backtick].

Definition ruleRow (ruleId : jsstring) : jsstring :=
  lit "| **CodeQL Rule** | " ++ quoted ruleId ++ lit " |" ++ nl.

Definition fileRow (filePath : jsstring) : jsstring :=
  lit "| **File** | " ++ quoted filePath ++ lit " |" ++ nl.

(** The text before the table row of the rule. *)
Definition bodyTop (timestamp : jsstring) (g : GroupedFinding) : jsstring :=
  let count := length (g_occurrences g) in
  concat
    [ lit "## "; [55357; 56628]%N; lit " Security Vulnerability: "; g_ruleName g; nl;
      nl;
      lit "**Detected by**: "; g_tool g; lit " v"; g_toolVersion g; nl;
      lit "**Created**: "; timestamp; nl;
      lit "**Occurrences**: "; numNat count; lit " location"; plural count;
        lit " in this file"; nl;
      nl;
      lit "---"; nl;
      nl;
      lit "### "; [55357; 56523]%N; lit " Vulnerability Details"; nl;
      nl;
      lit "| Property | Value |"; nl;
      lit "|----------|-------|"; nl;
      lit "| **Severity** | "; toUpperCase (g_severity g); lit " |"; nl ].

Definition categoryRow (prompts : Prompts) : jsstring :=
  concat
    [ lit "| **OWASP Category** | ["; orStr (owaspCategory prompts) (lit "Unknown");
      lit "](https://maintainability.ai/docs/prompts/owasp/"; owaspFile prompts;
      lit ") |"; nl ].

Definition bodyHeader (timestamp : jsstring) (g : GroupedFinding) (prompts : Prompts)
  : jsstring :=
  let count := length (g_occurrences g) in
  bodyTop timestamp g
  ++ ruleRow (g_ruleId g)
  ++ categoryRow prompts
  ++ fileRow (g_filePath g)
  ++ concat
       [ lit "| **Total Occurrences** | "; numNat count; lit " |"; nl;
         nl;
         lit "### "; [55357; 56507]%N; lit " Vulnerable Code Locations"; nl;
         nl ].

(** [`Lines ${o.startLine}${o.endLine !== o.startLine ? `-${o.endLine}` : ''}`] *)
Definition linesLabel (o : Occurrence) : jsstring :=
  lit "Lines " ++ num (o_startLine o)
  ++ (if negb (N.eqb (o_endLine o) (o_startLine o))
      then lit "-" ++ num (o_endLine o) else []).

Definition locationLabel (count index : nat) (o : Occurrence) : jsstring :=
  if Nat.ltb 1 count
  then lit "#### Location " ++ numNat (index + 1) ++ lit ": " ++ linesLabel o
  else lit "#### " ++ linesLabel o.

Definition fence : jsstring := lit "```".

(** The text one turn of the [occurrences.forEach] appends. *)
Definition occurrenceSection (language : jsstring) (count index : nat) (o : Occurrence)
  : jsstring :=
  concat
    [ nl;
      locationLabel count index o; nl;
      nl;
      fence; language; nl;
      orStr (o_codeSnippet o) (lit "(No code snippet available)"); nl;
      fence; nl;
      nl;
      lit "**Issue**: "; o_message o; nl;
      nl ].

Fixpoint occurrenceSections (language : jsstring) (count index : nat)
    (os : list Occurrence) : jsstring :=
  match os with
  | [] => []
  | o :: os' =>
      occurrenceSection language count index o
      ++ occurrenceSections language count (S index) os'
  end.

Definition ruleHelpSection (g : GroupedFinding) : jsstring :=
  match g_ruleHelp g with
  | [] => []
  | help => nl ++ lit "**Additional Context**: " ++ help ++ nl
  end.

(** A collapsible section with one nested section per prompt. *)
Definition guidanceSection (icon heading one many : jsstring)
    (entry : Prompt -> jsstring) (ps : list Prompt) : jsstring :=
  match ps with
  | [] => []
  | _ =>
      concat
        [ nl;
          lit "<details>"; nl;
          lit "<summary>"; icon; lit " <strong>"; heading; lit "</strong> (";
            numNat (length ps); lit " ";
            (if Nat.eqb (length ps) 1 then one else many); lit ")</summary>"; nl;
          nl ]
      ++ concat (map entry ps)
      ++ concat [ nl; lit "</details>"; nl; nl ]
  end.

Definition promptEntry (icon title content : jsstring) : jsstring :=
  concat
    [ nl;
      lit "<details>"; nl;
      lit "<summary>"; icon; lit " <strong>"; title; lit "</strong></summary>"; nl;
      nl;
      content; nl;
      nl;
      lit "</details>"; nl;
      nl ].

Definition owaspEntry (p : Prompt) : jsstring :=
  let (n, title) := extractOwaspInfo (p_filename p) (p_content p) in
  promptEntry [55357; 56594]%N (n ++ lit " - " ++ title) (p_content p).

Definition maintainabilityEntry (p : Prompt) : jsstring :=
  promptEntry [55357; 56528]%N (extractMaintainabilityTitle (p_filename p)) (p_content p).

Definition threatEntry (p : Prompt) : jsstring :=
  promptEntry [55356; 57261]%N (extractStrideTitle (p_filename p)) (p_content p).

Definition remediationZone (g : GroupedFinding) : jsstring :=
  let count := length (g_occurrences g) in
  concat
    [ nl;
      nl;
      lit "---"; nl;
      nl;
      lit "## "; [55358; 56598]%N; lit " Claude Remediation Zone"; nl;
      nl;
      lit "To request a remediation plan for **all "; numNat count; lit " occurrence";
        plural count; lit "**, **copy and paste this comment**:"; nl;
      nl;
      fence; nl;
      lit "@claude Please provide a remediation plan for all "; numNat count;
        lit " occurrence"; plural count; lit " of this vulnerability in ";
        g_filePath g;
        lit " following the security and maintainability guidelines provided."; nl;
      fence; nl;
      nl;
      lit "---"; nl;
      nl ].

Definition metadataSection (cfg : Config) (timestamp : jsstring) (g : GroupedFinding)
    (prompts : Prompts) : jsstring :=
  let language := languageOf (g_filePath g) in
  concat
    [ nl;
      lit "<details>"; nl;
      lit "<summary>"; [55357; 56522]%N; lit " Additional Metadata</summary>"; nl;
      nl;
      lit "- **Detection Time**: "; timestamp; nl;
      lit "- **Language**: "; capitalize language; nl;
      lit "- **Tool**: "; g_tool g; lit " v"; g_toolVersion g; nl;
      lit "- **Repository**: "; owner cfg; lit "/"; repo cfg; nl;
      lit "- **Branch**: "; branch cfg; nl;
      lit "- **Commit**: "; sha cfg; nl;
      lit "- **Rule ID**: "; g_ruleId g; nl;
      lit "- **OWASP Category**: "; owaspKey prompts; nl;
      lit "- **Severity**: "; g_severity g; lit " (CodeQL level: "; g_level g; lit ")"; nl;
      lit "- **Prompt Source**: "; promptRepo cfg; lit "@"; promptBranch cfg; nl;
      nl;
      lit "</details>"; nl ].

(** The body as assembled before the final size check. *)
Definition assembleBody (cfg : Config) (timestamp : jsstring) (g : GroupedFinding)
    (prompts : Prompts) : jsstring :=
  let count := length (g_occurrences g) in
  bodyHeader timestamp g prompts
  ++ occurrenceSections (languageOf (g_filePath g)) count 0 (g_occurrences g)
  ++ ruleHelpSection g
  ++ guidanceSection [55357; 56536]%N (lit "OWASP Security Guidance")
       (lit "guide") (lit "guides") owaspEntry (owaspPrompts prompts)
  ++ guidanceSection [55356; 57303; 65039]%N (lit "Maintainability Guidance")
       (lit "guide") (lit "guides") maintainabilityEntry (maintainabilityPrompts prompts)
  ++ guidanceSection [55356; 57263]%N (lit "Threat Model Analysis (STRIDE)")
       (lit "threat") (lit "threats") threatEntry (threatModelPrompts prompts)
  ++ remediationZone g
  ++ metadataSection cfg timestamp g prompts.

Definition MAX_BODY_LENGTH : nat := N.to_nat 65000.

Definition truncationNotice : jsstring :=
  concat
    [ nl; nl; lit "---"; nl; nl;
      lit "**"; [9888; 65039]%N;
      lit " Note**: This issue was truncated due to size limits. See the OWASP category link above for complete security guidance." ].

(** The final safety check of [createIssueBody]. *)
Definition limitBody (body : jsstring) : jsstring :=
  if Nat.ltb MAX_BODY_LENGTH (length body)
  then substring0 MAX_BODY_LENGTH body ++ truncationNotice
  else body.

(** The string [createIssueBody] returns when the clock reads [timestamp]. *)
Definition issueBodyText (cfg : Config) (timestamp : jsstring) (g : GroupedFinding)
    (prompts : Prompts) : jsstring :=
  limitBody (assembleBody cfg timestamp g prompts).

(** [createIssueBody(groupedFinding, prompts)] *)
Definition createIssueBody (env : Env) (g : GroupedFinding) (prompts : Prompts)
  : M jsstring :=
  timestamp <- now env ;;
  let body := assembleBody (config env) timestamp g prompts in
  if Nat.ltb MAX_BODY_LENGTH (length body) then
    log WARN (lit "Issue body too long (" ++ numNat (length body)
              ++ lit " chars), truncating to " ++ numNat MAX_BODY_LENGTH) ;;
    ret (substring0 MAX_BODY_LENGTH body ++ truncationNotice)
  else ret body.

(** [createIssueTitle(groupedFinding)] *)
Definition createIssueTitle (g : GroupedFinding) : jsstring :=
  let fileName := basename (g_filePath g) in
  let count := length (g_occurrences g) in
  concat
    [ lit "[Security] "; g_ruleName g; lit " in "; fileName; lit " (";
      numNat count; lit " occurrence"; plural count; lit ")" ].

(** ** Dedup lookup, labels, create or update *)

(** The test of the lookup loop on one listed issue. *)
Definition matchesFinding (g : GroupedFinding) (issue : Issue) : bool :=
  let body := i_body issue in
  let hasRuleId := includes body (quoted (g_ruleId g)) in
  let hasFilePath := includes body (quoted (g_filePath g)) in
  hasRuleId && hasFilePath.

(** [findExistingIssue(groupedFinding)]; [None] is [null]. *)
Definition findExistingIssue (g : GroupedFinding) : M (option Issue) :=
  try_catch
    (log INFO (lit "Searching for existing issue: " ++ g_ruleId g ++ lit " in "
               ++ g_filePath g) ;;
     issues <- listForRepo sentinel 100 ;;
     match find (matchesFinding g) issues with
     | Some issue =>
         log INFO (lit "Found existing issue #" ++ num (i_number issue)) ;;
         ret (Some issue)
     | None =>
         log INFO (lit "No existing issue found") ;;
         ret None
     end)
    (fun error =>
       log ERROR (lit "Failed to search for existing issue: " ++ error) ;;
       ret None).

(** [generateLabels(groupedFinding, owaspInfo, maintainabilityFiles)] *)
Definition generateLabels (mp : Mappings) (g : GroupedFinding) (owaspInfo : OwaspInfo)
    (maintainabilityFiles : list jsstring) : list jsstring :=
  [sentinel]
  ++ match assoc (g_severity g) (label_mapping mp) with
     | None | Some [] => []
     | Some severityLabel => [severityLabel]
     end
  ++ match oi_key owaspInfo with
     | [] => []
     | key => [lit "owasp/" ++ toLowerCase key]
     end
  ++ map (fun file => lit "maintainability/" ++ removeFirst dotMd file) maintainabilityFiles
  ++ [lit "awaiting-remediation-plan"].

Inductive Action := ActCreated | ActUpdated.

Definition updateComment (env : Env) (timestamp : jsstring) : jsstring :=
  concat
    [ [55357; 56580]%N; lit " **Issue Updated**"; nl; nl;
      lit "This vulnerability was re-detected in the latest CodeQL scan."; nl; nl;
      lit "**Commit**: "; sha (config env); nl;
      lit "**Branch**: "; branch (config env); nl;
      lit "**Timestamp**: "; timestamp ].

(** [createOrUpdateIssue(groupedFinding, issueBody, labels)] *)
Definition createOrUpdateIssue (env : Env) (g : GroupedFinding) (issueBody : jsstring)
    (labels : list jsstring) : M (Issue * Action) :=
  let title := createIssueTitle g in
  existingIssue <- findExistingIssue g ;;
  match existingIssue with
  | Some existing =>
      try_catch
        (log INFO (lit "Updating existing issue #" ++ num (i_number existing)) ;;
         issue <- issuesUpdate (i_number existing) issueBody labels ;;
         timestamp <- now env ;;
         issuesCreateComment (i_number existing) (updateComment env timestamp) ;;
         log SUCCESS (lit "Updated issue #" ++ num (i_number issue) ++ lit ": " ++ title) ;;
         ret (issue, ActUpdated))
        (fun error =>
           log ERROR (lit "Failed to update issue #" ++ num (i_number existing)
                      ++ lit ": " ++ error) ;;
           throw error)
  | None =>
      try_catch
        (log INFO (lit "Creating new issue: " ++ title) ;;
         issue <- issuesCreate title issueBody labels (autoAssign (config env)) ;;
         log SUCCESS (lit "Created issue #" ++ num (i_number issue) ++ lit ": " ++ title) ;;
         ret (issue, ActCreated))
        (fun error =>
           log ERROR (lit "Failed to create issue: " ++ error) ;;
           throw error)
  end.

(** ** The auto-close sweep *)

(** A match of [prefix] followed by [`([^`]+)`] at the head of [s]. *)
Definition quotedAfter (prefix s : jsstring) : option jsstring :=
  if startsWith prefix s then
    match skipn (length prefix) s with
    | c :: rest =>
        if N.eqb c backtick then
          let cap := takeWhile (fun c => negb (N.eqb c backtick)) rest in
          match cap, skipn (length cap) rest with
          | _ :: _, c' :: _ => if N.eqb c' backtick then Some cap else None
          | _, _ => None
          end
        else None
    | [] => None
    end
  else None.

(** The capture of the first match of [prefix] + [`([^`]+)`] in [s]. *)
Fixpoint matchQuoted (prefix s : jsstring) : option jsstring :=
  match quotedAfter prefix s with
  | Some cap => Some cap
  | None => match s with
            | [] => None
            | _ :: s' => matchQuoted prefix s'
            end
  end.

(** [body.match(/\*\*CodeQL Rule\*\* \| `([^`]+)`/)] *)
Definition ruleMatch (body : jsstring) : option jsstring :=
  matchQuoted (lit "**CodeQL Rule** | ") body.

(** [body.match(/\*\*File\*\* \| `([^`]+)`/)] *)
Definition fileMatch (body : jsstring) : option jsstring :=
  matchQuoted (lit "**File** | ") body.

(** [/Lines?\s+(\d+)(?:-\d+)?/i] at the head of [s]: the capture and the
    length of the match. *)
Definition lineMatchAt (s : jsstring) : option (jsstring * nat) :=
  if startsWith (lit "line") (toLowerCase (firstn 4 s)) then
    let r := skipn 4 s in
    let (r1, nS) := match r with
                    | c :: r' => if N.eqb (lowerChar c) 115 then (r', 1) else (r, 0)
                    | [] => (r, 0)
                    end in
    let sp := takeWhile isSpace r1 in
    let r2 := skipn (length sp) r1 in
    let ds := takeWhile isDigit r2 in
    match sp, ds with
    | _ :: _, _ :: _ =>
        let r3 := skipn (length ds) r2 in
        let tailLen := match r3 with
                       | c :: r4 =>
                           if N.eqb c 45 then
                             match takeWhile isDigit r4 with
                             | [] => 0
                             | ds2 => 1 + length ds2
                             end
                           else 0
                       | [] => 0
                       end in
        Some (ds, 4 + nS + length sp + length ds + tailLen)
    | _, _ => None
    end
  else None.

(** [body.matchAll(/Lines?\s+(\d+)(?:-\d+)?/gi)]: the captures, left to
    right; [skip] characters belong to the match found last. *)
Fixpoint lineMatches (skip : nat) (s : jsstring) : list jsstring :=
  match s with
  | [] => []
  | _ :: s' =>
      match skip with
      | S k => lineMatches k s'
      | O =>
          match lineMatchAt s with
          | Some (cap, len) => cap :: lineMatches (len - 1) s'
          | None => lineMatches 0 s'
          end
      end
  end.

(** [body.match(/\*\*Lines\*\* \| (\d+)/)]: the capture of the first match. *)
Fixpoint oldFormatLine (s : jsstring) : option jsstring :=
  let here :=
    if startsWith (lit "**Lines** | ") s then
      match takeWhile isDigit (skipn 12 s) with
      | [] => None
      | ds => Some ds
      end
    else None in
  match here with
  | Some ds => Some ds
  | None => match s with
            | [] => None
            | _ :: s' => oldFormatLine s'
            end
  end.

(** The [issueLines] set of one issue body. *)
Definition issueLinesOf (body : jsstring) : list jsstring :=
  let fromMarkers := fold_left (fun acc cap => set_add cap acc) (lineMatches 0 body) [] in
  match fromMarkers with
  | [] => match oldFormatLine body with
          | Some l => [l]
          | None => []
          end
  | _ => fromMarkers
  end.

(** [`${ruleId}:${filePath}:${line}`] *)
Definition vulnKey (ruleId filePath line : jsstring) : jsstring :=
  ruleId ++ colon ++ filePath ++ colon ++ line.

(** The loop that sets [hasAnyOccurrence]. *)
Definition hasAnyOccurrence (currentVulns : list jsstring) (ruleId filePath : jsstring)
    (issueLines : list jsstring) : bool :=
  existsb (fun line => set_has currentVulns (vulnKey ruleId filePath line)) issueLines.

Definition falsePositive : jsstring := lit "false-positive".

Definition closingComment (env : Env) (ruleId filePath timestamp : jsstring)
    (occurrenceCount : nat) : jsstring :=
  concat
    [ lit "## "; [9989]%N; lit " All Vulnerabilities Resolved"; nl;
      nl;
      lit "This issue is being automatically closed because **all ";
        numNat occurrenceCount; lit " occurrence"; plural occurrenceCount;
        lit "** of this vulnerability ";
        (if Nat.ltb 1 occurrenceCount then lit "are" else lit "is");
        lit " no longer detected in the latest CodeQL scan."; nl;
      nl;
      lit "**Details:**"; nl;
      lit "- **Rule**: "; quoted ruleId; nl;
      lit "- **File**: "; quoted filePath; nl;
      lit "- **Occurrences Resolved**: "; numNat occurrenceCount; nl;
      lit "- **Scan Date**: "; timestamp; nl;
      lit "- **Branch**: "; branch (config env); nl;
      lit "- **Commit**: "; sha (config env); nl;
      nl;
      lit "If this was closed in error, please reopen and add the `false-positive` label to prevent auto-closing in the future.";
        nl;
      nl;
      lit "---"; nl;
      nl;
      [55358; 56598]%N; lit " Auto-closed by CodeQL to Issues automation" ].

(** What the sweep decides for one listed issue, before any request. *)
Inductive Verdict :=
| SkipOverride
| SkipUnparsed
| SkipNoLines
| Resolved (ruleId filePath : jsstring) (issueLines : list jsstring)
| StillActive.

Definition sweepVerdict (currentVulns : list jsstring) (issue : Issue) : Verdict :=
  if arr_includes (i_labels issue) falsePositive then SkipOverride
  else
    let body := i_body issue in
    match ruleMatch body, fileMatch body with
    | Some ruleId, Some filePath =>
        match issueLinesOf body with
        | [] => SkipNoLines
        | issueLines =>
            if negb (hasAnyOccurrence currentVulns ruleId filePath issueLines)
            then Resolved ruleId filePath issueLines
            else StillActive
        end
    | _, _ => SkipUnparsed
    end.

(** The body of the [for (const issue of openIssues)] loop. *)
Fixpoint sweepLoop (env : Env) (currentVulns : list jsstring) (openIssues : list Issue)
    (closedCount : nat) : M nat :=
  match openIssues with
  | [] => ret closedCount
  | issue :: rest =>
      let n := i_number issue in
      match sweepVerdict currentVulns issue with
      | SkipOverride =>
          log INFO (lit "Skipping issue #" ++ num n ++ lit " (marked as false-positive)") ;;
          sweepLoop env currentVulns rest closedCount
      | SkipUnparsed =>
          log WARN (lit "Could not parse issue #" ++ num n
                    ++ lit ", skipping auto-close check") ;;
          sweepLoop env currentVulns rest closedCount
      | SkipNoLines =>
          log WARN (lit "Could not extract line numbers from issue #" ++ num n
                    ++ lit ", skipping auto-close check") ;;
          sweepLoop env currentVulns rest closedCount
      | Resolved ruleId filePath issueLines =>
          log INFO (lit "All occurrences resolved for " ++ ruleId ++ lit " in " ++ filePath
                    ++ lit ", closing issue #" ++ num n) ;;
          issuesClose n ;;
          timestamp <- now env ;;
          issuesCreateComment n
            (closingComment env ruleId filePath timestamp (length issueLines)) ;;
          issuesAddLabels n [lit "resolved"] ;;
          sweepLoop env currentVulns rest (S closedCount)
      | StillActive =>
          log INFO (lit "Issue #" ++ num n ++ lit " still has active occurrences, keeping open") ;;
          sweepLoop env currentVulns rest closedCount
      end
  end.

(** [autoCloseResolvedIssues(currentVulnerabilities)] *)
Definition autoCloseResolvedIssues (env : Env) (currentVulns : list jsstring) : M nat :=
  try_catch
    (openIssues <- listForRepo sentinel 100 ;;
     log INFO (lit "Found " ++ numNat (length openIssues) ++ lit " open CodeQL issue(s) to check") ;;
     sweepLoop env currentVulns openIssues 0)
    (fun error =>
       log ERROR (lit "Error in auto-close: " ++ error) ;;
       throw error).

(** ** Processing the grouped findings *)

(** [obj[k] = (obj[k] || 0) + 1] *)
Fixpoint bump (k : jsstring) (l : list (jsstring * nat)) : list (jsstring * nat) :=
  match l with
  | [] => [(k, 1)]
  | (k', n) :: l' => if str_eqb k' k then (k', n + 1) :: l' else (k', n) :: bump k l'
  end.

Definition modifyRun (f : Run -> Run) : M unit :=
  modify (fun s => set_run (f (run s)) s).

Definition modifyResults (f : Results -> Results) : M unit :=
  modifyRun (fun r => mkRun (f (results r)) (processedCount r) (currentVulnerabilities r)).

Definition addSkipped (k : nat) (r : Results) : Results :=
  mkResults (total r) (created r) (updated r) (skipped r + k) (closed r) (errors r)
            (by_severity r) (by_owasp r).
Definition addCreated (r : Results) : Results :=
  mkResults (total r) (created r + 1) (updated r) (skipped r) (closed r) (errors r)
            (by_severity r) (by_owasp r).
Definition addUpdated (r : Results) : Results :=
  mkResults (total r) (created r) (updated r + 1) (skipped r) (closed r) (errors r)
            (by_severity r) (by_owasp r).
Definition setClosed (k : nat) (r : Results) : Results :=
  mkResults (total r) (created r) (updated r) (skipped r) k (errors r)
            (by_severity r) (by_owasp r).
Definition pushError (e : ErrorEntry) (r : Results) : Results :=
  mkResults (total r) (created r) (updated r) (skipped r) (closed r) (errors r ++ [e])
            (by_severity r) (by_owasp r).
Definition countSeverity (sev : jsstring) (r : Results) : Results :=
  mkResults (total r) (created r) (updated r) (skipped r) (closed r) (errors r)
            (bump sev (by_severity r)) (by_owasp r).
Definition countOwasp (key : jsstring) (r : Results) : Results :=
  mkResults (total r) (created r) (updated r) (skipped r) (closed r) (errors r)
            (by_severity r) (bump key (by_owasp r)).

(** [processedCount >= config.maxIssuesPerRun] *)
Definition capReached (cfg : Config) (processed : nat) : bool :=
  match maxIssuesPerRun cfg with
  | None => false
  | Some m => (m <=? Z.of_nat processed)%Z
  end.

(** The keys of the occurrences of one grouped finding. *)
Definition occurrenceKeys (g : GroupedFinding) : list jsstring :=
  map (fun o => vulnKey (g_ruleId g) (g_filePath g) (num (o_startLine o)))
      (g_occurrences g).

Definition trackOccurrences (g : GroupedFinding) : M unit :=
  modifyRun (fun r =>
    mkRun (results r) (processedCount r)
          (fold_left (fun acc k => set_add k acc) (occurrenceKeys g)
                     (currentVulnerabilities r))).

Definition incProcessed : M unit :=
  modifyRun (fun r => mkRun (results r) (processedCount r + 1) (currentVulnerabilities r)).

(** The loop [for (const file of files)] that fetches and keeps the
    prompts that came back non-empty. *)
Fixpoint fetchAll (env : Env) (category : jsstring) (files : list jsstring)
  : M (list Prompt) :=
  match files with
  | [] => ret []
  | file :: rest =>
      content <- fetchPrompt env category file ;;
      more <- fetchAll env category rest ;;
      match content with
      | Some (c :: cs) => ret (mkPrompt file (c :: cs) :: more)
      | _ => ret more
      end
  end.

(** The maintainability files: the detected ones, then the ones mapped
    from the category that are not yet listed. *)
Definition addMapped (detected : list jsstring) (aspects : option (list jsstring))
  : list jsstring :=
  match aspects with
  | None => detected
  | Some l =>
      fold_left (fun files aspect =>
                   let file := aspect ++ dotMd in
                   if arr_includes files file then files else files ++ [file])
                l detected
  end.

(** The prompts of one grouped finding, and the maintainability files
    its labels are made from. *)
Definition gatherPrompts (env : Env) (g : GroupedFinding) (owaspInfo : OwaspInfo)
  : M (Prompts * list jsstring) :=
  let cat := oi_category owaspInfo in
  owaspContent <- fetchAll env (lit "owasp") [c_prompt_file cat] ;;
  detected <- detectMaintainabilityConcerns env g ;;
  let maintainabilityFiles := addMapped detected (c_maintainability cat) in
  maintainability <- fetchAll env (lit "maintainability") maintainabilityFiles ;;
  threats <- (if enableThreatModel (config env) then
                match c_threat_model cat with
                | Some l => fetchAll env (lit "threat-modeling") (map (fun t => t ++ dotMd) l)
                | None => ret []
                end
              else ret []) ;;
  ret (mkPrompts (oi_key owaspInfo) (c_name cat) (c_prompt_file cat)
                 owaspContent maintainability threats,
       maintainabilityFiles).

(** What follows [createOrUpdateIssue] in the loop body. *)
Definition recordAction (g : GroupedFinding) (action : Action) : M unit :=
  match action with
  | ActCreated => modifyResults addCreated
  | ActUpdated => modifyResults addUpdated
  end ;;
  trackOccurrences g ;;
  incProcessed.

(** The part of the loop body from the prompts to the end of the [try]. *)
Definition reconcile (env : Env) (g : GroupedFinding) (owaspInfo : OwaspInfo) : M unit :=
  modifyResults (countOwasp (oi_key owaspInfo)) ;;
  log INFO (lit "Processing grouped finding: " ++ g_ruleId g ++ lit " (" ++ oi_key owaspInfo
            ++ lit ") - " ++ numNat (length (g_occurrences g)) ++ lit " occurrence(s)") ;;
  gathered <- gatherPrompts env g owaspInfo ;;
  issueBody <- createIssueBody env g (fst gathered) ;;
  let labels := generateLabels (mappings env) g owaspInfo (snd gathered) in
  res <- createOrUpdateIssue env g issueBody labels ;;
  recordAction g (snd res).

(** One turn of [for (const groupedFinding of groupedFindings)]; the
    result says whether the loop goes on ([false]: [break]). *)
Definition processOne (env : Env) (groupCount : nat) (g : GroupedFinding) : M bool :=
  let cfg := config env in
  try_catch
    (s <- get ;;
     if capReached cfg (processedCount (run s)) then
       log WARN (lit "Reached max issues per run (" ++ numberText (maxIssuesPerRun cfg)
                 ++ lit "), stopping") ;;
       modifyResults (addSkipped (groupCount - processedCount (run s))) ;;
       ret false
     else
       modifyResults (countSeverity (g_severity g)) ;;
       if negb (meetsSeverityThreshold cfg (g_severity g)) then
         log INFO (lit "Skipping " ++ g_ruleId g ++ lit " (severity " ++ g_severity g
                   ++ lit " below threshold " ++ severityThreshold cfg ++ lit ")") ;;
         modifyResults (addSkipped 1) ;;
         ret true
       else if shouldExcludePath cfg (g_filePath g) then
         log INFO (lit "Skipping " ++ g_ruleId g ++ lit " (path " ++ g_filePath g
                   ++ lit " is excluded)") ;;
         modifyResults (addSkipped 1) ;;
         ret true
       else
         owaspInfo <- mapToOWASP (mappings env) (g_ruleId g) ;;
         match owaspInfo with
         | None =>
             log WARN (lit "Skipping " ++ g_ruleId g ++ lit " (no OWASP mapping)") ;;
             modifyResults (addSkipped 1) ;;
             ret true
         | Some info =>
             reconcile env g info ;;
             ret true
         end)
    (fun error =>
       log ERROR (lit "Failed to process grouped finding " ++ g_ruleId g ++ lit ": " ++ error) ;;
       modifyResults (pushError (mkErrorEntry (g_ruleId g) (g_filePath g) error)) ;;
       modifyResults (addSkipped 1) ;;
       ret true).

Fixpoint processLoop (env : Env) (groupCount : nat) (gs : list GroupedFinding) : M unit :=
  match gs with
  | [] => ret tt
  | g :: rest =>
      continue <- processOne env groupCount g ;;
      if continue then processLoop env groupCount rest else ret tt
  end.

Definition initialResults (n : nat) : Results :=
  mkResults n 0 0 0 0 []
    [(lit "critical", 0); (lit "high", 0); (lit "medium", 0); (lit "low", 0)] [].

(** [processFindings(findings)] *)
Definition processFindings (env : Env) (findings : list Finding) : M Results :=
  modifyRun (fun _ => mkRun (initialResults (length findings)) 0 []) ;;
  log INFO (lit "Grouping findings by rule and file...") ;;
  let groupedFindings := groupFindingsByRuleAndFile findings in
  log SUCCESS (lit "Grouped " ++ numNat (length findings) ++ lit " finding(s) into "
               ++ numNat (length groupedFindings) ++ lit " issue(s)") ;;
  processLoop env (length groupedFindings) groupedFindings ;;
  log INFO (lit "Checking for resolved vulnerabilities to auto-close...") ;;
  s <- get ;;
  try_catch
    (closedCount <- autoCloseResolvedIssues env (currentVulnerabilities (run s)) ;;
     modifyResults (setClosed closedCount) ;;
     log INFO (lit "Auto-closed " ++ numNat closedCount ++ lit " resolved issue(s)"))
    (fun error => log ERROR (lit "Failed to auto-close resolved issues: " ++ error)) ;;
  s' <- get ;;
  ret (results (run s')).

(** ** Report parsing *)

(** [String(n).padStart(4)] *)
Definition padStart4 (s : jsstring) : jsstring :=
  repeat 32%N (4 - length s) ++ s.

Fixpoint numberLines (startLine endLine : N) (lineNum : N) (lines : list jsstring)
  : list jsstring :=
  match lines with
  | [] => []
  | line :: rest =>
      let isVulnerable := (startLine <=? lineNum)%N && (lineNum <=? endLine)%N in
      let prefix := if isVulnerable then [8594; 32]%N else lit "  " in
      (prefix ++ padStart4 (num lineNum) ++ lit ": " ++ line)
        :: numberLines startLine endLine (lineNum + 1)%N rest
  end.

(** [extractCodeSnippet(filePath, startLine, endLine, contextLines)] *)
Definition extractCodeSnippet (env : Env) (filePath : jsstring) (startLine endLine : N)
    (contextLines : N) : M jsstring :=
  match readSource env filePath with
  | FileMissing =>
      log WARN (lit "File not found for snippet extraction: " ++ filePath) ;;
      ret (lit "(File not found)")
  | FileUnreadable message =>
      log WARN (lit "Failed to extract code snippet from " ++ filePath ++ lit ": "
                ++ message) ;;
      ret (lit "(Unable to extract code snippet)")
  | FileContent fileContent =>
      let lines := split 10%N fileContent in
      let snippetStart := (startLine - contextLines - 1)%N in
      let snippetEnd := N.min (N.of_nat (length lines)) (endLine + contextLines)%N in
      let snippetLines :=
        skipn (N.to_nat snippetStart) (firstn (N.to_nat snippetEnd) lines) in
      ret (join nl (numberLines startLine endLine (snippetStart + 1)%N snippetLines))
  end.

(** [a || b] on numbers: 0 is falsy. *)
Definition orNum (a b : N) : N := if N.eqb a 0 then b else a.

(** [a === b] on identifiers that may be absent. *)
Definition sameId (a b : option jsstring) : bool :=
  match a, b with
  | Some x, Some y => str_eqb x y
  | None, None => true
  | _, _ => false
  end.

(** The text of an identifier in a template literal. *)
Definition idText (a : option jsstring) : jsstring :=
  match a with
  | Some x => x
  | None => lit "undefined"
  end.

(** [rules.find(r => r.id === ruleId)] *)
Fixpoint findInRules (ruleId : option jsstring) (rules : list (option Rule))
  : M (option Rule) :=
  match rules with
  | [] => ret None
  | None :: _ => throw (lit "Cannot read properties of null (reading 'id')")
  | Some r :: rest =>
      if sameId (rule_id r) ruleId then ret (Some r) else findInRules ruleId rest
  end.

(** [run.tool?.driver?.rules?.find(r => r.id === ruleId)] *)
Definition findRule (ruleId : option jsstring) (rules : RunRules) : M (option Rule) :=
  match rules with
  | RulesList l => findInRules ruleId l
  | RulesNotArray message => throw message
  end.

(** [mappings.severity_mapping[level] || 'medium'].  For a level that has
    no entry and names a member the table inherits, the value is that
    member, not a string; it stands here as the text it is printed as,
    which is what the counters, the filter and the log make of it.
    ([createIssueBody], which calls a string method on the severity, is
    modelled for the severities that are strings.) *)
Definition severityOfLevel (mp : Mappings) (level : jsstring) : jsstring :=
  match getProperty (severity_mapping mp) level with
  | Own (c :: s) => c :: s
  | Inherited member => memberText member
  | _ => lit "medium"
  end.

(** What the [try] block of one result comes to. *)
Inductive Parsed :=
| ParsedFinding (f : Finding)
| ParsedSkip.

(** The body of the [try] for one element of [run.results]. *)
Definition parseResult (env : Env) (r : SarifRun) (result : option SarifResult)
  : M Parsed :=
  let tool := orStr (run_toolName r) (lit "CodeQL") in
  let toolVersion := orStr (run_semanticVersion r) (orStr (run_version r) (lit "unknown")) in
  match result with
  | None => throw (lit "Cannot read properties of null (reading 'ruleId')")
  | Some result =>
      let ruleId := r_ruleId result in
      let message := orStr (r_messageText result) (lit "No description provided") in
      let level := orStr (r_level result) (lit "warning") in
      match r_location result with
      | None =>
          log WARN (lit "Skipping result without location: " ++ idText ruleId) ;;
          ret ParsedSkip
      | Some location =>
          let filePath := orStr (loc_uri location) (lit "unknown") in
          let region := match loc_region location with
                        | Some reg => reg
                        | None => mkRegion 0 0 0 0 SnippetAbsent
                        end in
          let startLine := orNum (reg_startLine region) 1 in
          let endLine := orNum (reg_endLine region) startLine in
          let startColumn := orNum (reg_startColumn region) 1 in
          let endColumn := orNum (reg_endColumn region) startColumn in
          codeSnippet <-
            match reg_snippet region with
            | SnippetOther => throw (lit "codeSnippet.trim is not a function")
            | SnippetString text =>
                match trim text with
                | [] => extractCodeSnippet env filePath startLine endLine 2
                | _ => ret text
                end
            | SnippetAbsent => extractCodeSnippet env filePath startLine endLine 2
            end ;;
          rule <- findRule ruleId (run_rules r) ;;
          let ruleName := match rule with
                          | Some rl => orStr (rule_shortDescription rl)
                                             (orStr (rule_name rl) (idText ruleId))
                          | None => idText ruleId
                          end in
          let ruleHelp := match rule with
                          | Some rl => orStr (rule_helpText rl) (rule_fullDescription rl)
                          | None => []
                          end in
          let severity := severityOfLevel (mappings env) level in
          ret (ParsedFinding
                 (mkFinding (idText ruleId) ruleName ruleHelp message level severity
                            filePath startLine endLine startColumn endColumn
                            (trim codeSnippet) tool toolVersion))
      end
  end.

(** The loop over [run.results], with its [try]/[catch] around each one. *)
Fixpoint parseResults (env : Env) (r : SarifRun) (rs : list (option SarifResult))
  : M (list Finding) :=
  match rs with
  | [] => ret []
  | result :: rest =>
      p <- try_catch (parseResult env r result)
             (fun error =>
                log ERROR (lit "Failed to parse result: " ++ error) ;;
                ret ParsedSkip) ;;
      more <- parseResults env r rest ;;
      match p with
      | ParsedFinding f => ret (f :: more)
      | ParsedSkip => ret more
      end
  end.

(** The loop over [sarif.runs]; nothing catches what it throws outside
    the [try] of a result. *)
Fixpoint parseRuns (env : Env) (runs : list (option SarifRun)) : M (list Finding) :=
  match runs with
  | [] => ret []
  | None :: _ => throw (lit "Cannot read properties of null (reading 'tool')")
  | Some r :: rest =>
      match run_results r with
      | ResultsNotIterable message => throw message
      | ResultsList results =>
          fs <- parseResults env r results ;;
          more <- parseRuns env rest ;;
          ret (fs ++ more)
      end
  end.

(** [parseSARIFResults(sarifPath)] *)
Definition parseSARIFResults (env : Env) (path : jsstring) : M (list Finding) :=
  log INFO (lit "Parsing SARIF file: " ++ path) ;;
  match sarifFile env path with
  | ReportMissing =>
      log ERROR (lit "SARIF file not found: " ++ path) ;;
      ret []
  | ReportMalformed message =>
      log ERROR (lit "Failed to parse SARIF file: " ++ message) ;;
      ret []
  | ReportNull => throw (lit "Cannot read properties of null (reading 'runs')")
  | ReportRunsNotIterable message => throw message
  | ReportParsed runs =>
      vulnerabilities <- parseRuns env runs ;;
      log SUCCESS (lit "Parsed " ++ numNat (length vulnerabilities)
                   ++ lit " vulnerabilities from SARIF") ;;
      ret vulnerabilities
  end.

(** ** Summary and entry point *)

(** [generateSummary(results)]: the record is written out; the value is
    what the summary file then holds. *)
Definition generateSummary (env : Env) (r : Results) : M Results :=
  log SUCCESS (lit "Saved summary to " ++ summaryFile env) ;;
  ret r.

(** How the process ends: the summary it wrote, if any, and its exit code. *)
Record Outcome := mkOutcome {
  summary : option Results;
  exitCode : Z
}.

(** [main()] *)
Definition main (env : Env) : M Outcome :=
  log INFO (lit "Starting CodeQL SARIF processing") ;;
  log INFO (lit "Repository: " ++ owner (config env) ++ lit "/" ++ repo (config env)) ;;
  log INFO (lit "SARIF file: " ++ sarifPath (config env)) ;;
  try_catch
    (findings <- parseSARIFResults env (sarifPath (config env)) ;;
     match findings with
     | [] =>
         log INFO (lit "No vulnerabilities found in SARIF results") ;;
         written <- generateSummary env (initialResults 0) ;;
         ret (mkOutcome (Some written) 0)
     | _ =>
         res <- processFindings env findings ;;
         written <- generateSummary env res ;;
         log SUCCESS (lit "Processing complete") ;;
         match errors res with
         | [] => ret (mkOutcome (Some written) 0)
         | errs =>
             log WARN (lit "Completed with " ++ numNat (length errs) ++ lit " error(s)") ;;
             ret (mkOutcome (Some written) 1)
         end
     end)
    (fun error =>
       log ERROR (lit "Fatal error: " ++ error) ;;
       ret (mkOutcome None 1)).

(** ** Log sanitising *)

(** A character of the class [[\x00-\x1F\x7F-\x9F]]. *)
Definition isControl (c : N) : bool :=
  (c <=? 31)%N || ((127 <=? c)%N && (c <=? 159)%N).

(** [s.replace(/\s+/g, ' ')]: every run of white space becomes one space;
    [inRun] says that the character before belonged to a run. *)
Fixpoint collapseSpaces (inRun : bool) (s : jsstring) : jsstring :=
  match s with
  | [] => []
  | c :: s' =>
      if isSpace c then
        if inRun then collapseSpaces true s' else 32%N :: collapseSpaces true s'
      else c :: collapseSpaces false s'
  end.

(** [sanitizeLogMessage(message)], for a message that is a string: what
    [log] writes to the log file and to the console. *)
Definition sanitizeLogMessage (message : jsstring) : jsstring :=
  trim (collapseSpaces false
          (substring0 500 (filter (fun c => negb (isControl c)) message))).

(* ================================================================== *)
(** * Notions used in the statements *)
(* ================================================================== *)

(** ** Grouping *)

Definition keyIs (k : jsstring) (f : Finding) : bool := str_eqb (groupKey f) k.

Definition withOccurrences (g : GroupedFinding) (os : list Occurrence) : GroupedFinding :=
  mkGrouped (g_ruleId g) (g_ruleName g) (g_ruleHelp g) (g_filePath g) (g_level g)
            (g_severity g) (g_tool g) (g_toolVersion g) (g_message g) os.

(** The group a key stands for: the rule data of the first finding with
    that key, and the occurrences of all findings with it, in order. *)
Definition groupOf (findings : list Finding) (k : jsstring) (g : GroupedFinding) : Prop :=
  exists f,
    find (keyIs k) findings = Some f /\
    g = withOccurrences (newGroup f) (map occurrenceOf (filter (keyIs k) findings)).

Definition groupsOf (findings : list Finding) : GroupMap :=
  fold_left groupStep findings [].

Record GroupInv (findings : list Finding) (m : GroupMap) : Prop := {
  inv_nodup : NoDup (map fst m);
  inv_keys : forall k, In k (map fst m) <-> exists f, In f findings /\ groupKey f = k;
  inv_entries : forall k g, In (k, g) m -> groupOf findings k g
}.

(** ** Filtering *)

(** The four severities, in their order. *)
Inductive SeverityName := Low | Medium | High | Critical.

Definition severityText (l : SeverityName) : jsstring :=
  match l with
  | Low => lit "low"
  | Medium => lit "medium"
  | High => lit "high"
  | Critical => lit "critical"
  end.

Definition severityRank (l : SeverityName) : nat :=
  match l with Low => 0 | Medium => 1 | High => 2 | Critical => 3 end.

(** The value [mapToOWASP] returns, without its log entries. *)
Definition lookupOWASP (mp : Mappings) (ruleId : jsstring) : option OwaspInfo :=
  match owaspKeyOf mp ruleId with
  | None => None
  | Some key =>
      match categoryOf mp key with
      | None => None
      | Some category => Some (mkOwaspInfo key category)
      end
  end.

(** Why the loop body leaves a grouped finding aside. *)
Inductive Rejection := BelowThreshold | ExcludedPath | NoMapping.

(** The three checks of the loop body, in their order. *)
Definition filterStage (env : Env) (g : GroupedFinding) : Rejection + OwaspInfo :=
  if negb (meetsSeverityThreshold (config env) (g_severity g)) then inl BelowThreshold
  else if shouldExcludePath (config env) (g_filePath g) then inl ExcludedPath
  else match lookupOWASP (mappings env) (g_ruleId g) with
       | None => inl NoMapping
       | Some info => inr info
       end.

(** The log entries of [mapToOWASP]. *)
Definition mappingLog (mp : Mappings) (ruleId : jsstring) : list (Level * jsstring) :=
  match owaspKeyOf mp ruleId with
  | None => [(WARN, lit "No OWASP mapping found for rule: " ++ ruleId)]
  | Some key =>
      match categoryOf mp key with
      | None => [(ERROR, lit "OWASP category not found: " ++ key)]
      | Some _ => []
      end
  end.

(** The log entries a rejection leaves. *)
Definition rejectionLog (env : Env) (g : GroupedFinding) (why : Rejection)
  : list (Level * jsstring) :=
  match why with
  | BelowThreshold =>
      [(INFO, lit "Skipping " ++ g_ruleId g ++ lit " (severity " ++ g_severity g
              ++ lit " below threshold " ++ severityThreshold (config env) ++ lit ")")]
  | ExcludedPath =>
      [(INFO, lit "Skipping " ++ g_ruleId g ++ lit " (path " ++ g_filePath g
              ++ lit " is excluded)")]
  | NoMapping =>
      mappingLog (mappings env) (g_ruleId g)
      ++ [(WARN, lit "Skipping " ++ g_ruleId g ++ lit " (no OWASP mapping)")]
  end.

(** ** Effects *)

(** A computation that always returns and leaves the tracker and the run
    variables alone. *)
Definition Quiet {A} (m : M A) : Prop :=
  forall s, exists a s', m s = (Ok a, s') /\ tracker s' = tracker s /\ run s' = run s.

(** A computation that may throw but leaves the tracker and the run
    variables alone. *)
Definition Harmless {A} (m : M A) : Prop :=
  forall s, exists r s', m s = (r, s') /\ tracker s' = tracker s /\ run s' = run s.

(** What a computation may change besides the log and the clock. *)
Definition Kept (s s' : St) : Prop :=
  tracker s' = tracker s /\ run s' = run s /\ promptCache s' = promptCache s.

(** The requests a computation sends are added to those sent before. *)
Definition Grows {A} (m : M A) : Prop :=
  forall s r s', m s = (r, s') ->
    exists more, calls (tracker s') = calls (tracker s) ++ more.

(** A computation whose first request is a listing. *)
Definition Lists {A} (m : M A) : Prop :=
  forall s, exists r s' more,
    m s = (r, s') /\ calls (tracker s') = calls (tracker s) ++ CallList :: more.

(** The three conditions of the filter stage. *)
Definition Actionable (env : Env) (g : GroupedFinding) (sev thr : SeverityName) : Prop :=
  severityRank thr <= severityRank sev /\
  (forall x, In x (excludedPaths (config env)) -> includes (g_filePath g) x = false) /\
  (exists key cat,
      assoc (g_ruleId g) (codeql_to_owasp (mappings env)) = Some key /\ key <> [] /\
      assoc key (owasp_categories (mappings env)) = Some cat).

(** The state a rejection leaves. *)
Definition rejected (env : Env) (g : GroupedFinding) (why : Rejection) (s : St) : St :=
  set_run (mkRun (addSkipped 1 (countSeverity (g_severity g) (results (run s))))
                 (processedCount (run s)) (currentVulnerabilities (run s)))
          (set_logs (logs s ++ rejectionLog env g why) s).

(** The state in which an actionable finding enters [reconcile]. *)
Definition counted (g : GroupedFinding) (s : St) : St :=
  set_run (mkRun (countSeverity (g_severity g) (results (run s)))
                 (processedCount (run s)) (currentVulnerabilities (run s))) s.

Definition onFailure (g : GroupedFinding) (error : jsstring) : M bool :=
  log ERROR (lit "Failed to process grouped finding " ++ g_ruleId g ++ lit ": " ++ error) ;;
  modifyResults (pushError (mkErrorEntry (g_ruleId g) (g_filePath g) error)) ;;
  modifyResults (addSkipped 1) ;;
  ret true.

(** ** The tracker as a run finds it *)

(** The page of open issues with the sentinel label that a listing
    request returns. *)
Definition page (t : Tracker) : list Issue :=
  firstn 100 (filter (listed sentinel) (issues t)).

(** What the three requests of a close leave of an issue. *)
Definition closeMark (comment : jsstring) (i : Issue) : Issue :=
  mkIssue (i_number i) (i_title i) (i_body i)
          (fold_left (fun acc l => set_add l acc) [lit "resolved"] (i_labels i))
          StClosed (i_assignees i) (i_comments i ++ [comment]).

Definition isResolved (v : Verdict) : bool :=
  match v with Resolved _ _ _ => true | _ => false end.

(** The numbers of the issues of a page that the sweep closes. *)
Definition resolvedNumbers (currentVulns : list jsstring) (l : list Issue) : list N :=
  map i_number (filter (fun i => isResolved (sweepVerdict currentVulns i)) l).

(** A process that starts on the tracker [t]. *)
Definition processStart (t : Tracker) : St :=
  mkSt t [] [] 0 (mkRun (initialResults 0) 0 []).

(** The process of the next run: it finds the tracker as the last run
    left it and a later clock; its log, cache and run variables are new. *)
Definition nextProcess (s : St) : St :=
  mkSt (tracker s) [] [] (clock s) (mkRun (initialResults 0) 0 []).

(** ** What a run renders, as functions of the environment *)

Definition categories : list jsstring :=
  [lit "owasp"; lit "maintainability"; lit "threat-modeling"].

(** The answer of [fetchPrompt] when the cache holds nothing for the file. *)
Definition pureFetch (env : Env) (category file : jsstring) : option jsstring :=
  match match assoc category (promptHashes env) with
        | Some files => assoc file files
        | None => None
        end with
  | None | Some [] => None
  | Some expectedHash =>
      match httpGet env (lit "https://raw.githubusercontent.com/" ++ promptRepo (config env)
                         ++ lit "/" ++ promptBranch (config env)
                         ++ lit "/examples/promptpack/" ++ category ++ lit "/" ++ file) with
      | Http200 content =>
          if verifyPromptIntegrity env content expectedHash then Some content else None
      | _ => None
      end
  end.

Fixpoint pureFetchAll (env : Env) (category : jsstring) (files : list jsstring)
  : list Prompt :=
  match files with
  | [] => []
  | file :: rest =>
      match pureFetch env category file with
      | Some (c :: cs) => mkPrompt file (c :: cs) :: pureFetchAll env category rest
      | _ => pureFetchAll env category rest
      end
  end.

Fixpoint detectedIn (searchText : jsstring) (entries : list (jsstring * Trigger))
    (concerns : list jsstring) : list jsstring :=
  match entries with
  | [] => concerns
  | (_, trigger) :: rest =>
      if triggerFires searchText trigger
      then detectedIn searchText rest (set_add (t_prompt_file trigger) concerns)
      else detectedIn searchText rest concerns
  end.

Definition detectedConcerns (env : Env) (g : GroupedFinding) : list jsstring :=
  if negb (enableMaintainability (config env)) then []
  else detectedIn
         (toLowerCase (g_message g ++ lit " " ++ g_ruleHelp g ++ lit " " ++ g_ruleId g))
         (maintainability_triggers (mappings env)) [].

(** The value of [gatherPrompts]. *)
Definition promptsFor (env : Env) (g : GroupedFinding) (info : OwaspInfo)
  : Prompts * list jsstring :=
  let cat := oi_category info in
  let files := addMapped (detectedConcerns env g) (c_maintainability cat) in
  (mkPrompts (oi_key info) (c_name cat) (c_prompt_file cat)
     (pureFetchAll env (lit "owasp") [c_prompt_file cat])
     (pureFetchAll env (lit "maintainability") files)
     (if enableThreatModel (config env) then
        match c_threat_model cat with
        | Some l => pureFetchAll env (lit "threat-modeling") (map (fun t => t ++ dotMd) l)
        | None => []
        end
      else []),
   files).

(** The body rendered for a grouped finding when the clock reads [n]. *)
Definition bodyFor (env : Env) (n : N) (g : GroupedFinding) (info : OwaspInfo) : jsstring :=
  issueBodyText (config env) (isoTime env n) g (fst (promptsFor env g info)).

Definition labelsFor (env : Env) (g : GroupedFinding) (info : OwaspInfo) : list jsstring :=
  generateLabels (mappings env) g info (snd (promptsFor env g info)).

(** The cache holds what a fetch would return. *)
Definition CacheOk (env : Env) (cache : list (jsstring * option jsstring)) : Prop :=
  forall c f v, In c categories ->
    assoc (c ++ lit "/" ++ f) cache = Some v -> v = pureFetch env c f.

(** A state in which a run can proceed: the tracker answers, its issue
    numbers are distinct and below the next number, the cache is sound. *)
Record Ready (env : Env) (s : St) : Prop := {
  ready_faults : faults (tracker s) = [];
  ready_numbers : NoDup (map i_number (issues (tracker s)));
  ready_fresh : forall i, In i (issues (tracker s)) -> (i_number i < nextNumber (tracker s))%N;
  ready_cache : CacheOk env (promptCache s)
}.

(** A body carries the two markers of a grouped finding. *)
Definition carries (g : GroupedFinding) (body : jsstring) : bool :=
  includes body (quoted (g_ruleId g)) && includes body (quoted (g_filePath g)).

(** The sweep reads the rule, the file and one of the lines of a grouped
    finding back from a body. *)
Definition parsesBack (g : GroupedFinding) (body : jsstring) : bool :=
  match ruleMatch body, fileMatch body with
  | Some ruleId, Some filePath =>
      str_eqb ruleId (g_ruleId g) && str_eqb filePath (g_filePath g)
      && existsb (fun line =>
                    existsb (fun o => str_eqb line (num (o_startLine o))) (g_occurrences g))
                 (issueLinesOf body)
  | _, _ => false
  end.

(** What an update leaves of an issue. *)
Definition rewritten (body : jsstring) (labels : list jsstring) (comment : jsstring)
    (i : Issue) : Issue :=
  mkIssue (i_number i) (i_title i) body labels (i_state i) (i_assignees i)
          (i_comments i ++ [comment]).

Definition pageOf (l : list Issue) : list Issue :=
  firstn 100 (filter (listed sentinel) l).

Definition addKeys (g : GroupedFinding) (live : list jsstring) : list jsstring :=
  fold_left (fun acc k => set_add k acc) (occurrenceKeys g) live.

(** The grouped findings a run reconciles, with their categories: the
    actionable ones, until the cap is reached. *)
Fixpoint selected (env : Env) (processed : nat) (gs : list GroupedFinding)
  : list (GroupedFinding * OwaspInfo) :=
  match gs with
  | [] => []
  | g :: rest =>
      if capReached (config env) processed then []
      else match filterStage env g with
           | inr info => (g, info) :: selected env (S processed) rest
           | inl _ => selected env processed rest
           end
  end.

(** The effect of the processing loop on the issues of a tracker that
    answers: from [t] to [t'], with the numbers of creates and updates and
    the live keys before and after. *)
Inductive Steps (env : Env)
  : nat -> list GroupedFinding -> list Issue -> list Issue -> nat -> nat
    -> list jsstring -> list jsstring -> Prop :=
| Steps_nil : forall pc t live, Steps env pc [] t t 0 0 live live
| Steps_cap : forall pc g gs t live,
    capReached (config env) pc = true ->
    Steps env pc (g :: gs) t t 0 0 live live
| Steps_skip : forall pc g gs t t' cr up why live live',
    capReached (config env) pc = false ->
    filterStage env g = inl why ->
    Steps env pc gs t t' cr up live live' ->
    Steps env pc (g :: gs) t t' cr up live live'
| Steps_update : forall pc g gs t t' cr up info x n c live live',
    capReached (config env) pc = false ->
    filterStage env g = inr info ->
    find (matchesFinding g) (pageOf t) = Some x ->
    Steps env (S pc) gs
          (updateIssueIn (i_number x)
             (rewritten (bodyFor env n g info) (labelsFor env g info) c) t)
          t' cr up (addKeys g live) live' ->
    Steps env pc (g :: gs) t t' cr (S up) live live'
| Steps_create : forall pc g gs t t' cr up info number n live live',
    capReached (config env) pc = false ->
    filterStage env g = inr info ->
    find (matchesFinding g) (pageOf t) = None ->
    (forall i, In i t -> (i_number i < number)%N) ->
    Steps env (S pc) gs
          (mkIssue number (createIssueTitle g) (bodyFor env n g info) (labelsFor env g info)
                   StOpen (autoAssign (config env)) [] :: t)
          t' cr up (addKeys g live) live' ->
    Steps env pc (g :: gs) t t' (S cr) up live live'.

(** The effect of the sweep with live keys [live] on the issues of a
    tracker that answers. *)
Definition Swept (live : list jsstring) (t t' : list Issue) : Prop :=
  map i_number t' = map i_number t /\
  (forall j, In j t -> ~ In (i_number j) (resolvedNumbers live (pageOf t)) -> In j t') /\
  (forall j, In j t -> In (i_number j) (resolvedNumbers live (pageOf t)) ->
             exists c, In (closeMark c j) t').

(** An issue whose body is the one rendered for a grouped finding at some
    reading of the clock. *)
Definition RenderedFor (env : Env) (g : GroupedFinding) (info : OwaspInfo) (x : Issue)
  : Prop :=
  exists n, i_body x = bodyFor env n g info.

(** The live keys after the loop has run over [gs]. *)
Definition liveAfter (env : Env) (processed : nat) (gs : list GroupedFinding)
    (live : list jsstring) : list jsstring :=
  fold_left (fun acc gi => addKeys (fst gi) acc) (selected env processed gs) live.

(** The grouped findings of a report that a run reconciles. *)
Definition reconciled (env : Env) (findings : list Finding)
  : list (GroupedFinding * OwaspInfo) :=
  selected env 0 (groupFindingsByRuleAndFile findings).

Definition openCount (t : Tracker) : nat := length (filter isOpen (issues t)).

(** The counters of a run's summary. *)
Definition tally (r : Res Outcome * St) : option (nat * nat * nat) :=
  match fst r with
  | Ok o => option_map (fun x => (created x, updated x, skipped x)) (summary o)
  | Throw _ => None
  end.

(** ** Grouping, by pair and in order *)

Definition pairIs (ruleId filePath : jsstring) (f : Finding) : bool :=
  str_eqb (f_ruleId f) ruleId && str_eqb (f_filePath f) filePath.

Definition pairOf (g : GroupedFinding) : jsstring * jsstring :=
  (g_ruleId g, g_filePath g).

Definition keyOf (g : GroupedFinding) : jsstring :=
  g_ruleId g ++ colon ++ g_filePath g.

(** The strings of a sequence in the order of their first appearance. *)
Definition firstSeen (keys : list jsstring) : list jsstring :=
  fold_left (fun acc k => set_add k acc) keys [].

(** The occurrences the groups of a map hold, group after group. *)
Definition occurrencesIn (m : GroupMap) : list Occurrence :=
  flat_map (fun e => g_occurrences (snd e)) m.

(** ** What a run keeps and counts *)

(** A computation that leaves the run variables alone, whatever comes of
    it. *)
Definition KeepsRun {A} (m : M A) : Prop :=
  forall s r s', m s = (r, s') -> run s' = run s.

(** A computation that never throws. *)
Definition Returns {A} (m : M A) : Prop :=
  forall s, exists a s', m s = (Ok a, s').

(** The grouped findings a summary accounts for. *)
Definition accounted (r : Results) : nat := created r + updated r + skipped r.

(** ** Prompts and their manifest *)

Definition cacheKey (category file : jsstring) : jsstring :=
  category ++ lit "/" ++ file.

(** The hash the manifest lists for a file; an empty entry counts as
    none. *)
Definition manifestHash (env : Env) (category file : jsstring) : option jsstring :=
  match match assoc category (promptHashes env) with
        | Some files => assoc file files
        | None => None
        end with
  | None | Some [] => None
  | Some h => Some h
  end.

(** The address a prompt is fetched from. *)
Definition promptUrl (env : Env) (category file : jsstring) : jsstring :=
  lit "https://raw.githubusercontent.com/" ++ promptRepo (config env)
  ++ lit "/" ++ promptBranch (config env)
  ++ lit "/examples/promptpack/" ++ category ++ lit "/" ++ file.

(** The state after a call that found its answer in the cache. *)
Definition servedFromCache (category file : jsstring) (s : St) : St :=
  set_logs (logs s ++ [(INFO, lit "Using cached prompt: " ++ cacheKey category file)]) s.

(** ** Snippets *)

(** One line of a snippet: the arrow on the flagged lines, the line number
    right-aligned in four columns, and the text of the line. *)
Definition snippetLine (startLine endLine lineNum : N) (text : jsstring) : jsstring :=
  (if (startLine <=? lineNum)%N && (lineNum <=? endLine)%N
   then [8594; 32]%N else lit "  ")
  ++ padStart4 (num lineNum) ++ lit ": " ++ text.

(** ** Reports and parsed findings *)

(** The entries of the result list of a run. *)
Definition resultsOf (r : option SarifRun) : list (option SarifResult) :=
  match r with
  | Some r => match run_results r with
              | ResultsList results => results
              | ResultsNotIterable _ => []
              end
  | None => []
  end.

(** The results a report holds, over all its runs. *)
Definition resultCount (report : ReportFile) : nat :=
  match report with
  | ReportParsed runs => length (flat_map resultsOf runs)
  | _ => 0
  end.

(** A run the loop over the runs does not survive: [null], or with results
    that cannot be iterated. *)
Definition brokenRun (r : option SarifRun) : bool :=
  match r with
  | None => true
  | Some r => match run_results r with
              | ResultsNotIterable _ => true
              | ResultsList _ => false
              end
  end.

(** The reports that make [parseSARIFResults] throw. *)
Definition fatalReport (report : ReportFile) : bool :=
  match report with
  | ReportNull | ReportRunsNotIterable _ => true
  | ReportParsed runs => existsb brokenRun runs
  | ReportMissing | ReportMalformed _ => false
  end.

(** A finding made from a result: its rule and file are those of a
    result of the report that has a location. *)
Definition madeFrom (result : SarifResult) (f : Finding) : Prop :=
  exists location,
    r_location result = Some location /\
    f_ruleId f = idText (r_ruleId result) /\
    f_filePath f = orStr (loc_uri location) (lit "unknown") /\
    f_level f = orStr (r_level result) (lit "warning").

(** What one finding owes to the result it was made from. *)
Definition fromResult (rs : list (option SarifResult)) (f : Finding) : Prop :=
  trim (f_codeSnippet f) = f_codeSnippet f /\
  exists result, In (Some result) rs /\ madeFrom result f.

(** ** Mapping tables *)

(** The tables keep clear of what objects inherit: no rule is mapped to
    the name of an inherited member, and no category is filed under the
    text of one.  (Past that, [mapToOWASP] hands on a value of which
    [OwaspInfo] holds the texts only.) *)
Definition plainTables (mp : Mappings) : Prop :=
  (forall ruleId key, assoc ruleId (codeql_to_owasp mp) = Some key ->
                      ~ In key objectPrototype) /\
  (forall member, In member objectPrototype ->
                  assoc (memberText member) (owasp_categories mp) = None).


(** ** Requests and their answers *)

(** The tracker after it has received one more request. *)
Definition received (c : Call) (t : Tracker) : Tracker :=
  mkTracker (issues t) (nextNumber t) (tl (faults t)) (calls t ++ [c]).

(** What the update request alone leaves of an issue. *)
Definition overwritten (body : jsstring) (labels : list jsstring) (i : Issue) : Issue :=
  mkIssue (i_number i) (i_title i) body labels (i_state i) (i_assignees i) (i_comments i).

(** ** Log lines *)

(** Every white-space character of a text is a space that no white space
    precedes; [prevSpace] says that white space precedes the text. *)
Fixpoint singleSpaced (prevSpace : bool) (s : jsstring) : bool :=
  match s with
  | [] => true
  | c :: s' =>
      if isSpace c then N.eqb c 32 && negb prevSpace && singleSpaced true s'
      else singleSpaced false s'
  end.

(** ** A world to run examples in *)

Module Sample.

Definition cfg (threshold : string) (cap : Z) : Config :=
  mkConfig (lit "acme/prompts") (lit "main") (lit threshold) (Some cap) false false
           [] [] (lit "acme") (lit "shop") (lit "results.sarif") (lit "main")
           (lit "abc123").

Definition injection : Category :=
  mkCategory (lit "Injection") (lit "A03_injection.md") None None.

Definition tables : Mappings :=
  mkMappings
    [(lit "error", lit "critical"); (lit "warning", lit "medium"); (lit "note", lit "low")]
    [(lit "js/sql-injection", lit "A03_injection"); (lit "js/xss", lit "A03_injection");
     (lit "js/log-injection", lit "A03_injection")]
    [(lit "A03_injection", injection)]
    [(lit "critical", lit "security/critical"); (lit "medium", lit "security/medium")]
    [].

Definition env (threshold : string) (cap : Z) (report : ReportFile) : Env :=
  mkEnv (cfg threshold cap) tables [] (fun _ => Http404) (fun _ => [])
        (fun _ => FileMissing) (fun _ => report) (lit "logs/summary.json")
        (fun _ => lit "2025-10-13T16:30:00.000Z").

Definition idle : Run := mkRun (initialResults 0) 0 [].

Definition start (t : Tracker) : St := processStart t.

Definition emptyTracker : Tracker := mkTracker [] 1 [] [].

Definition result (rule file level message : string) (line : N) : option SarifResult :=
  Some (mkSarifResult (Some (lit rule)) (lit message) (lit level)
          (Some (mkLocation (lit file)
                   (Some (mkRegion line line 1 1 (SnippetString (lit "db.query(q)"))))))).

Definition report (rs : list (option SarifResult)) : ReportFile :=
  ReportParsed [Some (mkSarifRun (lit "CodeQL") (lit "2.15.0") [] (RulesList [])
                                 (ResultsList rs))].

Definition finding (rule file severity : string) (line : N) : Finding :=
  mkFinding (lit rule) (lit rule) [] (lit "tainted value") (lit "error") (lit severity)
            (lit file) line line 1 1 (lit "db.query(q)") (lit "CodeQL") (lit "2.15.0").

(** The tracker a finished process leaves behind. *)
Definition trackerAfter {A} (r : Res A * St) : Tracker := tracker (snd r).

Definition findingsOf (e : Env) : list Finding :=
  match fst (parseSARIFResults e (sarifPath (config e)) (start emptyTracker)) with
  | Ok fs => fs
  | Throw _ => []
  end.

(** A world with a prompt host: one file is listed in the manifest and
    served; the hash of a text is stood for by its length. *)
Definition digest (content : jsstring) : jsstring := numNat (length content).

Definition guide : jsstring := lit "# Injection (OWASP A03)".

Definition host (url : jsstring) : HttpResult :=
  if str_eqb url
       (lit "https://raw.githubusercontent.com/acme/prompts/main/examples/promptpack/owasp/A03_injection.md")
  then Http200 guide
  else Http404.

Definition hosted : Env :=
  mkEnv (cfg "high" 10) tables
        [(lit "owasp", [(lit "A03_injection.md", lit "sha256:23");
                        (lit "A01_access.md", lit "sha256:7")])]
        host digest (fun _ => FileMissing) (fun _ => ReportMissing)
        (lit "logs/summary.json") (fun _ => lit "2025-10-13T16:30:00.000Z").

(** A world in which every source file reads as [content]. *)
Definition reading (content : jsstring) : Env :=
  mkEnv (cfg "high" 10) tables [] (fun _ => Http404) (fun _ => [])
        (fun _ => FileContent content) (fun _ => ReportMissing)
        (lit "logs/summary.json") (fun _ => lit "2025-10-13T16:30:00.000Z").

(** A world that looks for maintainability concerns. *)
Definition watchful : Env :=
  mkEnv (mkConfig (lit "acme/prompts") (lit "main") (lit "high") (Some 10%Z) true false
                  [] [] (lit "acme") (lit "shop") (lit "results.sarif") (lit "main")
                  (lit "abc123"))
        (mkMappings (severity_mapping tables) (codeql_to_owasp tables)
                    (owasp_categories tables) (label_mapping tables)
                    [(lit "complexity",
                      mkTrigger [lit "Complex"; lit "nested"]
                                (lit "complexity-reduction.md"))])
        [] (fun _ => Http404) (fun _ => []) (fun _ => FileMissing)
        (fun _ => ReportMissing) (lit "logs/summary.json")
        (fun _ => lit "2025-10-13T16:30:00.000Z").

End Sample.

(* ================================================================== *)
(** * Properties *)
(* ================================================================== *)

Unset Implicit Arguments.
Arguments lit : simpl never.
Opaque MAX_BODY_LENGTH.

(** ** Strings *)

Lemma str_eqb_eq (a b : jsstring) : str_eqb a b = true <-> a = b.
Proof.
  revert b; induction a as [|x a IH]; intros [|y b]; simpl; split; intro H;
    try reflexivity; try discriminate.
  - apply andb_true_iff in H as [Hx Hr].
    apply N.eqb_eq in Hx. apply IH in Hr. now subst.
  - injection H as -> ->. rewrite N.eqb_refl. now apply IH.
Qed.

Lemma str_eqb_refl (a : jsstring) : str_eqb a a = true.
Proof. now apply str_eqb_eq. Qed.

Lemma str_eqb_neq (a b : jsstring) : str_eqb a b = false <-> a <> b.
Proof.
  split; intro H.
  - intro E. apply str_eqb_eq in E. congruence.
  - destruct (str_eqb a b) eqn:E; [|reflexivity].
    apply str_eqb_eq in E. contradiction.
Qed.

Lemma str_eqb_sym (a b : jsstring) : str_eqb a b = str_eqb b a.
Proof.
  destruct (str_eqb a b) eqn:E; symmetry.
  - apply str_eqb_eq in E. subst. apply str_eqb_refl.
  - apply str_eqb_neq. apply str_eqb_neq in E. congruence.
Qed.

Lemma startsWith_app (p s : jsstring) : startsWith p (p ++ s) = true.
Proof. induction p as [|x p IH]; simpl; [reflexivity|]. now rewrite N.eqb_refl. Qed.

Lemma startsWith_iff (p s : jsstring) :
  startsWith p s = true <-> exists r, s = p ++ r.
Proof.
  revert s; induction p as [|x p IH]; intros s; simpl.
  - split; [intros _; now exists s | reflexivity].
  - destruct s as [|y s].
    + split; [discriminate | intros [r Hr]; discriminate].
    + rewrite andb_true_iff, N.eqb_eq, IH. split.
      * intros [-> [r ->]]. now exists r.
      * intros [r Hr]. injection Hr as -> ->. split; [reflexivity | now exists r].
Qed.

Lemma includes_iff (s sub : jsstring) :
  includes s sub = true <-> exists a b, s = a ++ sub ++ b.
Proof.
  induction s as [|c s IH]; simpl.
  - rewrite orb_false_r, startsWith_iff. split.
    + intros [r Hr]. now exists [], r.
    + intros [a [b H]]. destruct a; [now exists b|discriminate].
  - rewrite orb_true_iff, startsWith_iff, IH. split.
    + intros [[r Hr] | [a [b H]]].
      * now exists [], r.
      * exists (c :: a), b. now rewrite H.
    + intros [[|c' a] [b H]].
      * left. now exists b.
      * right. injection H as -> ->. now exists a, b.
Qed.

Lemma includes_app (a sub b : jsstring) : includes (a ++ sub ++ b) sub = true.
Proof. apply includes_iff. now exists a, b. Qed.

Lemma arr_includes_In (l : list jsstring) (x : jsstring) :
  arr_includes l x = true <-> In x l.
Proof.
  unfold arr_includes. rewrite existsb_exists. split.
  - intros [y [Hy E]]. apply str_eqb_eq in E. now subst.
  - intros H. exists x. split; [assumption | apply str_eqb_refl].
Qed.

Lemma arr_includes_not_In (l : list jsstring) (x : jsstring) :
  arr_includes l x = false <-> ~ In x l.
Proof.
  rewrite <- arr_includes_In. destruct (arr_includes l x); split; congruence.
Qed.

(** ** Grouping *)

Lemma map_has_In (m : GroupMap) (k : jsstring) :
  map_has m k = true <-> In k (map fst m).
Proof.
  unfold map_has. rewrite existsb_exists, in_map_iff. split.
  - intros [e [He E]]. apply str_eqb_eq in E. now exists e.
  - intros [e [E He]]. exists e. split; [assumption|]. subst. apply str_eqb_refl.
Qed.

Lemma map_push_keys (m : GroupMap) k o : map fst (map_push m k o) = map fst m.
Proof.
  induction m as [|[k' g] m IH]; simpl; [reflexivity|].
  destruct (str_eqb k' k); simpl; [reflexivity | now rewrite IH].
Qed.

Lemma map_push_In (m : GroupMap) k o k' g' :
  NoDup (map fst m) ->
  In (k', g') (map_push m k o) ->
  (k' = k /\ exists g, In (k, g) m /\ g' = pushOccurrence o g) \/
  (k' <> k /\ In (k', g') m).
Proof.
  induction m as [|[k0 g0] m IH]; simpl; intros ND H; [contradiction|].
  inversion ND as [|? ? Hnot ND']; subst.
  destruct (str_eqb k0 k) eqn:E.
  - apply str_eqb_eq in E. subst k0. destruct H as [H|H].
    + injection H as <- <-. left. split; [reflexivity|]. exists g0. auto.
    + right. split; [|now right].
      intro; subst. apply Hnot. apply in_map_iff. now exists (k, g').
  - apply str_eqb_neq in E. destruct H as [H|H].
    + injection H as <- <-. right. split; [assumption | now left].
    + destruct (IH ND' H) as [[-> [g [Hg ->]]] | [Hne Hin]].
      * left. split; [reflexivity|]. exists g. split; [now right | reflexivity].
      * right. split; [assumption | now right].
Qed.

Lemma find_app_some {A} (p : A -> bool) l1 l2 x :
  find p l1 = Some x -> find p (l1 ++ l2) = Some x.
Proof.
  induction l1 as [|a l1 IH]; simpl; [discriminate|].
  destruct (p a); [trivial | exact IH].
Qed.

Lemma find_app_none {A} (p : A -> bool) l1 l2 :
  find p l1 = None -> find p (l1 ++ l2) = find p l2.
Proof.
  induction l1 as [|a l1 IH]; simpl; [reflexivity|].
  destruct (p a); [discriminate | exact IH].
Qed.

Lemma filter_none {A} (p : A -> bool) l :
  (forall x, In x l -> p x = false) -> filter p l = [].
Proof.
  induction l as [|a l IH]; simpl; intros H; [reflexivity|].
  rewrite (H a (or_introl eq_refl)). apply IH. intros x Hx. apply H. now right.
Qed.

Lemma NoDup_snoc {A} (l : list A) (x : A) :
  NoDup l -> ~ In x l -> NoDup (l ++ [x]).
Proof.
  induction l as [|a l IH]; simpl; intros ND Hx.
  - constructor; [intros [] | constructor].
  - inversion ND as [|? ? Ha ND']; subst. constructor.
    + rewrite in_app_iff. simpl. intros [H|[H|[]]]; [contradiction | subst; auto].
    + apply IH; auto.
Qed.

Lemma filter_snoc {A} (p : A -> bool) l x :
  filter p (l ++ [x]) = filter p l ++ (if p x then [x] else []).
Proof. rewrite filter_app. simpl. now destruct (p x). Qed.

Lemma keyIs_own f : keyIs (groupKey f) f = true.
Proof. apply str_eqb_refl. Qed.

Lemma keyIs_other k f : groupKey f <> k -> keyIs k f = false.
Proof. intro H. now apply str_eqb_neq. Qed.

Lemma groupStep_inv findings m f :
  GroupInv findings m -> GroupInv (findings ++ [f]) (groupStep m f).
Proof.
  intros [ND KS EN]. unfold groupStep.
  set (key := groupKey f). set (occ := occurrenceOf f).
  destruct (map_has m key) eqn:Hhas.
  - (* the key is known *)
    apply map_has_In in Hhas.
    constructor.
    + now rewrite map_push_keys.
    + intros k. rewrite map_push_keys, KS. split.
      * intros [f' [Hin E]]. exists f'. split; [apply in_or_app; now left | assumption].
      * intros [f' [Hin E]]. apply in_app_or in Hin as [Hin|[<-|[]]].
        -- now exists f'.
        -- apply KS. now rewrite <- E.
    + intros k g Hin.
      destruct (map_push_In _ _ _ _ _ ND Hin) as [[-> [g0 [Hg0 ->]]] | [Hne Hin']].
      * destruct (EN _ _ Hg0) as [f0 [Hfind ->]].
        exists f0. split; [now apply find_app_some|].
        rewrite filter_snoc, map_app. subst key. rewrite keyIs_own. reflexivity.
      * destruct (EN _ _ Hin') as [f0 [Hfind ->]].
        exists f0. split; [now apply find_app_some|].
        rewrite filter_snoc, keyIs_other by (subst key; congruence).
        now rewrite app_nil_r.
  - (* a new key *)
    assert (Hnew : ~ In key (map fst m)).
    { intro H. apply map_has_In in H. congruence. }
    assert (Hnone : forall x, In x findings -> keyIs key x = false).
    { intros x Hx. apply str_eqb_neq. intro E. apply Hnew. apply KS. now exists x. }
    assert (ND' : NoDup (map fst (map_set m key (newGroup f)))).
    { unfold map_set. rewrite map_app. simpl. now apply NoDup_snoc. }
    constructor.
    + now rewrite map_push_keys.
    + intros k. rewrite map_push_keys. unfold map_set. rewrite map_app, in_app_iff, KS.
      simpl. split.
      * intros [[f' [Hin E]] | [<-|[]]].
        -- exists f'. split; [apply in_or_app; now left | assumption].
        -- exists f. split; [apply in_or_app; right; now left | reflexivity].
      * intros [f' [Hin E]]. apply in_app_or in Hin as [Hin|[<-|[]]].
        -- left. now exists f'.
        -- right. now left.
    + intros k g Hin.
      destruct (map_push_In _ _ _ _ _ ND' Hin) as [[-> [g0 [Hg0 ->]]] | [Hne Hin']].
      * unfold map_set in Hg0. apply in_app_or in Hg0 as [Hg0|[Hg0|[]]].
        -- exfalso. apply Hnew. apply in_map_iff. now exists (key, g0).
        -- injection Hg0 as <-. exists f. split.
           ++ rewrite find_app_none.
              ** simpl. subst key. now rewrite keyIs_own.
              ** destruct (find (keyIs key) findings) eqn:Ef; [|reflexivity].
                 apply find_some in Ef as [Hi Hk]. rewrite (Hnone _ Hi) in Hk. discriminate.
           ++ rewrite filter_snoc, (filter_none _ _ Hnone). subst key.
              rewrite keyIs_own. reflexivity.
      * unfold map_set in Hin'. apply in_app_or in Hin' as [Hin'|[Hin'|[]]].
        -- destruct (EN _ _ Hin') as [f0 [Hfind ->]].
           exists f0. split; [now apply find_app_some|].
           rewrite filter_snoc, keyIs_other by (subst key; congruence).
           now rewrite app_nil_r.
        -- injection Hin' as -> _. contradiction.
Qed.

Lemma groupsOf_inv findings : GroupInv findings (groupsOf findings).
Proof.
  unfold groupsOf. induction findings as [|f l IH] using rev_ind.
  - simpl. constructor.
    + constructor.
    + intros k. simpl. split; [contradiction | intros [f [[] _]]].
    + intros k g [].
  - rewrite fold_left_app. simpl. now apply groupStep_inv.
Qed.

(** Grouping is a partition of the findings by key: the keys are pairwise
    distinct, they are the keys of the findings, and each group holds the
    occurrences of the findings with its key, in report order, under the
    rule data of the first of them. *)
Lemma grouping_by_key (findings : list Finding) :
  NoDup (map fst (groupsOf findings)) /\
  (forall k, In k (map fst (groupsOf findings)) <->
             exists f, In f findings /\ groupKey f = k) /\
  (forall k g, In (k, g) (groupsOf findings) -> groupOf findings k g).
Proof. destruct (groupsOf_inv findings) as [H1 H2 H3]. auto. Qed.

Lemma groupFindings_groupsOf (findings : list Finding) :
  groupFindingsByRuleAndFile findings = map snd (groupsOf findings).
Proof. reflexivity. Qed.

Lemma groupOf_key findings k g :
  groupOf findings k g -> k = g_ruleId g ++ colon ++ g_filePath g.
Proof.
  intros [f [Hf ->]]. apply find_some in Hf as [_ Hk].
  apply str_eqb_eq in Hk. now rewrite <- Hk.
Qed.

(** No finding is lost: its occurrence sits in the group of its key. *)
Lemma grouping_covers (findings : list Finding) (f : Finding) :
  In f findings ->
  exists g, In g (groupFindingsByRuleAndFile findings) /\
            g_ruleId g ++ colon ++ g_filePath g = groupKey f /\
            In (occurrenceOf f) (g_occurrences g).
Proof.
  intros Hf. destruct (grouping_by_key findings) as [_ [KS EN]].
  assert (Hk : In (groupKey f) (map fst (groupsOf findings))).
  { apply KS. now exists f. }
  apply in_map_iff in Hk as [[k g] [Ek Hin]]. simpl in Ek. subst k.
  exists g. split; [|split].
  - rewrite groupFindings_groupsOf. apply in_map_iff. now exists (groupKey f, g).
  - symmetry. eapply groupOf_key. eauto.
  - destruct (EN _ _ Hin) as [f0 [_ ->]]. simpl.
    apply in_map. apply filter_In. split; [assumption | apply keyIs_own].
Qed.

(** With no colon inside rule identifiers the key determines the pair. *)
Lemma groupKey_inj (f f' : Finding) :
  ~ In 58%N (f_ruleId f) -> ~ In 58%N (f_ruleId f') ->
  groupKey f = groupKey f' ->
  f_ruleId f = f_ruleId f' /\ f_filePath f = f_filePath f'.
Proof.
  unfold groupKey, colon. change (lit ":") with [58%N].
  generalize (f_ruleId f) (f_ruleId f') (f_filePath f) (f_filePath f').
  intros l; induction l as [|c l IH]; intros [|c' l'] p p' H H' E; simpl in *.
  - injection E as ->. auto.
  - injection E as <- _. exfalso. apply H'. now left.
  - injection E as -> _. exfalso. apply H. now left.
  - injection E as -> E. destruct (IH l' p p') as [-> ->]; auto.
Qed.

(** ** C4: grouping *)

(** C4.  Two findings with different (ruleId, filePath) pairs whose joined
    keys coincide end up in one group: the group keys are then not the
    distinct pairs of the input. *)
Theorem C4_key_collision :
  let fA := Sample.finding "js/xss" "src:a.ts" "critical" 10 in
  let fB := Sample.finding "js/xss:src" "a.ts" "critical" 20 in
  (f_ruleId fA, f_filePath fA) <> (f_ruleId fB, f_filePath fB) /\
  groupFindingsByRuleAndFile [fA; fB]
  = [withOccurrences (newGroup fA) [occurrenceOf fA; occurrenceOf fB]].
Proof.
  split.
  - intro H. discriminate H.
  - vm_compute. reflexivity.
Qed.

(** ** Effectful code: running and framing *)


Lemma quiet_ret {A} (a : A) : Quiet (ret a).
Proof. intros s. now exists a, s. Qed.

Lemma quiet_bind {A B} (m : M A) (k : A -> M B) :
  Quiet m -> (forall a, Quiet (k a)) -> Quiet (bind m k).
Proof.
  intros Hm Hk s. destruct (Hm s) as [a [s1 [E [T R]]]].
  destruct (Hk a s1) as [b [s2 [E2 [T2 R2]]]].
  exists b, s2. unfold bind. rewrite E, E2. repeat split; congruence.
Qed.

Lemma quiet_log lv msg : Quiet (log lv msg).
Proof. intros s. eexists _, _. split; [reflexivity|]. now split. Qed.

Lemma quiet_get : Quiet get.
Proof. intros s. now exists s, s. Qed.

Lemma quiet_now env : Quiet (now env).
Proof. intros s. eexists _, _. split; [reflexivity|]. now split. Qed.

Lemma quiet_cacheSet k v : Quiet (cacheSet k v).
Proof. intros s. eexists _, _. split; [reflexivity|]. now split. Qed.

Lemma quiet_try {A} (m : M A) h : Quiet m -> Quiet (try_catch m h).
Proof.
  intros Hm s. destruct (Hm s) as [a [s1 [E [T R]]]].
  exists a, s1. unfold try_catch. now rewrite E.
Qed.

Ltac quiet :=
  repeat first
    [ apply quiet_ret | apply quiet_log | apply quiet_get | apply quiet_now
    | apply quiet_cacheSet
    | apply quiet_bind; [| intros ? ]
    | match goal with
      | |- Quiet (if ?b then _ else _) => destruct b
      | |- Quiet (match ?x with _ => _ end) => destruct x
      end ].

Lemma quiet_verifyPromptUrl p h : Quiet (verifyPromptUrl p h).
Proof. unfold verifyPromptUrl. quiet. Qed.

Lemma quiet_fetchPrompt env category file : Quiet (fetchPrompt env category file).
Proof.
  unfold fetchPrompt. apply quiet_bind; [apply quiet_get | intros s0].
  destruct (assoc _ (promptCache s0)); [quiet|].
  destruct (match assoc category (promptHashes env) with
            | Some files => assoc file files | None => None end) as [[|c h]|]; [quiet| |quiet].
  apply quiet_bind; [apply quiet_verifyPromptUrl | intros allowed].
  destruct allowed; simpl; [|quiet].
  apply quiet_bind; [apply quiet_log | intros _].
  destruct (httpGet env _); [|quiet|quiet].
  destruct (verifyPromptIntegrity env content (c :: h)); simpl; quiet.
Qed.

Lemma quiet_fetchAll env category files : Quiet (fetchAll env category files).
Proof.
  induction files as [|f files IH]; simpl; [apply quiet_ret|].
  apply quiet_bind; [apply quiet_fetchPrompt | intros c].
  apply quiet_bind; [exact IH | intros more].
  destruct c as [[|x xs]|]; apply quiet_ret.
Qed.

Lemma quiet_detectLoop ruleId text entries acc : Quiet (detectLoop ruleId text entries acc).
Proof.
  revert acc; induction entries as [|[k t] entries IH]; intros acc; simpl; [apply quiet_ret|].
  destruct (triggerFires text t); [|apply IH].
  apply quiet_bind; [apply quiet_log | intros _; apply IH].
Qed.

Lemma quiet_detect env g : Quiet (detectMaintainabilityConcerns env g).
Proof.
  unfold detectMaintainabilityConcerns.
  destruct (negb _); [apply quiet_ret | apply quiet_detectLoop].
Qed.

Lemma quiet_mapToOWASP mp ruleId : Quiet (mapToOWASP mp ruleId).
Proof.
  unfold mapToOWASP. destruct (owaspKeyOf mp ruleId) as [key|]; [|quiet].
  destruct (categoryOf mp key); quiet.
Qed.

Lemma quiet_createIssueBody env g prompts : Quiet (createIssueBody env g prompts).
Proof.
  unfold createIssueBody. apply quiet_bind; [apply quiet_now | intros ts].
  destruct (Nat.ltb _ _); quiet.
Qed.

Lemma quiet_extractCodeSnippet env p a b c : Quiet (extractCodeSnippet env p a b c).
Proof. unfold extractCodeSnippet. destruct (readSource env p); quiet. Qed.

(** ** C9: where the severity of a group comes from *)








(** C10.  When the listing request of the dedup lookup fails,
    [findExistingIssue] logs the failure and returns [null] without
    touching the run's error list, and [createOrUpdateIssue] (its create
    request going through) adds a new open issue in front of all existing
    ones, whether or not one of them matches the finding. *)
Theorem C10_failed_lookup_creates
    (env : Env) (g : GroupedFinding) (body : jsstring) (labels : list jsstring)
    (s : St) (msg : jsstring) (rest : list (option jsstring)) :
  faults (tracker s) = Some msg :: rest ->
  hd None rest = None ->
  (exists s1,
      findExistingIssue g s = (Ok None, s1) /\
      issues (tracker s1) = issues (tracker s) /\
      run s1 = run s /\
      logs s1 = logs s ++
        [(INFO, lit "Searching for existing issue: " ++ g_ruleId g ++ lit " in "
                ++ g_filePath g);
         (ERROR, lit "Failed to search for existing issue: " ++ msg)]) /\
  (exists issue s2,
      createOrUpdateIssue env g body labels s = (Ok (issue, ActCreated), s2) /\
      issues (tracker s2) = issue :: issues (tracker s) /\
      i_body issue = body /\ i_labels issue = labels /\ i_state issue = StOpen /\
      openCount (tracker s2) = S (openCount (tracker s)) /\
      run s2 = run s).
Proof.
  intros Hf Hrest.
  assert (Efind : findExistingIssue g s =
    (Ok None,
     set_logs (logs s ++
        [(INFO, lit "Searching for existing issue: " ++ g_ruleId g ++ lit " in "
                ++ g_filePath g);
         (ERROR, lit "Failed to search for existing issue: " ++ msg)])
       (set_tracker (mkTracker (issues (tracker s)) (nextNumber (tracker s)) rest
                               (calls (tracker s) ++ [CallList])) s))).
  { unfold findExistingIssue, try_catch, listForRepo, request, bind, log, modify, ret.
    simpl. rewrite Hf. simpl. rewrite <- app_assoc. reflexivity. }
  split.
  - eexists. split; [exact Efind|]. simpl. auto.
  - unfold createOrUpdateIssue. unfold bind at 1. rewrite Efind.
    unfold try_catch, issuesCreate, request, bind, log, modify, get, ret. simpl.
    destruct rest as [|[m|] rest']; simpl in Hrest; try discriminate; simpl;
      eexists _, _; (split; [reflexivity|]); simpl; repeat split; reflexivity.
Qed.

Lemma C10_failed_lookup_creates_witness :
  let g := withOccurrences (newGroup (Sample.finding "js/xss" "src/app.ts" "critical" 7))
                           [occurrenceOf (Sample.finding "js/xss" "src/app.ts" "critical" 7)] in
  let body := issueBodyText (Sample.cfg "high" 10) (lit "t") g
                (mkPrompts [] [] [] [] [] []) in
  let old := mkIssue 1 (lit "old") body [sentinel] StOpen [] [] in
  let s := Sample.start (mkTracker [old] 2 [Some (lit "timeout")] []) in
  matchesFinding g old = true /\
  exists issue s2,
    createOrUpdateIssue (Sample.env "high" 10 ReportMissing) g body [sentinel] s
    = (Ok (issue, ActCreated), s2) /\
    issues (tracker s2) = issue :: issues (tracker s) /\
    i_body issue = body /\ i_labels issue = [sentinel] /\ i_state issue = StOpen /\
    openCount (tracker s2) = S (openCount (tracker s)) /\
    run s2 = run s.
Proof.
  intros g body old s. split.
  - vm_compute. reflexivity.
  - exact (proj2 (C10_failed_lookup_creates (Sample.env "high" 10 ReportMissing) g body
                    [sentinel] s (lit "timeout") [] eq_refl eq_refl)).
Defined.

(** ** C8: the size limit of the body *)

Lemma limitBody_length (b : jsstring) :
  length (limitBody b) <= MAX_BODY_LENGTH + length truncationNotice.
Proof.
  unfold limitBody, substring0. generalize MAX_BODY_LENGTH as m; intros m.
  destruct (Nat.ltb m (length b)) eqn:E.
  - rewrite length_app, length_firstn. lia.
  - apply Nat.ltb_ge in E. lia.
Qed.

Lemma limitBody_small (b : jsstring) :
  length b <= MAX_BODY_LENGTH -> limitBody b = b.
Proof.
  unfold limitBody. generalize MAX_BODY_LENGTH as m; intros m H.
  apply Nat.ltb_ge in H. now rewrite H.
Qed.

Lemma limitBody_large (b : jsstring) :
  MAX_BODY_LENGTH < length b ->
  limitBody b = firstn MAX_BODY_LENGTH b ++ truncationNotice.
Proof.
  unfold limitBody, substring0. generalize MAX_BODY_LENGTH as m; intros m H.
  apply Nat.ltb_lt in H. now rewrite H.
Qed.

(** A prefix that fits below the limit survives the final check. *)
Lemma limitBody_prefix (h rest : jsstring) :
  length h <= MAX_BODY_LENGTH -> exists rest', limitBody (h ++ rest) = h ++ rest'.
Proof.
  intros H. unfold limitBody, substring0.
  destruct (Nat.ltb MAX_BODY_LENGTH (length (h ++ rest))).
  - rewrite firstn_app.
    rewrite (firstn_all2 h) by exact H.
    rewrite <- app_assoc. eexists. reflexivity.
  - eexists. reflexivity.
Qed.

Lemma includes_prefix (h rest sub : jsstring) :
  includes h sub = true -> includes (h ++ rest) sub = true.
Proof.
  rewrite !includes_iff. intros [a [b ->]]. exists a, (b ++ rest).
  now rewrite <- !app_assoc.
Qed.

Lemma header_has_rule ts g prompts :
  includes (bodyHeader ts g prompts) (quoted (g_ruleId g)) = true.
Proof.
  unfold bodyHeader, ruleRow. apply includes_iff.
  eexists (bodyTop ts g ++ lit "| **CodeQL Rule** | "), _.
  rewrite <- !app_assoc. reflexivity.
Qed.

Lemma header_has_file ts g prompts :
  includes (bodyHeader ts g prompts) (quoted (g_filePath g)) = true.
Proof.
  unfold bodyHeader, fileRow. apply includes_iff.
  eexists (bodyTop ts g ++ ruleRow (g_ruleId g) ++ categoryRow prompts ++ lit "| **File** | "), _.
  rewrite <- !app_assoc. reflexivity.
Qed.

Lemma section_has_lines language count index o :
  includes (occurrenceSection language count index o) (linesLabel o) = true.
Proof.
  unfold occurrenceSection, locationLabel. apply includes_iff.
  destruct (Nat.ltb 1 count); cbn [concat].
  - eexists (nl ++ lit "#### Location " ++ numNat (index + 1) ++ lit ": "), _.
    rewrite <- !app_assoc. reflexivity.
  - eexists (nl ++ lit "#### "), _.
    rewrite <- !app_assoc. reflexivity.
Qed.

Lemma sections_have_lines language count os : forall index o,
  In o os ->
  includes (occurrenceSections language count index os) (linesLabel o) = true.
Proof.
  induction os as [|o' os IH]; intros index o Hin; [contradiction|].
  cbn [occurrenceSections]. destruct Hin as [->|Hin].
  - apply includes_prefix. apply section_has_lines.
  - pose proof (IH (S index) o Hin) as H. apply includes_iff in H as [a [b E]].
    apply includes_iff. exists (occurrenceSection language count index o' ++ a), b.
    rewrite E, <- !app_assoc. reflexivity.
Qed.

Lemma assembled_has_lines cfg ts g prompts o :
  In o (g_occurrences g) ->
  includes (assembleBody cfg ts g prompts) (linesLabel o) = true.
Proof.
  intros Hin. unfold assembleBody.
  pose proof (sections_have_lines (languageOf (g_filePath g))
                (length (g_occurrences g)) (g_occurrences g) 0 o Hin) as H.
  apply includes_iff in H as [a [b E]].
  apply includes_iff. exists (bodyHeader ts g prompts ++ a). eexists.
  rewrite E, <- !app_assoc. reflexivity.
Qed.

Lemma createIssueBody_text env g prompts s :
  createIssueBody env g prompts s
  = (Ok (issueBodyText (config env) (isoTime env (clock s)) g prompts),
     if Nat.ltb MAX_BODY_LENGTH
          (length (assembleBody (config env) (isoTime env (clock s)) g prompts))
     then set_logs (logs s ++
            [(WARN, lit "Issue body too long ("
                    ++ numNat (length (assembleBody (config env) (isoTime env (clock s))
                                                    g prompts))
                    ++ lit " chars), truncating to " ++ numNat MAX_BODY_LENGTH)])
            (set_clock (clock s + 1)%N s)
     else set_clock (clock s + 1)%N s).
Proof.
  unfold createIssueBody, issueBodyText, limitBody, bind, now. cbv beta iota.
  destruct (Nat.ltb _ _); reflexivity.
Qed.

(** C8 (as amended).  [createIssueBody] returns the assembled body when it
    has at most 65000 code units, and otherwise its first 65000 code units
    followed by the fixed notice, 65130 code units in all.  The rule and
    file markers are in the result whenever the header table fits in the
    first 65000 code units; the [Lines] marker of every occurrence is in
    it when nothing was cut. *)
Theorem C8_body_limit
    (env : Env) (g : GroupedFinding) (prompts : Prompts) (s : St) :
  let ts := isoTime env (clock s) in
  let assembled := assembleBody (config env) ts g prompts in
  let body := issueBodyText (config env) ts g prompts in
  (exists s', createIssueBody env g prompts s = (Ok body, s')) /\
  (N.of_nat (length body) <= 65130)%N /\
  (length assembled <= MAX_BODY_LENGTH -> body = assembled) /\
  (MAX_BODY_LENGTH < length assembled ->
     body = firstn MAX_BODY_LENGTH assembled ++ truncationNotice) /\
  (length (bodyHeader ts g prompts) <= MAX_BODY_LENGTH ->
     includes body (quoted (g_ruleId g)) = true /\
     includes body (quoted (g_filePath g)) = true) /\
  (length assembled <= MAX_BODY_LENGTH ->
     forall o, In o (g_occurrences g) -> includes body (linesLabel o) = true).
Proof.
  intros ts assembled body. repeat split.
  - eexists. apply createIssueBody_text.
  - pose proof (limitBody_length assembled) as H. fold body in H.
    unfold body, issueBodyText. fold assembled.
    assert (E : N.of_nat (MAX_BODY_LENGTH + length truncationNotice) = 65130%N)
      by (vm_compute; reflexivity).
    rewrite <- E. lia.
  - apply limitBody_small.
  - apply limitBody_large.
  - unfold body, issueBodyText, assembleBody.
    destruct (limitBody_prefix (bodyHeader ts g prompts)
                (occurrenceSections (languageOf (g_filePath g)) (length (g_occurrences g)) 0
                   (g_occurrences g) ++ ruleHelpSection g ++
                 guidanceSection [55357; 56536]%N (lit "OWASP Security Guidance")
                   (lit "guide") (lit "guides") owaspEntry (owaspPrompts prompts) ++
                 guidanceSection [55356; 57303; 65039]%N (lit "Maintainability Guidance")
                   (lit "guide") (lit "guides") maintainabilityEntry
                   (maintainabilityPrompts prompts) ++
                 guidanceSection [55356; 57263]%N (lit "Threat Model Analysis (STRIDE)")
                   (lit "threat") (lit "threats") threatEntry (threatModelPrompts prompts) ++
                 remediationZone g ++ metadataSection (config env) ts g prompts) H)
      as [rest' E].
    rewrite E. apply includes_prefix, header_has_rule.
  - unfold body, issueBodyText, assembleBody.
    destruct (limitBody_prefix (bodyHeader ts g prompts)
                (occurrenceSections (languageOf (g_filePath g)) (length (g_occurrences g)) 0
                   (g_occurrences g) ++ ruleHelpSection g ++
                 guidanceSection [55357; 56536]%N (lit "OWASP Security Guidance")
                   (lit "guide") (lit "guides") owaspEntry (owaspPrompts prompts) ++
                 guidanceSection [55356; 57303; 65039]%N (lit "Maintainability Guidance")
                   (lit "guide") (lit "guides") maintainabilityEntry
                   (maintainabilityPrompts prompts) ++
                 guidanceSection [55356; 57263]%N (lit "Threat Model Analysis (STRIDE)")
                   (lit "threat") (lit "threats") threatEntry (threatModelPrompts prompts) ++
                 remediationZone g ++ metadataSection (config env) ts g prompts) H)
      as [rest' E].
    rewrite E. apply includes_prefix, header_has_file.
  - intros Hlen o Hin. unfold body, issueBodyText. fold assembled.
    rewrite limitBody_small by exact Hlen. now apply assembled_has_lines.
Qed.

Lemma C8_body_limit_witness :
  let env := Sample.env "high" 10 ReportMissing in
  let f := Sample.finding "js/xss" "src/app.ts" "critical" 7 in
  let g := withOccurrences (newGroup f) [occurrenceOf f] in
  let prompts := mkPrompts [] [] [] [] [] [] in
  let body := issueBodyText (config env) (lit "2025-10-13T16:30:00.000Z") g prompts in
  body = assembleBody (config env) (lit "2025-10-13T16:30:00.000Z") g prompts /\
  (includes body (quoted (lit "js/xss")) = true /\
   includes body (quoted (lit "src/app.ts")) = true) /\
  includes body (linesLabel (occurrenceOf f)) = true.
Proof.
  intros env f g prompts body.
  destruct (C8_body_limit env g prompts (Sample.start Sample.emptyTracker))
    as [_ [_ [Hsmall [_ [Hmark Hlines]]]]].
  split; [|split].
  - apply Hsmall. apply Nat.leb_le. vm_compute. reflexivity.
  - apply Hmark. apply Nat.leb_le. vm_compute. reflexivity.
  - apply Hlines.
    + apply Nat.leb_le. vm_compute. reflexivity.
    + left. reflexivity.
Defined.

(** C8, counterexample.  Two occurrences, the first with a snippet of
    65000 characters: the body comes back 65130 code units long, above
    the limit of 65000, and the [Lines] marker of the second occurrence,
    present in the assembled text, is gone from it.  With a rule name of
    that length the rule and file markers are gone as well. *)
Lemma C8_counterexample :
  let cfg := Sample.cfg "high" 10 in
  let ts := lit "2025-10-13T16:30:00.000Z" in
  let prompts := mkPrompts [] [] [] [] [] [] in
  let f := Sample.finding "js/xss" "src/app.ts" "critical" 10 in
  let o1 := mkOccurrence 10 10 1 1 (repeat 120%N (N.to_nat 65000)) (lit "m") in
  let o2 := mkOccurrence 20 20 1 1 (lit "x") (lit "m") in
  let g := withOccurrences (newGroup f) [o1; o2] in
  let g' := mkGrouped (lit "js/xss") (repeat 120%N (N.to_nat 65000)) [] (lit "src/app.ts")
                      (lit "error") (lit "critical") (lit "CodeQL") (lit "2.15.0")
                      (lit "m") [o2] in
  (N.of_nat (length (issueBodyText cfg ts g prompts)) = 65130%N /\
   (N.of_nat MAX_BODY_LENGTH < 65130)%N /\
   includes (assembleBody cfg ts g prompts) (linesLabel o2) = true /\
   includes (issueBodyText cfg ts g prompts) (linesLabel o2) = false /\
   issueLinesOf (issueBodyText cfg ts g prompts) = [lit "10"]) /\
  (includes (issueBodyText cfg ts g' prompts) (quoted (g_ruleId g')) = false /\
   includes (issueBodyText cfg ts g' prompts) (quoted (g_filePath g')) = false /\
   issueLinesOf (issueBodyText cfg ts g' prompts) = []).
Proof.
  vm_compute. repeat split; reflexivity.
Qed.

(** ** C5: a report that does not parse *)

Lemma quiet_harmless {A} (m : M A) : Quiet m -> Harmless m.
Proof. intros H s. destruct (H s) as [a [s' [E R]]]. now exists (Ok a), s'. Qed.

Lemma harmless_throw {A} e : Harmless (@throw A e).
Proof. intros s. now exists (Throw e), s. Qed.

Lemma harmless_bind {A B} (m : M A) (k : A -> M B) :
  Harmless m -> (forall a, Harmless (k a)) -> Harmless (bind m k).
Proof.
  intros Hm Hk s. destruct (Hm s) as [[a|e] [s1 [E [T R]]]]; unfold bind; rewrite E.
  - destruct (Hk a s1) as [r [s2 [E2 [T2 R2]]]]. exists r, s2. rewrite E2.
    repeat split; congruence.
  - now exists (Throw e), s1.
Qed.

Lemma quiet_catch {A} (m : M A) h :
  Harmless m -> (forall e, Quiet (h e)) -> Quiet (try_catch m h).
Proof.
  intros Hm Hh s. destruct (Hm s) as [[a|e] [s1 [E [T R]]]]; unfold try_catch; rewrite E.
  - now exists a, s1.
  - destruct (Hh e s1) as [a [s2 [E2 [T2 R2]]]]. exists a, s2. rewrite E2.
    repeat split; congruence.
Qed.

Lemma harmless_findRule ruleId rules : Harmless (findRule ruleId rules).
Proof.
  destruct rules as [l|failure]; [|apply harmless_throw]. simpl.
  induction l as [|[r|] l IH]; simpl.
  - apply quiet_harmless, quiet_ret.
  - destruct (sameId (rule_id r) ruleId); [apply quiet_harmless, quiet_ret | exact IH].
  - apply harmless_throw.
Qed.

Lemma harmless_parseResult env r result : Harmless (parseResult env r result).
Proof.
  unfold parseResult. destruct result as [res|]; [|apply harmless_throw].
  destruct (r_location res) as [loc|].
  - apply harmless_bind.
    + destruct (reg_snippet _) as [|text|].
      * apply quiet_harmless, quiet_extractCodeSnippet.
      * destruct (trim text); apply quiet_harmless;
          [apply quiet_extractCodeSnippet | apply quiet_ret].
      * apply harmless_throw.
    + intros snip. apply harmless_bind; [apply harmless_findRule | intros rule].
      apply quiet_harmless, quiet_ret.
  - apply quiet_harmless. quiet.
Qed.

Lemma quiet_parseResults env r rs : Quiet (parseResults env r rs).
Proof.
  induction rs as [|result rs IH]; simpl; [apply quiet_ret|].
  apply quiet_bind.
  - apply quiet_catch; [apply harmless_parseResult | intros e; quiet].
  - intros p. apply quiet_bind; [exact IH | intros more]. destruct p; apply quiet_ret.
Qed.

Lemma harmless_parseRuns env runs : Harmless (parseRuns env runs).
Proof.
  induction runs as [|[r|] runs IH]; simpl.
  - apply quiet_harmless, quiet_ret.
  - destruct (run_results r) as [results|failure]; [|apply harmless_throw].
    apply harmless_bind; [apply quiet_harmless, quiet_parseResults | intros fs].
    apply harmless_bind; [exact IH | intros more; apply quiet_harmless, quiet_ret].
  - apply harmless_throw.
Qed.

(** C5 (as amended).  When the report text does not parse, the failure is
    logged as an error, the run sends no request to the tracker, writes
    the all-zero summary and ends normally, with exit code 0.  Inside a
    report that parses, parsing the results of a run never throws and
    never touches the tracker: a [null] entry is logged as an error and
    contributes no finding. *)
Theorem C5_malformed_report_ends_quietly
    (env : Env) (s : St) (msg : jsstring) :
  sarifFile env (sarifPath (config env)) = ReportMalformed msg ->
  (exists s',
      main env s = (Ok (mkOutcome (Some (initialResults 0)) 0), s') /\
      tracker s' = tracker s /\
      In (ERROR, lit "Failed to parse SARIF file: " ++ msg) (logs s')) /\
  (forall r rs s0, exists fs s1,
      parseResults env r rs s0 = (Ok fs, s1) /\ tracker s1 = tracker s0) /\
  (forall r rs s0,
      parseResults env r (None :: rs) s0
      = parseResults env r rs
          (set_logs (logs s0 ++
             [(ERROR, lit "Failed to parse result: "
                      ++ lit "Cannot read properties of null (reading 'ruleId')")]) s0)).
Proof.
  intros Hbad. split; [|split].
  - unfold main, parseSARIFResults, generateSummary, try_catch, bind, log, modify, ret.
    cbn [fst snd logs set_logs]. rewrite Hbad. cbv beta iota.
    eexists. split; [reflexivity|]. split; [reflexivity|].
    cbn [logs set_logs tracker promptCache clock run].
    rewrite !in_app_iff. left. left. right. left. reflexivity.
  - intros r rs s0. destruct (quiet_parseResults env r rs s0) as [fs [s1 [E [T _]]]].
    now exists fs, s1.
  - intros r rs s0. cbn [parseResults]. unfold bind at 1, try_catch, parseResult, throw.
    unfold bind at 1, log, modify, ret. cbv beta iota.
    unfold bind at 1.
    destruct (parseResults env r rs _) as [[more|e] s2]; reflexivity.
Qed.

Lemma C5_malformed_report_ends_quietly_witness :
  let env := Sample.env "high" 10 (ReportMalformed (lit "Unexpected token } in JSON")) in
  exists s',
    main env (Sample.start Sample.emptyTracker)
    = (Ok (mkOutcome (Some (initialResults 0)) 0), s') /\
    tracker s' = Sample.emptyTracker /\
    In (ERROR, lit "Failed to parse SARIF file: " ++ lit "Unexpected token } in JSON")
       (logs s').
Proof.
  exact (proj1 (C5_malformed_report_ends_quietly
                  (Sample.env "high" 10 (ReportMalformed (lit "Unexpected token } in JSON")))
                  (Sample.start Sample.emptyTracker)
                  (lit "Unexpected token } in JSON") eq_refl)).
Defined.

(** C5, counterexample.  On a report that does not parse the process ends
    with exit code 0 and no fatal error in its log. *)
Lemma C5_counterexample :
  let env := Sample.env "high" 10 (ReportMalformed (lit "Unexpected token } in JSON")) in
  let r := main env (Sample.start Sample.emptyTracker) in
  fst r = Ok (mkOutcome (Some (initialResults 0)) 0) /\
  exitCode (mkOutcome (Some (initialResults 0)) 0) = 0%Z /\
  existsb (fun e => startsWith (lit "Fatal error") (snd e)) (logs (snd r)) = false.
Proof.
  vm_compute. repeat split; reflexivity.
Qed.

(** C7.  Three grouped findings, the first below the threshold, the other
    two actionable, and a cap of one: one issue is created and the summary
    reports three skipped, the group rejected by the filter being counted
    a second time when the cap is reached.  With the two actionable groups
    alone the summary reports one created and one skipped. *)
Theorem C7_cap_counts_rejected_twice :
  let low := Sample.result "js/log-injection" "src/log.ts" "warning" "m" 5 in
  let a1 := Sample.result "js/sql-injection" "src/db.ts" "error" "m" 10 in
  let a2 := Sample.result "js/xss" "src/view.ts" "error" "m" 20 in
  let e3 := Sample.env "high" 1 (Sample.report [low; a1; a2]) in
  let e2 := Sample.env "high" 1 (Sample.report [a1; a2]) in
  length (groupFindingsByRuleAndFile (Sample.findingsOf e3)) = 3 /\
  tally (main e3 (Sample.start Sample.emptyTracker)) = Some (1, 0, 3) /\
  length (groupFindingsByRuleAndFile (Sample.findingsOf e2)) = 2 /\
  tally (main e2 (Sample.start Sample.emptyTracker)) = Some (1, 0, 1).
Proof.
  vm_compute. repeat split; reflexivity.
Qed.

(** ** C3: which keys count as live *)

(** C3.  One finding of severity [medium].  A run with threshold [medium]
    creates its issue; a later run on the same report with threshold
    [high] filters the group out, tracks none of its keys, and the sweep
    closes the issue although the finding is still in the report. *)
Theorem C3_filtered_finding_is_closed :
  let rs := [Sample.result "js/log-injection" "src/app.ts" "warning" "m" 10] in
  let eA := Sample.env "medium" 10 (Sample.report rs) in
  let eB := Sample.env "high" 10 (Sample.report rs) in
  let tA := Sample.trackerAfter (main eA (Sample.start Sample.emptyTracker)) in
  let rB := main eB (Sample.start tA) in
  map (fun i => (i_number i, i_state i)) (issues tA) = [(1%N, StOpen)] /\
  flat_map occurrenceKeys (groupFindingsByRuleAndFile (Sample.findingsOf eB))
  = [lit "js/log-injection:src/app.ts:10"] /\
  currentVulnerabilities (run (snd rB)) = [] /\
  map (fun i => (i_number i, i_state i)) (issues (tracker (snd rB))) = [(1%N, StClosed)] /\
  match fst rB with
  | Ok o => option_map (fun x => (skipped x, closed x)) (summary o) = Some (1, 1)
  | Throw _ => False
  end.
Proof.
  vm_compute. repeat split; reflexivity.
Qed.

(** ** Requests only accumulate *)

Lemma grows_ret {A} (a : A) : Grows (ret a).
Proof. intros s r s' H. injection H as _ <-. exists []. now rewrite app_nil_r. Qed.

Lemma grows_throw {A} e : Grows (@throw A e).
Proof. intros s r s' H. injection H as _ <-. exists []. now rewrite app_nil_r. Qed.

Lemma grows_bind {A B} (m : M A) (k : A -> M B) :
  Grows m -> (forall a, Grows (k a)) -> Grows (bind m k).
Proof.
  intros Hm Hk s r s' H. unfold bind in H.
  destruct (m s) as [[a|e] s1] eqn:E.
  - destruct (Hm _ _ _ E) as [m1 E1]. destruct (Hk a _ _ _ H) as [m2 E2].
    exists (m1 ++ m2). now rewrite E2, E1, app_assoc.
  - injection H as _ <-. eapply Hm; eauto.
Qed.

Lemma grows_try {A} (m : M A) h :
  Grows m -> (forall e, Grows (h e)) -> Grows (try_catch m h).
Proof.
  intros Hm Hh s r s' H. unfold try_catch in H.
  destruct (m s) as [[a|e] s1] eqn:E.
  - injection H as _ <-. eapply Hm; eauto.
  - destruct (Hm _ _ _ E) as [m1 E1]. destruct (Hh e _ _ _ H) as [m2 E2].
    exists (m1 ++ m2). now rewrite E2, E1, app_assoc.
Qed.

Lemma harmless_grows {A} (m : M A) : Harmless m -> Grows m.
Proof.
  intros Hm s r s' H. destruct (Hm s) as [r0 [s0 [E [T _]]]].
  rewrite E in H. injection H as _ <-. exists []. now rewrite T, app_nil_r.
Qed.

Lemma quiet_grows {A} (m : M A) : Quiet m -> Grows m.
Proof. intros H. now apply harmless_grows, quiet_harmless. Qed.

Lemma grows_request c : Grows (request c).
Proof.
  intros s r s' H. unfold request in H.
  destruct (faults (tracker s)) as [|[msg|] rest]; injection H as _ <-;
    now exists [c].
Qed.

Lemma grows_set_issues l : Grows (set_issues l).
Proof.
  intros s r s' H. unfold set_issues, modify in H. injection H as _ <-.
  exists []. simpl. now rewrite app_nil_r.
Qed.

Lemma grows_modifyRun f : Grows (modifyRun f).
Proof.
  intros s r s' H. unfold modifyRun, modify in H. injection H as _ <-.
  exists []. simpl. now rewrite app_nil_r.
Qed.

Lemma grows_onIssue c n f : Grows (onIssue c n f).
Proof.
  unfold onIssue. apply grows_bind; [apply grows_request | intros _].
  apply grows_bind; [apply quiet_grows, quiet_get | intros s0].
  destruct (findIssue n _); [|apply grows_throw].
  apply grows_bind; [apply grows_set_issues | intros _; apply grows_ret].
Qed.

Lemma grows_issuesCreate t b l a : Grows (issuesCreate t b l a).
Proof.
  unfold issuesCreate. apply grows_bind; [apply grows_request | intros _].
  intros s r s' H. unfold bind, get, modify, ret in H. injection H as _ <-.
  exists []. simpl. now rewrite app_nil_r.
Qed.

Lemma grows_listForRepo label n : Grows (listForRepo label n).
Proof.
  unfold listForRepo. apply grows_bind; [apply grows_request | intros _].
  apply grows_bind; [apply quiet_grows, quiet_get | intros s0; apply grows_ret].
Qed.

Lemma grows_log lv msg : Grows (log lv msg).
Proof. apply quiet_grows, quiet_log. Qed.

Ltac grows :=
  repeat first
    [ apply grows_ret | apply grows_throw | apply grows_log | apply grows_request
    | apply grows_onIssue | apply grows_issuesCreate | apply grows_listForRepo
    | apply grows_modifyRun
    | apply quiet_grows, quiet_now | apply quiet_grows, quiet_get
    | apply grows_bind; [| intros ? ]
    | apply grows_try; [| intros ? ]
    | match goal with
      | |- Grows (if ?b then _ else _) => destruct b
      | |- Grows (match ?x with _ => _ end) => destruct x
      end ].

Lemma grows_findExistingIssue g : Grows (findExistingIssue g).
Proof. unfold findExistingIssue. grows. Qed.

Lemma grows_createOrUpdateIssue env g b l : Grows (createOrUpdateIssue env g b l).
Proof.
  unfold createOrUpdateIssue.
  apply grows_bind; [apply grows_findExistingIssue | intros existing].
  destruct existing; unfold issuesUpdate, issuesCreateComment; grows.
Qed.

Lemma grows_recordAction g a : Grows (recordAction g a).
Proof. unfold recordAction, modifyResults, trackOccurrences, incProcessed. grows. Qed.

(** The dedup lookup starts with a listing request, whatever comes of it. *)
Lemma findExistingIssue_lists g s :
  exists r s' more,
    findExistingIssue g s = (r, s') /\
    calls (tracker s') = calls (tracker s) ++ CallList :: more.
Proof.
  unfold findExistingIssue, try_catch, listForRepo, request, bind, log, modify, get, ret.
  cbn [logs set_logs tracker set_tracker faults fst snd].
  destruct (faults (tracker s)) as [|[msg|] rest]; cbv beta iota;
    cbn [tracker set_tracker set_logs issues calls faults nextNumber];
    try (destruct (find _ _));
    eexists _, _, []; split; reflexivity.
Qed.

Lemma createOrUpdateIssue_lists env g b l s :
  exists r s' more,
    createOrUpdateIssue env g b l s = (r, s') /\
    calls (tracker s') = calls (tracker s) ++ CallList :: more.
Proof.
  destruct (findExistingIssue_lists g s) as [r1 [s1 [m1 [E1 C1]]]].
  unfold createOrUpdateIssue, bind at 1. rewrite E1.
  destruct r1 as [existing|e].
  - match goal with |- context [(?k s1)] =>
      destruct (k s1) as [r2 s2] eqn:E2 end.
    assert (G : exists more, calls (tracker s2) = calls (tracker s1) ++ more).
    { revert E2. destruct existing; unfold issuesUpdate, issuesCreateComment;
        match goal with |- ?m s1 = _ -> _ =>
          assert (Hg : Grows m) by grows; apply Hg end. }
    destruct G as [m2 C2]. exists r2, s2, (m1 ++ m2). split; [reflexivity|].
    rewrite C2, C1, <- app_assoc. reflexivity.
  - eexists _, _, m1. split; [reflexivity | exact C1].
Qed.

(** ** C6: the filter stage *)

Lemma severityText_index (l : SeverityName) :
  indexOf severityLevels (severityText l) = Z.of_nat (severityRank l).
Proof. destruct l; vm_compute; reflexivity. Qed.

Lemma meetsSeverityThreshold_rank cfg g sev thr :
  g_severity g = severityText sev ->
  severityThreshold cfg = severityText thr ->
  meetsSeverityThreshold cfg (g_severity g) = true <-> severityRank thr <= severityRank sev.
Proof.
  intros -> Ht. unfold meetsSeverityThreshold. rewrite Ht, !severityText_index.
  rewrite Z.leb_le. lia.
Qed.

Lemma shouldExcludePath_false cfg p :
  shouldExcludePath cfg p = false <->
  forall x, In x (excludedPaths cfg) -> includes p x = false.
Proof.
  unfold shouldExcludePath. split.
  - intros H x Hx. destruct (includes p x) eqn:E; [|reflexivity].
    assert (existsb (fun e => includes p e) (excludedPaths cfg) = true)
      by (apply existsb_exists; now exists x).
    congruence.
  - intros H. destruct (existsb _ _) eqn:E; [|reflexivity].
    apply existsb_exists in E as [x [Hx Hi]]. rewrite (H x Hx) in Hi. discriminate.
Qed.

Lemma memberText_plain member : arr_includes objectPrototype (memberText member) = false.
Proof.
  unfold memberText.
  destruct (str_eqb member (lit "__proto__")); [reflexivity|].
  destruct (str_eqb member (lit "constructor")); reflexivity.
Qed.

Lemma owaspKeyOf_own mp ruleId key :
  plainTables mp ->
  owaspKeyOf mp ruleId = Some key ->
  (assoc ruleId (codeql_to_owasp mp) = Some key /\ key <> [] /\
   arr_includes objectPrototype key = false) \/
  (assoc ruleId (codeql_to_owasp mp) = None /\
   exists member, In member objectPrototype /\ key = memberText member).
Proof.
  intros [Hvalues _]. unfold owaspKeyOf, getProperty.
  destruct (assoc ruleId (codeql_to_owasp mp)) as [[|c k]|] eqn:E; try discriminate.
  - intros H. injection H as <-. left. split; [reflexivity|]. split; [discriminate|].
    apply arr_includes_not_In. exact (Hvalues _ _ E).
  - destruct (arr_includes objectPrototype ruleId) eqn:Ei; [|discriminate].
    intros H. injection H as <-. right. split; [reflexivity|].
    exists ruleId. split; [now apply arr_includes_In | reflexivity].
Qed.

Lemma lookupOWASP_some mp ruleId :
  plainTables mp ->
  (exists info, lookupOWASP mp ruleId = Some info) <->
  exists key cat, assoc ruleId (codeql_to_owasp mp) = Some key /\ key <> [] /\
                  assoc key (owasp_categories mp) = Some cat.
Proof.
  intros Hplain. unfold lookupOWASP. split.
  - intros [info H]. destruct (owaspKeyOf mp ruleId) as [key|] eqn:Ek; [|discriminate].
    destruct (owaspKeyOf_own mp ruleId key Hplain Ek)
      as [[Eown [Hne Hno]] | [_ [member [Hin ->]]]].
    + unfold categoryOf, getProperty in H. rewrite Hno in H.
      destruct (assoc key (owasp_categories mp)) as [cat|] eqn:Ec; [|discriminate].
      exists key, cat. repeat split; assumption.
    + exfalso. unfold categoryOf, getProperty in H.
      rewrite (proj2 Hplain member Hin), memberText_plain in H. discriminate.
  - intros [key [cat [E1 [Hne E2]]]]. unfold owaspKeyOf, categoryOf, getProperty.
    rewrite E1. destruct key; [contradiction|]. rewrite E2. eauto.
Qed.

Lemma mapToOWASP_lookup mp ruleId s :
  mapToOWASP mp ruleId s
  = (Ok (lookupOWASP mp ruleId), set_logs (logs s ++ mappingLog mp ruleId) s).
Proof.
  unfold mapToOWASP, lookupOWASP, mappingLog.
  destruct (owaspKeyOf mp ruleId) as [key|]; try reflexivity.
  destruct (categoryOf mp key); try reflexivity.
  unfold ret. rewrite app_nil_r. now destruct s.
Qed.

Lemma filterStage_actionable env g sev thr :
  g_severity g = severityText sev ->
  severityThreshold (config env) = severityText thr ->
  plainTables (mappings env) ->
  (exists info, filterStage env g = inr info) <-> Actionable env g sev thr.
Proof.
  intros Hs Ht Hplain. unfold filterStage, Actionable.
  rewrite <- (meetsSeverityThreshold_rank (config env) g sev thr Hs Ht).
  rewrite <- shouldExcludePath_false, <- (lookupOWASP_some _ _ Hplain).
  destruct (meetsSeverityThreshold _ _); simpl.
  - destruct (shouldExcludePath _ _); simpl.
    + split; [intros [i H]; discriminate | intros [_ [H _]]; discriminate].
    + destruct (lookupOWASP _ _) as [info|].
      * split; [intros _; repeat split; eauto | intros _; eauto].
      * split; [intros [i H]; discriminate | intros [_ [_ [i H]]]; discriminate].
  - split; [intros [i H]; discriminate | intros [H _]; discriminate].
Qed.

Lemma processOne_stage env n g s :
  capReached (config env) (processedCount (run s)) = false ->
  processOne env n g s =
  match filterStage env g with
  | inl why => (Ok true, rejected env g why s)
  | inr info => try_catch (reconcile env g info ;; ret true) (onFailure g) (counted g s)
  end.
Proof.
  intros Hcap. unfold processOne, filterStage.
  unfold try_catch at 1, bind at 1, get. rewrite Hcap.
  unfold bind at 1, modifyResults at 1, modifyRun, modify.
  destruct (meetsSeverityThreshold _ _); cbn [negb].
  - destruct (shouldExcludePath _ _).
    + unfold bind, log, modifyResults, modifyRun, modify, ret. destruct s; reflexivity.
    + unfold bind at 1. rewrite mapToOWASP_lookup.
      destruct (lookupOWASP _ _) as [info|] eqn:El.
      * unfold try_catch, counted.
        assert (Em : mappingLog (mappings env) (g_ruleId g) = []).
        { unfold lookupOWASP in El. unfold mappingLog.
          destruct (owaspKeyOf _ _) as [key|]; try discriminate.
          destruct (categoryOf _ key); [reflexivity | discriminate]. }
        rewrite Em, app_nil_r. destruct s; reflexivity.
      * unfold bind, log, modifyResults, modifyRun, modify, ret, rejected, rejectionLog.
        cbn [logs set_logs run set_run tracker promptCache clock].
        rewrite <- app_assoc. destruct s; reflexivity.
  - unfold bind, log, modifyResults, modifyRun, modify, ret. destruct s; reflexivity.
Qed.

Lemma lists_after_quiet {A B} (m : M A) (k : A -> M B) :
  Quiet m -> (forall a, Lists (k a)) -> Lists (bind m k).
Proof.
  intros Hm Hk s. destruct (Hm s) as [a [s1 [E [T _]]]].
  destruct (Hk a s1) as [r [s2 [more [E2 C2]]]].
  exists r, s2, more. unfold bind. rewrite E, E2. split; [reflexivity|]. now rewrite C2, T.
Qed.

Lemma lists_then_grows {A B} (m : M A) (k : A -> M B) :
  Lists m -> (forall a, Grows (k a)) -> Lists (bind m k).
Proof.
  intros Hm Hk s. destruct (Hm s) as [[a|e] [s1 [m1 [E C]]]]; unfold bind; rewrite E.
  - destruct (k a s1) as [r s2] eqn:E2. destruct (Hk a _ _ _ E2) as [m2 C2].
    exists r, s2, (m1 ++ m2). split; [reflexivity|]. now rewrite C2, C, <- app_assoc.
  - now exists (Throw e), s1, m1.
Qed.

Lemma lists_try {A} (m : M A) h :
  Lists m -> (forall e, Grows (h e)) -> Lists (try_catch m h).
Proof.
  intros Hm Hh s. destruct (Hm s) as [[a|e] [s1 [m1 [E C]]]]; unfold try_catch; rewrite E.
  - now exists (Ok a), s1, m1.
  - destruct (h e s1) as [r s2] eqn:E2. destruct (Hh e _ _ _ E2) as [m2 C2].
    exists r, s2, (m1 ++ m2). split; [reflexivity|]. now rewrite C2, C, <- app_assoc.
Qed.

Lemma quiet_gatherPrompts env g info : Quiet (gatherPrompts env g info).
Proof.
  unfold gatherPrompts.
  apply quiet_bind; [apply quiet_fetchAll | intros c1].
  apply quiet_bind; [apply quiet_detect | intros d].
  apply quiet_bind; [apply quiet_fetchAll | intros c2].
  apply quiet_bind; [|intros c3; apply quiet_ret].
  destruct (enableThreatModel _); [|apply quiet_ret].
  destruct (c_threat_model _); [apply quiet_fetchAll | apply quiet_ret].
Qed.

Lemma lists_reconcile env g info : Lists (reconcile env g info).
Proof.
  unfold reconcile.
  intros s. unfold bind at 1, modifyResults at 1, modifyRun, modify.
  match goal with |- context [bind ?m ?k ?st] =>
    assert (L : Lists (bind m k)) end.
  { apply lists_after_quiet; [apply quiet_log | intros _].
    apply lists_after_quiet; [apply quiet_gatherPrompts | intros gathered].
    apply lists_after_quiet; [apply quiet_createIssueBody | intros body].
    apply lists_then_grows.
    - intros s0. apply createOrUpdateIssue_lists.
    - intros res. apply grows_recordAction. }
  match goal with |- context [bind ?m ?k ?st] =>
    destruct (L st) as [r [s' [more [E C]]]] end.
  exists r, s', more. split; [exact E | exact C].
Qed.

Lemma grows_onFailure g e : Grows (onFailure g e).
Proof. unfold onFailure, modifyResults. grows. Qed.

(** C6 (as amended).  Below the cap, with severity and threshold among
    the four levels and mapping tables that keep clear of the members
    objects inherit, the loop body of [processFindings] sends a request
    to the tracker (the listing of the dedup lookup, which opens the
    create or update) exactly when the severity is not below the
    threshold, the path holds no excluded substring, and the rule has an
    entry in the rule table whose key has an entry in the category table.
    Otherwise it ends normally, with the tracker untouched, the skipped
    count one higher, the error list unchanged, and the log entries of
    the first check that failed. *)
Theorem C6_filter_stage
    (env : Env) (n : nat) (g : GroupedFinding) (s : St) (sev thr : SeverityName) :
  g_severity g = severityText sev ->
  severityThreshold (config env) = severityText thr ->
  capReached (config env) (processedCount (run s)) = false ->
  plainTables (mappings env) ->
  exists r s',
    processOne env n g s = (r, s') /\
    ((exists more, calls (tracker s') = calls (tracker s) ++ CallList :: more)
     <-> Actionable env g sev thr) /\
    (~ Actionable env g sev thr ->
     exists why,
       filterStage env g = inl why /\
       r = Ok true /\
       tracker s' = tracker s /\
       skipped (results (run s')) = skipped (results (run s)) + 1 /\
       errors (results (run s')) = errors (results (run s)) /\
       created (results (run s')) = created (results (run s)) /\
       updated (results (run s')) = updated (results (run s)) /\
       processedCount (run s') = processedCount (run s) /\
       logs s' = logs s ++ rejectionLog env g why).
Proof.
  intros Hs Ht Hcap Hplain. rewrite (processOne_stage env n g s Hcap).
  pose proof (filterStage_actionable env g sev thr Hs Ht Hplain) as Hact.
  destruct (filterStage env g) as [why|info] eqn:Ef.
  - assert (Hno : ~ Actionable env g sev thr).
    { intro H. apply Hact in H as [i Hi]. discriminate. }
    eexists _, _. split; [reflexivity|]. split; [split|].
    + intros [more E]. exfalso. simpl in E.
      rewrite <- (app_nil_r (calls (tracker s))) in E at 1.
      apply app_inv_head in E. discriminate.
    + intros H. contradiction.
    + intros _. exists why. simpl. repeat split; reflexivity.
  - assert (Hyes : Actionable env g sev thr) by (apply Hact; eauto).
    assert (L : Lists (try_catch (reconcile env g info ;; ret true) (onFailure g))).
    { apply lists_try.
      - apply lists_then_grows; [apply lists_reconcile | intros _; apply grows_ret].
      - intros e. apply grows_onFailure. }
    destruct (L (counted g s)) as [r [s' [more [E C]]]].
    exists r, s'. split; [exact E|]. split; [split|].
    + intros _. exact Hyes.
    + intros _. exists more. exact C.
    + intros H. contradiction.
Qed.

Lemma sample_tables_plain : plainTables Sample.tables.
Proof.
  split.
  - intros ruleId key H. unfold Sample.tables in H. cbn [codeql_to_owasp assoc] in H.
    repeat match type of H with
           | context [if ?b then _ else _] => destruct b
           end; try discriminate;
      injection H as <-; intros Hin; vm_compute in Hin;
      repeat (destruct Hin as [Hin|Hin]; [discriminate Hin|]); exact Hin.
  - intros member Hin. unfold objectPrototype in Hin. cbn [In] in Hin.
    repeat (destruct Hin as [<-|Hin]; [vm_compute; reflexivity|]). contradiction.
Qed.

Lemma C6_filter_stage_witness :
  let env := Sample.env "high" 10 ReportMissing in
  let s := Sample.start Sample.emptyTracker in
  let mapped := newGroup (Sample.finding "js/sql-injection" "src/app.ts" "critical" 10) in
  let unmapped := newGroup (Sample.finding "toString" "src/app.ts" "critical" 10) in
  (exists r s' more,
      processOne env 1 mapped s = (r, s') /\
      calls (tracker s') = calls (tracker s) ++ CallList :: more) /\
  (exists s',
      processOne env 1 unmapped s = (Ok true, s') /\
      filterStage env unmapped = inl NoMapping /\
      tracker s' = tracker s /\
      skipped (results (run s')) = 1 /\
      errors (results (run s')) = [] /\
      logs s' = [(ERROR, lit "OWASP category not found: function toString() { [native code] }");
                 (WARN, lit "Skipping toString (no OWASP mapping)")]).
Proof.
  intros env s mapped unmapped. split.
  - destruct (C6_filter_stage env 1 mapped s Critical High eq_refl eq_refl eq_refl
                sample_tables_plain) as [r [s' [E [[_ Hyes] _]]]].
    assert (Hact : Actionable env mapped Critical High).
    { split; [vm_compute; lia|]. split; [intros x []|].
      exists (lit "A03_injection"), Sample.injection.
      split; [vm_compute; reflexivity|].
      split; [intro H; discriminate H | vm_compute; reflexivity]. }
    destruct (Hyes Hact) as [more C]. exists r, s', more. split; [exact E | exact C].
  - destruct (C6_filter_stage env 1 unmapped s Critical High eq_refl eq_refl eq_refl
                sample_tables_plain) as [r [s' [E [_ Hno]]]].
    assert (Hnot : ~ Actionable env unmapped Critical High).
    { intros [_ [_ [key [cat [H _]]]]]. vm_compute in H. discriminate H. }
    destruct (Hno Hnot) as [why [Ef [-> [T [Sk [Er [_ [_ [_ L]]]]]]]]].
    exists s'. split; [exact E|].
    assert (Ew : why = NoMapping).
    { assert (Ec : filterStage env unmapped = inl NoMapping) by (vm_compute; reflexivity).
      rewrite Ec in Ef. now injection Ef as <-. }
    subst why. split; [exact Ef|]. split; [exact T|]. split; [exact Sk|].
    split; [exact Er | exact L].
Defined.

(** C6, counterexample.  With a cap of zero a finding that meets the
    three conditions is not taken up: no request is sent and the loop
    stops.  Under a threshold spelled [High], which is none of the four
    level names, a finding of severity [low] is taken up and an issue is
    created for it.  And a rule mapped to the key [constructor] is taken
    up although the category table has no entry under that key. *)
Lemma C6_counterexample :
  let s := Sample.start Sample.emptyTracker in
  let critical := newGroup (Sample.finding "js/sql-injection" "src/app.ts" "critical" 10) in
  let low := newGroup (Sample.finding "js/sql-injection" "src/app.ts" "low" 10) in
  let capped := Sample.env "high" 0 ReportMissing in
  let misspelt := Sample.env "High" 10 ReportMissing in
  let inheriting :=
    mkEnv (Sample.cfg "high" 10)
          (mkMappings [] [(lit "js/sql-injection", lit "constructor")] [] [] [])
          [] (fun _ => Http404) (fun _ => []) (fun _ => FileMissing)
          (fun _ => ReportMissing) (lit "logs/summary.json")
          (fun _ => lit "2025-10-13T16:30:00.000Z") in
  (Actionable capped critical Critical High /\
   fst (processOne capped 1 critical s) = Ok false /\
   calls (tracker (snd (processOne capped 1 critical s))) = []) /\
  (~ In (severityThreshold (config misspelt)) severityLevels /\
   g_severity low = severityText Low /\
   fst (processOne misspelt 1 low s) = Ok true /\
   calls (tracker (snd (processOne misspelt 1 low s))) = [CallList; CallCreate]) /\
  (assoc (lit "constructor") (owasp_categories (mappings inheriting)) = None /\
   fst (processOne inheriting 1 critical s) = Ok true /\
   calls (tracker (snd (processOne inheriting 1 critical s))) = [CallList; CallCreate]).
Proof.
  intros s critical low capped misspelt inheriting. split; [|split].
  - split; [|split; vm_compute; reflexivity].
    split; [vm_compute; lia|]. split; [intros x []|].
    exists (lit "A03_injection"), Sample.injection.
    split; [vm_compute; reflexivity|].
    split; [intro H; discriminate H | vm_compute; reflexivity].
  - split; [|repeat split; vm_compute; reflexivity].
    intro H. vm_compute in H.
    repeat (destruct H as [H|H]; [discriminate H|]). exact H.
  - repeat split; vm_compute; reflexivity.
Qed.

(** ** Requests on a tracker that answers *)

Lemma request_ok c s :
  faults (tracker s) = [] ->
  request c s
  = (Ok tt, set_tracker (mkTracker (issues (tracker s)) (nextNumber (tracker s)) []
                                   (calls (tracker s) ++ [c])) s).
Proof. intros H. unfold request. now rewrite H. Qed.

Lemma findIssue_In n l j :
  NoDup (map i_number l) -> In j l -> i_number j = n -> findIssue n l = Some j.
Proof.
  unfold findIssue. induction l as [|a l IH]; simpl; intros ND Hin Hn; [contradiction|].
  inversion ND as [|? ? Hnot ND']; subst.
  destruct Hin as [->|Hin].
  - now rewrite N.eqb_refl.
  - destruct (N.eqb (i_number a) (i_number j)) eqn:E.
    + apply N.eqb_eq in E. exfalso. apply Hnot. rewrite E. now apply in_map.
    + now apply IH.
Qed.

Lemma findIssue_some n l j : findIssue n l = Some j -> In j l /\ i_number j = n.
Proof.
  unfold findIssue. intros H. apply find_some in H as [Hin E].
  apply N.eqb_eq in E. auto.
Qed.

Lemma updateIssueIn_numbers n f l :
  (forall i, i_number (f i) = i_number i) ->
  map i_number (updateIssueIn n f l) = map i_number l.
Proof.
  intros Hf. unfold updateIssueIn. rewrite map_map. apply map_ext.
  intros i. destruct (N.eqb _ _); [apply Hf | reflexivity].
Qed.

Lemma updateIssueIn_other n f l j :
  In j l -> i_number j <> n -> In j (updateIssueIn n f l).
Proof.
  intros Hin Hn. unfold updateIssueIn. apply in_map_iff. exists j. split; [|assumption].
  apply N.eqb_neq in Hn. now rewrite Hn.
Qed.

Lemma updateIssueIn_same n f l j :
  In j l -> i_number j = n -> In (f j) (updateIssueIn n f l).
Proof.
  intros Hin Hn. unfold updateIssueIn. apply in_map_iff. exists j. split; [|assumption].
  apply N.eqb_eq in Hn. now rewrite Hn.
Qed.

Lemma updateIssueIn_In n f l j' :
  In j' (updateIssueIn n f l) ->
  exists j, In j l /\ ((i_number j = n /\ j' = f j) \/ (i_number j <> n /\ j' = j)).
Proof.
  unfold updateIssueIn. intros H. apply in_map_iff in H as [j [E Hin]].
  exists j. split; [assumption|].
  destruct (N.eqb (i_number j) n) eqn:En.
  - left. apply N.eqb_eq in En. auto.
  - right. apply N.eqb_neq in En. auto.
Qed.

Lemma updateIssueIn_twice n f1 f2 l :
  (forall i, i_number (f1 i) = i_number i) ->
  updateIssueIn n f2 (updateIssueIn n f1 l) = updateIssueIn n (fun i => f2 (f1 i)) l.
Proof.
  intros Hf. unfold updateIssueIn. rewrite map_map. apply map_ext. intros i.
  destruct (N.eqb (i_number i) n) eqn:E.
  - now rewrite Hf, E.
  - now rewrite E.
Qed.

Lemma findIssue_update n f l j :
  (forall i, i_number (f i) = i_number i) ->
  findIssue n l = Some j -> findIssue n (updateIssueIn n f l) = Some (f j).
Proof.
  intros Hf. unfold findIssue, updateIssueIn.
  induction l as [|a l IH]; simpl; [discriminate|].
  destruct (N.eqb (i_number a) n) eqn:E.
  - intros H. injection H as <-. now rewrite Hf, E.
  - rewrite E. exact IH.
Qed.

(** A request on an issue the tracker holds goes through. *)
Lemma onIssue_ok c n f s j :
  faults (tracker s) = [] ->
  findIssue n (issues (tracker s)) = Some j ->
  onIssue c n f s
  = (Ok (f j),
     set_tracker (mkTracker (updateIssueIn n f (issues (tracker s)))
                            (nextNumber (tracker s)) [] (calls (tracker s) ++ [c])) s).
Proof.
  intros Hw Hf. unfold onIssue, bind at 1. rewrite (request_ok c s Hw).
  unfold bind, get, set_issues, modify, ret. cbn [tracker set_tracker issues].
  rewrite Hf. reflexivity.
Qed.

Lemma listForRepo_ok s :
  faults (tracker s) = [] ->
  listForRepo sentinel 100 s
  = (Ok (page (tracker s)),
     set_tracker (mkTracker (issues (tracker s)) (nextNumber (tracker s)) []
                            (calls (tracker s) ++ [CallList])) s).
Proof.
  intros Hw. unfold listForRepo, bind at 1. rewrite (request_ok _ s Hw).
  unfold bind, get, ret, page. reflexivity.
Qed.

Lemma In_firstn {A} (l : list A) n x : In x (firstn n l) -> In x l.
Proof.
  revert n; induction l as [|a l IH]; intros [|n]; simpl; try contradiction.
  intros [->|H]; [now left | right; eauto].
Qed.

Lemma page_listed t i : In i (page t) -> In i (issues t) /\ listed sentinel i = true.
Proof.
  unfold page. intros H. apply In_firstn in H. now apply filter_In in H.
Qed.


Lemma NoDup_map_firstn {A B} (f : A -> B) (l : list A) n :
  NoDup (map f l) -> NoDup (map f (firstn n l)).
Proof.
  revert n; induction l as [|a l IH]; intros [|n] ND; simpl; try constructor.
  - inversion ND as [|? ? Hnot ND']; subst. intros H. apply Hnot.
    apply in_map_iff in H as [x [E Hx]]. apply In_firstn in Hx.
    apply in_map_iff. now exists x.
  - inversion ND; subst. now apply IH.
Qed.

Lemma NoDup_map_filter (keep : Issue -> bool) (l : list Issue)
  (ND : NoDup (map i_number l)) : NoDup (map i_number (filter keep l)).
Proof.
  revert ND. induction l as [|a l IH]; simpl; intros ND; [constructor|].
  inversion ND as [|? ? Hnot ND']; subst.
  destruct (keep a); simpl; [|now apply IH].
  constructor; [|now apply IH].
  intros H. apply Hnot. apply in_map_iff in H as [x [E Hx]].
  apply filter_In in Hx as [Hx _]. apply in_map_iff. now exists x.
Qed.

Lemma page_numbers t :
  NoDup (map i_number (issues t)) -> NoDup (map i_number (page t)).
Proof. intros H. unfold page. now apply NoDup_map_firstn, NoDup_map_filter. Qed.

(** ** C2: the auto-close sweep *)

Lemma closeMark_number c i : i_number (closeMark c i) = i_number i.
Proof. reflexivity. Qed.

(** One turn of the sweep on an issue it leaves alone. *)
Lemma sweep_keep env cur i rest k s :
  isResolved (sweepVerdict cur i) = false ->
  exists s1,
    sweepLoop env cur (i :: rest) k s = sweepLoop env cur rest k s1 /\
    tracker s1 = tracker s /\ run s1 = run s /\ promptCache s1 = promptCache s.
Proof.
  intros Hv. cbn [sweepLoop].
  destruct (sweepVerdict cur i); try discriminate;
    unfold bind at 1, log, modify; eexists; (split; [reflexivity|]); repeat split.
Qed.

(** One turn of the sweep on an issue it closes. *)
Lemma sweep_close env cur i rest k s j :
  faults (tracker s) = [] ->
  findIssue (i_number i) (issues (tracker s)) = Some j ->
  isResolved (sweepVerdict cur i) = true ->
  exists s1 c,
    sweepLoop env cur (i :: rest) k s = sweepLoop env cur rest (S k) s1 /\
    faults (tracker s1) = [] /\
    issues (tracker s1) = updateIssueIn (i_number i) (closeMark c) (issues (tracker s)) /\
    run s1 = run s /\
    nextNumber (tracker s1) = nextNumber (tracker s) /\
    promptCache s1 = promptCache s.
Proof.
  intros Hw Hf Hv. cbn [sweepLoop].
  destruct (sweepVerdict cur i) as [| | |ruleId filePath lines|]; try discriminate.
  set (n := i_number i) in *.
  unfold bind at 1, log at 1, modify.
  set (s0 := set_logs _ s).
  assert (Hw0 : faults (tracker s0) = []) by exact Hw.
  assert (Hf0 : findIssue n (issues (tracker s0)) = Some j) by exact Hf.
  unfold bind at 1, issuesClose. rewrite (onIssue_ok _ n _ s0 j Hw0 Hf0).
  set (f1 := fun i0 : Issue => mkIssue (i_number i0) (i_title i0) (i_body i0) (i_labels i0)
                                 StClosed (i_assignees i0) (i_comments i0)).
  set (s1 := set_tracker _ s0).
  unfold bind at 1, now.
  set (s2 := set_clock _ s1).
  set (c := closingComment env ruleId filePath (isoTime env (clock s1)) (length lines)).
  assert (Hw2 : faults (tracker s2) = []) by reflexivity.
  assert (Hf2 : findIssue n (issues (tracker s2)) = Some (f1 j)).
  { apply findIssue_update; [reflexivity | exact Hf]. }
  unfold bind at 1, issuesCreateComment. rewrite (onIssue_ok _ n _ s2 _ Hw2 Hf2).
  set (f2 := fun i0 : Issue => mkIssue (i_number i0) (i_title i0) (i_body i0) (i_labels i0)
                                 (i_state i0) (i_assignees i0) (i_comments i0 ++ [c])).
  set (s3 := set_tracker _ s2).
  assert (Hw3 : faults (tracker s3) = []) by reflexivity.
  assert (Hf3 : findIssue n (issues (tracker s3)) = Some (f2 (f1 j))).
  { apply (findIssue_update n f2 (updateIssueIn n f1 (issues (tracker s)))); [reflexivity|].
    apply findIssue_update; [reflexivity | exact Hf]. }
  unfold bind at 1, issuesAddLabels. rewrite (onIssue_ok _ n _ s3 _ Hw3 Hf3).
  eexists _, c. split; [reflexivity|]. split; [reflexivity|].
  split; [|repeat split].
  cbn [tracker set_tracker issues s3 s2 s1 s0 set_clock set_logs].
  rewrite !updateIssueIn_twice by reflexivity. reflexivity.
Qed.

Lemma resolvedNumbers_cons cur i rest :
  resolvedNumbers cur (i :: rest)
  = if isResolved (sweepVerdict cur i) then i_number i :: resolvedNumbers cur rest
    else resolvedNumbers cur rest.
Proof. unfold resolvedNumbers. simpl. now destruct (isResolved _). Qed.

(** The sweep over a page: it returns, the issues it judges resolved end
    up closed, and every other issue of the tracker is left as it was. *)
Lemma sweepLoop_spec env cur : forall l k s,
  faults (tracker s) = [] ->
  NoDup (map i_number (issues (tracker s))) ->
  NoDup (map i_number l) ->
  (forall i, In i l -> In i (issues (tracker s))) ->
  exists s',
    sweepLoop env cur l k s
    = (Ok (k + length (resolvedNumbers cur l)), s') /\
    faults (tracker s') = [] /\
    (run s' = run s /\ nextNumber (tracker s') = nextNumber (tracker s) /\
     promptCache s' = promptCache s) /\
    map i_number (issues (tracker s')) = map i_number (issues (tracker s)) /\
    (forall j, In j (issues (tracker s)) ->
               ~ In (i_number j) (resolvedNumbers cur l) -> In j (issues (tracker s'))) /\
    (forall j, In j (issues (tracker s)) ->
               In (i_number j) (resolvedNumbers cur l) ->
               exists c, In (closeMark c j) (issues (tracker s'))).
Proof.
  induction l as [|i rest IH]; intros k s Hw ND NDl Hsub.
  - exists s. simpl. rewrite Nat.add_0_r. repeat split; auto.
    intros j _ [].
  - inversion NDl as [|? ? Hnot NDrest]; subst.
    rewrite resolvedNumbers_cons.
    destruct (isResolved (sweepVerdict cur i)) eqn:Hv.
    + (* closed *)
      assert (Hi : In i (issues (tracker s))) by (apply Hsub; now left).
      pose proof (findIssue_In (i_number i) _ i ND Hi eq_refl) as Hf.
      destruct (sweep_close env cur i rest k s i Hw Hf Hv)
        as [s1 [c [E [Hw1 [Hiss [Hrun [Hnext Hcache]]]]]]].
      assert (ND1 : NoDup (map i_number (issues (tracker s1)))).
      { rewrite Hiss, updateIssueIn_numbers; [assumption | reflexivity]. }
      assert (Hsub1 : forall x, In x rest -> In x (issues (tracker s1))).
      { intros x Hx. rewrite Hiss. apply updateIssueIn_other; [apply Hsub; now right|].
        intro En. apply Hnot. rewrite <- En. now apply in_map. }
      destruct (IH (S k) s1 Hw1 ND1 NDrest Hsub1)
        as [s' [E' [Hw' [Hrun' [Hnum [Hkeep Hclose]]]]]].
      exists s'. rewrite E, E'. cbn [length]. split; [f_equal; f_equal; lia|].
      split; [assumption|].
      split; [destruct Hrun' as [? [? ?]]; repeat split; congruence|]. split.
      { rewrite Hnum, Hiss. apply updateIssueIn_numbers. reflexivity. }
      split.
      * intros j Hj Hn. apply Hkeep.
        -- rewrite Hiss. apply updateIssueIn_other; [assumption|].
           intro En. apply Hn. left. now rewrite En.
        -- intro H. apply Hn. now right.
      * intros j Hj [En|Hn].
        -- exists c. apply Hkeep.
           ++ rewrite Hiss. apply updateIssueIn_same; [assumption | now rewrite En].
           ++ rewrite closeMark_number, <- En.
              intro H. apply Hnot. unfold resolvedNumbers in H.
              apply in_map_iff in H as [x [Ex Hx]]. apply filter_In in Hx as [Hx _].
              apply in_map_iff. now exists x.
        -- assert (Hne : i_number j <> i_number i).
           { intro En. apply Hnot. rewrite <- En. unfold resolvedNumbers in Hn.
             apply in_map_iff in Hn as [x [Ex Hx]]. apply filter_In in Hx as [Hx _].
             apply in_map_iff. now exists x. }
           apply Hclose; [|assumption].
           rewrite Hiss. now apply updateIssueIn_other.
    + (* kept *)
      destruct (sweep_keep env cur i rest k s Hv) as [s1 [E [Ht [Hr Hc]]]].
      assert (Hw1 : faults (tracker s1) = []) by now rewrite Ht.
      assert (ND1 : NoDup (map i_number (issues (tracker s1)))) by now rewrite Ht.
      assert (Hsub1 : forall x, In x rest -> In x (issues (tracker s1))).
      { intros x Hx. rewrite Ht. apply Hsub. now right. }
      destruct (IH k s1 Hw1 ND1 NDrest Hsub1)
        as [s' [E' [Hw' [Hrun' [Hnum [Hkeep Hclose]]]]]].
      exists s'. rewrite E, E'. rewrite Ht in *.
      destruct Hrun' as [? [? ?]]. repeat split; auto; congruence.
Qed.

Lemma NoDup_map_inj {A B} (f : A -> B) (l : list A) x y :
  NoDup (map f l) -> In x l -> In y l -> f x = f y -> x = y.
Proof.
  induction l as [|a l IH]; simpl; intros ND Hx Hy E; [contradiction|].
  inversion ND as [|? ? Hnot ND']; subst.
  destruct Hx as [->|Hx], Hy as [->|Hy]; auto.
  - exfalso. apply Hnot. rewrite E. now apply in_map.
  - exfalso. apply Hnot. rewrite <- E. now apply in_map.
Qed.



Lemma resolvedNumbers_page cur l i :
  NoDup (map i_number l) -> In i l ->
  In (i_number i) (resolvedNumbers cur l) <-> isResolved (sweepVerdict cur i) = true.
Proof.
  intros ND Hin. unfold resolvedNumbers. rewrite in_map_iff. split.
  - intros [x [E Hx]]. apply filter_In in Hx as [Hx Hv].
    now rewrite <- (NoDup_map_inj i_number l x i ND Hx Hin E).
  - intros Hv. exists i. split; [reflexivity|]. apply filter_In. auto.
Qed.

(** A sweep that finds nothing resolved leaves the tracker as it is. *)
Lemma sweepLoop_idle env cur : forall l k s,
  resolvedNumbers cur l = [] ->
  exists s', sweepLoop env cur l k s = (Ok k, s') /\ tracker s' = tracker s.
Proof.
  induction l as [|i rest IH]; intros k s Hnone.
  - now exists s.
  - rewrite resolvedNumbers_cons in Hnone.
    destruct (isResolved (sweepVerdict cur i)) eqn:Hv; [discriminate|].
    destruct (sweep_keep env cur i rest k s Hv) as [s1 [E [Ht _]]].
    destruct (IH k s1 Hnone) as [s' [E' Ht']].
    exists s'. rewrite E. split; [exact E' | congruence].
Qed.

(** The sweep as a whole, on a tracker that answers. *)
Lemma autoClose_spec env cur s :
  faults (tracker s) = [] ->
  NoDup (map i_number (issues (tracker s))) ->
  exists s',
    autoCloseResolvedIssues env cur s
    = (Ok (length (resolvedNumbers cur (page (tracker s)))), s') /\
    faults (tracker s') = [] /\
    (run s' = run s /\ nextNumber (tracker s') = nextNumber (tracker s) /\
     promptCache s' = promptCache s) /\
    Swept cur (issues (tracker s)) (issues (tracker s')) /\
    (resolvedNumbers cur (page (tracker s)) = [] ->
     issues (tracker s') = issues (tracker s)).
Proof.
  intros Hw ND. unfold autoCloseResolvedIssues, try_catch, bind at 1.
  rewrite (listForRepo_ok s Hw). unfold bind at 1, log, modify.
  set (s0 := set_logs _ _).
  assert (Hp : page (tracker s) = page (tracker s0)) by reflexivity.
  destruct (sweepLoop_spec env cur (page (tracker s)) 0 s0)
    as [s' [E [Hw' [Hr [Hn [Hk Hc]]]]]]; try assumption.
  - reflexivity.
  - now apply page_numbers.
  - intros i Hi. now apply page_listed in Hi as [Hi _].
  - exists s'. rewrite E. split; [reflexivity|]. split; [assumption|].
    split; [exact Hr|]. split; [now repeat split|].
    intros Hnone.
    destruct (sweepLoop_idle env cur (page (tracker s)) 0 s0 Hnone) as [s'' [E'' Ht]].
    rewrite E in E''. injection E'' as _ <-. now rewrite Ht.
Qed.



(** ** Prompts are a function of the environment *)

Lemma sep_inj (d : N) (a a' b b' : jsstring) :
  ~ In d a -> ~ In d a' -> a ++ [d] ++ b = a' ++ [d] ++ b' -> a = a' /\ b = b'.
Proof.
  revert a'; induction a as [|c a IH]; intros [|c' a'] H H' E; simpl in *.
  - injection E as ->. auto.
  - injection E as <- _. exfalso. apply H'. now left.
  - injection E as -> _. exfalso. apply H. now left.
  - injection E as -> E. destruct (IH a') as [-> ->]; auto.
Qed.

Lemma categories_no_slash c : In c categories -> ~ In 47%N c.
Proof.
  intros [<-|[<-|[<-|[]]]]; vm_compute; intuition discriminate.
Qed.

Lemma cacheKey_inj c f c' f' :
  In c categories -> In c' categories ->
  c ++ lit "/" ++ f = c' ++ lit "/" ++ f' -> c = c' /\ f = f'.
Proof.
  intros Hc Hc'. change (lit "/") with [47%N].
  apply sep_inj; now apply categories_no_slash.
Qed.

Lemma cacheOk_add env cache c f v :
  CacheOk env cache -> In c categories -> v = pureFetch env c f ->
  CacheOk env ((c ++ lit "/" ++ f, v) :: cache).
Proof.
  intros Hok Hc Hv c' f' v' Hc' H. cbn [assoc] in H.
  destruct (str_eqb (c ++ lit "/" ++ f) (c' ++ lit "/" ++ f')) eqn:E.
  - apply str_eqb_eq in E. destruct (cacheKey_inj _ _ _ _ Hc Hc' E) as [<- <-].
    injection H as <-. exact Hv.
  - eapply Hok; eauto.
Qed.

Lemma fetchPrompt_pure env c f s :
  In c categories -> CacheOk env (promptCache s) ->
  exists s',
    fetchPrompt env c f s = (Ok (pureFetch env c f), s') /\
    tracker s' = tracker s /\ run s' = run s /\ CacheOk env (promptCache s').
Proof.
  intros Hc Hok. unfold fetchPrompt, bind at 1, get.
  destruct (assoc (c ++ lit "/" ++ f) (promptCache s)) as [cached|] eqn:Ec.
  - rewrite (Hok _ _ _ Hc Ec).
    unfold bind, log, modify, ret. eexists. split; [reflexivity|]. now repeat split.
  - assert (Hp : forall v, v = pureFetch env c f ->
                CacheOk env ((c ++ lit "/" ++ f, v) :: promptCache s)).
    { intros v Hv. now apply cacheOk_add. }
    revert Hp. unfold pureFetch.
    destruct (match assoc c (promptHashes env) with
              | Some files => assoc f files | None => None end) as [[|h hs]|]; intros Hp.
    + unfold bind, log, modify, ret. eexists. split; [reflexivity|]. now repeat split.
    + unfold verifyPromptUrl.
      assert (E1 : str_eqb (lit "https:") (lit "https:") = true) by apply str_eqb_refl.
      assert (E2 : arr_includes [lit "raw.githubusercontent.com"]
                                (lit "raw.githubusercontent.com") = true).
      { apply arr_includes_In. now left. }
      rewrite E1, E2. cbn [negb].
      unfold bind at 1, ret at 1. cbn [negb].
      unfold bind at 1, log at 1, modify.
      revert Hp.
      destruct (httpGet env _) as [content| |msg]; intros Hp.
      * revert Hp.
        destruct (verifyPromptIntegrity env content (h :: hs)) eqn:Ev; intros Hp; cbn [negb].
        -- unfold bind, cacheSet, log, modify, ret. cbn [promptCache set_logs set_promptCache].
           eexists. split; [reflexivity|]. repeat split. now apply Hp.
        -- unfold bind, log, modify, ret. eexists. split; [reflexivity|]. now repeat split.
      * unfold bind, cacheSet, log, modify, ret. cbn [promptCache set_logs set_promptCache].
        eexists. split; [reflexivity|]. repeat split. now apply Hp.
      * unfold bind, cacheSet, log, modify, ret. cbn [promptCache set_logs set_promptCache].
        eexists. split; [reflexivity|]. repeat split. now apply Hp.
    + unfold bind, log, modify, ret. eexists. split; [reflexivity|]. now repeat split.
Qed.

Lemma fetchAll_pure env c files : forall s,
  In c categories -> CacheOk env (promptCache s) ->
  exists s',
    fetchAll env c files s = (Ok (pureFetchAll env c files), s') /\
    tracker s' = tracker s /\ run s' = run s /\ CacheOk env (promptCache s').
Proof.
  induction files as [|f files IH]; intros s Hc Hok.
  - exists s. now repeat split.
  - cbn [fetchAll pureFetchAll]. unfold bind at 1.
    destruct (fetchPrompt_pure env c f s Hc Hok) as [s1 [E1 [T1 [R1 Ok1]]]].
    rewrite E1. unfold bind at 1.
    destruct (IH s1 Hc Ok1) as [s2 [E2 [T2 [R2 Ok2]]]]. rewrite E2.
    exists s2. split; [|split; [congruence | split; [congruence | exact Ok2]]].
    destruct (pureFetch env c f) as [[|x xs]|]; reflexivity.
Qed.

Lemma detectLoop_pure ruleId text entries : forall acc s,
  exists s',
    detectLoop ruleId text entries acc s = (Ok (detectedIn text entries acc), s') /\
    Kept s s'.
Proof.
  induction entries as [|[k t] entries IH]; intros acc s.
  - exists s. now repeat split.
  - cbn [detectLoop detectedIn]. destruct (triggerFires text t).
    + unfold bind at 1, log, modify.
      match goal with |- context [detectLoop _ _ _ ?a ?st] =>
        destruct (IH a st) as [s' [E [T [R C]]]] end.
      exists s'. split; [exact E|]. now repeat split.
    + apply IH.
Qed.

Lemma detect_pure env g s :
  exists s',
    detectMaintainabilityConcerns env g s = (Ok (detectedConcerns env g), s') /\
    Kept s s'.
Proof.
  unfold detectMaintainabilityConcerns, detectedConcerns.
  destruct (negb _).
  - exists s. now repeat split.
  - apply detectLoop_pure.
Qed.

Lemma gatherPrompts_pure env g info s :
  CacheOk env (promptCache s) ->
  exists s',
    gatherPrompts env g info s = (Ok (promptsFor env g info), s') /\
    tracker s' = tracker s /\ run s' = run s /\ CacheOk env (promptCache s').
Proof.
  intros Hok. unfold gatherPrompts, promptsFor.
  assert (Co : In (lit "owasp") categories) by (left; reflexivity).
  assert (Cm : In (lit "maintainability") categories) by (right; left; reflexivity).
  assert (Ct : In (lit "threat-modeling") categories) by (right; right; left; reflexivity).
  unfold bind at 1.
  destruct (fetchAll_pure env _ [c_prompt_file (oi_category info)] s Co Hok)
    as [s1 [E1 [T1 [R1 Ok1]]]]. rewrite E1.
  unfold bind at 1.
  destruct (detect_pure env g s1) as [s2 [E2 [T2 [R2 C2]]]]. rewrite E2.
  assert (Ok2 : CacheOk env (promptCache s2)) by now rewrite C2.
  unfold bind at 1.
  destruct (fetchAll_pure env _
              (addMapped (detectedConcerns env g) (c_maintainability (oi_category info)))
              s2 Cm Ok2) as [s3 [E3 [T3 [R3 Ok3]]]]. rewrite E3.
  unfold bind at 1.
  destruct (enableThreatModel (config env)).
  - destruct (c_threat_model (oi_category info)) as [l|].
    + destruct (fetchAll_pure env _ (map (fun t => t ++ dotMd) l) s3 Ct Ok3)
        as [s4 [E4 [T4 [R4 Ok4]]]]. rewrite E4.
      exists s4. split; [reflexivity|].
      split; [congruence | split; [congruence | exact Ok4]].
    + exists s3. split; [reflexivity|].
      split; [congruence | split; [congruence | exact Ok3]].
  - exists s3. split; [reflexivity|].
    split; [congruence | split; [congruence | exact Ok3]].
Qed.

(** ** Create or update on a tracker that answers *)

Lemma matchesFinding_carries g i : matchesFinding g i = carries g (i_body i).
Proof. reflexivity. Qed.

Lemma findExistingIssue_ok g s :
  faults (tracker s) = [] ->
  exists s',
    findExistingIssue g s = (Ok (find (matchesFinding g) (page (tracker s))), s') /\
    issues (tracker s') = issues (tracker s) /\
    nextNumber (tracker s') = nextNumber (tracker s) /\
    faults (tracker s') = [] /\
    run s' = run s /\ promptCache s' = promptCache s.
Proof.
  intros Hw. unfold findExistingIssue, try_catch, bind at 1, log at 1, modify.
  set (s0 := set_logs _ s).
  assert (Hw0 : faults (tracker s0) = []) by exact Hw.
  unfold bind at 1. rewrite (listForRepo_ok s0 Hw0).
  change (page (tracker s0)) with (page (tracker s)).
  destruct (find (matchesFinding g) (page (tracker s))) as [x|];
    unfold bind, log, modify, ret; eexists; (split; [reflexivity|]); now repeat split.
Qed.

Lemma createOrUpdate_update env g body labels s x :
  faults (tracker s) = [] ->
  NoDup (map i_number (issues (tracker s))) ->
  find (matchesFinding g) (page (tracker s)) = Some x ->
  exists s' c issue,
    createOrUpdateIssue env g body labels s = (Ok (issue, ActUpdated), s') /\
    issues (tracker s')
    = updateIssueIn (i_number x) (rewritten body labels c) (issues (tracker s)) /\
    nextNumber (tracker s') = nextNumber (tracker s) /\
    faults (tracker s') = [] /\
    run s' = run s /\ promptCache s' = promptCache s.
Proof.
  intros Hw ND Hfind. unfold createOrUpdateIssue, bind at 1.
  destruct (findExistingIssue_ok g s Hw) as [s0 [E0 [I0 [N0 [W0 [R0 C0]]]]]].
  rewrite E0, Hfind.
  assert (Hx : In x (issues (tracker s))).
  { apply find_some in Hfind as [Hp _]. now apply page_listed in Hp as [Hp _]. }
  set (n := i_number x).
  unfold try_catch, bind at 1, log at 1, modify.
  set (s1 := set_logs _ s0).
  assert (W1 : faults (tracker s1) = []) by exact W0.
  assert (F1 : findIssue n (issues (tracker s1)) = Some x).
  { change (issues (tracker s1)) with (issues (tracker s0)). rewrite I0.
    now apply findIssue_In. }
  unfold bind at 1, issuesUpdate. rewrite (onIssue_ok _ n _ s1 x W1 F1).
  set (f1 := fun i : Issue => mkIssue (i_number i) (i_title i) body labels (i_state i)
                                (i_assignees i) (i_comments i)).
  set (s2 := set_tracker _ s1).
  unfold bind at 1, now.
  set (s3 := set_clock _ s2).
  set (c := updateComment env (isoTime env (clock s2))).
  assert (W3 : faults (tracker s3) = []) by reflexivity.
  assert (F3 : findIssue n (issues (tracker s3)) = Some (f1 x)).
  { apply (findIssue_update n f1 (issues (tracker s1))); [reflexivity | exact F1]. }
  unfold bind at 1, issuesCreateComment. rewrite (onIssue_ok _ n _ s3 _ W3 F3).
  unfold bind, log, modify, ret.
  eexists _, c, _. split; [reflexivity|].
  cbn [tracker set_tracker set_logs set_clock issues nextNumber faults run promptCache
       s3 s2 s1].
  split; [|repeat split; assumption].
  rewrite updateIssueIn_twice by reflexivity. rewrite I0. reflexivity.
Qed.

Lemma createOrUpdate_create env g body labels s :
  faults (tracker s) = [] ->
  find (matchesFinding g) (page (tracker s)) = None ->
  exists s',
    createOrUpdateIssue env g body labels s
    = (Ok (mkIssue (nextNumber (tracker s)) (createIssueTitle g) body labels StOpen
                   (autoAssign (config env)) [], ActCreated), s') /\
    issues (tracker s')
    = mkIssue (nextNumber (tracker s)) (createIssueTitle g) body labels StOpen
              (autoAssign (config env)) [] :: issues (tracker s) /\
    nextNumber (tracker s') = (nextNumber (tracker s) + 1)%N /\
    faults (tracker s') = [] /\
    run s' = run s /\ promptCache s' = promptCache s.
Proof.
  intros Hw Hfind. unfold createOrUpdateIssue, bind at 1.
  destruct (findExistingIssue_ok g s Hw) as [s0 [E0 [I0 [N0 [W0 [R0 C0]]]]]].
  rewrite E0, Hfind.
  unfold try_catch, bind at 1, log at 1, modify.
  set (s1 := set_logs _ s0).
  assert (W1 : faults (tracker s1) = []) by exact W0.
  unfold bind at 1, issuesCreate, bind at 1. rewrite (request_ok _ s1 W1).
  unfold bind, get, log, modify, ret.
  cbn [tracker set_tracker set_logs issues nextNumber faults calls run promptCache s1].
  rewrite I0, N0.
  eexists. split; [reflexivity|]. cbn [tracker issues nextNumber faults run promptCache].
  repeat split; assumption.
Qed.

(** ** The processing loop on a tracker that answers *)

Lemma createIssueBody_kept env g prompts s :
  exists s',
    createIssueBody env g prompts s
    = (Ok (issueBodyText (config env) (isoTime env (clock s)) g prompts), s') /\
    Kept s s'.
Proof.
  rewrite createIssueBody_text. eexists. split; [reflexivity|].
  destruct (Nat.ltb _ _); now repeat split.
Qed.

Lemma recordAction_run g a s :
  recordAction g a s
  = (Ok tt,
     set_run (mkRun (match a with
                     | ActCreated => addCreated (results (run s))
                     | ActUpdated => addUpdated (results (run s))
                     end)
                    (processedCount (run s) + 1)
                    (addKeys g (currentVulnerabilities (run s)))) s).
Proof.
  unfold recordAction, trackOccurrences, incProcessed, modifyResults, modifyRun, modify, bind.
  destruct a; destruct s; reflexivity.
Qed.

(** One turn of the loop on a grouped finding that is reconciled. *)
Lemma processOne_selected env cnt g s info :
  Ready env s ->
  capReached (config env) (processedCount (run s)) = false ->
  filterStage env g = inr info ->
  exists s' n,
    processOne env cnt g s = (Ok true, s') /\
    Ready env s' /\
    processedCount (run s') = S (processedCount (run s)) /\
    currentVulnerabilities (run s') = addKeys g (currentVulnerabilities (run s)) /\
    errors (results (run s')) = errors (results (run s)) /\
    ((exists x c,
         find (matchesFinding g) (page (tracker s)) = Some x /\
         issues (tracker s')
         = updateIssueIn (i_number x)
             (rewritten (bodyFor env n g info) (labelsFor env g info) c)
             (issues (tracker s)) /\
         created (results (run s')) = created (results (run s)) /\
         updated (results (run s')) = S (updated (results (run s)))) \/
     (find (matchesFinding g) (page (tracker s)) = None /\
      issues (tracker s')
      = mkIssue (nextNumber (tracker s)) (createIssueTitle g) (bodyFor env n g info)
                (labelsFor env g info) StOpen (autoAssign (config env)) []
        :: issues (tracker s) /\
      created (results (run s')) = S (created (results (run s))) /\
      updated (results (run s')) = updated (results (run s)))).
Proof.
  intros [Hw ND Hfresh Hcache] Hcap Hstage.
  rewrite (processOne_stage env cnt g s Hcap), Hstage.
  unfold try_catch, bind at 1, reconcile.
  unfold bind at 1, modifyResults at 1, modifyRun, modify.
  set (s1 := set_run _ (counted g s)).
  unfold bind at 1, log at 1, modify.
  set (s2 := set_logs _ s1).
  assert (Hc2 : CacheOk env (promptCache s2)) by exact Hcache.
  unfold bind at 1.
  destruct (gatherPrompts_pure env g info s2 Hc2) as [s3 [E3 [T3 [R3 C3]]]].
  rewrite E3. cbn [fst snd].
  unfold bind at 1.
  destruct (createIssueBody_kept env g (fst (promptsFor env g info)) s3)
    as [s4 [E4 [T4 [R4 C4]]]].
  rewrite E4.
  fold (bodyFor env (clock s3) g info). fold (labelsFor env g info).
  assert (T : tracker s4 = tracker s) by (rewrite T4, T3; reflexivity).
  assert (Hw4 : faults (tracker s4) = []) by now rewrite T.
  assert (ND4 : NoDup (map i_number (issues (tracker s4)))) by now rewrite T.
  assert (Rn : run s4 = run s1) by (rewrite R4, R3; reflexivity).
  unfold bind at 1.
  destruct (find (matchesFinding g) (page (tracker s))) as [x|] eqn:Hfind.
  - assert (Hfind4 : find (matchesFinding g) (page (tracker s4)) = Some x) by now rewrite T.
    destruct (createOrUpdate_update env g (bodyFor env (clock s3) g info)
                (labelsFor env g info) s4 x Hw4 ND4 Hfind4)
      as [s5 [c [issue [E5 [I5 [N5 [W5 [R5 C5]]]]]]]].
    rewrite E5. cbn [snd]. rewrite recordAction_run. unfold ret.
    rewrite T in I5, N5.
    assert (R : run s5 = run s1) by congruence.
    eexists _, (clock s3). split; [reflexivity|].
    cbn [run set_run tracker promptCache results processedCount currentVulnerabilities].
    rewrite R.
    split.
    { constructor; cbn [tracker set_run promptCache].
      - assumption.
      - rewrite I5, updateIssueIn_numbers; [assumption | reflexivity].
      - intros i Hi. rewrite I5 in Hi. rewrite N5.
        apply updateIssueIn_In in Hi as [j [Hj [[En ->]|[_ ->]]]]; exact (Hfresh j Hj).
      - rewrite C5, C4. exact C3. }
    split; [cbn; lia|]. split; [reflexivity|]. split; [reflexivity|].
    left. exists x, c. repeat split; [exact I5 | cbn; lia].
  - assert (Hfind4 : find (matchesFinding g) (page (tracker s4)) = None) by now rewrite T.
    destruct (createOrUpdate_create env g (bodyFor env (clock s3) g info)
                (labelsFor env g info) s4 Hw4 Hfind4)
      as [s5 [E5 [I5 [N5 [W5 [R5 C5]]]]]].
    rewrite E5. cbn [snd]. rewrite recordAction_run. unfold ret.
    rewrite T in I5, N5.
    assert (R : run s5 = run s1) by congruence.
    eexists _, (clock s3). split; [reflexivity|].
    cbn [run set_run tracker promptCache results processedCount currentVulnerabilities].
    rewrite R.
    split.
    { constructor; cbn [tracker set_run promptCache].
      - assumption.
      - rewrite I5. cbn [map i_number]. constructor; [|assumption].
        intros H. apply in_map_iff in H as [j [En Hj]]. apply Hfresh in Hj. lia.
      - intros i Hi. rewrite I5 in Hi. rewrite N5. destruct Hi as [<-|Hi].
        + cbn [i_number]. lia.
        + apply Hfresh in Hi. lia.
      - rewrite C5, C4. exact C3. }
    split; [cbn; lia|]. split; [reflexivity|]. split; [reflexivity|].
    right. repeat split; [exact I5 | cbn; lia].
Qed.

(** One turn of the loop when the cap is reached. *)
Lemma processOne_capped env cnt g s :
  capReached (config env) (processedCount (run s)) = true ->
  exists s',
    processOne env cnt g s = (Ok false, s') /\
    tracker s' = tracker s /\ promptCache s' = promptCache s /\
    processedCount (run s') = processedCount (run s) /\
    currentVulnerabilities (run s') = currentVulnerabilities (run s) /\
    errors (results (run s')) = errors (results (run s)) /\
    created (results (run s')) = created (results (run s)) /\
    updated (results (run s')) = updated (results (run s)).
Proof.
  intros Hcap. unfold processOne, try_catch, bind at 1, get. rewrite Hcap.
  unfold bind, log, modifyResults, modifyRun, modify, ret.
  eexists. split; [reflexivity|]. now repeat split.
Qed.

Lemma processLoop_steps env cnt gs : forall s,
  Ready env s ->
  exists s' cr up,
    processLoop env cnt gs s = (Ok tt, s') /\
    Ready env s' /\
    Steps env (processedCount (run s)) gs (issues (tracker s)) (issues (tracker s'))
          cr up (currentVulnerabilities (run s)) (currentVulnerabilities (run s')) /\
    created (results (run s')) = created (results (run s)) + cr /\
    updated (results (run s')) = updated (results (run s)) + up /\
    errors (results (run s')) = errors (results (run s)).
Proof.
  induction gs as [|g gs IH]; intros s Hready.
  - exists s, 0, 0. split; [reflexivity|]. split; [assumption|].
    split; [constructor|]. repeat split; try lia; reflexivity.
  - cbn [processLoop]. unfold bind at 1.
    destruct (capReached (config env) (processedCount (run s))) eqn:Hcap.
    + destruct (processOne_capped env cnt g s Hcap) as [s1 [E [T [C [P [V [Er [Cr Up]]]]]]]].
      rewrite E. exists s1, 0, 0. split; [reflexivity|]. split.
      { destruct Hready as [Hw ND Hf Hc]. constructor; rewrite ?T, ?C; assumption. }
      rewrite T, V. split; [now constructor|]. repeat split; try lia; assumption.
    + destruct (filterStage env g) as [why|info] eqn:Hstage.
      * rewrite (processOne_stage env cnt g s Hcap), Hstage.
        set (s1 := rejected env g why s).
        assert (R1 : Ready env s1).
        { destruct Hready as [Hw ND Hf Hc]. constructor; assumption. }
        destruct (IH s1 R1) as [s' [cr [up [E [R' [St [Cr [Up Er]]]]]]]].
        exists s', cr, up. split; [exact E|]. split; [assumption|].
        split; [eapply Steps_skip; eauto|].
        cbn in Cr, Up, Er. repeat split; assumption.
      * destruct (processOne_selected env cnt g s info Hready Hcap Hstage)
          as [s1 [n [E [R1 [P [V [Er Hcase]]]]]]].
        rewrite E.
        destruct (IH s1 R1) as [s' [cr [up [E' [R' [St [Cr [Up Er']]]]]]]].
        rewrite P, V in St.
        destruct Hcase as [[x [c [Hfind [I1 [C1 U1]]]]] | [Hfind [I1 [C1 U1]]]].
        -- exists s', cr, (S up). split; [exact E'|]. split; [assumption|].
           split.
           { eapply Steps_update; eauto. rewrite <- I1. exact St. }
           repeat split; try lia; congruence.
        -- exists s', (S cr), up. split; [exact E'|]. split; [assumption|].
           split.
           { eapply Steps_create; eauto.
             - destruct Hready as [_ _ Hf _]. exact Hf.
             - rewrite <- I1. exact St. }
           repeat split; try lia; congruence.
Qed.

(** ** A whole run on a tracker that answers *)

Lemma processFindings_spec env findings s :
  Ready env s ->
  exists res s' t1 cr up live,
    processFindings env findings s = (Ok res, s') /\
    faults (tracker s') = [] /\
    Steps env 0 (groupFindingsByRuleAndFile findings) (issues (tracker s)) t1 cr up [] live /\
    NoDup (map i_number t1) /\
    (forall i, In i t1 -> (i_number i < nextNumber (tracker s'))%N) /\
    Swept live t1 (issues (tracker s')) /\
    (resolvedNumbers live (pageOf t1) = [] -> issues (tracker s') = t1) /\
    created res = cr /\ updated res = up /\ errors res = [].
Proof.
  intros [Hw ND Hf Hc]. unfold processFindings. cbv zeta.
  unfold bind at 1, modifyRun at 1, modify.
  set (s0 := set_run _ s).
  unfold bind at 1, log at 1, modify.
  unfold bind at 1, log at 1, modify.
  set (st := set_logs _ (set_logs _ s0)).
  assert (R0 : Ready env st) by (constructor; assumption).
  destruct (processLoop_steps env (length (groupFindingsByRuleAndFile findings))
              (groupFindingsByRuleAndFile findings) st R0)
    as [s1 [cr [up [E1 [R1 [St [Cr [Up Er]]]]]]]].
  unfold bind at 1. rewrite E1.
  unfold bind at 1, log at 1, modify.
  unfold bind at 1, get.
  set (s2 := set_logs _ s1).
  destruct R1 as [Hw1 ND1 Hf1 Hc1].
  assert (Hw2 : faults (tracker s2) = []) by exact Hw1.
  assert (ND2 : NoDup (map i_number (issues (tracker s2)))) by exact ND1.
  destruct (autoClose_spec env (currentVulnerabilities (run s2)) s2 Hw2 ND2)
    as [s3 [E3 [Hw3 [[R3 [N3 C3]] [Sw Idle]]]]].
  unfold bind at 1, try_catch, bind at 1. rewrite E3.
  unfold bind, modifyResults, modifyRun, log, modify, get, ret.
  cbn [run set_run set_logs tracker results].
  eexists _, _, (issues (tracker s1)), cr, up, (currentVulnerabilities (run s1)).
  split; [reflexivity|]. cbn [tracker set_logs set_run].
  split; [assumption|].
  split; [exact St|]. split; [exact ND1|].
  split; [intros i Hi; rewrite N3; now apply Hf1|].
  split; [exact Sw|]. split; [exact Idle|].
  rewrite R3. cbn [created updated errors setClosed].
  change (run s2) with (run s1).
  cbn in Cr, Up, Er. repeat split; assumption.
Qed.

(** ** What the loop does to the issues *)

Lemma labelsFor_sentinel env g info : arr_includes (labelsFor env g info) sentinel = true.
Proof. apply arr_includes_In. unfold labelsFor, generateLabels. now left. Qed.

Lemma selected_step env pc g gs info :
  capReached (config env) pc = false -> filterStage env g = inr info ->
  selected env pc (g :: gs) = (g, info) :: selected env (S pc) gs.
Proof. intros Hc Hs. cbn [selected]. now rewrite Hc, Hs. Qed.

Lemma selected_skip env pc g gs why :
  capReached (config env) pc = false -> filterStage env g = inl why ->
  selected env pc (g :: gs) = selected env pc gs.
Proof. intros Hc Hs. cbn [selected]. now rewrite Hc, Hs. Qed.

Lemma selected_capped env pc g gs :
  capReached (config env) pc = true -> selected env pc (g :: gs) = [].
Proof. intros Hc. cbn [selected]. now rewrite Hc. Qed.

Lemma selected_in env gs : forall pc g info,
  In (g, info) (selected env pc gs) -> In g gs.
Proof.
  induction gs as [|g0 gs IH]; intros pc g info H; [contradiction|].
  cbn [selected] in H. destruct (capReached _ _); [contradiction|].
  destruct (filterStage env g0).
  - right. eapply IH; eauto.
  - destruct H as [H|H]; [injection H as <- _; now left | right; eapply IH; eauto].
Qed.

Lemma listed_after_update body labels c y :
  arr_includes labels sentinel = true ->
  listed sentinel y = true -> listed sentinel (rewritten body labels c y) = true.
Proof.
  unfold listed, rewritten, isOpen. cbn [i_state i_labels]. intros -> H.
  apply andb_true_iff in H as [-> _]. reflexivity.
Qed.

Lemma found_in_page g t y :
  find (matchesFinding g) (pageOf t) = Some y ->
  In y t /\ listed sentinel y = true /\ carries g (i_body y) = true.
Proof.
  intros H. apply find_some in H as [Hp Hm].
  unfold pageOf in Hp. apply In_firstn in Hp. apply filter_In in Hp as [Hin Hl]. auto.
Qed.

Lemma steps_numbers env pc gs t t' cr up live live' :
  Steps env pc gs t t' cr up live live' ->
  NoDup (map i_number t) -> NoDup (map i_number t').
Proof.
  induction 1; intros ND; auto.
  - apply IHSteps. rewrite updateIssueIn_numbers; [assumption | reflexivity].
  - apply IHSteps. cbn [map i_number]. constructor; [|assumption].
    intros Hin. apply in_map_iff in Hin as [j [En Hj]].
    match goal with Hfresh : forall i, In i t -> _ |- _ => apply Hfresh in Hj end. lia.
Qed.

(** An issue that matches none of the findings still to come is left as
    it is by the loop. *)
Lemma steps_foreign env pc gs t t' cr up live live' :
  Steps env pc gs t t' cr up live live' ->
  NoDup (map i_number t) ->
  forall x, In x t ->
    (forall g info, In (g, info) (selected env pc gs) -> carries g (i_body x) = false) ->
    In x t'.
Proof.
  induction 1; intros ND x0 Hx Hno; auto.
  - apply IHSteps; auto. intros g0 info0 Hin. apply (Hno g0 info0).
    now rewrite (selected_skip env pc g gs why).
  - destruct (found_in_page _ _ _ H1) as [Hy [_ Hcy]].
    rewrite (selected_step env pc g gs info) in Hno by assumption.
    assert (Hne : i_number x0 <> i_number x).
    { intros En. pose proof (NoDup_map_inj i_number t x0 x ND Hx Hy En) as ->.
      rewrite (Hno g info (or_introl eq_refl)) in Hcy. discriminate. }
    apply IHSteps.
    + rewrite updateIssueIn_numbers; [assumption | reflexivity].
    + now apply updateIssueIn_other.
    + intros g0 info0 Hin. apply (Hno g0 info0). now right.
  - rewrite (selected_step env pc g gs info) in Hno by assumption.
    apply IHSteps.
    + cbn [map i_number]. constructor; [|assumption].
      intros Hin. apply in_map_iff in Hin as [j [En Hj]]. apply H2 in Hj. lia.
    + now right.
    + intros g0 info0 Hin. apply (Hno g0 info0). now right.
Qed.

Lemma steps_counts env pc gs t t' cr up live live' :
  Steps env pc gs t t' cr up live live' ->
  cr + up = length (selected env pc gs) /\ live' = liveAfter env pc gs live.
Proof.
  unfold liveAfter. induction 1.
  - now split.
  - now rewrite (selected_capped env pc g gs).
  - now rewrite (selected_skip env pc g gs why).
  - rewrite (selected_step env pc g gs info) by assumption. cbn [length fold_left fst].
    destruct IHSteps as [IH1 IH2]. split; [lia | exact IH2].
  - rewrite (selected_step env pc g gs info) by assumption. cbn [length fold_left fst].
    destruct IHSteps as [IH1 IH2]. split; [lia | exact IH2].
Qed.

Lemma filter_length_map {A} (p : A -> bool) (h : A -> A) (l : list A) :
  (forall a, In a l -> p (h a) = p a) ->
  length (filter p (map h l)) = length (filter p l).
Proof.
  induction l as [|a l IH]; intros H; [reflexivity|].
  cbn [map filter]. rewrite (H a (or_introl eq_refl)).
  destruct (p a); cbn [length]; rewrite IH; auto; intros b Hb; apply H; now right.
Qed.

Lemma update_keeps_count (p : Issue -> bool) t y f :
  NoDup (map i_number t) -> In y t -> p (f y) = p y ->
  length (filter p (updateIssueIn (i_number y) f t)) = length (filter p t).
Proof.
  intros ND Hy Hp. unfold updateIssueIn. apply filter_length_map.
  intros a Ha. destruct (N.eqb (i_number a) (i_number y)) eqn:E; [|reflexivity].
  apply N.eqb_eq in E. now rewrite (NoDup_map_inj i_number t a y ND Ha Hy E).
Qed.

Lemma steps_room env pc gs t t' cr up live live' :
  Steps env pc gs t t' cr up live live' ->
  NoDup (map i_number t) ->
  length (filter (listed sentinel) t') <= length (filter (listed sentinel) t) + cr.
Proof.
  induction 1; intros ND; try lia.
  - now apply IHSteps.
  - destruct (found_in_page _ _ _ H1) as [Hy [Hl _]].
    assert (ND1 : NoDup (map i_number
              (updateIssueIn (i_number x)
                 (rewritten (bodyFor env n g info) (labelsFor env g info) c) t))).
    { rewrite updateIssueIn_numbers; [assumption | reflexivity]. }
    specialize (IHSteps ND1).
    rewrite (update_keeps_count (listed sentinel) t x _ ND Hy) in IHSteps; [lia|].
    rewrite Hl. apply listed_after_update; [apply labelsFor_sentinel | assumption].
  - assert (ND1 : NoDup (map i_number
              (mkIssue number (createIssueTitle g) (bodyFor env n g info)
                 (labelsFor env g info) StOpen (autoAssign (config env)) [] :: t))).
    { cbn [map i_number]. constructor; [|assumption].
      intros Hin. apply in_map_iff in Hin as [j [En Hj]]. apply H2 in Hj. lia. }
    specialize (IHSteps ND1). cbn [filter] in IHSteps.
    destruct (listed sentinel _); cbn [length] in IHSteps; lia.
Qed.

(** ** C1: running the reconciliation twice *)

Lemma set_add_has x s k :
  set_has (set_add x s) k = true <-> k = x \/ set_has s k = true.
Proof.
  unfold set_has, set_add. destruct (arr_includes s x) eqn:E.
  - split; [auto|]. intros [->|H]; assumption.
  - rewrite !arr_includes_In, in_app_iff. simpl. intuition congruence.
Qed.

Lemma addKeys_has g live k :
  set_has (addKeys g live) k = true <-> In k (occurrenceKeys g) \/ set_has live k = true.
Proof.
  unfold addKeys. revert live. induction (occurrenceKeys g) as [|x ks IH]; intros live.
  - simpl. intuition.
  - cbn [fold_left]. rewrite IH, set_add_has. simpl. intuition congruence.
Qed.

Lemma liveAfter_keeps env gs : forall pc live k,
  set_has live k = true -> set_has (liveAfter env pc gs live) k = true.
Proof.
  unfold liveAfter. intros pc live. revert live.
  induction (selected env pc gs) as [|[g info] l IH]; intros live k H; [exact H|].
  cbn [fold_left fst]. apply IH. apply addKeys_has. now right.
Qed.

Lemma liveAfter_has env pc gs live g info k :
  In (g, info) (selected env pc gs) -> In k (occurrenceKeys g) ->
  set_has (liveAfter env pc gs live) k = true.
Proof.
  unfold liveAfter. revert live.
  induction (selected env pc gs) as [|[g0 info0] l IH]; intros live Hin Hk; [contradiction|].
  cbn [fold_left fst]. destruct Hin as [E|Hin].
  - injection E as -> ->.
    assert (H : set_has (addKeys g live) k = true) by (apply addKeys_has; now left).
    revert H. generalize (addKeys g live). clear. intros live0 H.
    induction l as [|[g1 i1] l IH] in live0, H |- *; [exact H|].
    cbn [fold_left fst]. apply IH. apply addKeys_has. now right.
  - now apply IH.
Qed.

Lemma groups_distinct findings : NoDup (groupFindingsByRuleAndFile findings).
Proof.
  rewrite groupFindings_groupsOf.
  destruct (grouping_by_key findings) as [ND [_ EN]].
  revert ND EN. generalize (groupsOf findings). intros m.
  induction m as [|[k g] m IH]; intros ND EN; [constructor|].
  cbn [map fst snd] in *. inversion ND as [|? ? Hnot ND']; subst. constructor.
  - intros Hin. apply in_map_iff in Hin as [[k' g'] [E Hin]]. simpl in E. subst g'.
    apply Hnot. apply in_map_iff. exists (k', g). split; [|assumption]. simpl.
    rewrite (groupOf_key _ _ _ (EN k g (or_introl eq_refl))).
    now rewrite (groupOf_key _ _ _ (EN k' g (or_intror Hin))).
  - apply IH; [assumption|]. intros k' g' H. apply EN. now right.
Qed.

Section Idempotence.

Variable env : Env.
Variable sel : list (GroupedFinding * OwaspInfo).

Hypothesis carries_own : forall g info n,
  In (g, info) sel -> carries g (bodyFor env n g info) = true.

Hypothesis carries_other : forall g info g' info' n,
  In (g, info) sel -> In (g', info') sel -> g <> g' ->
  carries g (bodyFor env n g' info') = false.

Hypothesis parses_back : forall g info n,
  In (g, info) sel -> parsesBack g (bodyFor env n g info) = true.

(** The sweep does not close an issue rendered for a finding whose keys
    are live. *)
Lemma rendered_not_resolved live g info x :
  In (g, info) sel -> RenderedFor env g info x ->
  (forall k, In k (occurrenceKeys g) -> set_has live k = true) ->
  isResolved (sweepVerdict live x) = false.
Proof.
  intros Hin [n Hb] Hlive. pose proof (parses_back g info n Hin) as Hp.
  rewrite <- Hb in Hp. unfold parsesBack in Hp. unfold sweepVerdict.
  destruct (arr_includes (i_labels x) falsePositive); [reflexivity|].
  destruct (ruleMatch (i_body x)) as [r|]; [|discriminate].
  destruct (fileMatch (i_body x)) as [f|]; [|discriminate].
  apply andb_true_iff in Hp as [Hp Hline]. apply andb_true_iff in Hp as [Hr Hf].
  apply str_eqb_eq in Hr. apply str_eqb_eq in Hf. subst r f.
  apply existsb_exists in Hline as [line [Hl Ho]].
  apply existsb_exists in Ho as [o [Ho El]]. apply str_eqb_eq in El. subst line.
  assert (Hany : hasAnyOccurrence live (g_ruleId g) (g_filePath g) (issueLinesOf (i_body x))
                 = true).
  { unfold hasAnyOccurrence. apply existsb_exists. exists (num (o_startLine o)).
    split; [assumption|]. apply Hlive. unfold occurrenceKeys.
    apply in_map_iff. now exists o. }
  destruct (issueLinesOf (i_body x)) as [|l ls]; [contradiction|].
  now rewrite Hany.
Qed.

(** After the loop every reconciled finding has an open, sentinel-labelled
    issue with the body rendered for it. *)
Lemma steps_establish pc gs t t' cr up live live' :
  Steps env pc gs t t' cr up live live' ->
  NoDup (map i_number t) -> NoDup gs -> incl (selected env pc gs) sel ->
  forall g info, In (g, info) (selected env pc gs) ->
    exists x, In x t' /\ listed sentinel x = true /\ RenderedFor env g info x.
Proof.
  induction 1; intros ND NDg Hincl g0 info0 Hin.
  - contradiction.
  - rewrite (selected_capped env pc g gs) in Hin by assumption. contradiction.
  - rewrite (selected_skip env pc g gs why) in Hin, Hincl by assumption.
    inversion NDg; subst. eapply IHSteps; eauto.
  - rewrite (selected_step env pc g gs info) in Hin, Hincl by assumption.
    inversion NDg as [|? ? Hfresh NDg']; subst.
    destruct (found_in_page _ _ _ H1) as [Hy [Hl _]].
    set (b := bodyFor env n g info) in *. set (ls := labelsFor env g info) in *.
    assert (ND1 : NoDup (map i_number (updateIssueIn (i_number x) (rewritten b ls c) t))).
    { rewrite updateIssueIn_numbers; [assumption | reflexivity]. }
    destruct Hin as [E|Hin].
    + injection E as <- <-. exists (rewritten b ls c x). split; [|split].
      * apply (steps_foreign _ _ _ _ _ _ _ _ _ H2 ND1).
        -- now apply updateIssueIn_same.
        -- intros g' info' Hin'. cbn [rewritten i_body].
           apply (carries_other g' info' g info n).
           ++ apply Hincl. now right.
           ++ apply Hincl. now left.
           ++ intros ->. apply Hfresh. eapply selected_in; eauto.
      * apply listed_after_update; [apply labelsFor_sentinel | assumption].
      * now exists n.
    + apply IHSteps; auto. intros e He. apply Hincl. now right.
  - rewrite (selected_step env pc g gs info) in Hin, Hincl by assumption.
    inversion NDg as [|? ? Hfresh NDg']; subst.
    set (b := bodyFor env n g info) in *. set (ls := labelsFor env g info) in *.
    set (new := mkIssue number (createIssueTitle g) b ls StOpen (autoAssign (config env)) [])
      in *.
    assert (ND1 : NoDup (map i_number (new :: t))).
    { cbn [map i_number]. constructor; [|assumption].
      intros Hi. apply in_map_iff in Hi as [j [En Hj]]. apply H2 in Hj.
      unfold new in En. cbn [i_number] in En. lia. }
    destruct Hin as [E|Hin].
    + injection E as <- <-. exists new. split; [|split].
      * apply (steps_foreign _ _ _ _ _ _ _ _ _ H3 ND1).
        -- now left.
        -- intros g' info' Hin'. cbn [new i_body].
           apply (carries_other g' info' g info n).
           ++ apply Hincl. now right.
           ++ apply Hincl. now left.
           ++ intros ->. apply Hfresh. eapply selected_in; eauto.
      * unfold listed, new, isOpen. cbn [i_state i_labels]. apply labelsFor_sentinel.
      * now exists n.
    + apply IHSteps; auto. intros e He. apply Hincl. now right.
Qed.

(** When every finding to reconcile already has such an issue in the
    listed page, the loop only updates. *)
Lemma steps_again pc gs t t' cr up live live' :
  Steps env pc gs t t' cr up live live' ->
  NoDup (map i_number t) -> NoDup gs -> incl (selected env pc gs) sel ->
  length (filter (listed sentinel) t) <= 100 ->
  (forall g info, In (g, info) (selected env pc gs) ->
     exists x, In x t /\ listed sentinel x = true /\ RenderedFor env g info x) ->
  cr = 0 /\
  length (filter isOpen t') = length (filter isOpen t) /\
  (forall x', In x' t' ->
     In x' t \/ exists g info, In (g, info) sel /\ RenderedFor env g info x').
Proof.
  induction 1; intros ND NDg Hincl Hroom Hinv.
  - repeat split; auto.
  - repeat split; auto.
  - rewrite (selected_skip env pc g gs why) in Hincl, Hinv by assumption.
    inversion NDg; subst. apply IHSteps; auto.
  - rewrite (selected_step env pc g gs info) in Hincl, Hinv by assumption.
    inversion NDg as [|? ? Hfresh NDg']; subst.
    destruct (found_in_page _ _ _ H1) as [Hy [Hl Hcy]].
    set (b := bodyFor env n g info) in *. set (ls := labelsFor env g info) in *.
    assert (ND1 : NoDup (map i_number (updateIssueIn (i_number x) (rewritten b ls c) t))).
    { rewrite updateIssueIn_numbers; [assumption | reflexivity]. }
    destruct IHSteps as [Hcr [Hopen Hitems]]; auto.
    + intros e He. apply Hincl. now right.
    + rewrite (update_keeps_count (listed sentinel) t x _ ND Hy); [assumption|].
      rewrite Hl. apply listed_after_update; [apply labelsFor_sentinel | assumption].
    + intros g' info' Hin'.
      destruct (Hinv g' info' (or_intror Hin')) as [x' [Hx' [Hl' [n' Hb']]]].
      exists x'. split; [|split; [assumption | now exists n']].
      apply updateIssueIn_other; [assumption|].
      intros En. pose proof (NoDup_map_inj i_number t x' x ND Hx' Hy En) as ->.
      rewrite Hb' in Hcy.
      rewrite (carries_other g info g' info' n') in Hcy; [discriminate | | |].
      * apply Hincl. now left.
      * apply Hincl. now right.
      * intros ->. apply Hfresh. eapply selected_in; eauto.
    + split; [assumption|]. split.
      * rewrite Hopen. apply update_keeps_count; auto.
      * intros x' Hx'. destruct (Hitems x' Hx') as [Hin1|Hr]; [|now right].
        apply updateIssueIn_In in Hin1 as [j [Hj [[En ->]|[_ ->]]]]; [|now left].
        right. exists g, info. split; [apply Hincl; now left | now exists n].
  - exfalso.
    rewrite (selected_step env pc g gs info) in Hinv by assumption.
    rewrite (selected_step env pc g gs info) in Hincl by assumption.
    destruct (Hinv g info (or_introl eq_refl)) as [x [Hx [Hl [n' Hb]]]].
    assert (Hp : In x (pageOf t)).
    { unfold pageOf. rewrite firstn_all2 by assumption. apply filter_In. auto. }
    pose proof (find_none _ _ H1 x Hp) as Hm.
    rewrite matchesFinding_carries, Hb in Hm.
    rewrite (carries_own g info n') in Hm; [discriminate|].
    apply Hincl. now left.
Qed.

End Idempotence.

Lemma closeMark_not_listed c j : listed sentinel (closeMark c j) = false.
Proof. reflexivity. Qed.

(** After the sweep, a listed issue is one the sweep found unresolved. *)
Lemma swept_listed live t t' :
  NoDup (map i_number t) -> Swept live t t' ->
  length (filter (listed sentinel) t) <= 100 ->
  forall x', In x' t' -> listed sentinel x' = true ->
    In x' t /\ isResolved (sweepVerdict live x') = false.
Proof.
  intros ND [Hnum [Hkeep Hclose]] Hroom x' Hx' Hl.
  assert (ND' : NoDup (map i_number t')) by now rewrite Hnum.
  assert (Hn : In (i_number x') (map i_number t)).
  { rewrite <- Hnum. now apply in_map. }
  apply in_map_iff in Hn as [j [En Hj]].
  destruct (in_dec N.eq_dec (i_number j) (resolvedNumbers live (pageOf t))) as [Hr|Hr].
  - destruct (Hclose j Hj Hr) as [c Hc]. exfalso.
    assert (E : x' = closeMark c j).
    { apply (NoDup_map_inj i_number t'); auto. }
    rewrite E, closeMark_not_listed in Hl. discriminate.
  - pose proof (Hkeep j Hj Hr) as Hj'.
    assert (E : x' = j) by (apply (NoDup_map_inj i_number t'); auto).
    subst x'. split; [assumption|].
    assert (Hp : In j (pageOf t)).
    { unfold pageOf. rewrite firstn_all2 by assumption. apply filter_In. auto. }
    destruct (isResolved (sweepVerdict live j)) eqn:Hv; [|reflexivity].
    exfalso. apply Hr.
    apply (resolvedNumbers_page live (pageOf t) j); auto.
    unfold pageOf. now apply NoDup_map_firstn, NoDup_map_filter.
Qed.

Lemma swept_room live t t' :
  NoDup (map i_number t) -> Swept live t t' ->
  length (filter (listed sentinel) t) <= 100 ->
  length (filter (listed sentinel) t') <= length (filter (listed sentinel) t).
Proof.
  intros ND Sw Hroom. apply NoDup_incl_length.
  - apply NoDup_filter. apply (NoDup_map_inv i_number).
    destruct Sw as [Hnum _]. now rewrite Hnum.
  - intros x Hx. apply filter_In in Hx as [Hx Hl]. apply filter_In.
    destruct (swept_listed live t t' ND Sw Hroom x Hx Hl). auto.
Qed.

(** C1 (as amended).  Take a tracker that answers, with distinct issue
    numbers and room on its first page for the issues the run may add.
    Suppose every body rendered for a reconciled finding carries that
    finding's rule and file markers, carries the markers of no other
    reconciled finding, and reads back to the finding's rule, file and one
    of its lines.  Then a first run followed by a second run on the same
    report and the tracker as the first left it both succeed; the second
    creates nothing, updates one issue for each reconciled finding
    (as many as the first run created or updated), and leaves the number
    of open issues unchanged. *)
Theorem C1_second_run_only_updates
    (env : Env) (findings : list Finding) (t0 : Tracker) :
  faults t0 = [] ->
  NoDup (map i_number (issues t0)) ->
  (forall i, In i (issues t0) -> (i_number i < nextNumber t0)%N) ->
  length (filter (listed sentinel) (issues t0)) + length (reconciled env findings) <= 100 ->
  (forall g info n, In (g, info) (reconciled env findings) ->
     carries g (bodyFor env n g info) = true) ->
  (forall g info g' info' n,
     In (g, info) (reconciled env findings) -> In (g', info') (reconciled env findings) ->
     g <> g' -> carries g (bodyFor env n g' info') = false) ->
  (forall g info n, In (g, info) (reconciled env findings) ->
     parsesBack g (bodyFor env n g info) = true) ->
  exists res1 s1 res2 s2,
    processFindings env findings (processStart t0) = (Ok res1, s1) /\
    processFindings env findings (nextProcess s1) = (Ok res2, s2) /\
    created res1 + updated res1 = length (reconciled env findings) /\
    created res2 = 0 /\
    updated res2 = length (reconciled env findings) /\
    openCount (tracker s2) = openCount (tracker s1).
Proof.
  intros Hw ND Hfresh Hroom W1 W2 W3.
  set (gs := groupFindingsByRuleAndFile findings).
  set (sel := reconciled env findings) in *.
  assert (NDg : NoDup gs) by apply groups_distinct.
  assert (Hincl : incl (selected env 0 gs) sel) by (intros e He; exact He).
  (* the first run *)
  assert (R0 : Ready env (processStart t0)).
  { constructor; auto. intros c f v _ H. discriminate. }
  destruct (processFindings_spec env findings _ R0)
    as (res1 & s1 & t1 & cr1 & up1 & live1 & E1 & Hw1 & St1 & ND1 & Hf1 & Sw1 & _ & C1 & U1 & _).
  fold gs in St1. cbn [processStart tracker] in St1.
  destruct (steps_counts _ _ _ _ _ _ _ _ _ St1) as [Hcount1 Hlive1].
  change (selected env 0 gs) with sel in Hcount1.
  pose proof (steps_room _ _ _ _ _ _ _ _ _ St1 ND) as Hroom1.
  assert (Hroom1' : length (filter (listed sentinel) t1) <= 100) by lia.
  pose proof (steps_establish env sel W2 _ _ _ _ _ _ _ _ St1 ND NDg Hincl) as Hest.
  assert (Hlive : forall g info k, In (g, info) sel -> In k (occurrenceKeys g) ->
                                   set_has live1 k = true).
  { intros g info k Hin Hk. rewrite Hlive1. eapply liveAfter_has; eauto. }
  set (t1' := issues (tracker s1)) in *.
  assert (ND1' : NoDup (map i_number t1')).
  { destruct Sw1 as [Hnum _]. now rewrite Hnum. }
  assert (Hinv : forall g info, In (g, info) (selected env 0 gs) ->
            exists x, In x t1' /\ listed sentinel x = true /\ RenderedFor env g info x).
  { intros g info Hin. destruct (Hest g info Hin) as [x [Hx [Hl Hr]]].
    exists x. split; [|auto].
    destruct Sw1 as [_ [Hkeep _]]. apply Hkeep; [assumption|].
    intros Hres.
    assert (Hp : In x (pageOf t1)).
    { unfold pageOf. rewrite firstn_all2 by assumption. apply filter_In. auto. }
    apply (resolvedNumbers_page live1 (pageOf t1) x) in Hres; auto.
    - rewrite (rendered_not_resolved env sel W3 live1 g info x) in Hres; auto.
      + discriminate.
      + intros k Hk. eapply Hlive; eauto.
    - unfold pageOf. now apply NoDup_map_firstn, NoDup_map_filter. }
  pose proof (swept_room live1 t1 t1' ND1 Sw1 Hroom1') as Hroom2.
  (* the second run *)
  assert (R1 : Ready env (nextProcess s1)).
  { constructor; cbn [nextProcess tracker promptCache]; auto.
    - intros i Hi. destruct Sw1 as [Hnum _].
      assert (Hn : In (i_number i) (map i_number t1)).
      { rewrite <- Hnum. now apply in_map. }
      apply in_map_iff in Hn as [j [En Hj]]. rewrite <- En. now apply Hf1.
    - intros c f v _ H. discriminate. }
  destruct (processFindings_spec env findings _ R1)
    as (res2 & s2 & t2 & cr2 & up2 & live2 & E2 & Hw2 & St2 & ND2 & Hf2 & Sw2 & Idle & C2 & U2 & _).
  fold gs in St2. cbn [nextProcess tracker] in St2. fold t1' in St2.
  destruct (steps_counts _ _ _ _ _ _ _ _ _ St2) as [Hcount2 Hlive2].
  change (selected env 0 gs) with sel in Hcount2.
  assert (Hroom2' : length (filter (listed sentinel) t1') <= 100) by lia.
  destruct (steps_again env sel W1 W2 _ _ _ _ _ _ _ _ St2 ND1' NDg Hincl Hroom2' Hinv)
    as [Hcr2 [Hopen Hitems]].
  pose proof (steps_room _ _ _ _ _ _ _ _ _ St2 ND1') as Hroom3.
  assert (Hnone : resolvedNumbers live2 (pageOf t2) = []).
  { unfold resolvedNumbers. rewrite filter_none; [reflexivity|].
    intros x Hx. unfold pageOf in Hx. apply In_firstn in Hx.
    apply filter_In in Hx as [Hx Hl].
    assert (El : live2 = live1) by congruence. rewrite El.
    destruct (Hitems x Hx) as [Hin1|[g [info [Hin Hr]]]].
    - now destruct (swept_listed live1 t1 t1' ND1 Sw1 Hroom1' x Hin1 Hl).
    - apply (rendered_not_resolved env sel W3 live1 g info x); auto.
      intros k Hk. eapply Hlive; eauto. }
  exists res1, s1, res2, s2.
  split; [exact E1|]. split; [exact E2|].
  split; [lia|]. split; [lia|]. split; [lia|].
  unfold openCount. rewrite (Idle Hnone). fold t1'. exact Hopen.
Qed.

Lemma C1_second_run_only_updates_witness :
  let env := Sample.env "high" 10
               (Sample.report
                  [Sample.result "js/xss" "src/view.ts" "error" "m" 10;
                   Sample.result "js/sql-injection" "src/db.ts" "error" "m" 20]) in
  let findings := Sample.findingsOf env in
  exists res1 s1 res2 s2,
    processFindings env findings (processStart Sample.emptyTracker) = (Ok res1, s1) /\
    processFindings env findings (nextProcess s1) = (Ok res2, s2) /\
    created res1 + updated res1 = length (reconciled env findings) /\
    created res2 = 0 /\
    updated res2 = length (reconciled env findings) /\
    openCount (tracker s2) = openCount (tracker s1).
Proof.
  intros env findings.
  apply (C1_second_run_only_updates env findings Sample.emptyTracker).
  - reflexivity.
  - constructor.
  - intros i [].
  - apply Nat.leb_le. vm_compute. reflexivity.
  - intros g info n Hin. vm_compute in Hin.
    destruct Hin as [E|[E|[]]]; injection E as <- <-; vm_compute; reflexivity.
  - intros g info g' info' n Hin Hin' Hne. vm_compute in Hin, Hin'.
    destruct Hin as [E|[E|[]]]; injection E as <- <-;
      destruct Hin' as [E'|[E'|[]]]; injection E' as <- <-;
      try (exfalso; apply Hne; reflexivity); vm_compute; reflexivity.
  - intros g info n Hin. vm_compute in Hin.
    destruct Hin as [E|[E|[]]]; injection E as <- <-; vm_compute; reflexivity.
Defined.

(** C1, counterexample.  Two findings in one file; the message of the
    first quotes the rule identifier of the second.  On an empty tracker
    the first run creates an issue for the first finding and then updates
    that same issue for the second; the second run on the same report
    finds no issue for the first finding, creates one, and the number of
    open issues goes from one to two. *)
Lemma C1_counterexample :
  let env := Sample.env "high" 10
               (Sample.report
                  [Sample.result "js/xss" "src/app.ts" "error"
                     "Reaches the sink of `js/sql-injection`" 10;
                   Sample.result "js/sql-injection" "src/app.ts" "error" "m" 20]) in
  let findings := Sample.findingsOf env in
  let run1 := processFindings env findings (processStart Sample.emptyTracker) in
  let run2 := processFindings env findings (nextProcess (snd run1)) in
  let counts r := match fst r with
                  | Ok x => Some (created x, updated x)
                  | Throw _ => None
                  end in
  length (reconciled env findings) = 2 /\
  counts run1 = Some (1, 1) /\
  counts run2 = Some (1, 1) /\
  openCount (tracker (snd run1)) = 1 /\
  openCount (tracker (snd run2)) = 2.
Proof.
  vm_compute. repeat split; reflexivity.
Qed.


(** * Further properties of the pipeline *)

(** ** Grouping: nothing lost, first-seen order, pairs *)

Lemma occurrencesIn_app m1 m2 :
  occurrencesIn (m1 ++ m2) = occurrencesIn m1 ++ occurrencesIn m2.
Proof. unfold occurrencesIn. apply flat_map_app. Qed.

Lemma map_push_occurrences (m : GroupMap) k o :
  map_has m k = true ->
  Permutation (occurrencesIn (map_push m k o)) (o :: occurrencesIn m).
Proof.
  induction m as [|[k' g] m IH]; intros H; [discriminate|].
  unfold occurrencesIn in *. cbn [map_push]. unfold map_has in H. cbn [existsb fst] in H.
  destruct (str_eqb k' k) eqn:E.
  - cbn [flat_map snd pushOccurrence g_occurrences].
    rewrite <- app_assoc. cbn [app].
    apply Permutation_sym, Permutation_middle.
  - cbn [flat_map snd]. cbn [orb] in H.
    etransitivity; [apply Permutation_app_head, IH, H|].
    apply Permutation_sym, Permutation_middle.
Qed.

Lemma groupStep_occurrences (m : GroupMap) f :
  Permutation (occurrencesIn (groupStep m f)) (occurrenceOf f :: occurrencesIn m).
Proof.
  unfold groupStep. cbv zeta. destruct (map_has m (groupKey f)) eqn:E.
  - now apply map_push_occurrences.
  - etransitivity.
    + apply map_push_occurrences. unfold map_has, map_set.
      rewrite existsb_app. cbn [existsb fst]. rewrite str_eqb_refl.
      now rewrite orb_true_r.
    + unfold map_set. rewrite occurrencesIn_app.
      unfold occurrencesIn at 2. cbn [flat_map snd newGroup g_occurrences app].
      now rewrite app_nil_r.
Qed.

Lemma fold_groupStep_occurrences fs : forall m,
  Permutation (occurrencesIn (fold_left groupStep fs m))
              (occurrencesIn m ++ map occurrenceOf fs).
Proof.
  induction fs as [|f fs IH]; intros m; cbn [fold_left map].
  - now rewrite app_nil_r.
  - etransitivity; [apply IH|].
    etransitivity; [apply Permutation_app_tail, groupStep_occurrences|].
    cbn [app]. apply Permutation_middle.
Qed.

Lemma occurrencesIn_groups (m : GroupMap) :
  occurrencesIn m = flat_map g_occurrences (map snd m).
Proof.
  induction m as [|e m IH]; [reflexivity|].
  unfold occurrencesIn in *. cbn [flat_map map]. now rewrite IH.
Qed.

(** X1.  Grouping neither drops nor duplicates: the occurrences of all
    groups together are, up to their order, the occurrences of the
    findings, one for each finding; in particular there are as many. *)
Theorem grouping_conserves_occurrences (findings : list Finding) :
  Permutation (flat_map g_occurrences (groupFindingsByRuleAndFile findings))
              (map occurrenceOf findings) /\
  length (flat_map g_occurrences (groupFindingsByRuleAndFile findings))
  = length findings.
Proof.
  assert (P : Permutation (flat_map g_occurrences (groupFindingsByRuleAndFile findings))
                          (map occurrenceOf findings)).
  { unfold groupFindingsByRuleAndFile. rewrite <- occurrencesIn_groups.
    exact (fold_groupStep_occurrences findings []). }
  split; [exact P|].
  rewrite (Permutation_length P). apply length_map.
Qed.

Lemma set_add_keys (m : GroupMap) k :
  set_add k (map fst m) = if map_has m k then map fst m else map fst m ++ [k].
Proof.
  unfold set_add.
  destruct (map_has m k) eqn:E.
  - apply map_has_In in E. apply arr_includes_In in E. now rewrite E.
  - destruct (arr_includes (map fst m) k) eqn:E'; [|reflexivity].
    apply arr_includes_In in E'. apply map_has_In in E'. congruence.
Qed.

Lemma groupStep_keys (m : GroupMap) f :
  map fst (groupStep m f) = set_add (groupKey f) (map fst m).
Proof.
  unfold groupStep. cbv zeta. rewrite map_push_keys, set_add_keys.
  destruct (map_has m (groupKey f)); [reflexivity|].
  unfold map_set. now rewrite map_app.
Qed.

Lemma fold_groupStep_keys fs : forall m,
  map fst (fold_left groupStep fs m)
  = fold_left (fun acc k => set_add k acc) (map groupKey fs) (map fst m).
Proof.
  induction fs as [|f fs IH]; intros m; cbn [fold_left map]; [reflexivity|].
  now rewrite IH, groupStep_keys.
Qed.

Lemma groups_keys findings :
  map keyOf (groupFindingsByRuleAndFile findings) = map fst (groupsOf findings).
Proof.
  rewrite groupFindings_groupsOf.
  destruct (grouping_by_key findings) as [_ [_ EN]].
  revert EN. generalize (groupsOf findings). intros m EN.
  induction m as [|[k g] m IH]; [reflexivity|].
  cbn [map fst snd]. f_equal.
  - unfold keyOf. symmetry. apply (groupOf_key findings). apply EN. now left.
  - apply IH. intros k' g' H. apply EN. now right.
Qed.

(** X2.  The groups come in the order in which their keys first appear
    among the findings; each group holds the rule data of the first
    finding with its key and, in the order of the input, one occurrence
    for every finding with that key, so no group is empty. *)
Theorem grouping_first_seen_order (findings : list Finding) :
  map keyOf (groupFindingsByRuleAndFile findings) = firstSeen (map groupKey findings) /\
  forall g, In g (groupFindingsByRuleAndFile findings) ->
    exists f rest,
      filter (keyIs (keyOf g)) findings = f :: rest /\
      g = withOccurrences (newGroup f) (map occurrenceOf (f :: rest)).
Proof.
  split.
  - rewrite groups_keys. unfold groupsOf, firstSeen.
    exact (fold_groupStep_keys findings []).
  - intros g Hg. rewrite groupFindings_groupsOf in Hg.
    apply in_map_iff in Hg as [[k g'] [E Hin]]. simpl in E. subst g'.
    destruct (grouping_by_key findings) as [_ [_ EN]].
    pose proof (EN _ _ Hin) as Hgo.
    pose proof (groupOf_key _ _ _ Hgo) as Hk. fold (keyOf g) in Hk. subst k.
    destruct Hgo as [f [Hfind Heq]].
    assert (Hhead : exists rest, filter (keyIs (keyOf g)) findings = f :: rest).
    { clear Heq Hin EN. revert Hfind. generalize (keyIs (keyOf g)). intros p.
      induction findings as [|x l IH]; cbn [find filter]; intros H; [discriminate|].
      destruct (p x); [injection H as ->; eauto | auto]. }
    destruct Hhead as [rest Hrest]. exists f, rest. split; [exact Hrest|].
    now rewrite <- Hrest.
Qed.

Lemma keyIs_pairIs (f f' : Finding) :
  ~ In 58%N (f_ruleId f) -> ~ In 58%N (f_ruleId f') ->
  keyIs (groupKey f) f' = pairIs (f_ruleId f) (f_filePath f) f'.
Proof.
  intros H H'. unfold keyIs, pairIs.
  destruct (str_eqb (groupKey f') (groupKey f)) eqn:E.
  - apply str_eqb_eq in E. destruct (groupKey_inj f' f H' H E) as [-> ->].
    now rewrite !str_eqb_refl.
  - symmetry. apply andb_false_iff.
    destruct (str_eqb (f_ruleId f') (f_ruleId f)) eqn:E1; [|now left].
    destruct (str_eqb (f_filePath f') (f_filePath f)) eqn:E2; [|now right].
    apply str_eqb_eq in E1, E2. apply str_eqb_neq in E. exfalso. apply E.
    unfold groupKey. now rewrite E1, E2.
Qed.

Lemma pair_key_inj (g g' : GroupedFinding) :
  ~ In 58%N (g_ruleId g) -> ~ In 58%N (g_ruleId g') ->
  keyOf g = keyOf g' -> pairOf g = pairOf g'.
Proof.
  intros H H' E. unfold keyOf, colon in E. change (lit ":") with [58%N] in E.
  destruct (sep_inj 58%N _ _ _ _ H H' E) as [E1 E2].
  unfold pairOf. now rewrite E1, E2.
Qed.

(** X3.  When no rule identifier contains a colon, the groups are the
    distinct (ruleId, filePath) pairs of the findings: no pair has two
    groups, a pair has a group exactly when a finding has it, and a
    group holds one occurrence for each finding of its pair, in the
    order of the input. *)
Theorem grouping_by_pair (findings : list Finding) :
  (forall f, In f findings -> ~ In 58%N (f_ruleId f)) ->
  NoDup (map pairOf (groupFindingsByRuleAndFile findings)) /\
  (forall ruleId filePath,
      In (ruleId, filePath) (map pairOf (groupFindingsByRuleAndFile findings)) <->
      exists f, In f findings /\ f_ruleId f = ruleId /\ f_filePath f = filePath) /\
  (forall g, In g (groupFindingsByRuleAndFile findings) ->
      g_occurrences g
      = map occurrenceOf (filter (pairIs (g_ruleId g) (g_filePath g)) findings)).
Proof.
  intros Hc.
  destruct (grouping_by_key findings) as [ND [KS EN]].
  (* every group stems from a finding of the input *)
  assert (Hfrom : forall g, In g (groupFindingsByRuleAndFile findings) ->
            exists f, In f findings /\ g_ruleId g = f_ruleId f /\
                      g_filePath g = f_filePath f /\
                      g_occurrences g
                      = map occurrenceOf (filter (keyIs (groupKey f)) findings)).
  { intros g Hg. rewrite groupFindings_groupsOf in Hg.
    apply in_map_iff in Hg as [[k g'] [E Hin]]. simpl in E. subst g'.
    destruct (EN _ _ Hin) as [f [Hfind ->]].
    pose proof (find_some _ _ Hfind) as [Hf Hk]. apply str_eqb_eq in Hk.
    exists f. repeat split; try assumption; try reflexivity.
    cbn [withOccurrences g_occurrences]. now rewrite Hk. }
  assert (Hfree : forall g, In g (groupFindingsByRuleAndFile findings) ->
            ~ In 58%N (g_ruleId g)).
  { intros g Hg. destruct (Hfrom g Hg) as [f [Hf [-> _]]]. now apply Hc. }
  split; [|split].
  - pose proof (groups_keys findings) as Hkeys. rewrite <- Hkeys in ND.
    revert ND Hfree. generalize (groupFindingsByRuleAndFile findings). intros gs.
    induction gs as [|g gs IH]; intros ND Hfree; [constructor|].
    cbn [map] in *. inversion ND as [|? ? Hnot ND']; subst. constructor.
    + intros Hin. apply in_map_iff in Hin as [g' [E Hg']].
      apply Hnot. apply in_map_iff. exists g'. split; [|assumption].
      unfold pairOf in E. injection E as E1 E2. unfold keyOf. now rewrite E1, E2.
    + apply IH; [assumption|]. intros g' Hg'. apply Hfree. now right.
  - intros ruleId filePath. split.
    + intros Hin. apply in_map_iff in Hin as [g [E Hg]].
      unfold pairOf in E. injection E as <- <-.
      destruct (Hfrom g Hg) as [f [Hf [E1 [E2 _]]]]. exists f. auto.
    + intros [f [Hf [<- <-]]].
      destruct (grouping_covers findings f Hf) as [g [Hg [Hk _]]].
      apply in_map_iff. exists g. split; [|assumption].
      destruct (Hfrom g Hg) as [f0 [Hf0 [E1 [E2 _]]]].
      assert (Hkk : groupKey f0 = groupKey f).
      { unfold groupKey. now rewrite <- E1, <- E2. }
      destruct (groupKey_inj f0 f (Hc _ Hf0) (Hc _ Hf) Hkk) as [E3 E4].
      unfold pairOf. now rewrite E1, E2, E3, E4.
  - intros g Hg. destruct (Hfrom g Hg) as [f [Hf [E1 [E2 ->]]]].
    rewrite E1, E2. f_equal. apply filter_ext_in. intros f' Hf'.
    apply keyIs_pairIs; auto.
Qed.

Lemma grouping_by_pair_witness :
  let fs := [Sample.finding "js/xss" "src/a.ts" "critical" 10;
             Sample.finding "js/sql-injection" "src/a.ts" "critical" 20;
             Sample.finding "js/xss" "src/a.ts" "critical" 30] in
  NoDup (map pairOf (groupFindingsByRuleAndFile fs)) /\
  (forall ruleId filePath,
      In (ruleId, filePath) (map pairOf (groupFindingsByRuleAndFile fs)) <->
      exists f, In f fs /\ f_ruleId f = ruleId /\ f_filePath f = filePath) /\
  (forall g, In g (groupFindingsByRuleAndFile fs) ->
      g_occurrences g
      = map occurrenceOf (filter (pairIs (g_ruleId g) (g_filePath g)) fs)).
Proof.
  intros fs. apply (grouping_by_pair fs).
  intros f Hf H. cbv in Hf.
  destruct Hf as [<-|[<-|[<-|[]]]]; vm_compute in H;
    repeat (destruct H as [H|H]; [discriminate H|]); exact H.
Defined.

(** ** Filtering: names outside the four levels, substring exclusion *)

Lemma indexOf_from_absent l x : forall i,
  ~ In x l -> indexOf_from i l x = (-1)%Z.
Proof.
  induction l as [|y l IH]; intros i H; cbn [indexOf_from]; [reflexivity|].
  destruct (str_eqb y x) eqn:E.
  - apply str_eqb_eq in E. exfalso. apply H. now left.
  - apply IH. intros Hin. apply H. now right.
Qed.

Lemma indexOf_from_lower l x : forall i,
  (0 <= i)%Z -> (-1 <= indexOf_from i l x)%Z.
Proof.
  induction l as [|y l IH]; intros i H; cbn [indexOf_from]; [lia|].
  destruct (str_eqb y x); [lia|]. apply IH. lia.
Qed.

Lemma indexOf_from_present l x : forall i,
  In x l -> (i <= indexOf_from i l x)%Z.
Proof.
  induction l as [|y l IH]; intros i H; cbn [indexOf_from]; [destruct H|].
  destruct (str_eqb y x) eqn:E; [lia|].
  destruct H as [->|H]; [now rewrite str_eqb_refl in E|].
  specialize (IH (i + 1)%Z H). lia.
Qed.

(** X4.  A severity that is none of the four level names never meets a
    threshold that is one of them, and a threshold that is none of the
    four names lets every severity through, the unknown ones included:
    names are compared as written, an unknown one counts as index -1. *)
Theorem severity_threshold_unknown_names (cfg : Config) (severity : jsstring) :
  (In (severityThreshold cfg) severityLevels -> ~ In severity severityLevels ->
   meetsSeverityThreshold cfg severity = false) /\
  (~ In (severityThreshold cfg) severityLevels ->
   meetsSeverityThreshold cfg severity = true).
Proof.
  unfold meetsSeverityThreshold, indexOf. cbv zeta. split.
  - intros Ht Hs. rewrite (indexOf_from_absent _ _ 0%Z Hs).
    apply Z.leb_gt. pose proof (indexOf_from_present _ _ 0%Z Ht). lia.
  - intros Ht. rewrite (indexOf_from_absent _ _ 0%Z Ht).
    apply Z.leb_le. apply indexOf_from_lower. lia.
Qed.

Lemma severity_threshold_unknown_names_witness :
  meetsSeverityThreshold (Sample.cfg "low" 10) (lit "High") = false /\
  meetsSeverityThreshold (Sample.cfg "HIGH" 10) (lit "low") = true.
Proof.
  split.
  - apply (proj1 (severity_threshold_unknown_names (Sample.cfg "low" 10) (lit "High"))).
    + vm_compute. left. reflexivity.
    + vm_compute. intros H.
      repeat (destruct H as [H|H]; [discriminate H|]). exact H.
  - apply (proj2 (severity_threshold_unknown_names (Sample.cfg "HIGH" 10) (lit "low"))).
    vm_compute. intros H.
    repeat (destruct H as [H|H]; [discriminate H|]). exact H.
Defined.

(** X5.  A path is excluded exactly when one of the configured strings
    occurs somewhere inside it: the test is for a substring, at any
    position, with no pattern syntax; with nothing configured no path is
    excluded. *)
Theorem shouldExcludePath_substring (cfg : Config) (filePath : jsstring) :
  (shouldExcludePath cfg filePath = true <->
   exists x before after,
     In x (excludedPaths cfg) /\ filePath = before ++ x ++ after) /\
  (excludedPaths cfg = [] -> shouldExcludePath cfg filePath = false).
Proof.
  unfold shouldExcludePath. split.
  - rewrite existsb_exists. split.
    + intros [x [Hx Hin]]. apply includes_iff in Hin as [a [b E]]. eauto.
    + intros [x [a [b [Hx E]]]]. exists x. split; [assumption|].
      apply includes_iff. eauto.
  - intros ->. reflexivity.
Qed.

(** ** Errors are contained: a run always ends with its counters *)

Lemma keepsRun_ret {A} (a : A) : KeepsRun (ret a).
Proof. intros s r s' H. now injection H as _ <-. Qed.

Lemma keepsRun_throw {A} e : KeepsRun (@throw A e).
Proof. intros s r s' H. now injection H as _ <-. Qed.

Lemma keepsRun_bind {A B} (m : M A) (k : A -> M B) :
  KeepsRun m -> (forall a, KeepsRun (k a)) -> KeepsRun (bind m k).
Proof.
  intros Hm Hk s r s' H. unfold bind in H.
  destruct (m s) as [[a|e] s1] eqn:E.
  - rewrite (Hk a _ _ _ H). eapply Hm; eauto.
  - injection H as _ <-. eapply Hm; eauto.
Qed.

Lemma keepsRun_try {A} (m : M A) h :
  KeepsRun m -> (forall e, KeepsRun (h e)) -> KeepsRun (try_catch m h).
Proof.
  intros Hm Hh s r s' H. unfold try_catch in H.
  destruct (m s) as [[a|e] s1] eqn:E.
  - injection H as _ <-. eapply Hm; eauto.
  - rewrite (Hh e _ _ _ H). eapply Hm; eauto.
Qed.

Lemma harmless_keepsRun {A} (m : M A) : Harmless m -> KeepsRun m.
Proof.
  intros Hm s r s' H. destruct (Hm s) as [r0 [s0 [E [_ R]]]].
  rewrite E in H. now injection H as _ <-.
Qed.

Lemma quiet_keepsRun {A} (m : M A) : Quiet m -> KeepsRun m.
Proof. intros H. now apply harmless_keepsRun, quiet_harmless. Qed.

Lemma keepsRun_request c : KeepsRun (request c).
Proof.
  intros s r s' H. unfold request in H.
  destruct (faults (tracker s)) as [|[msg|] rest]; now injection H as _ <-.
Qed.

Lemma keepsRun_set_issues l : KeepsRun (set_issues l).
Proof. intros s r s' H. unfold set_issues, modify in H. now injection H as _ <-. Qed.

Lemma keepsRun_log lv msg : KeepsRun (log lv msg).
Proof. apply quiet_keepsRun, quiet_log. Qed.

Lemma keepsRun_onIssue c n f : KeepsRun (onIssue c n f).
Proof.
  unfold onIssue. apply keepsRun_bind; [apply keepsRun_request | intros _].
  apply keepsRun_bind; [apply quiet_keepsRun, quiet_get | intros s0].
  destruct (findIssue n _); [|apply keepsRun_throw].
  apply keepsRun_bind; [apply keepsRun_set_issues | intros _; apply keepsRun_ret].
Qed.

Lemma keepsRun_issuesCreate t b l a : KeepsRun (issuesCreate t b l a).
Proof.
  unfold issuesCreate. apply keepsRun_bind; [apply keepsRun_request | intros _].
  intros s r s' H. unfold bind, get, modify, ret in H. now injection H as _ <-.
Qed.

Lemma keepsRun_listForRepo label n : KeepsRun (listForRepo label n).
Proof.
  unfold listForRepo. apply keepsRun_bind; [apply keepsRun_request | intros _].
  apply keepsRun_bind; [apply quiet_keepsRun, quiet_get | intros s0; apply keepsRun_ret].
Qed.

Ltac keeps :=
  repeat first
    [ apply keepsRun_ret | apply keepsRun_throw | apply keepsRun_log
    | apply keepsRun_request | apply keepsRun_onIssue | apply keepsRun_issuesCreate
    | apply keepsRun_listForRepo
    | apply quiet_keepsRun, quiet_now | apply quiet_keepsRun, quiet_get
    | apply keepsRun_bind; [| intros ? ]
    | apply keepsRun_try; [| intros ? ]
    | match goal with
      | |- KeepsRun (if ?b then _ else _) => destruct b
      | |- KeepsRun (match ?x with _ => _ end) => destruct x
      end ].

Lemma keepsRun_findExistingIssue g : KeepsRun (findExistingIssue g).
Proof. unfold findExistingIssue. keeps. Qed.

Lemma keepsRun_createOrUpdateIssue env g b l : KeepsRun (createOrUpdateIssue env g b l).
Proof.
  unfold createOrUpdateIssue.
  apply keepsRun_bind; [apply keepsRun_findExistingIssue | intros existing].
  destruct existing; unfold issuesUpdate, issuesCreateComment; keeps.
Qed.

Lemma keepsRun_sweepLoop env cur l : forall k, KeepsRun (sweepLoop env cur l k).
Proof.
  induction l as [|i l IH]; intros k; cbn [sweepLoop]; [apply keepsRun_ret|].
  cbv zeta.
  destruct (sweepVerdict cur i);
    unfold issuesClose, issuesCreateComment, issuesAddLabels;
    repeat first [ apply IH | apply keepsRun_log | apply keepsRun_onIssue
                 | apply quiet_keepsRun, quiet_now
                 | apply keepsRun_bind; [| intros ? ] ].
Qed.

Lemma keepsRun_autoClose env cur : KeepsRun (autoCloseResolvedIssues env cur).
Proof.
  unfold autoCloseResolvedIssues.
  apply keepsRun_try; [| intros e; keeps].
  apply keepsRun_bind; [apply keepsRun_listForRepo | intros l].
  apply keepsRun_bind; [apply keepsRun_log | intros _].
  apply keepsRun_sweepLoop.
Qed.

Lemma returns_ret {A} (a : A) : Returns (ret a).
Proof. intros s. now exists a, s. Qed.

Lemma returns_bind {A B} (m : M A) (k : A -> M B) :
  Returns m -> (forall a, Returns (k a)) -> Returns (bind m k).
Proof.
  intros Hm Hk s. destruct (Hm s) as [a [s1 E]]. destruct (Hk a s1) as [b [s2 E2]].
  exists b, s2. unfold bind. now rewrite E.
Qed.

Lemma returns_try {A} (m : M A) h :
  (forall e, Returns (h e)) -> Returns (try_catch m h).
Proof.
  intros Hh s. unfold try_catch. destruct (m s) as [[a|e] s1].
  - now exists a, s1.
  - apply Hh.
Qed.

Lemma quiet_returns {A} (m : M A) : Quiet m -> Returns m.
Proof. intros H s. destruct (H s) as [a [s' [E _]]]. eauto. Qed.

Lemma returns_modifyRun f : Returns (modifyRun f).
Proof. intros s. unfold modifyRun, modify. eauto. Qed.

Lemma returns_log lv msg : Returns (log lv msg).
Proof. apply quiet_returns, quiet_log. Qed.

Lemma returns_onFailure g e : Returns (onFailure g e).
Proof.
  unfold onFailure, modifyResults.
  repeat first [ apply returns_ret | apply returns_log | apply returns_modifyRun
               | apply returns_bind; [| intros ? ] ].
Qed.

Lemma returns_processOne env n g : Returns (processOne env n g).
Proof.
  unfold processOne. cbv zeta. apply returns_try. intros e.
  exact (returns_onFailure g e).
Qed.

Lemma returns_processLoop env n gs : Returns (processLoop env n gs).
Proof.
  induction gs as [|g gs IH]; cbn [processLoop]; [apply returns_ret|].
  apply returns_bind; [apply returns_processOne | intros b].
  destruct b; [apply IH | apply returns_ret].
Qed.

Lemma returns_processFindings env findings : Returns (processFindings env findings).
Proof.
  unfold processFindings. cbv zeta.
  apply returns_bind; [apply returns_modifyRun | intros _].
  apply returns_bind; [apply returns_log | intros _].
  apply returns_bind; [apply returns_log | intros _].
  apply returns_bind; [apply returns_processLoop | intros _].
  apply returns_bind; [apply returns_log | intros _].
  apply returns_bind; [apply quiet_returns, quiet_get | intros s1].
  apply returns_bind; [apply returns_try; intros e; apply returns_log | intros _].
  apply returns_bind; [apply quiet_returns, quiet_get | intros s2].
  apply returns_ret.
Qed.

Lemma bind_log {B} lv msg (k : unit -> M B) s :
  bind (log lv msg) k s = k tt (set_logs (logs s ++ [(lv, msg)]) s).
Proof. reflexivity. Qed.

Lemma parseRuns_outcome env runs s :
  (existsb brokenRun runs = true /\
   exists e s', parseRuns env runs s = (Throw e, s') /\ tracker s' = tracker s) \/
  (existsb brokenRun runs = false /\
   exists fs s', parseRuns env runs s = (Ok fs, s')).
Proof.
  revert s. induction runs as [|[r|] runs IH]; intros s; cbn [parseRuns existsb brokenRun].
  - right. split; [reflexivity|]. now exists [], s.
  - destruct (run_results r) as [results|failure]; cbn [orb].
    + destruct (quiet_parseResults env r results s) as [fs [s1 [E1 [T1 _]]]].
      unfold bind at 1. rewrite E1. cbv beta iota.
      destruct (IH s1) as [[Hb [e [s2 [E2 T2]]]] | [Hb [more [s2 E2]]]].
      * left. split; [exact Hb|]. exists e, s2. unfold bind at 1. rewrite E2.
        split; [reflexivity | congruence].
      * right. split; [exact Hb|]. eexists _, s2.
        unfold bind at 1. rewrite E1. cbv beta iota. unfold bind at 1. rewrite E2.
        reflexivity.
    + left. split; [reflexivity|]. eexists _, s. split; reflexivity.
  - left. split; [reflexivity|]. eexists _, s. split; reflexivity.
Qed.

Lemma parse_outcomes env path s :
  (fatalReport (sarifFile env path) = true /\
   exists e s', parseSARIFResults env path s = (Throw e, s') /\ tracker s' = tracker s) \/
  (fatalReport (sarifFile env path) = false /\
   exists fs s', parseSARIFResults env path s = (Ok fs, s')).
Proof.
  unfold parseSARIFResults. rewrite bind_log.
  destruct (sarifFile env path) as [|msg| |failure|runs] eqn:E; cbn [fatalReport].
  - right. rewrite bind_log. split; [reflexivity|]. eexists _, _. reflexivity.
  - right. rewrite bind_log. split; [reflexivity|]. eexists _, _. reflexivity.
  - left. split; [reflexivity|]. eexists _, _. split; reflexivity.
  - left. split; [reflexivity|]. eexists _, _. split; reflexivity.
  - match goal with |- context [bind (parseRuns env runs) _ ?s0] =>
      destruct (parseRuns_outcome env runs s0)
        as [[Hb [e [s1 [E1 T1]]]] | [Hb [fs [s1 E1]]]] end.
    + left. split; [exact Hb|]. exists e, s1. unfold bind at 1. rewrite E1.
      split; [reflexivity | exact T1].
    + right. split; [exact Hb|]. unfold bind at 1. rewrite E1. rewrite bind_log.
      eexists _, _. reflexivity.
Qed.

(** X6.  [main] contains every error: it always ends with an outcome and
    the exit code is 0 or 1.  No summary is written exactly when the
    report makes the parser throw outside the [try] of a result: the
    value [null], a [runs] or a [results] that is neither falsy nor
    iterable, or a [null] among the runs; nothing is then sent to the
    tracker.  The exit code is 1 exactly when no summary was written or
    the summary lists errors. *)
Theorem main_always_ends (env : Env) (s : St) :
  exists o s',
    main env s = (Ok o, s') /\
    (exitCode o = 0 \/ exitCode o = 1)%Z /\
    (summary o = None <-> fatalReport (sarifFile env (sarifPath (config env))) = true) /\
    (summary o = None -> tracker s' = tracker s) /\
    (exitCode o = 1%Z <->
     summary o = None \/ exists r, summary o = Some r /\ errors r <> []).
Proof.
  unfold main. rewrite !bind_log. unfold try_catch.
  match goal with |- context [bind (parseSARIFResults env ?p) ?k ?s0] =>
    set (st := s0); set (kk := k) end.
  unfold bind at 1.
  destruct (parse_outcomes env (sarifPath (config env)) st)
    as [[N [e [s1 [E T]]]] | [N [fs [s1 E]]]]; rewrite E.
  - rewrite bind_log. eexists _, _. split; [reflexivity|].
    cbn [exitCode summary]. split; [now right|]. split; [now split|].
    split; [intros _; exact T|]. split; [intros _; now left | reflexivity].
  - subst kk. cbv beta. destruct fs as [|f fs].
    + rewrite bind_log. unfold generateSummary. unfold bind at 1. rewrite bind_log.
      unfold ret. eexists _, _. split; [reflexivity|].
      cbn [exitCode summary]. split; [now left|].
      split; [split; [discriminate | congruence]|].
      split; [discriminate|]. split; [discriminate|].
      intros [H|[r [H H']]]; [discriminate|].
      injection H as <-. now contradiction H'.
    + unfold bind at 1.
      destruct (returns_processFindings env (f :: fs) s1) as [res [s2 E2]].
      rewrite E2. unfold generateSummary. unfold bind at 1. rewrite bind_log.
      unfold ret at 1. rewrite bind_log.
      destruct (errors res) as [|er ers] eqn:Eer.
      * unfold ret. eexists _, _. split; [reflexivity|].
        cbn [exitCode summary]. split; [now left|].
        split; [split; [discriminate | congruence]|].
        split; [discriminate|]. split; [discriminate|].
        intros [H|[r [H H']]]; [discriminate|].
        injection H as <-. now rewrite Eer in H'.
      * rewrite bind_log. unfold ret. eexists _, _. split; [reflexivity|].
        cbn [exitCode summary]. split; [now right|].
        split; [split; [discriminate | congruence]|].
        split; [discriminate|]. split; [|reflexivity].
        intros _. right. exists res. split; [reflexivity|]. now rewrite Eer.
Qed.

(** ** Every group is counted once when the cap stays out of reach *)

Lemma modifyResults_run f s :
  modifyResults f s
  = (Ok tt, set_run (mkRun (f (results (run s))) (processedCount (run s))
                           (currentVulnerabilities (run s))) s).
Proof. reflexivity. Qed.

Lemma bind_modifyRun {B} f (k : unit -> M B) s :
  bind (modifyRun f) k s = k tt (set_run (f (run s)) s).
Proof. reflexivity. Qed.

Lemma reconcile_counts env g info s :
  exists r s',
    reconcile env g info s = (r, s') /\
    total (results (run s')) = total (results (run s)) /\
    skipped (results (run s')) = skipped (results (run s)) /\
    errors (results (run s')) = errors (results (run s)) /\
    match r with
    | Ok _ =>
        created (results (run s')) + updated (results (run s'))
        = created (results (run s)) + updated (results (run s)) + 1 /\
        processedCount (run s') = processedCount (run s) + 1
    | Throw _ =>
        created (results (run s')) = created (results (run s)) /\
        updated (results (run s')) = updated (results (run s)) /\
        processedCount (run s') = processedCount (run s)
    end.
Proof.
  unfold reconcile. unfold bind at 1. rewrite modifyResults_run. rewrite bind_log.
  match goal with |- context [bind (gatherPrompts env g info) _ ?s0] =>
    destruct (quiet_gatherPrompts env g info s0) as [gathered [s3 [E3 [_ R3]]]] end.
  unfold bind at 1. rewrite E3.
  destruct (quiet_createIssueBody env g (fst gathered) s3) as [body [s4 [E4 [_ R4]]]].
  unfold bind at 1. rewrite E4.
  unfold bind at 1.
  destruct (createOrUpdateIssue env g body
              (generateLabels (mappings env) g info (snd gathered)) s4)
    as [[[issue action]|e] s5] eqn:E5;
    pose proof (keepsRun_createOrUpdateIssue _ _ _ _ _ _ _ E5) as R5.
  - cbn [snd]. rewrite recordAction_run. eexists _, _. split; [reflexivity|].
    cbn [run set_run results processedCount].
    rewrite R5, R4, R3. cbn [run set_run set_logs results processedCount].
    destruct action; cbn [addCreated addUpdated countOwasp total skipped errors
                          created updated]; repeat split; lia.
  - eexists _, _. split; [reflexivity|].
    rewrite R5, R4, R3. cbn [run set_run set_logs results processedCount].
    cbn [countOwasp total skipped errors created updated]. repeat split; reflexivity.
Qed.

Lemma processOne_counts env n g s :
  capReached (config env) (processedCount (run s)) = false ->
  exists s',
    processOne env n g s = (Ok true, s') /\
    total (results (run s')) = total (results (run s)) /\
    accounted (results (run s')) = accounted (results (run s)) + 1 /\
    processedCount (run s) <= processedCount (run s') <= processedCount (run s) + 1 /\
    length (errors (results (run s'))) + skipped (results (run s))
    <= length (errors (results (run s))) + skipped (results (run s')).
Proof.
  intros Hcap. rewrite (processOne_stage env n g s Hcap). unfold accounted.
  destruct (filterStage env g) as [why|info].
  - eexists. split; [reflexivity|]. unfold rejected.
    cbn [run set_run set_logs results processedCount addSkipped countSeverity
         total created updated skipped errors].
    repeat split; lia.
  - unfold try_catch. unfold bind at 1.
    destruct (reconcile_counts env g info (counted g s))
      as [r [s1 [E [T [S [Er H]]]]]].
    rewrite E. unfold counted in T, S, Er, H.
    cbn [run set_run results processedCount countSeverity total created updated
         skipped errors] in T, S, Er, H.
    destruct r as [u|e].
    + unfold ret. eexists. split; [reflexivity|].
      destruct H as [H1 H2]. rewrite T, S, Er. repeat split; lia.
    + unfold onFailure. rewrite bind_log. unfold bind at 1. rewrite modifyResults_run.
      unfold bind at 1. rewrite modifyResults_run. unfold ret.
      eexists. split; [reflexivity|].
      destruct H as [H1 [H2 H3]].
      cbn [run set_run set_logs results processedCount addSkipped pushError
           total created updated skipped errors].
      rewrite T, S, Er, H1, H2, H3, length_app. cbn [length].
      repeat split; lia.
Qed.

Lemma processLoop_counts env n gs : forall s,
  (forall k, processedCount (run s) <= k < processedCount (run s) + length gs ->
             capReached (config env) k = false) ->
  exists s',
    processLoop env n gs s = (Ok tt, s') /\
    total (results (run s')) = total (results (run s)) /\
    accounted (results (run s')) = accounted (results (run s)) + length gs /\
    length (errors (results (run s'))) + skipped (results (run s))
    <= length (errors (results (run s))) + skipped (results (run s')).
Proof.
  induction gs as [|g gs IH]; intros s Hcap; cbn [processLoop].
  - exists s. cbn [length]. repeat split; lia.
  - cbn [length] in Hcap.
    destruct (processOne_counts env n g s) as [s1 [E [T [A [P Er]]]]].
    { apply Hcap. lia. }
    unfold bind at 1. rewrite E.
    destruct (IH s1) as [s2 [E2 [T2 [A2 Er2]]]].
    { intros k Hk. apply Hcap. lia. }
    exists s2. split; [exact E2|]. cbn [length]. repeat split; lia.
Qed.

Lemma sweep_step env cur s :
  exists s',
    try_catch
      (closedCount <- autoCloseResolvedIssues env cur ;;
       modifyResults (setClosed closedCount) ;;
       log INFO (lit "Auto-closed " ++ numNat closedCount ++ lit " resolved issue(s)"))
      (fun error => log ERROR (lit "Failed to auto-close resolved issues: " ++ error)) s
    = (Ok tt, s') /\
    (results (run s') = results (run s) \/
     exists k, results (run s') = setClosed k (results (run s))).
Proof.
  unfold try_catch. unfold bind at 1.
  destruct (autoCloseResolvedIssues env cur s) as [[k|e] s2] eqn:E2;
    pose proof (keepsRun_autoClose _ _ _ _ _ E2) as R2.
  - unfold bind at 1. rewrite modifyResults_run. cbv beta iota.
    unfold log, modify. eexists. split; [reflexivity|]. right. exists k.
    cbn [run set_run set_logs results]. now rewrite R2.
  - unfold log, modify. eexists. split; [reflexivity|]. left.
    cbn [run set_logs]. now rewrite R2.
Qed.

(** X7.  When the cap is out of reach of the number of groups, a run
    counts every group exactly once, as created, updated or skipped,
    whatever the tracker answers: the three counters add up to the number
    of groups, [total] is the number of findings, and every recorded error
    is also a skip. *)
Theorem run_accounts_for_every_group (env : Env) (findings : list Finding) (s : St) :
  (forall k, k < length (groupFindingsByRuleAndFile findings) ->
             capReached (config env) k = false) ->
  exists res s',
    processFindings env findings s = (Ok res, s') /\
    total res = length findings /\
    created res + updated res + skipped res
    = length (groupFindingsByRuleAndFile findings) /\
    length (errors res) <= skipped res.
Proof.
  intros Hcap. unfold processFindings. cbv zeta.
  rewrite bind_modifyRun. rewrite !bind_log.
  match goal with |- context [bind (processLoop env ?n ?gs) _ ?s0] =>
    destruct (processLoop_counts env n gs s0) as [s1 [E [T [A Er]]]] end.
  { intros k Hk. apply Hcap.
    cbn [run set_run set_logs processedCount] in Hk. lia. }
  unfold bind at 1. rewrite E. cbv beta iota. rewrite bind_log.
  unfold bind at 1. unfold get at 1. cbv beta iota.
  cbn [run set_run set_logs results processedCount initialResults total created
       updated skipped errors length] in T, A, Er.
  unfold accounted in A.
  cbn [results initialResults total created updated skipped errors] in A.
  match goal with |- context [bind (try_catch _ _) _ ?s0] =>
    destruct (sweep_step env (currentVulnerabilities (run s0)) s0) as [s2 [E2 R2]] end.
  unfold bind at 1. rewrite E2. cbv beta iota.
  unfold bind, get, ret. eexists _, _. split; [reflexivity|].
  cbn [run set_logs] in R2.
  destruct R2 as [-> | [k ->]];
    cbn [setClosed total created updated skipped errors]; repeat split; lia.
Qed.

Lemma run_accounts_for_every_group_witness :
  let env := Sample.env "high" 10
               (Sample.report
                  [Sample.result "js/xss" "src/view.ts" "error" "m" 10;
                   Sample.result "js/log-injection" "src/log.ts" "warning" "m" 5]) in
  let findings := Sample.findingsOf env in
  exists res s',
    processFindings env findings
      (Sample.start (mkTracker [] 1 [None; Some (lit "Server Error")] []))
    = (Ok res, s') /\
    total res = length findings /\
    created res + updated res + skipped res
    = length (groupFindingsByRuleAndFile findings) /\
    length (errors res) <= skipped res.
Proof.
  intros env findings.
  apply (run_accounts_for_every_group env findings).
  intros k Hk. vm_compute in Hk.
  destruct k as [|[|k]]; [reflexivity | reflexivity | lia].
Defined.

(** ** Prompts: integrity and the cache *)

Lemma verifyPromptUrl_fixed s :
  verifyPromptUrl (lit "https:") (lit "raw.githubusercontent.com") s = (Ok true, s).
Proof.
  unfold verifyPromptUrl.
  assert (E1 : str_eqb (lit "https:") (lit "https:") = true) by apply str_eqb_refl.
  assert (E2 : arr_includes [lit "raw.githubusercontent.com"]
                            (lit "raw.githubusercontent.com") = true).
  { apply arr_includes_In. now left. }
  rewrite E1, E2. reflexivity.
Qed.

(** What a call that misses the cache comes to, case by case. *)
Lemma fetchPrompt_miss env category file s :
  assoc (cacheKey category file) (promptCache s) = None ->
  exists r s',
    fetchPrompt env category file s = (Ok r, s') /\
    tracker s' = tracker s /\ run s' = run s /\
    match manifestHash env category file with
    | None => r = None /\ promptCache s' = promptCache s
    | Some h =>
        match httpGet env (promptUrl env category file) with
        | Http200 content =>
            if verifyPromptIntegrity env content h
            then r = Some content /\
                 promptCache s' = (cacheKey category file, Some content) :: promptCache s
            else r = None /\ promptCache s' = promptCache s
        | _ => r = None /\
               promptCache s' = (cacheKey category file, None) :: promptCache s
        end
    end.
Proof.
  intros Hmiss. unfold fetchPrompt. cbv zeta. unfold bind at 1, get.
  fold (promptUrl env category file).
  fold (cacheKey category file). rewrite Hmiss.
  unfold manifestHash.
  destruct (match assoc category (promptHashes env) with
            | Some files => assoc file files | None => None end) as [[|c h]|].
  - rewrite bind_log. unfold ret. eexists _, _. split; [reflexivity|]. now repeat split.
  - unfold bind at 1. rewrite verifyPromptUrl_fixed. cbn [negb]. rewrite bind_log.
    destruct (httpGet env (promptUrl env category file)) as [content| |msg].
    + destruct (verifyPromptIntegrity env content (c :: h)); cbn [negb].
      * unfold bind, cacheSet, log, modify, ret.
        cbn [promptCache set_logs set_promptCache].
        eexists _, _. split; [reflexivity|]. now repeat split.
      * rewrite bind_log. unfold ret. eexists _, _. split; [reflexivity|].
        now repeat split.
    + unfold bind, cacheSet, log, modify, ret.
      cbn [promptCache set_logs set_promptCache].
      eexists _, _. split; [reflexivity|]. now repeat split.
    + unfold bind, cacheSet, log, modify, ret.
      cbn [promptCache set_logs set_promptCache].
      eexists _, _. split; [reflexivity|]. now repeat split.
  - rewrite bind_log. unfold ret. eexists _, _. split; [reflexivity|]. now repeat split.
Qed.


Lemma fetchPrompt_hit env category file s v :
  assoc (cacheKey category file) (promptCache s) = Some v ->
  fetchPrompt env category file s = (Ok v, servedFromCache category file s).
Proof.
  intros Hhit. unfold fetchPrompt. cbv zeta. unfold bind at 1, get.
  fold (cacheKey category file). rewrite Hhit. reflexivity.
Qed.

Lemma assoc_head {V} k (v : V) l : assoc k ((k, v) :: l) = Some v.
Proof. cbn [assoc]. now rewrite str_eqb_refl. Qed.

(** X9.  What a first call remembers.  When the manifest lists the file,
    a download that succeeds and verifies is cached, and so is a failed
    download (not found, or any other error) as [null]: the next call for
    the same file gets the same answer from the cache and only logs that.
    A download whose hash does not match is answered with [null] but not
    remembered. *)
Theorem fetchPrompt_remembers
    (env : Env) (category file h : jsstring) (s : St) :
  assoc (cacheKey category file) (promptCache s) = None ->
  manifestHash env category file = Some h ->
  exists r s1,
    fetchPrompt env category file s = (Ok r, s1) /\
    match httpGet env (promptUrl env category file) with
    | Http200 content =>
        if verifyPromptIntegrity env content h
        then r = Some content /\
             fetchPrompt env category file s1 = (Ok r, servedFromCache category file s1)
        else r = None /\ promptCache s1 = promptCache s
    | _ => r = None /\
           fetchPrompt env category file s1 = (Ok r, servedFromCache category file s1)
    end.
Proof.
  intros Hmiss Hh.
  destruct (fetchPrompt_miss env category file s Hmiss) as [r [s1 [E [_ [_ H]]]]].
  exists r, s1. split; [exact E|]. rewrite Hh in H.
  destruct (httpGet env (promptUrl env category file)) as [content| |msg].
  - destruct (verifyPromptIntegrity env content h); destruct H as [-> Hc].
    + split; [reflexivity|]. apply fetchPrompt_hit. rewrite Hc. apply assoc_head.
    + now split.
  - destruct H as [-> Hc]. split; [reflexivity|].
    apply fetchPrompt_hit. rewrite Hc. apply assoc_head.
  - destruct H as [-> Hc]. split; [reflexivity|].
    apply fetchPrompt_hit. rewrite Hc. apply assoc_head.
Qed.


Lemma fetchPrompt_remembers_witness :
  exists r s1,
    fetchPrompt Sample.hosted (lit "owasp") (lit "A01_access.md")
                (Sample.start Sample.emptyTracker) = (Ok r, s1) /\
    match httpGet Sample.hosted
            (promptUrl Sample.hosted (lit "owasp") (lit "A01_access.md")) with
    | Http200 content =>
        if verifyPromptIntegrity Sample.hosted content (lit "sha256:7")
        then r = Some content /\
             fetchPrompt Sample.hosted (lit "owasp") (lit "A01_access.md") s1
             = (Ok r, servedFromCache (lit "owasp") (lit "A01_access.md") s1)
        else r = None /\ promptCache s1 = []
    | _ => r = None /\
           fetchPrompt Sample.hosted (lit "owasp") (lit "A01_access.md") s1
           = (Ok r, servedFromCache (lit "owasp") (lit "A01_access.md") s1)
    end.
Proof.
  apply (fetchPrompt_remembers Sample.hosted (lit "owasp") (lit "A01_access.md")
           (lit "sha256:7") (Sample.start Sample.emptyTracker)).
  - reflexivity.
  - vm_compute. reflexivity.
Defined.

(** ** Snippets: every line under its own number *)

Lemma numberLines_nth a b : forall (m : list jsstring) (k : nat),
  numberLines a b (N.of_nat k + 1) m
  = map (fun j => snippetLine a b (N.of_nat (k + j) + 1) (nth j m []))
        (seq 0 (length m)).
Proof.
  induction m as [|t m IH]; intros k; [reflexivity|].
  cbn [numberLines length seq map nth]. f_equal.
  - unfold snippetLine. now rewrite Nat.add_0_r.
  - replace (N.of_nat k + 1 + 1)%N with (N.of_nat (S k) + 1)%N by lia.
    rewrite IH. rewrite <- seq_shift, map_map.
    apply map_ext. intros j. cbn [nth]. now rewrite Nat.add_succ_r.
Qed.

Lemma nth_skipn_firstn (l : list jsstring) k e j :
  j < Nat.min e (length l) - k ->
  nth j (skipn k (firstn e l)) [] = nth (k + j) l [].
Proof.
  intros H. rewrite nth_skipn. rewrite nth_firstn.
  destruct (k + j <? e) eqn:E; [reflexivity|].
  apply Nat.ltb_ge in E. lia.
Qed.

Lemma seq_from k n (f : nat -> jsstring) :
  map (fun j => f (k + j)) (seq 0 n) = map f (seq k n).
Proof.
  revert k. induction n as [|n IH]; intros k; [reflexivity|].
  cbn [seq map]. rewrite Nat.add_0_r. f_equal.
  rewrite <- seq_shift, map_map. rewrite <- (IH (S k)).
  apply map_ext. intros j. now rewrite Nat.add_succ_r.
Qed.

(** X10.  When the file can be read, the snippet is made of the lines of
    the file from [startLine - contextLines] to [endLine + contextLines],
    cut to the lines the file has; each is printed under its own 1-based
    number, and exactly those numbered from [startLine] to [endLine]
    carry the arrow.  No error is raised, and a start line beyond the end
    of the file gives the empty snippet. *)
Theorem extractCodeSnippet_lines
    (env : Env) (filePath content : jsstring) (startLine endLine contextLines : N)
    (s : St) :
  readSource env filePath = FileContent content ->
  let lines := split 10%N content in
  let first := N.to_nat (startLine - contextLines - 1) in
  let last := Nat.min (N.to_nat (endLine + contextLines)) (length lines) in
  extractCodeSnippet env filePath startLine endLine contextLines s
  = (Ok (join nl (map (fun i => snippetLine startLine endLine (N.of_nat i + 1)
                                            (nth i lines []))
                      (seq first (last - first)))), s) /\
  (length lines <= first ->
   extractCodeSnippet env filePath startLine endLine contextLines s = (Ok [], s)).
Proof.
  intros Hread lines first last.
  assert (E : extractCodeSnippet env filePath startLine endLine contextLines s
              = (Ok (join nl (map (fun i => snippetLine startLine endLine (N.of_nat i + 1)
                                                        (nth i lines []))
                                  (seq first (last - first)))), s)).
  { unfold extractCodeSnippet. rewrite Hread. cbv zeta. unfold ret.
    fold lines. do 3 f_equal.
    replace (startLine - contextLines - 1 + 1)%N with (N.of_nat first + 1)%N
      by (unfold first; lia).
    fold first.
    replace (N.to_nat (N.min (N.of_nat (length lines)) (endLine + contextLines)))
      with last by (unfold last; lia).
    rewrite numberLines_nth.
    assert (Hlen : length (skipn first (firstn last lines)) = last - first).
    { rewrite length_skipn, length_firstn. unfold last. lia. }
    rewrite Hlen. rewrite <- (seq_from first).
    apply map_ext_in. intros j Hj. apply in_seq in Hj. f_equal.
    apply nth_skipn_firstn. unfold last in *. lia. }
  split; [exact E|].
  intros Hbeyond. rewrite E.
  replace (last - first) with 0 by (unfold last; lia). reflexivity.
Qed.

Lemma extractCodeSnippet_lines_witness :
  let env := Sample.reading (lit "a
b
c
d
e
f") in
  let lines := [lit "a"; lit "b"; lit "c"; lit "d"; lit "e"; lit "f"] in
  extractCodeSnippet env (lit "src/app.ts") 4 4 2 (Sample.start Sample.emptyTracker)
  = (Ok (join nl (map (fun i => snippetLine 4 4 (N.of_nat i + 1) (nth i lines []))
                      [1; 2; 3; 4; 5])),
     Sample.start Sample.emptyTracker) /\
  (6 <= 1 ->
   extractCodeSnippet env (lit "src/app.ts") 4 4 2 (Sample.start Sample.emptyTracker)
   = (Ok [], Sample.start Sample.emptyTracker)).
Proof.
  exact (extractCodeSnippet_lines
           (Sample.reading (lit "a
b
c
d
e
f")) (lit "src/app.ts") (lit "a
b
c
d
e
f") 4 4 2 (Sample.start Sample.emptyTracker) eq_refl).
Defined.

(** ** Parsing: what every finding is sure to have *)

Lemma trimStart_fix s : trimStart (trimStart s) = trimStart s.
Proof.
  induction s as [|c s IH]; [reflexivity|]. cbn [trimStart].
  destruct (isSpace c) eqn:E; [exact IH|]. cbn [trimStart]. now rewrite E.
Qed.

Lemma trimStart_decomp s :
  exists sp, s = sp ++ trimStart s.
Proof.
  induction s as [|c s [sp IH]]; [now exists []|]. cbn [trimStart].
  destruct (isSpace c).
  - exists (c :: sp). cbn [app]. now rewrite <- IH.
  - now exists [].
Qed.

Lemma trimStart_head s c t : trimStart s = c :: t -> isSpace c = false.
Proof.
  induction s as [|d s IH]; cbn [trimStart]; [discriminate|].
  destruct (isSpace d) eqn:E; [exact IH|]. intros H. now injection H as <- _.
Qed.

Lemma trimStart_keep s :
  (forall c t, s = c :: t -> isSpace c = false) -> trimStart s = s.
Proof.
  destruct s as [|c s]; intros H; [reflexivity|]. cbn [trimStart].
  now rewrite (H c s eq_refl).
Qed.

Lemma trim_fix s : trim (trim s) = trim s.
Proof.
  unfold trim. set (t := trimStart s). set (r := trimStart (rev t)).
  destruct (trimStart_decomp (rev t)) as [sp Hsp]. fold r in Hsp.
  assert (Ht : t = rev r ++ rev sp).
  { rewrite <- (rev_involutive t), Hsp. apply rev_app_distr. }
  assert (E1 : trimStart (rev r) = rev r).
  { apply trimStart_keep. intros c u Hu.
    apply (trimStart_head s c (u ++ rev sp)). fold t. now rewrite Ht, Hu. }
  rewrite E1, rev_involutive. unfold r. now rewrite trimStart_fix.
Qed.

Lemma parseResult_made env r result s f s' :
  parseResult env r result s = (Ok (ParsedFinding f), s') ->
  fromResult [result] f.
Proof.
  unfold parseResult. destruct result as [res|]; [|discriminate].
  destruct (r_location res) as [loc|] eqn:El.
  - unfold bind at 1.
    match goal with |- context [match ?m s with _ => _ end] =>
      destruct (m s) as [[snip|e] s1] end; [|discriminate].
    unfold bind at 1.
    destruct (findRule (r_ruleId res) (run_rules r) s1) as [[rule|e] s2]; [|discriminate].
    unfold ret. intros H. injection H as <- _. split.
    + cbn [f_codeSnippet]. apply trim_fix.
    + exists res. split; [now left|]. exists loc. repeat split. exact El.
  - unfold bind, log, modify, ret. discriminate.
Qed.

Lemma fromResult_more rs rs' f :
  (forall x, In x rs -> In x rs') -> fromResult rs f -> fromResult rs' f.
Proof.
  intros Hsub [Ht [result [Hin Hm]]]. split; [exact Ht|].
  exists result. split; [now apply Hsub | exact Hm].
Qed.

Lemma parseResults_made env r rs : forall s fs s',
  parseResults env r rs s = (Ok fs, s') ->
  Forall (fromResult rs) fs /\ length fs <= length rs.
Proof.
  induction rs as [|result rs IH]; cbn [parseResults]; intros s fs s' H.
  - injection H as <- _. split; [constructor | reflexivity].
  - assert (Hlater : forall f, fromResult rs f -> fromResult (result :: rs) f).
    { intros f. apply fromResult_more. intros x Hx. now right. }
    unfold bind at 1 in H. unfold try_catch in H.
    destruct (parseResult env r result s) as [[p|e] s1] eqn:Ep.
    + unfold bind at 1 in H.
      destruct (parseResults env r rs s1) as [[more|e] s2] eqn:Er; [|discriminate].
      destruct (IH _ _ _ Er) as [F L].
      destruct p as [f|]; injection H as <- _; cbn [length].
      * split; [|lia]. constructor.
        -- apply (fromResult_more [result]); [|eapply parseResult_made; eauto].
           intros x [<-|[]]. now left.
        -- eapply Forall_impl; [exact Hlater | exact F].
      * split; [|lia]. eapply Forall_impl; [exact Hlater | exact F].
    + rewrite bind_log in H. unfold ret at 1 in H. unfold bind at 1 in H.
      match type of H with context [parseResults env r rs ?st] =>
        destruct (parseResults env r rs st) as [[more|e'] s2] eqn:Er end; [|discriminate].
      destruct (IH _ _ _ Er) as [F L].
      injection H as <- _. cbn [length]. split; [|lia].
      eapply Forall_impl; [exact Hlater | exact F].
Qed.

Lemma parseRuns_made env runs : forall s fs s',
  parseRuns env runs s = (Ok fs, s') ->
  Forall (fromResult (flat_map resultsOf runs)) fs /\
  length fs <= length (flat_map resultsOf runs).
Proof.
  induction runs as [|[r|] runs IH]; cbn [parseRuns flat_map resultsOf];
    intros s fs s' H; [| |discriminate].
  - injection H as <- _. split; [constructor | reflexivity].
  - destruct (run_results r) as [results|failure]; [|discriminate].
    unfold bind at 1 in H.
    destruct (parseResults env r results s) as [[fs1|e] s1] eqn:E1; [|discriminate].
    unfold bind at 1 in H.
    destruct (parseRuns env runs s1) as [[fs2|e] s2] eqn:E2; [|discriminate].
    injection H as <- _.
    destruct (parseResults_made _ _ _ _ _ _ E1) as [F1 L1].
    destruct (IH _ _ _ E2) as [F2 L2].
    split; [|rewrite !length_app; lia].
    apply Forall_app. split.
    + eapply Forall_impl; [|exact F1]. intros f. apply fromResult_more.
      intros x Hx. apply in_or_app. now left.
    + eapply Forall_impl; [|exact F2]. intros f. apply fromResult_more.
      intros x Hx. apply in_or_app. now right.
Qed.

(** X11.  The parser invents nothing: it returns at most one finding per
    result of the report; every finding is made from a result of the
    report that has a location, with the rule, the file and the level of
    that result (or their defaults), and its snippet has no white space
    at either end; and parsing sends nothing to the tracker. *)
Theorem parseSARIFResults_findings
    (env : Env) (path : jsstring) (s s' : St) (findings : list Finding) :
  parseSARIFResults env path s = (Ok findings, s') ->
  length findings <= resultCount (sarifFile env path) /\
  (forall f, In f findings ->
     trim (f_codeSnippet f) = f_codeSnippet f /\
     exists runs result,
       sarifFile env path = ReportParsed runs /\
       In (Some result) (flat_map resultsOf runs) /\
       madeFrom result f) /\
  tracker s' = tracker s.
Proof.
  unfold parseSARIFResults. rewrite bind_log. unfold resultCount.
  destruct (sarifFile env path) as [|msg| |failure|runs].
  - rewrite bind_log. unfold ret. intros H. injection H as <- <-.
    repeat split; try reflexivity; contradiction.
  - rewrite bind_log. unfold ret. intros H. injection H as <- <-.
    repeat split; try reflexivity; contradiction.
  - discriminate.
  - discriminate.
  - unfold bind at 1.
    match goal with |- context [parseRuns env runs ?st] =>
      destruct (parseRuns env runs st) as [[v|e] s1] eqn:E;
      destruct (harmless_parseRuns env runs st) as [v' [s1' [E' [T' _]]]] end;
      [|discriminate].
    rewrite bind_log. unfold ret. intros H. injection H as <- <-.
    destruct (parseRuns_made _ _ _ _ _ E) as [F L].
    rewrite E in E'. injection E' as _ <-.
    split; [exact L|]. split; [|exact T'].
    intros f Hf. rewrite Forall_forall in F. destruct (F f Hf) as [Ht [result [Hin Hm]]].
    split; [exact Ht|]. exists runs, result. repeat split; assumption.
Qed.

Lemma parseSARIFResults_findings_witness :
  let located := mkSarifResult None [] [] (Some (mkLocation [] None)) in
  let env := Sample.env "high" 10
               (Sample.report
                  [None; Some (mkSarifResult (Some (lit "js/xss")) [] [] None);
                   Some located]) in
  exists f s',
    parseSARIFResults env (lit "results.sarif") (Sample.start Sample.emptyTracker)
    = (Ok [f], s') /\
    f_ruleId f = lit "undefined" /\
    f_filePath f = lit "unknown" /\
    f_level f = lit "warning" /\
    trim (f_codeSnippet f) = f_codeSnippet f /\
    tracker s' = Sample.emptyTracker.
Proof.
  intros located env.
  destruct (parseSARIFResults env (lit "results.sarif") (Sample.start Sample.emptyTracker))
    as [[findings|e] s'] eqn:E; [|vm_compute in E; discriminate E].
  destruct (parseSARIFResults_findings env (lit "results.sarif") _ _ _ E)
    as [Hcount [Hmade Htracker]].
  assert (Hone : exists f, findings = [f]).
  { vm_compute in E. injection E as <- _. eexists. reflexivity. }
  destruct Hone as [f ->]. exists f, s'. split; [reflexivity|].
  destruct (Hmade f (or_introl eq_refl)) as [Ht _].
  assert (Ef : f_ruleId f = lit "undefined" /\ f_filePath f = lit "unknown"
               /\ f_level f = lit "warning").
  { vm_compute in E. injection E as <- _. repeat split. }
  destruct Ef as [E1 [E2 E3]]. repeat split; assumption.
Defined.

(** ** Lookup, create and update against a tracker that answers or fails *)

Lemma request_pass c s :
  hd None (faults (tracker s)) = None ->
  request c s = (Ok tt, set_tracker (received c (tracker s)) s).
Proof.
  intros H. unfold request, received.
  destruct (faults (tracker s)) as [|[msg|] rest]; [reflexivity | discriminate | reflexivity].
Qed.

Lemma request_fail c s msg rest :
  faults (tracker s) = Some msg :: rest ->
  request c s = (Throw msg, set_tracker (received c (tracker s)) s).
Proof. intros H. unfold request, received. now rewrite H. Qed.

Lemma listForRepo_pass s :
  hd None (faults (tracker s)) = None ->
  listForRepo sentinel 100 s
  = (Ok (page (tracker s)), set_tracker (received CallList (tracker s)) s).
Proof.
  intros H. unfold listForRepo, bind at 1. rewrite (request_pass _ s H).
  unfold bind, get, ret, page. reflexivity.
Qed.

Lemma onIssue_pass c n f s j :
  hd None (faults (tracker s)) = None ->
  findIssue n (issues (tracker s)) = Some j ->
  onIssue c n f s
  = (Ok (f j),
     set_tracker (mkTracker (updateIssueIn n f (issues (tracker s)))
                            (nextNumber (tracker s)) (tl (faults (tracker s)))
                            (calls (tracker s) ++ [c])) s).
Proof.
  intros Hw Hf. unfold onIssue, bind at 1. rewrite (request_pass c s Hw).
  unfold bind, get, set_issues, modify, ret, received.
  cbn [tracker set_tracker issues]. rewrite Hf. reflexivity.
Qed.

Lemma onIssue_fail c n f s msg rest :
  faults (tracker s) = Some msg :: rest ->
  onIssue c n f s = (Throw msg, set_tracker (received c (tracker s)) s).
Proof.
  intros Hw. unfold onIssue, bind at 1. now rewrite (request_fail c s msg rest Hw).
Qed.

Lemma findExistingIssue_pass g s :
  hd None (faults (tracker s)) = None ->
  exists s',
    findExistingIssue g s = (Ok (find (matchesFinding g) (page (tracker s))), s') /\
    tracker s' = received CallList (tracker s) /\
    run s' = run s /\ promptCache s' = promptCache s /\ clock s' = clock s.
Proof.
  intros Hw. unfold findExistingIssue, try_catch. rewrite bind_log.
  set (s0 := set_logs _ s).
  assert (Hw0 : hd None (faults (tracker s0)) = None) by exact Hw.
  unfold bind at 1. rewrite (listForRepo_pass s0 Hw0).
  change (page (tracker s0)) with (page (tracker s)).
  destruct (find (matchesFinding g) (page (tracker s))) as [x|];
    unfold bind, log, modify, ret; eexists; (split; [reflexivity|]); now repeat split.
Qed.

Lemma find_split {A} (p : A -> bool) l x :
  find p l = Some x ->
  exists before after,
    l = before ++ x :: after /\ (forall y, In y before -> p y = false) /\ p x = true.
Proof.
  induction l as [|a l IH]; cbn [find]; [discriminate|].
  destruct (p a) eqn:E.
  - intros H. injection H as <-. exists [], l. repeat split; [intros y []| exact E].
  - intros H. destruct (IH H) as [b [c [-> [Hb Hx]]]].
    exists (a :: b), c. repeat split; [|exact Hx].
    intros y [<-|Hy]; [exact E | now apply Hb].
Qed.

(** X12.  When its listing request is answered, the dedup lookup returns
    the first issue of the listed page, in listing order, whose body
    contains both the rule identifier and the file path between
    backticks, and [null] when the page has none; what it returns is an
    open issue of the tracker that carries the [codeql-finding] label.
    The lookup sends that one request and changes no issue. *)
Theorem findExistingIssue_first_match (g : GroupedFinding) (s : St) :
  hd None (faults (tracker s)) = None ->
  exists r s',
    findExistingIssue g s = (Ok r, s') /\
    issues (tracker s') = issues (tracker s) /\
    calls (tracker s') = calls (tracker s) ++ [CallList] /\
    match r with
    | Some x =>
        (exists before after,
            page (tracker s) = before ++ x :: after /\
            forall y, In y before -> matchesFinding g y = false) /\
        In x (issues (tracker s)) /\ i_state x = StOpen /\
        In sentinel (i_labels x) /\
        includes (i_body x) (quoted (g_ruleId g)) = true /\
        includes (i_body x) (quoted (g_filePath g)) = true
    | None => forall y, In y (page (tracker s)) -> matchesFinding g y = false
    end.
Proof.
  intros Hw. destruct (findExistingIssue_pass g s Hw) as [s' [E [T _]]].
  eexists _, s'. split; [exact E|]. rewrite T. cbn [received issues calls].
  split; [reflexivity|]. split; [reflexivity|].
  destruct (find (matchesFinding g) (page (tracker s))) as [x|] eqn:F.
  - destruct (find_split _ _ _ F) as [b [a [Hp [Hb Hx]]]].
    assert (Hin : In x (page (tracker s))).
    { rewrite Hp. apply in_elt. }
    apply page_listed in Hin as [Hin Hl].
    unfold listed in Hl. apply andb_true_iff in Hl as [Ho Hs].
    unfold matchesFinding in Hx. cbv zeta in Hx. apply andb_true_iff in Hx as [H1 H2].
    repeat split; try assumption.
    + exists b, a. now split.
    + unfold isOpen in Ho. now destruct (i_state x).
    + now apply arr_includes_In.
  - intros y Hy. exact (find_none _ _ F y Hy).
Qed.

Lemma findExistingIssue_first_match_witness :
  let g := newGroup (Sample.finding "js/xss" "src/app.ts" "critical" 7) in
  let mine := mkIssue 2 (lit "t") (lit "`js/xss` in `src/app.ts`") [sentinel] StOpen [] [] in
  let closed := mkIssue 3 (lit "t") (lit "`js/xss` in `src/app.ts`") [sentinel] StClosed [] [] in
  let other := mkIssue 1 (lit "t") (lit "`js/xss` in `src/db.ts`") [sentinel] StOpen [] [] in
  let s := Sample.start (mkTracker [closed; other; mine] 4 [] []) in
  exists s',
    findExistingIssue g s = (Ok (Some mine), s') /\
    issues (tracker s') = [closed; other; mine] /\
    calls (tracker s') = [CallList].
Proof.
  intros g mine closed other s.
  destruct (findExistingIssue_first_match g s eq_refl) as [r [s' [E [I [C H]]]]].
  exists s'. split; [|split; assumption].
  rewrite E. vm_compute in E. injection E as <- _. reflexivity.
Defined.

Lemma generateLabels_sentinel mp g info files :
  arr_includes (generateLabels mp g info files) sentinel = true.
Proof. apply arr_includes_In. unfold generateLabels. now left. Qed.

Lemma rendered_carries cfg ts g prompts :
  length (bodyHeader ts g prompts) <= MAX_BODY_LENGTH ->
  carries g (issueBodyText cfg ts g prompts) = true.
Proof.
  intros H. unfold issueBodyText, assembleBody. cbv zeta.
  destruct (limitBody_prefix (bodyHeader ts g prompts)
              (occurrenceSections (languageOf (g_filePath g)) (length (g_occurrences g)) 0
                 (g_occurrences g)
               ++ ruleHelpSection g
               ++ guidanceSection [55357; 56536]%N (lit "OWASP Security Guidance")
                    (lit "guide") (lit "guides") owaspEntry (owaspPrompts prompts)
               ++ guidanceSection [55356; 57303; 65039]%N (lit "Maintainability Guidance")
                    (lit "guide") (lit "guides") maintainabilityEntry
                    (maintainabilityPrompts prompts)
               ++ guidanceSection [55356; 57263]%N (lit "Threat Model Analysis (STRIDE)")
                    (lit "threat") (lit "threats") threatEntry (threatModelPrompts prompts)
               ++ remediationZone g
               ++ metadataSection cfg ts g prompts) H) as [rest' E].
  rewrite E. unfold carries. apply andb_true_iff. split; apply includes_prefix.
  - apply header_has_rule.
  - apply header_has_file.
Qed.

(** X13.  Create, then look up.  On a tracker that answers, when no
    listed issue matches a group, [createOrUpdateIssue] creates an open
    issue under the next number; if its body is the one rendered for the
    group, with a header that fits into the size limit, and its labels
    are the generated ones, the next lookup for the same group returns
    exactly that issue. *)
Theorem created_issue_is_found
    (env : Env) (g : GroupedFinding) (info : OwaspInfo) (files : list jsstring)
    (ts : jsstring) (prompts : Prompts) (s : St) :
  faults (tracker s) = [] ->
  find (matchesFinding g) (page (tracker s)) = None ->
  length (bodyHeader ts g prompts) <= MAX_BODY_LENGTH ->
  let body := issueBodyText (config env) ts g prompts in
  let labels := generateLabels (mappings env) g info files in
  exists issue s1 s2,
    createOrUpdateIssue env g body labels s = (Ok (issue, ActCreated), s1) /\
    i_number issue = nextNumber (tracker s) /\
    i_state issue = StOpen /\
    issues (tracker s1) = issue :: issues (tracker s) /\
    findExistingIssue g s1 = (Ok (Some issue), s2).
Proof.
  intros Hw Hnone Hfit body labels.
  destruct (createOrUpdate_create env g body labels s Hw Hnone)
    as [s1 [E [I [N [W [R C]]]]]].
  set (issue := mkIssue (nextNumber (tracker s)) (createIssueTitle g) body labels StOpen
                        (autoAssign (config env)) []) in *.
  destruct (findExistingIssue_ok g s1 W) as [s2 [E2 _]].
  exists issue, s1, s2. split; [exact E|]. repeat split; try assumption.
  rewrite E2. do 2 f_equal.
  unfold page. rewrite I. cbn [filter].
  assert (Hl : listed sentinel issue = true).
  { unfold listed, isOpen. cbn [i_state i_labels issue andb].
    apply generateLabels_sentinel. }
  rewrite Hl. cbn [firstn find].
  assert (Hm : matchesFinding g issue = true).
  { rewrite matchesFinding_carries. cbn [i_body issue]. now apply rendered_carries. }
  now rewrite Hm.
Qed.

Lemma created_issue_is_found_witness :
  let env := Sample.env "high" 10 ReportMissing in
  let g := withOccurrences (newGroup (Sample.finding "js/xss" "src/app.ts" "critical" 7))
                           [occurrenceOf (Sample.finding "js/xss" "src/app.ts" "critical" 7)] in
  let info := mkOwaspInfo (lit "A03_injection") Sample.injection in
  let prompts := mkPrompts (lit "A03_injection") (lit "Injection") (lit "A03_injection.md")
                           [] [] [] in
  let body := issueBodyText (config env) (lit "2025-10-13T16:30:00.000Z") g prompts in
  let labels := generateLabels (mappings env) g info [] in
  exists issue s1 s2,
    createOrUpdateIssue env g body labels (Sample.start Sample.emptyTracker)
    = (Ok (issue, ActCreated), s1) /\
    i_number issue = 1%N /\
    i_state issue = StOpen /\
    issues (tracker s1) = [issue] /\
    findExistingIssue g s1 = (Ok (Some issue), s2).
Proof.
  intros env g info prompts body labels.
  apply (created_issue_is_found env g info [] (lit "2025-10-13T16:30:00.000Z") prompts
           (Sample.start Sample.emptyTracker)).
  - reflexivity.
  - reflexivity.
  - apply Nat.leb_le. vm_compute. reflexivity.
Defined.

Lemma updateIssueIn_length n f l : length (updateIssueIn n f l) = length l.
Proof. unfold updateIssueIn. apply length_map. Qed.

Lemma update_path env g body labels s x :
  hd None (faults (tracker s)) = None ->
  hd None (tl (faults (tracker s))) = None ->
  NoDup (map i_number (issues (tracker s))) ->
  find (matchesFinding g) (page (tracker s)) = Some x ->
  exists s3,
    tracker s3
    = mkTracker (updateIssueIn (i_number x) (overwritten body labels) (issues (tracker s)))
                (nextNumber (tracker s)) (tl (tl (faults (tracker s))))
                (calls (tracker s) ++ [CallList; CallUpdate (i_number x)]) /\
    run s3 = run s /\
    In x (issues (tracker s)) /\
    findIssue (i_number x) (issues (tracker s3)) = Some (overwritten body labels x) /\
    createOrUpdateIssue env g body labels s
    = match onIssue (CallComment (i_number x)) (i_number x)
              (fun i => mkIssue (i_number i) (i_title i) (i_body i) (i_labels i) (i_state i)
                          (i_assignees i)
                          (i_comments i ++ [updateComment env (isoTime env (clock s))]))
              s3 with
      | (Ok _, s4) =>
          (Ok (overwritten body labels x, ActUpdated),
           set_logs (logs s4 ++ [(SUCCESS, lit "Updated issue #" ++ num (i_number x)
                                           ++ lit ": " ++ createIssueTitle g)]) s4)
      | (Throw e, s4) =>
          (Throw e,
           set_logs (logs s4 ++ [(ERROR, lit "Failed to update issue #" ++ num (i_number x)
                                         ++ lit ": " ++ e)]) s4)
      end.
Proof.
  intros Hw Hw2 ND Hfind.
  assert (Hx : In x (issues (tracker s))).
  { apply find_some in Hfind as [Hp _]. now apply page_listed in Hp as [Hp _]. }
  unfold createOrUpdateIssue, bind at 1.
  destruct (findExistingIssue_pass g s Hw) as [s0 [E0 [T0 [R0 [C0 K0]]]]].
  rewrite E0, Hfind. cbv beta iota zeta.
  set (n := i_number x).
  unfold try_catch. rewrite bind_log.
  set (s1 := set_logs _ s0).
  assert (W1 : hd None (faults (tracker s1)) = None).
  { change (tracker s1) with (tracker s0). rewrite T0. exact Hw2. }
  assert (F1 : findIssue n (issues (tracker s1)) = Some x).
  { change (tracker s1) with (tracker s0). rewrite T0. cbn [received issues].
    now apply findIssue_In. }
  unfold bind at 1, issuesUpdate. fold (overwritten body labels).
  rewrite (onIssue_pass _ n _ s1 x W1 F1).
  set (s2 := set_tracker _ s1).
  unfold bind at 1, now.
  set (s3 := set_clock _ s2).
  exists s3. split; [|split; [|split; [|split]]].
  - cbn [s3 s2 tracker set_clock set_tracker]. change (tracker s1) with (tracker s0).
    rewrite T0. cbn [received issues nextNumber faults calls].
    rewrite <- app_assoc. reflexivity.
  - cbn [s3 s2 s1 run set_clock set_tracker set_logs]. exact R0.
  - exact Hx.
  - cbn [s3 s2 tracker set_clock set_tracker issues].
    apply (findIssue_update n (overwritten body labels)); [reflexivity | exact F1].
  - unfold bind at 1, issuesCreateComment.
    assert (Ek : clock s2 = clock s).
    { cbn [s2 s1 clock set_tracker set_logs]. exact K0. }
    rewrite Ek.
    destruct (onIssue (CallComment n) n _ s3) as [[i|e] s4]; reflexivity.
Qed.

Lemma update_in_place
    (env : Env) (g : GroupedFinding) (body : jsstring) (labels : list jsstring)
    (s : St) (x : Issue) :
  faults (tracker s) = [] ->
  NoDup (map i_number (issues (tracker s))) ->
  find (matchesFinding g) (page (tracker s)) = Some x ->
  exists s' comment,
    createOrUpdateIssue env g body labels s
    = (Ok (overwritten body labels x, ActUpdated), s') /\
    issues (tracker s')
    = updateIssueIn (i_number x) (rewritten body labels comment) (issues (tracker s)) /\
    In (mkIssue (i_number x) (i_title x) body labels (i_state x) (i_assignees x)
                (i_comments x ++ [comment]))
       (issues (tracker s')) /\
    (forall j, In j (issues (tracker s)) -> i_number j <> i_number x ->
               In j (issues (tracker s'))) /\
    length (issues (tracker s')) = length (issues (tracker s)) /\
    nextNumber (tracker s') = nextNumber (tracker s) /\
    calls (tracker s')
    = calls (tracker s) ++ [CallList; CallUpdate (i_number x); CallComment (i_number x)].
Proof.
  intros Hw ND Hfind.
  assert (H1 : hd None (faults (tracker s)) = None) by now rewrite Hw.
  assert (H2 : hd None (tl (faults (tracker s))) = None) by now rewrite Hw.
  destruct (update_path env g body labels s x H1 H2 ND Hfind)
    as [s3 [T3 [R3 [Hx [F3 E]]]]].
  assert (W3 : hd None (faults (tracker s3)) = None) by now rewrite T3, Hw.
  rewrite (onIssue_pass _ _ _ s3 _ W3 F3) in E.
  set (comment := updateComment env (isoTime env (clock s))) in *.
  eexists _, comment. split; [exact E|].
  cbn [tracker set_logs set_tracker issues nextNumber calls].
  rewrite T3. cbn [issues nextNumber calls].
  assert (Hiss : updateIssueIn (i_number x)
                   (fun i => mkIssue (i_number i) (i_title i) (i_body i) (i_labels i)
                               (i_state i) (i_assignees i) (i_comments i ++ [comment]))
                   (updateIssueIn (i_number x) (overwritten body labels) (issues (tracker s)))
                 = updateIssueIn (i_number x) (rewritten body labels comment)
                     (issues (tracker s))).
  { rewrite updateIssueIn_twice by reflexivity. reflexivity. }
  rewrite Hiss. split; [reflexivity|]. split; [|split; [|split; [|split]]].
  - exact (updateIssueIn_same (i_number x) (rewritten body labels comment) _ x Hx eq_refl).
  - intros j Hj Hn. now apply updateIssueIn_other.
  - apply updateIssueIn_length.
  - reflexivity.
  - now rewrite <- app_assoc.
Qed.

(** X14.  The update path.  On a tracker that answers, when the lookup
    finds an issue for the group, [createOrUpdateIssue] sends a listing,
    an update and a comment request and nothing else; the issue found
    keeps its number, title, state and assignees, gets the new body, has
    its labels replaced by the given ones (labels it carried before and
    that are not among them are gone), and receives one comment; every
    other issue is left as it was and no issue is added. *)
Theorem update_rewrites_in_place
    (env : Env) (g : GroupedFinding) (body : jsstring) (labels : list jsstring)
    (s : St) (x : Issue) :
  faults (tracker s) = [] ->
  NoDup (map i_number (issues (tracker s))) ->
  find (matchesFinding g) (page (tracker s)) = Some x ->
  exists s' comment,
    createOrUpdateIssue env g body labels s
    = (Ok (overwritten body labels x, ActUpdated), s') /\
    issues (tracker s')
    = updateIssueIn (i_number x) (rewritten body labels comment) (issues (tracker s)) /\
    In (mkIssue (i_number x) (i_title x) body labels (i_state x) (i_assignees x)
                (i_comments x ++ [comment]))
       (issues (tracker s')) /\
    (forall j, In j (issues (tracker s)) -> i_number j <> i_number x ->
               In j (issues (tracker s'))) /\
    length (issues (tracker s')) = length (issues (tracker s)) /\
    nextNumber (tracker s') = nextNumber (tracker s) /\
    calls (tracker s')
    = calls (tracker s) ++ [CallList; CallUpdate (i_number x); CallComment (i_number x)].
Proof. exact (update_in_place env g body labels s x). Qed.

Lemma update_rewrites_in_place_witness :
  let env := Sample.env "high" 10 ReportMissing in
  let g := newGroup (Sample.finding "js/xss" "src/app.ts" "critical" 7) in
  let x := mkIssue 1 (lit "old title") (lit "`js/xss` in `src/app.ts`")
                   [sentinel; falsePositive] StOpen [lit "kim"] [] in
  let s := Sample.start (mkTracker [x] 2 [] []) in
  exists s' comment,
    createOrUpdateIssue env g (lit "new body") [sentinel] s
    = (Ok (overwritten (lit "new body") [sentinel] x, ActUpdated), s') /\
    issues (tracker s')
    = [mkIssue 1 (lit "old title") (lit "new body") [sentinel] StOpen [lit "kim"] [comment]] /\
    calls (tracker s') = [CallList; CallUpdate 1; CallComment 1].
Proof.
  intros env g x s.
  destruct (update_rewrites_in_place env g (lit "new body") [sentinel] s x)
    as [s' [comment [E [I [_ [_ [_ [_ C]]]]]]]].
  - reflexivity.
  - vm_compute. repeat constructor. intros [].
  - reflexivity.
  - exists s', comment. split; [exact E|]. split; [|exact C].
    rewrite I. reflexivity.
Defined.

(** X15.  The update is not atomic.  When the listing and the update
    request are answered and the comment request fails, the call fails
    with that error after logging it, the run variables are untouched,
    and the issue already has the new body and labels, without the
    comment. *)
Theorem update_survives_failed_comment
    (env : Env) (g : GroupedFinding) (body : jsstring) (labels : list jsstring)
    (s : St) (x : Issue) (msg : jsstring) (rest : list (option jsstring)) :
  faults (tracker s) = None :: None :: Some msg :: rest ->
  NoDup (map i_number (issues (tracker s))) ->
  find (matchesFinding g) (page (tracker s)) = Some x ->
  exists s',
    createOrUpdateIssue env g body labels s = (Throw msg, s') /\
    issues (tracker s')
    = updateIssueIn (i_number x) (overwritten body labels) (issues (tracker s)) /\
    In (mkIssue (i_number x) (i_title x) body labels (i_state x) (i_assignees x)
                (i_comments x))
       (issues (tracker s')) /\
    calls (tracker s')
    = calls (tracker s) ++ [CallList; CallUpdate (i_number x); CallComment (i_number x)] /\
    run s' = run s /\
    In (ERROR, lit "Failed to update issue #" ++ num (i_number x) ++ lit ": " ++ msg)
       (logs s').
Proof.
  intros Hw ND Hfind.
  assert (H1 : hd None (faults (tracker s)) = None) by now rewrite Hw.
  assert (H2 : hd None (tl (faults (tracker s))) = None) by now rewrite Hw.
  destruct (update_path env g body labels s x H1 H2 ND Hfind)
    as [s3 [T3 [R3 [Hx [F3 E]]]]].
  assert (W3 : faults (tracker s3) = Some msg :: rest) by now rewrite T3, Hw.
  rewrite (onIssue_fail _ _ _ s3 msg rest W3) in E.
  eexists. split; [exact E|].
  cbn [tracker set_logs set_tracker received issues calls run logs].
  rewrite T3. cbn [issues calls]. split; [reflexivity|]. split; [|split; [|split]].
  - exact (updateIssueIn_same (i_number x) (overwritten body labels) _ x Hx eq_refl).
  - now rewrite <- app_assoc.
  - exact R3.
  - apply in_or_app. right. now left.
Qed.

Lemma update_survives_failed_comment_witness :
  let env := Sample.env "high" 10 ReportMissing in
  let g := newGroup (Sample.finding "js/xss" "src/app.ts" "critical" 7) in
  let x := mkIssue 1 (lit "old title") (lit "`js/xss` in `src/app.ts`")
                   [sentinel] StOpen [] [] in
  let s := Sample.start (mkTracker [x] 2 [None; None; Some (lit "Server Error")] []) in
  exists s',
    createOrUpdateIssue env g (lit "new body") [sentinel] s
    = (Throw (lit "Server Error"), s') /\
    issues (tracker s')
    = [mkIssue 1 (lit "old title") (lit "new body") [sentinel] StOpen [] []].
Proof.
  intros env g x s.
  destruct (update_survives_failed_comment env g (lit "new body") [sentinel] s x
              (lit "Server Error") [])
    as [s' [E [I _]]].
  - reflexivity.
  - vm_compute. repeat constructor. intros [].
  - reflexivity.
  - exists s'. split; [exact E|]. rewrite I. reflexivity.
Defined.

Lemma generateLabels_members mp g info files l :
  In l (generateLabels mp g info files) ->
  l = sentinel \/
  (exists sev, assoc sev (label_mapping mp) = Some l) \/
  (exists key, l = lit "owasp/" ++ key) \/
  (exists aspect, l = lit "maintainability/" ++ aspect) \/
  l = lit "awaiting-remediation-plan".
Proof.
  unfold generateLabels. intros H.
  apply in_app_or in H as [[<-|[]]|H]; [now left|].
  apply in_app_or in H as [H|H].
  { right. left. exists (g_severity g).
    destruct (assoc (g_severity g) (label_mapping mp)) as [[|c t]|]; try destruct H.
    - now subst.
    - destruct H. }
  apply in_app_or in H as [H|H].
  { right. right. left. destruct (oi_key info) as [|c t]; [destruct H|].
    destruct H as [<-|[]]. eauto. }
  apply in_app_or in H as [H|H].
  { right. right. right. left. apply in_map_iff in H as [file [<- _]]. eauto. }
  right. right. right. right. destruct H as [<-|[]]. reflexivity.
Qed.

(** X16.  The generated labels never include the manual-override label
    unless the label table itself maps a severity to it.  Since an update
    replaces the labels of the issue by the generated ones, an issue that
    was marked [false-positive] by hand and is found again by the lookup
    comes out of [createOrUpdateIssue] without that mark, and the sweep no
    longer skips it as overridden. *)
Theorem update_drops_manual_override
    (env : Env) (g : GroupedFinding) (info : OwaspInfo) (files : list jsstring)
    (body : jsstring) (s : St) (x : Issue) :
  (forall sev, assoc sev (label_mapping (mappings env)) <> Some falsePositive) ->
  faults (tracker s) = [] ->
  NoDup (map i_number (issues (tracker s))) ->
  find (matchesFinding g) (page (tracker s)) = Some x ->
  arr_includes (generateLabels (mappings env) g info files) falsePositive = false /\
  exists issue s',
    createOrUpdateIssue env g body (generateLabels (mappings env) g info files) s
    = (Ok (issue, ActUpdated), s') /\
    forall j live, In j (issues (tracker s')) -> i_number j = i_number x ->
      arr_includes (i_labels j) falsePositive = false /\
      sweepVerdict live j <> SkipOverride.
Proof.
  intros Htab Hw ND Hfind.
  set (labels := generateLabels (mappings env) g info files).
  assert (Hno : arr_includes labels falsePositive = false).
  { apply arr_includes_not_In. intros Hin.
    apply generateLabels_members in Hin
      as [H|[[sev H]|[[key H]|[[aspect H]|H]]]];
      try (vm_compute in H; discriminate H).
    exact (Htab sev H). }
  split; [exact Hno|].
  destruct (update_in_place env g body labels s x Hw ND Hfind)
    as [s' [comment [E [I _]]]].
  eexists _, s'. split; [exact E|].
  intros j live Hj Hn. rewrite I in Hj.
  apply updateIssueIn_In in Hj as [j0 [Hj0 [[_ ->]|[Hne ->]]]].
  - cbn [rewritten i_labels]. split; [exact Hno|].
    unfold sweepVerdict. cbn [rewritten i_labels i_body]. rewrite Hno.
    destruct (ruleMatch body), (fileMatch body); try discriminate.
    destruct (issueLinesOf body); [discriminate|].
    destruct (negb _); discriminate.
  - contradiction.
Qed.

Lemma update_drops_manual_override_witness :
  let env := Sample.env "high" 10 ReportMissing in
  let g := newGroup (Sample.finding "js/xss" "src/app.ts" "critical" 7) in
  let info := mkOwaspInfo (lit "A03_injection") Sample.injection in
  let x := mkIssue 1 (lit "old title") (lit "`js/xss` in `src/app.ts`")
                   [sentinel; falsePositive] StOpen [] [] in
  let s := Sample.start (mkTracker [x] 2 [] []) in
  arr_includes (i_labels x) falsePositive = true /\
  exists issue s',
    createOrUpdateIssue env g (lit "new body") (generateLabels (mappings env) g info []) s
    = (Ok (issue, ActUpdated), s') /\
    forall j live, In j (issues (tracker s')) -> i_number j = i_number x ->
      arr_includes (i_labels j) falsePositive = false /\
      sweepVerdict live j <> SkipOverride.
Proof.
  intros env g info x s. split; [reflexivity|].
  apply (update_drops_manual_override env g info [] (lit "new body") s x).
  - intros sev H. vm_compute in H.
    repeat match type of H with
           | (if ?b then _ else _) = _ => destruct b; [discriminate H|]
           end.
    discriminate H.
  - reflexivity.
  - vm_compute. repeat constructor. intros [].
  - reflexivity.
Defined.

(** ** The sweep: what a close leaves, and how many it reports *)

Lemma updateIssueIn_absent n f l :
  ~ In n (map i_number l) -> updateIssueIn n f l = l.
Proof.
  induction l as [|a l IH]; intros H; [reflexivity|].
  unfold updateIssueIn in *. cbn [map].
  destruct (N.eqb (i_number a) n) eqn:E.
  - apply N.eqb_eq in E. exfalso. apply H. now left.
  - f_equal. apply IH. intros Hin. apply H. now right.
Qed.

Lemma close_count t i c :
  NoDup (map i_number t) -> In i t -> isOpen i = true ->
  length (filter isOpen (updateIssueIn (i_number i) (closeMark c) t)) + 1
  = length (filter isOpen t).
Proof.
  induction t as [|a t IH]; intros ND Hin Ho; [destruct Hin|].
  cbn [map] in ND. inversion ND as [|? ? Hnot ND']; subst.
  unfold updateIssueIn. cbn [map]. fold (updateIssueIn (i_number i) (closeMark c) t).
  destruct Hin as [->|Hin].
  - rewrite N.eqb_refl. rewrite (updateIssueIn_absent _ _ _ Hnot).
    cbn [filter]. rewrite Ho. cbn [closeMark isOpen i_state length]. lia.
  - destruct (N.eqb (i_number a) (i_number i)) eqn:E.
    + apply N.eqb_eq in E. exfalso. apply Hnot. rewrite E. now apply in_map.
    + cbn [filter]. specialize (IH ND' Hin Ho).
      destruct (isOpen a); cbn [length]; lia.
Qed.

Lemma sweepLoop_open env cur : forall l k s,
  faults (tracker s) = [] ->
  NoDup (map i_number (issues (tracker s))) ->
  NoDup (map i_number l) ->
  (forall i, In i l -> In i (issues (tracker s)) /\ isOpen i = true) ->
  exists s',
    sweepLoop env cur l k s = (Ok (k + length (resolvedNumbers cur l)), s') /\
    openCount (tracker s') + length (resolvedNumbers cur l) = openCount (tracker s) /\
    length (issues (tracker s')) = length (issues (tracker s)).
Proof.
  induction l as [|i rest IH]; intros k s Hw ND NDl Hsub.
  - exists s. cbn [sweepLoop resolvedNumbers filter map length]. unfold ret.
    rewrite !Nat.add_0_r. repeat split; reflexivity.
  - inversion NDl as [|? ? Hnot NDrest]; subst.
    rewrite resolvedNumbers_cons.
    destruct (isResolved (sweepVerdict cur i)) eqn:Hv.
    + destruct (Hsub i (or_introl eq_refl)) as [Hi Ho].
      pose proof (findIssue_In (i_number i) _ i ND Hi eq_refl) as Hf.
      destruct (sweep_close env cur i rest k s i Hw Hf Hv)
        as [s1 [c [E [Hw1 [Hiss [Hrun [Hnext Hcache]]]]]]].
      assert (ND1 : NoDup (map i_number (issues (tracker s1)))).
      { rewrite Hiss, updateIssueIn_numbers; [assumption | reflexivity]. }
      assert (Hsub1 : forall x, In x rest -> In x (issues (tracker s1)) /\ isOpen x = true).
      { intros x Hx. destruct (Hsub x (or_intror Hx)) as [Hxi Hxo]. split; [|exact Hxo].
        rewrite Hiss. apply updateIssueIn_other; [exact Hxi|].
        intro En. apply Hnot. rewrite <- En. now apply in_map. }
      destruct (IH (S k) s1 Hw1 ND1 NDrest Hsub1) as [s' [E' [Hc' Hl']]].
      exists s'. rewrite E, E'. cbn [length]. split; [f_equal; f_equal; lia|].
      pose proof (close_count (issues (tracker s)) i c ND Hi Ho) as Hcc.
      unfold openCount in *. rewrite Hiss in Hc', Hl'.
      rewrite updateIssueIn_length in Hl'. split; lia.
    + destruct (sweep_keep env cur i rest k s Hv) as [s1 [E [Ht [Hr Hc]]]].
      assert (Hw1 : faults (tracker s1) = []) by now rewrite Ht.
      assert (ND1 : NoDup (map i_number (issues (tracker s1)))) by now rewrite Ht.
      assert (Hsub1 : forall x, In x rest -> In x (issues (tracker s1)) /\ isOpen x = true).
      { intros x Hx. rewrite Ht. apply Hsub. now right. }
      destruct (IH k s1 Hw1 ND1 NDrest Hsub1) as [s' [E' [Hc' Hl']]].
      exists s'. rewrite E, E'. rewrite Ht in *. repeat split; assumption.
Qed.

Lemma resolvedNumbers_length cur l : length (resolvedNumbers cur l) <= length l.
Proof. unfold resolvedNumbers. rewrite length_map. apply filter_length_le. Qed.

(** X17.  On a tracker that answers, the number the sweep returns is the
    number of issues it closed: the count of open issues drops by exactly
    that number, which never exceeds the 100 issues of the listed page,
    and no issue is added or removed.  An issue it closes keeps its
    number, title, body and assignees, is closed, carries the [resolved]
    label in addition to its labels, and has received one comment. *)
Theorem sweep_reports_what_it_closes (env : Env) (cur : list jsstring) (s : St) :
  faults (tracker s) = [] ->
  NoDup (map i_number (issues (tracker s))) ->
  exists k s',
    autoCloseResolvedIssues env cur s = (Ok k, s') /\
    k <= 100 /\
    openCount (tracker s') + k = openCount (tracker s) /\
    length (issues (tracker s')) = length (issues (tracker s)) /\
    forall i, In i (page (tracker s)) ->
      isResolved (sweepVerdict cur i) = true ->
      exists comment,
        In (mkIssue (i_number i) (i_title i) (i_body i)
                    (set_add (lit "resolved") (i_labels i)) StClosed
                    (i_assignees i) (i_comments i ++ [comment]))
           (issues (tracker s')).
Proof.
  intros Hw ND.
  destruct (autoClose_spec env cur s Hw ND) as [s' [E [_ [_ [[_ [_ Hc]] _]]]]].
  exists (length (resolvedNumbers cur (page (tracker s)))), s'.
  split; [exact E|]. split.
  { etransitivity; [apply resolvedNumbers_length|]. unfold page. apply firstn_le_length. }
  assert (Hcount : openCount (tracker s') + length (resolvedNumbers cur (page (tracker s)))
                   = openCount (tracker s) /\
                   length (issues (tracker s')) = length (issues (tracker s))).
  { revert E. unfold autoCloseResolvedIssues, try_catch, bind at 1.
    rewrite (listForRepo_ok s Hw). unfold bind at 1, log, modify.
    set (s0 := set_logs _ _).
    destruct (sweepLoop_open env cur (page (tracker s)) 0 s0) as [s1 [E1 [C1 L1]]].
    - reflexivity.
    - exact ND.
    - now apply page_numbers.
    - intros i Hi. apply page_listed in Hi as [Hi Hl]. split; [exact Hi|].
      unfold listed in Hl. now apply andb_true_iff in Hl as [Ho _].
    - rewrite E1. cbn [Nat.add]. intros E. injection E as <-. split; assumption. }
  destruct Hcount as [Hc1 Hc2]. split; [exact Hc1|]. split; [exact Hc2|].
  intros i Hi Hr.
  pose proof (page_listed _ _ Hi) as [Hin _].
  destruct (Hc i Hin) as [c Hcm].
  { apply (resolvedNumbers_page cur (page (tracker s)) i); [now apply page_numbers | exact Hi | exact Hr]. }
  exists c. exact Hcm.
Qed.

Lemma sweep_reports_what_it_closes_witness :
  let env := Sample.env "high" 10 ReportMissing in
  let gone := mkIssue 1 (lit "t")
                (lit "| **CodeQL Rule** | `js/xss` |
| **File** | `src/app.ts` |
#### Lines 7
") [sentinel] StOpen [] [] in
  let s := Sample.start (mkTracker [gone] 2 [] []) in
  exists k s',
    autoCloseResolvedIssues env [] s = (Ok k, s') /\
    k = 1 /\
    openCount (tracker s') = 0 /\
    exists comment,
      issues (tracker s')
      = [mkIssue 1 (lit "t") (i_body gone) [sentinel; lit "resolved"] StClosed []
                 [comment]].
Proof.
  intros env gone s.
  destruct (sweep_reports_what_it_closes env [] s) as [k [s' [E [_ [Hc [Hl Hm]]]]]].
  - reflexivity.
  - vm_compute. repeat constructor. intros [].
  - exists k, s'. split; [exact E|].
    assert (Hk : k = 1).
    { vm_compute in E. injection E as <- _. reflexivity. }
    split; [exact Hk|]. subst k. split; [change (openCount (tracker s)) with 1 in Hc; lia|].
    destruct (Hm gone) as [comment Hin].
    + vm_compute. left. reflexivity.
    + vm_compute. reflexivity.
    + exists comment. destruct (issues (tracker s')) as [|a [|b l]]; try discriminate Hl.
      destruct Hin as [Ha|[]]. subst a. reflexivity.
Defined.

(** ** Markers: what the renderer writes, the sweep reads back *)

Lemma takeWhile_stop (p : N -> bool) (a : jsstring) (d : N) (b : jsstring) :
  (forall c, In c a -> p c = true) -> p d = false ->
  takeWhile p (a ++ d :: b) = a.
Proof.
  induction a as [|c a IH]; intros Ha Hd; cbn [app takeWhile].
  - now rewrite Hd.
  - rewrite (Ha c (or_introl eq_refl)). f_equal. apply IH; [|exact Hd].
    intros x Hx. apply Ha. now right.
Qed.

Lemma skipn_exact {A} (a b : list A) : skipn (length a) (a ++ b) = b.
Proof. induction a as [|x a IH]; [reflexivity | exact IH]. Qed.

Lemma quotedAfter_here (P cap rest : jsstring) :
  cap <> [] -> ~ In backtick cap ->
  quotedAfter P (P ++ quoted cap ++ rest) = Some cap.
Proof.
  intros Hne Hno. unfold quotedAfter. rewrite startsWith_app, skipn_exact.
  unfold quoted. cbn [app]. rewrite N.eqb_refl. cbv zeta.
  rewrite <- app_assoc. cbn [app].
  rewrite takeWhile_stop.
  - destruct cap as [|c cap]; [contradiction|].
    rewrite skipn_exact. now rewrite N.eqb_refl.
  - intros c Hc. apply negb_true_iff. apply N.eqb_neq. intros ->. contradiction.
  - now rewrite N.eqb_refl.
Qed.

Lemma quotedAfter_none (P s : jsstring) :
  startsWith P s = false -> quotedAfter P s = None.
Proof. intros H. unfold quotedAfter. now rewrite H. Qed.

Lemma matchQuoted_unfold P s :
  matchQuoted P s
  = match quotedAfter P s with
    | Some cap => Some cap
    | None => match s with [] => None | _ :: s' => matchQuoted P s' end
    end.
Proof. destruct s; reflexivity. Qed.

Lemma matchQuoted_skip P : forall pre s,
  (forall i, i < length pre -> startsWith P (skipn i (pre ++ s)) = false) ->
  matchQuoted P (pre ++ s) = matchQuoted P s.
Proof.
  induction pre as [|c pre IH]; intros s H; [reflexivity|].
  rewrite matchQuoted_unfold.
  rewrite quotedAfter_none by (apply (H 0); cbn [length]; lia).
  cbn [app]. apply IH. intros i Hi. apply (H (S i)). cbn [length]. lia.
Qed.

Lemma no_early_start (P u v : jsstring) i :
  includes u P = false -> i + length P <= length u ->
  startsWith P (skipn i (u ++ v)) = false.
Proof.
  intros Hno Hlen. destruct (startsWith P (skipn i (u ++ v))) eqn:E; [|reflexivity].
  exfalso. apply startsWith_iff in E as [r Er].
  rewrite skipn_app in Er.
  replace (i - length u) with 0 in Er by lia. cbn [skipn] in Er.
  assert (Hp : skipn i u = P ++ skipn (length P) (skipn i u)).
  { rewrite <- (firstn_skipn (length P) (skipn i u)) at 1. f_equal.
    assert (Hf : firstn (length P) (skipn i u ++ v) = firstn (length P) (P ++ r))
      by now rewrite Er.
    rewrite firstn_app in Hf.
    replace (length P - length (skipn i u)) with 0 in Hf
      by (rewrite length_skipn; lia).
    cbn [firstn] in Hf. rewrite app_nil_r in Hf. rewrite Hf.
    rewrite firstn_app, Nat.sub_diag. cbn [firstn]. rewrite app_nil_r.
    apply firstn_all. }
  assert (Hu : includes u P = true).
  { rewrite <- (firstn_skipn i u), Hp. apply includes_app. }
  congruence.
Qed.

(** A marker row is read back when its prefix does not occur earlier. *)
Lemma matchQuoted_row (P' : jsstring) (d : N) (pre cap rest : jsstring) :
  includes (pre ++ P') (P' ++ [d]) = false ->
  cap <> [] -> ~ In backtick cap ->
  matchQuoted (P' ++ [d]) (pre ++ (P' ++ [d]) ++ quoted cap ++ rest) = Some cap.
Proof.
  intros Hno Hne Hbt. rewrite matchQuoted_skip.
  - rewrite matchQuoted_unfold. now rewrite quotedAfter_here.
  - intros i Hi.
    replace (pre ++ (P' ++ [d]) ++ quoted cap ++ rest)
      with ((pre ++ P') ++ ([d] ++ quoted cap ++ rest))
      by (rewrite <- !app_assoc; reflexivity).
    apply no_early_start; [exact Hno|].
    rewrite !length_app. cbn [length]. lia.
Qed.

Lemma markers_round_trip
    (cfg : Config) (ts : jsstring) (g : GroupedFinding) (prompts : Prompts) :
  g_ruleId g <> [] -> ~ In backtick (g_ruleId g) ->
  g_filePath g <> [] -> ~ In backtick (g_filePath g) ->
  includes (bodyTop ts g ++ lit "| **CodeQL Rule** |") (lit "**CodeQL Rule** | ") = false ->
  includes (bodyTop ts g ++ ruleRow (g_ruleId g) ++ categoryRow prompts ++ lit "| **File** |")
           (lit "**File** | ") = false ->
  length (bodyHeader ts g prompts) <= MAX_BODY_LENGTH ->
  ruleMatch (issueBodyText cfg ts g prompts) = Some (g_ruleId g) /\
  fileMatch (issueBodyText cfg ts g prompts) = Some (g_filePath g).
Proof.
  intros Hr1 Hr2 Hf1 Hf2 Hpr Hpf Hfit.
  unfold issueBodyText, assembleBody. cbv zeta.
  match goal with |- context [limitBody (bodyHeader ts g prompts ++ ?rest)] =>
    destruct (limitBody_prefix (bodyHeader ts g prompts) rest Hfit) as [rest' E] end.
  rewrite E. unfold bodyHeader. cbv zeta. split.
  - unfold ruleMatch, ruleRow.
    change (lit "| **CodeQL Rule** | ") with (lit "| " ++ (lit "**CodeQL Rule** |" ++ [32%N])).
    change (lit "**CodeQL Rule** | ") with (lit "**CodeQL Rule** |" ++ [32%N]).
    rewrite <- !app_assoc.
    rewrite (app_assoc (bodyTop ts g) (lit "| ")).
    change (lit "**CodeQL Rule** |" ++ [32%N] ++ quoted (g_ruleId g) ++ ?x)
      with ((lit "**CodeQL Rule** |" ++ [32%N]) ++ quoted (g_ruleId g) ++ x).
    apply matchQuoted_row; [|assumption|assumption].
    rewrite <- app_assoc. exact Hpr.
  - unfold fileMatch, fileRow.
    change (lit "| **File** | ") with (lit "| " ++ (lit "**File** |" ++ [32%N])).
    change (lit "**File** | ") with (lit "**File** |" ++ [32%N]).
    rewrite <- !app_assoc.
    rewrite (app_assoc (categoryRow prompts) (lit "| ")).
    rewrite (app_assoc (ruleRow (g_ruleId g))).
    rewrite (app_assoc (bodyTop ts g)).
    change (lit "**File** |" ++ [32%N] ++ quoted (g_filePath g) ++ ?x)
      with ((lit "**File** |" ++ [32%N]) ++ quoted (g_filePath g) ++ x).
    apply matchQuoted_row; [|assumption|assumption].
    rewrite <- !app_assoc. exact Hpf.
Qed.

(** X18.  Rule and file markers survive the round trip.  When the rule
    identifier and the file path are not empty and contain no backtick,
    the text before each marker row does not already contain the row's
    own prefix, and the header fits into the size limit, the sweep reads
    from the rendered body exactly the rule identifier and the file path
    of the group, whatever follows the header. *)
Theorem rule_and_file_markers_read_back
    (cfg : Config) (ts : jsstring) (g : GroupedFinding) (prompts : Prompts) :
  g_ruleId g <> [] -> ~ In backtick (g_ruleId g) ->
  g_filePath g <> [] -> ~ In backtick (g_filePath g) ->
  includes (bodyTop ts g ++ lit "| **CodeQL Rule** |") (lit "**CodeQL Rule** | ") = false ->
  includes (bodyTop ts g ++ ruleRow (g_ruleId g) ++ categoryRow prompts ++ lit "| **File** |")
           (lit "**File** | ") = false ->
  length (bodyHeader ts g prompts) <= MAX_BODY_LENGTH ->
  ruleMatch (issueBodyText cfg ts g prompts) = Some (g_ruleId g) /\
  fileMatch (issueBodyText cfg ts g prompts) = Some (g_filePath g).
Proof. exact (markers_round_trip cfg ts g prompts). Qed.

Lemma rule_and_file_markers_read_back_witness :
  let cfg := Sample.cfg "high" 10 in
  let ts := lit "2025-10-13T16:30:00.000Z" in
  let f := Sample.finding "js/xss" "src/app.ts" "critical" 7 in
  let g := withOccurrences (newGroup f) [occurrenceOf f] in
  let prompts := mkPrompts (lit "A03_injection") (lit "Injection") (lit "A03_injection.md")
                           [] [] [] in
  ruleMatch (issueBodyText cfg ts g prompts) = Some (lit "js/xss") /\
  fileMatch (issueBodyText cfg ts g prompts) = Some (lit "src/app.ts").
Proof.
  intros cfg ts f g prompts.
  apply (rule_and_file_markers_read_back cfg ts g prompts).
  - discriminate.
  - vm_compute. intros H. repeat (destruct H as [H|H]; [discriminate H|]). exact H.
  - discriminate.
  - vm_compute. intros H. repeat (destruct H as [H|H]; [discriminate H|]). exact H.
  - vm_compute. reflexivity.
  - vm_compute. reflexivity.
  - apply Nat.leb_le. vm_compute. reflexivity.
Defined.

(** ** Line markers: every occurrence is read back *)

Lemma uint_codes_digits d : forall c, In c (uint_codes d) -> isDigit c = true.
Proof.
  induction d; cbn [uint_codes]; intros c Hc; try destruct Hc as [<-|Hc];
    try reflexivity; try (now apply IHd); destruct Hc.
Qed.

(** A whole number below 2^53 is a double, and is printed in plain
    decimal. *)
Lemma num_exact n : (n < 2 ^ 53)%N -> num n = decimal n.
Proof.
  intros H. unfold num. cbv zeta.
  assert (P53 : (2 ^ 53 = 9007199254740992)%N) by reflexivity.
  assert (P21 : (10 ^ 21 = 1000000000000000000000)%N) by reflexivity.
  assert (E : toDouble n = n).
  { unfold toDouble. cbv zeta. destruct (N.eq_dec n 0) as [->|Hn]; [reflexivity|].
    rewrite N.size_log2 by assumption.
    assert (N.log2 n < 53)%N by (apply N.log2_lt_pow2; [lia | exact H]).
    replace (N.succ (N.log2 n) <=? 53)%N with true; [reflexivity|].
    symmetry. apply N.leb_le. lia. }
  rewrite E. replace (n <? 10 ^ 21)%N with true; [reflexivity|].
  symmetry. apply N.ltb_lt. rewrite P53 in H. rewrite P21. lia.
Qed.

Lemma num_digits n : (n < 2 ^ 53)%N -> forall c, In c (num n) -> isDigit c = true.
Proof. intros H. rewrite (num_exact n H). apply uint_codes_digits. Qed.

Lemma num_nonempty n : (n < 2 ^ 53)%N -> num n <> [].
Proof.
  intros H. rewrite (num_exact n H). unfold decimal. destruct n as [|p]; [discriminate|].
  cbn [N.to_uint]. pose proof (DecimalPos.Unsigned.to_uint_nonnil p) as Hp.
  destruct (Pos.to_uint p); [contradiction | discriminate ..].
Qed.

Lemma digit_not_space c : isDigit c = true -> isSpace c = false.
Proof.
  unfold isDigit. intros H. apply andb_true_iff in H as [H1 H2].
  apply N.leb_le in H1, H2. unfold isSpace. cbn [existsb].
  repeat (rewrite (proj2 (N.eqb_neq c _)) by lia). reflexivity.
Qed.

Lemma takeWhile_none (p : N -> bool) (s : jsstring) c t :
  s = c :: t -> p c = false -> takeWhile p s = [].
Proof. intros -> H. cbn [takeWhile]. now rewrite H. Qed.

(** The marker of an occurrence, followed by the end of its line, is
    matched by the sweep's pattern, which captures the start line. *)
Lemma lineMatchAt_label o rest :
  (o_startLine o < 2 ^ 53)%N ->
  exists len,
    lineMatchAt (linesLabel o ++ nl ++ rest) = Some (num (o_startLine o), len).
Proof.
  intros Hsafe. unfold linesLabel.
  change (lit "Lines ") with [76; 105; 110; 101; 115; 32]%N.
  set (a := num (o_startLine o)).
  set (tail := (if negb (N.eqb (o_endLine o) (o_startLine o))
                then lit "-" ++ num (o_endLine o) else []) ++ nl ++ rest).
  assert (Ht : exists d t, tail = d :: t /\ isDigit d = false).
  { unfold tail. destruct (negb (N.eqb (o_endLine o) (o_startLine o))).
    - eexists 45%N, _. split; reflexivity.
    - eexists 10%N, _. split; reflexivity. }
  destruct Ht as [d [t [Et Hd]]].
  replace (([76; 105; 110; 101; 115; 32]%N ++ a ++
            (if negb (N.eqb (o_endLine o) (o_startLine o))
             then lit "-" ++ num (o_endLine o) else [])) ++ nl ++ rest)
    with (76 :: 105 :: 110 :: 101 :: 115 :: 32 :: a ++ tail)%N
    by (unfold tail; cbn [app]; now rewrite <- !app_assoc).
  unfold lineMatchAt.
  cbn [firstn toLowerCase map]. 
  change (startsWith (lit "line") [lowerChar 76; lowerChar 105; lowerChar 110; lowerChar 101])
    with true. cbv iota. cbn [skipn].
  change (N.eqb (lowerChar 115) 115) with true. cbv iota beta zeta.
  destruct a as [|a0 a'] eqn:Ea; [exfalso; exact (num_nonempty _ Hsafe Ea)|].
  assert (Hdig : forall c, In c (a0 :: a') -> isDigit c = true).
  { rewrite <- Ea. apply num_digits. exact Hsafe. }
  assert (Hsp : takeWhile isSpace (32%N :: (a0 :: a') ++ tail) = [32%N]).
  { cbn [takeWhile app]. change (isSpace 32) with true. cbv iota.
    rewrite (digit_not_space a0) by (apply Hdig; now left). reflexivity. }
  rewrite Hsp. cbn [length skipn].
  assert (Hds : takeWhile isDigit ((a0 :: a') ++ tail) = a0 :: a').
  { rewrite Et. apply takeWhile_stop; assumption. }
  rewrite Hds. eexists. reflexivity.
Qed.

Lemma takeWhile_length_le (p : N -> bool) w : length (takeWhile p w) <= length w.
Proof.
  induction w as [|c w IH]; [reflexivity|]. cbn [takeWhile].
  destruct (p c); cbn [length]; lia.
Qed.

Lemma takeWhile_before (p : N -> bool) w d v :
  p d = false -> takeWhile p (w ++ d :: v) = takeWhile p w.
Proof.
  intros Hd. induction w as [|c w IH]; cbn [app takeWhile].
  - now rewrite Hd.
  - destruct (p c); [now rewrite IH | reflexivity].
Qed.

Lemma skipn_before (w : jsstring) d v k :
  k <= length w -> skipn k (w ++ d :: v) = skipn k w ++ d :: v.
Proof.
  intros H. rewrite skipn_app. replace (k - length w) with 0 by lia. reflexivity.
Qed.

(** A match that starts before a capital L ends before it. *)
Lemma lineMatchAt_extent (u v : jsstring) cap len :
  u <> [] ->
  lineMatchAt (u ++ 76%N :: v) = Some (cap, len) -> len <= length u.
Proof.
  intros Hu. unfold lineMatchAt.
  destruct u as [|c0 [|c1 [|c2 [|c3 u']]]]; [contradiction| | | |].
  - cbn [app firstn toLowerCase map].
    destruct v as [|v0 [|v1 v']]; unfold lit; cbn [list_ascii_of_string map startsWith];
      change (N.eqb (N_of_ascii "i") (lowerChar 76)) with false;
      rewrite ?andb_false_r; cbn [andb]; discriminate.
  - cbn [app firstn toLowerCase map].
    destruct v as [|v0 v']; unfold lit; cbn [list_ascii_of_string map startsWith];
      change (N.eqb (N_of_ascii "n") (lowerChar 76)) with false;
      rewrite ?andb_false_r; cbn [andb]; discriminate.
  - cbn [app firstn toLowerCase map].
    unfold lit; cbn [list_ascii_of_string map startsWith].
    change (N.eqb (N_of_ascii "e") (lowerChar 76)) with false.
    rewrite ?andb_false_r; cbn [andb]. discriminate.
  - cbn [app firstn]. destruct (startsWith _ _); [|discriminate].
    cbn [skipn].
    (* the optional s *)
    assert (H1 : exists w nS,
               (match u' ++ 76%N :: v with
                | c :: r' => if N.eqb (lowerChar c) 115 then (r', 1) else (u' ++ 76%N :: v, 0)
                | [] => (u' ++ 76%N :: v, 0)
                end) = (w ++ 76%N :: v, nS) /\ nS + length w = length u').
    { destruct u' as [|c4 u'']; cbn [app].
      - change (N.eqb (lowerChar 76) 115) with false. cbv iota.
        exists [], 0. split; reflexivity.
      - destruct (N.eqb (lowerChar c4) 115).
        + exists u'', 1. split; reflexivity.
        + exists (c4 :: u''), 0. split; reflexivity. }
    destruct H1 as [w [nS [E1 L1]]]. rewrite E1. cbv beta iota zeta.
    rewrite (takeWhile_before isSpace w 76%N v eq_refl).
    set (sp := takeWhile isSpace w).
    pose proof (takeWhile_length_le isSpace w) as Lsp. fold sp in Lsp.
    rewrite (skipn_before w 76%N v (length sp) Lsp).
    set (w2 := skipn (length sp) w).
    assert (L2 : length sp + length w2 = length w).
    { unfold w2. rewrite length_skipn. lia. }
    rewrite (takeWhile_before isDigit w2 76%N v eq_refl).
    set (ds := takeWhile isDigit w2).
    pose proof (takeWhile_length_le isDigit w2) as Lds. fold ds in Lds.
    destruct sp as [|s0 sp']; [discriminate|].
    destruct ds as [|d0 ds'] eqn:Eds; [discriminate|].
    rewrite (skipn_before w2 76%N v (length (d0 :: ds')) Lds).
    set (w3 := skipn (length (d0 :: ds')) w2).
    assert (L3 : length (d0 :: ds') + length w3 = length w2).
    { unfold w3. rewrite length_skipn. lia. }
    assert (Ltail : (match w3 ++ 76%N :: v with
                     | c :: r4 =>
                         if N.eqb c 45
                         then match takeWhile isDigit r4 with
                              | [] => 0
                              | ds2 => 1 + length ds2
                              end
                         else 0
                     | [] => 0
                     end) <= length w3).
    { destruct w3 as [|c w4]; cbn [app].
      - change (N.eqb 76 45) with false. cbv iota. cbn [length]. lia.
      - destruct (N.eqb c 45); [|lia].
        rewrite (takeWhile_before isDigit w4 76%N v eq_refl).
        pose proof (takeWhile_length_le isDigit w4) as L4.
        destruct (takeWhile isDigit w4); cbn [length] in *; lia. }
    match type of Ltail with ?t <= _ => set (tailLen := t) in * end.
    intros H. injection H as _ <-. cbn [length] in *. lia.
Qed.

(** Scanning reaches a marker with no match pending, so the marker is
    matched. *)
Lemma lineMatches_finds (m' rest cap : jsstring) :
  (exists len, lineMatchAt (76%N :: m' ++ rest) = Some (cap, len)) ->
  forall pre skip, skip <= length pre ->
    In cap (lineMatches skip (pre ++ 76%N :: m' ++ rest)).
Proof.
  intros [len Hm]. induction pre as [|c pre IH]; intros skip Hs.
  - cbn [length] in Hs. replace skip with 0 by lia.
    cbn [app lineMatches]. rewrite Hm. now left.
  - cbn [app lineMatches]. destruct skip as [|k].
    + destruct (lineMatchAt (c :: pre ++ 76%N :: m' ++ rest)) as [[cap' len']|] eqn:E.
      * right. apply IH.
        pose proof (lineMatchAt_extent (c :: pre) (m' ++ rest) cap' len') as Hx.
        cbn [app length] in Hx. specialize (Hx ltac:(discriminate) E). lia.
      * apply IH. lia.
    + apply IH. cbn [length] in Hs. lia.
Qed.

Lemma fold_set_add_has (l acc : list jsstring) k :
  set_has (fold_left (fun acc x => set_add x acc) l acc) k = true
  <-> In k l \/ set_has acc k = true.
Proof.
  revert acc. induction l as [|x l IH]; intros acc; cbn [fold_left].
  - cbn [In]. intuition.
  - rewrite IH, set_add_has. cbn [In]. intuition congruence.
Qed.

Lemma issueLinesOf_has body cap :
  In cap (lineMatches 0 body) -> In cap (issueLinesOf body).
Proof.
  intros H. unfold issueLinesOf. cbv zeta.
  assert (Hin : In cap (fold_left (fun acc c => set_add c acc) (lineMatches 0 body) [])).
  { apply arr_includes_In. apply (fold_set_add_has (lineMatches 0 body) [] cap). now left. }
  destruct (fold_left _ _ _) as [|x l]; [destruct Hin | exact Hin].
Qed.

Lemma section_label_line language count index o :
  exists a b,
    occurrenceSection language count index o = a ++ linesLabel o ++ nl ++ b.
Proof.
  unfold occurrenceSection, locationLabel.
  destruct (Nat.ltb 1 count); cbn [concat].
  - eexists (nl ++ lit "#### Location " ++ numNat (index + 1) ++ lit ": "), _.
    rewrite <- !app_assoc. reflexivity.
  - eexists (nl ++ lit "#### "), _.
    rewrite <- !app_assoc. reflexivity.
Qed.

Lemma sections_label_line language count os : forall index o,
  In o os ->
  exists a b, occurrenceSections language count index os = a ++ linesLabel o ++ nl ++ b.
Proof.
  induction os as [|o' os IH]; intros index o Hin; [contradiction|].
  cbn [occurrenceSections]. destruct Hin as [->|Hin].
  - destruct (section_label_line language count index o) as [a [b E]].
    exists a. eexists. rewrite E, <- !app_assoc. reflexivity.
  - destruct (IH (S index) o Hin) as [a [b E]].
    exists (occurrenceSection language count index o' ++ a), b.
    rewrite E, <- !app_assoc. reflexivity.
Qed.

Lemma assembled_label_line cfg ts g prompts o :
  In o (g_occurrences g) ->
  exists a b, assembleBody cfg ts g prompts = a ++ linesLabel o ++ nl ++ b.
Proof.
  intros Hin. unfold assembleBody. cbv zeta.
  destruct (sections_label_line (languageOf (g_filePath g))
              (length (g_occurrences g)) (g_occurrences g) 0 o Hin) as [a [b E]].
  exists (bodyHeader ts g prompts ++ a). eexists.
  rewrite E, <- !app_assoc. reflexivity.
Qed.

Lemma lines_round_trip
    (cfg : Config) (ts : jsstring) (g : GroupedFinding) (prompts : Prompts)
    (o : Occurrence) :
  In o (g_occurrences g) ->
  (o_startLine o < 2 ^ 53)%N ->
  length (assembleBody cfg ts g prompts) <= MAX_BODY_LENGTH ->
  In (num (o_startLine o)) (issueLinesOf (issueBodyText cfg ts g prompts)).
Proof.
  intros Hin Hsafe Hfit. unfold issueBodyText. rewrite (limitBody_small _ Hfit).
  destruct (assembled_label_line cfg ts g prompts o Hin) as [a [b E]].
  rewrite E. apply issueLinesOf_has.
  destruct (lineMatchAt_label o b Hsafe) as [len Hm].
  unfold linesLabel in *.
  change (lit "Lines ") with (76%N :: [105; 110; 101; 115; 32]%N) in *.
  rewrite <- !app_assoc in *. cbn [app] in *.
  rewrite (app_comm_cons) in *.
  match goal with |- In _ (lineMatches 0 (a ++ 76%N :: ?x)) =>
    replace x with (([105; 110; 101; 115; 32]%N ++ num (o_startLine o)
                      ++ (if negb (N.eqb (o_endLine o) (o_startLine o))
                          then lit "-" ++ num (o_endLine o) else [])
                      ++ nl) ++ b)
      by (rewrite <- !app_assoc; reflexivity) end.
  apply lineMatches_finds; [|lia].
  exists len. rewrite <- Hm. cbn [app]. rewrite <- !app_assoc. reflexivity.
Qed.

(** X19.  Line markers survive the round trip.  From a body that was not
    truncated, the sweep reads back the start line of every occurrence
    whose start line is a whole number below 2^53 (which is printed in
    plain decimal), whatever the snippets, messages and guidance texts of
    the body contain. *)
Theorem line_markers_read_back
    (cfg : Config) (ts : jsstring) (g : GroupedFinding) (prompts : Prompts)
    (o : Occurrence) :
  In o (g_occurrences g) ->
  (o_startLine o < 2 ^ 53)%N ->
  length (assembleBody cfg ts g prompts) <= MAX_BODY_LENGTH ->
  In (decimal (o_startLine o)) (issueLinesOf (issueBodyText cfg ts g prompts)).
Proof.
  intros Hin Hsafe Hfit. rewrite <- (num_exact _ Hsafe).
  exact (lines_round_trip cfg ts g prompts o Hin Hsafe Hfit).
Qed.

(** Past that range the marker is not read back: a start line of 10^21
    is printed as [1e+21], of which the sweep reads the [1]. *)
Example line_marker_with_exponent :
  let cfg := Sample.cfg "high" 10 in
  let ts := lit "2025-10-13T16:30:00.000Z" in
  let f := Sample.finding "js/xss" "src/app.ts" "critical" (10 ^ 21) in
  let g := withOccurrences (newGroup f) [occurrenceOf f] in
  let prompts := mkPrompts [] [] [] [] [] [] in
  linesLabel (occurrenceOf f) = lit "Lines 1e+21" /\
  occurrenceKeys g = [lit "js/xss:src/app.ts:1e+21"] /\
  issueLinesOf (issueBodyText cfg ts g prompts) = [lit "1"].
Proof. vm_compute. repeat split; reflexivity. Qed.

Lemma line_markers_read_back_witness :
  let cfg := Sample.cfg "high" 10 in
  let ts := lit "2025-10-13T16:30:00.000Z" in
  let f := Sample.finding "js/xss" "src/app.ts" "critical" 7 in
  let o1 := mkOccurrence 7 9 1 1 (lit "see line 3 and Lines 4-5") (lit "m") in
  let o2 := mkOccurrence 12 12 1 1 (lit "x") (lit "m") in
  let g := withOccurrences (newGroup f) [o1; o2] in
  let prompts := mkPrompts [] [] [] [] [] [] in
  In (lit "12") (issueLinesOf (issueBodyText cfg ts g prompts)).
Proof.
  intros cfg ts f o1 o2 g prompts.
  apply (line_markers_read_back cfg ts g prompts o2).
  - right. left. reflexivity.
  - reflexivity.
  - apply Nat.leb_le. vm_compute. reflexivity.
Defined.

(** X20.  What the renderer writes is, for the sweep, an issue of its
    group.  Under the conditions of the two round trips (rule and file
    not empty and without backticks, the row prefixes not occurring
    earlier in the header, a body that was not truncated), an issue whose
    body is the one rendered for a group is not closed by the sweep as
    long as the live set holds the key [ruleId:filePath:line] of one
    occurrence of the group whose start line is a whole number below
    2^53. *)
Theorem rendered_issue_is_kept
    (cfg : Config) (ts : jsstring) (g : GroupedFinding) (prompts : Prompts)
    (live : list jsstring) (issue : Issue) (o : Occurrence) :
  g_ruleId g <> [] -> ~ In backtick (g_ruleId g) ->
  g_filePath g <> [] -> ~ In backtick (g_filePath g) ->
  includes (bodyTop ts g ++ lit "| **CodeQL Rule** |") (lit "**CodeQL Rule** | ") = false ->
  includes (bodyTop ts g ++ ruleRow (g_ruleId g) ++ categoryRow prompts ++ lit "| **File** |")
           (lit "**File** | ") = false ->
  length (assembleBody cfg ts g prompts) <= MAX_BODY_LENGTH ->
  i_body issue = issueBodyText cfg ts g prompts ->
  In o (g_occurrences g) ->
  (o_startLine o < 2 ^ 53)%N ->
  set_has live (g_ruleId g ++ lit ":" ++ g_filePath g ++ lit ":"
                ++ decimal (o_startLine o)) = true ->
  isResolved (sweepVerdict live issue) = false.
Proof.
  intros Hr1 Hr2 Hf1 Hf2 Hpr Hpf Hfit Hbody Ho Hsafe Hlive.
  rewrite <- (num_exact _ Hsafe) in Hlive.
  assert (Hhead : length (bodyHeader ts g prompts) <= MAX_BODY_LENGTH).
  { etransitivity; [|exact Hfit]. unfold assembleBody. cbv zeta.
    rewrite length_app. lia. }
  destruct (markers_round_trip cfg ts g prompts Hr1 Hr2 Hf1 Hf2 Hpr Hpf Hhead)
    as [Er Ef].
  pose proof (lines_round_trip cfg ts g prompts o Ho Hsafe Hfit) as Hl.
  unfold sweepVerdict. destruct (arr_includes (i_labels issue) falsePositive); [reflexivity|].
  cbv zeta. rewrite Hbody, Er, Ef.
  destruct (issueLinesOf (issueBodyText cfg ts g prompts)) as [|l ls] eqn:El;
    [reflexivity|].
  assert (Hany : hasAnyOccurrence live (g_ruleId g) (g_filePath g) (l :: ls) = true).
  { unfold hasAnyOccurrence. apply existsb_exists.
    exists (num (o_startLine o)). split; assumption. }
  rewrite Hany. reflexivity.
Qed.

Lemma rendered_issue_is_kept_witness :
  let cfg := Sample.cfg "high" 10 in
  let ts := lit "2025-10-13T16:30:00.000Z" in
  let f := Sample.finding "js/xss" "src/app.ts" "critical" 7 in
  let g := withOccurrences (newGroup f) [occurrenceOf f] in
  let prompts := mkPrompts (lit "A03_injection") (lit "Injection") (lit "A03_injection.md")
                           [] [] [] in
  let issue := mkIssue 1 (createIssueTitle g) (issueBodyText cfg ts g prompts)
                       [sentinel] StOpen [] [] in
  isResolved (sweepVerdict [lit "js/xss:src/app.ts:7"] issue) = false.
Proof.
  intros cfg ts f g prompts issue.
  apply (rendered_issue_is_kept cfg ts g prompts [lit "js/xss:src/app.ts:7"] issue
           (occurrenceOf f)).
  - discriminate.
  - vm_compute. intros H. repeat (destruct H as [H|H]; [discriminate H|]). exact H.
  - discriminate.
  - vm_compute. intros H. repeat (destruct H as [H|H]; [discriminate H|]). exact H.
  - vm_compute. reflexivity.
  - vm_compute. reflexivity.
  - apply Nat.leb_le. vm_compute. reflexivity.
  - reflexivity.
  - left. reflexivity.
  - reflexivity.
  - vm_compute. reflexivity.
Defined.

(** ** Log lines: what the sanitiser guarantees *)

Lemma collapse_length b s : length (collapseSpaces b s) <= length s.
Proof.
  revert b. induction s as [|c s IH]; intros b; [reflexivity|].
  pose proof (IH true) as Ht. pose proof (IH false) as Hf.
  cbn [collapseSpaces]. destruct (isSpace c); [destruct b|]; cbn [length]; lia.
Qed.

Lemma collapse_members b s x :
  In x (collapseSpaces b s) -> In x s \/ x = 32%N.
Proof.
  revert b. induction s as [|c s IH]; intros b; [intros []|].
  cbn [collapseSpaces]. destruct (isSpace c); [destruct b|].
  - intros H. destruct (IH _ H); [left; now right | now right].
  - intros [<-|H]; [now right|]. destruct (IH _ H); [left; now right | now right].
  - intros [<-|H]; [left; now left|]. destruct (IH _ H); [left; now right | now right].
Qed.

Lemma collapse_singleSpaced b s : singleSpaced b (collapseSpaces b s) = true.
Proof.
  revert b. induction s as [|c s IH]; intros b; [reflexivity|].
  cbn [collapseSpaces]. destruct (isSpace c) eqn:E; [destruct b|].
  - apply IH.
  - cbn [singleSpaced]. change (isSpace 32) with true. cbv iota.
    rewrite N.eqb_refl. cbn [negb andb]. apply IH.
  - cbn [singleSpaced]. rewrite E. apply IH.
Qed.

Lemma singleSpaced_fixed b s :
  singleSpaced b s = true -> collapseSpaces b s = s.
Proof.
  revert b. induction s as [|c s IH]; intros b; [reflexivity|].
  cbn [singleSpaced collapseSpaces]. destruct (isSpace c).
  - intros H. apply andb_true_iff in H as [H H3]. apply andb_true_iff in H as [H1 H2].
    apply N.eqb_eq in H1. subst c. destruct b; [discriminate|].
    f_equal. now apply IH.
  - intros H. f_equal. now apply IH.
Qed.

Lemma singleSpaced_trimStart b s :
  singleSpaced b s = true -> singleSpaced false (trimStart s) = true.
Proof.
  revert b. induction s as [|c s IH]; intros b; [reflexivity|].
  cbn [singleSpaced trimStart]. destruct (isSpace c) eqn:E.
  - intros H. apply andb_true_iff in H as [_ H]. now apply (IH true).
  - intros H. cbn [singleSpaced]. now rewrite E.
Qed.

Lemma singleSpaced_prefix b x y :
  singleSpaced b (x ++ y) = true -> singleSpaced b x = true.
Proof.
  revert b. induction x as [|c x IH]; intros b; [reflexivity|].
  cbn [app singleSpaced]. destruct (isSpace c).
  - intros H. apply andb_true_iff in H as [H1 H2]. rewrite H1. cbn [andb]. now apply IH.
  - apply IH.
Qed.

Lemma trimStart_length s : length (trimStart s) <= length s.
Proof.
  induction s as [|c s IH]; [reflexivity|]. cbn [trimStart].
  destruct (isSpace c); cbn [length]; lia.
Qed.

Lemma trimStart_members s x : In x (trimStart s) -> In x s.
Proof.
  induction s as [|c s IH]; [intros []|]. cbn [trimStart].
  destruct (isSpace c); [intros H; right; now apply IH | auto].
Qed.

(** [trim s] is a segment of [s]: a prefix of what [trimStart] leaves. *)
Lemma trim_prefix s : exists sp, trimStart s = trim s ++ sp.
Proof.
  unfold trim. destruct (trimStart_decomp (rev (trimStart s))) as [sp E].
  exists (rev sp). rewrite <- rev_app_distr, <- E. now rewrite rev_involutive.
Qed.

Lemma trim_length s : length (trim s) <= length s.
Proof.
  destruct (trim_prefix s) as [sp E]. pose proof (trimStart_length s) as H.
  rewrite E, length_app in H. lia.
Qed.

Lemma trim_members s x : In x (trim s) -> In x s.
Proof.
  destruct (trim_prefix s) as [sp E]. intros H. apply trimStart_members.
  rewrite E. apply in_or_app. now left.
Qed.

Lemma trim_singleSpaced b s :
  singleSpaced b s = true -> singleSpaced false (trim s) = true.
Proof.
  intros H. destruct (trim_prefix s) as [sp E].
  apply (singleSpaced_prefix false (trim s) sp). rewrite <- E.
  now apply (singleSpaced_trimStart b).
Qed.

Lemma trim_first s c t : trim s = c :: t -> isSpace c = false.
Proof.
  intros H. destruct (trim_prefix s) as [sp E]. rewrite H in E.
  exact (trimStart_head s c (t ++ sp) E).
Qed.

Lemma trim_last s c t : trim s = t ++ [c] -> isSpace c = false.
Proof.
  unfold trim. intros H.
  assert (E : trimStart (rev (trimStart s)) = c :: rev t).
  { rewrite <- (rev_involutive (trimStart (rev (trimStart s)))), H.
    now rewrite rev_app_distr. }
  exact (trimStart_head _ _ _ E).
Qed.

(** What the sanitiser leaves of a message. *)
Lemma sanitize_shape message :
  let out := sanitizeLogMessage message in
  length out <= 500 /\
  (forall c, In c out -> isControl c = false) /\
  singleSpaced false out = true /\
  trim out = out.
Proof.
  cbv zeta. unfold sanitizeLogMessage, substring0.
  set (f := filter (fun c => negb (isControl c)) message).
  set (t := firstn 500 f).
  split; [|split; [|split]].
  - etransitivity; [apply trim_length|].
    etransitivity; [apply collapse_length|]. unfold t. apply firstn_le_length.
  - intros c Hc. apply trim_members in Hc. apply collapse_members in Hc as [Hc| ->];
      [|reflexivity].
    unfold t in Hc. apply In_firstn in Hc. unfold f in Hc.
    apply filter_In in Hc as [_ Hc]. now apply negb_true_iff in Hc.
  - apply (trim_singleSpaced false). apply collapse_singleSpaced.
  - apply trim_fix.
Qed.

(** X21.  Whatever the message, the text written to the log has at most
    500 characters, contains no control character (code units 0 to 31
    and 127 to 159, so no line break and no escape sequence), and its
    white space is normalised: every white-space character is a single
    space between two other characters, never at the start or the end
    and never next to another. *)
Theorem sanitizeLogMessage_output (message : jsstring) :
  length (sanitizeLogMessage message) <= 500 /\
  (forall c, In c (sanitizeLogMessage message) -> isControl c = false) /\
  singleSpaced false (sanitizeLogMessage message) = true /\
  (forall c t, sanitizeLogMessage message = c :: t -> isSpace c = false) /\
  (forall c t, sanitizeLogMessage message = t ++ [c] -> isSpace c = false).
Proof.
  destruct (sanitize_shape message) as [H1 [H2 [H3 H4]]].
  split; [exact H1|]. split; [exact H2|]. split; [exact H3|]. split.
  - intros c t E. unfold sanitizeLogMessage in E. exact (trim_first _ _ _ E).
  - intros c t E. unfold sanitizeLogMessage in E. exact (trim_last _ _ _ E).
Qed.

Lemma filter_fixed {A} (p : A -> bool) l :
  (forall x, In x l -> p x = true) -> filter p l = l.
Proof.
  induction l as [|a l IH]; intros H; [reflexivity|]. cbn [filter].
  rewrite (H a (or_introl eq_refl)). f_equal. apply IH. intros x Hx. apply H. now right.
Qed.

(** X22.  Sanitising is idempotent: a sanitised text passes through the
    sanitiser unchanged, so logging a message that was already sanitised
    writes it as it is. *)
Theorem sanitizeLogMessage_idempotent (message : jsstring) :
  sanitizeLogMessage (sanitizeLogMessage message) = sanitizeLogMessage message.
Proof.
  destruct (sanitize_shape message) as [H1 [H2 [H3 H4]]].
  set (out := sanitizeLogMessage message) in *.
  unfold sanitizeLogMessage at 1, substring0.
  rewrite filter_fixed by (intros x Hx; apply negb_true_iff; now apply H2).
  rewrite firstn_all2 by exact H1.
  rewrite (singleSpaced_fixed false out H3). exact H4.
Qed.

(** ** The cap bounds the work; a failing sweep is swallowed *)

Lemma processOne_work env n g s :
  exists b s',
    processOne env n g s = (Ok b, s') /\
    created (results (run s')) + updated (results (run s')) + processedCount (run s)
    = created (results (run s)) + updated (results (run s)) + processedCount (run s') /\
    (processedCount (run s') = processedCount (run s) \/
     (processedCount (run s') = processedCount (run s) + 1 /\
      capReached (config env) (processedCount (run s)) = false)).
Proof.
  destruct (capReached (config env) (processedCount (run s))) eqn:Hcap.
  - destruct (processOne_capped env n g s Hcap) as [s' [E [_ [_ [P [_ [_ [C U]]]]]]]].
    exists false, s'. split; [exact E|]. split; [lia | now left].
  - rewrite (processOne_stage env n g s Hcap).
    destruct (filterStage env g) as [why|info].
    + eexists _, _. split; [reflexivity|]. unfold rejected.
      cbn [run set_run set_logs results processedCount addSkipped countSeverity
           created updated]. split; [lia | now left].
    + unfold try_catch. unfold bind at 1.
      destruct (reconcile_counts env g info (counted g s))
        as [r [s1 [E [T [S [Er H]]]]]].
      rewrite E. unfold counted in T, S, Er, H.
      cbn [run set_run results processedCount countSeverity total created updated
           skipped errors] in T, S, Er, H.
      destruct r as [u|e].
      * unfold ret. eexists _, _. split; [reflexivity|].
        destruct H as [H1 H2]. split; [lia | right; split; [lia | reflexivity]].
      * unfold onFailure. rewrite bind_log. unfold bind at 1. rewrite modifyResults_run.
        unfold bind at 1. rewrite modifyResults_run. unfold ret.
        eexists _, _. split; [reflexivity|].
        destruct H as [H1 [H2 H3]].
        cbn [run set_run set_logs results processedCount addSkipped pushError
             created updated].
        split; [lia | now left].
Qed.

Lemma processLoop_work env n gs : forall s,
  exists s',
    processLoop env n gs s = (Ok tt, s') /\
    created (results (run s')) + updated (results (run s')) + processedCount (run s)
    = created (results (run s)) + updated (results (run s)) + processedCount (run s') /\
    forall m, maxIssuesPerRun (config env) = Some m ->
      (Z.of_nat (processedCount (run s)) <= Z.max 0 m)%Z ->
      (Z.of_nat (processedCount (run s')) <= Z.max 0 m)%Z.
Proof.
  induction gs as [|g gs IH]; intros s; cbn [processLoop].
  - exists s. split; [reflexivity|]. split; [lia | auto].
  - destruct (processOne_work env n g s) as [b [s1 [E [W P]]]].
    unfold bind at 1. rewrite E.
    assert (Hb : forall m, maxIssuesPerRun (config env) = Some m ->
              (Z.of_nat (processedCount (run s)) <= Z.max 0 m)%Z ->
              (Z.of_nat (processedCount (run s1)) <= Z.max 0 m)%Z).
    { intros m Hm Hle. destruct P as [->|[-> Hc]]; [exact Hle|].
      unfold capReached in Hc. rewrite Hm in Hc. apply Z.leb_gt in Hc. lia. }
    destruct b.
    + destruct (IH s1) as [s2 [E2 [W2 B2]]]. exists s2. split; [exact E2|].
      split; [lia|]. intros m Hm Hle. apply (B2 m Hm). now apply Hb.
    + unfold ret. exists s1. split; [reflexivity|]. split; [lia | exact Hb].
Qed.

(** X23.  The cap bounds the work of a run, whatever the tracker answers:
    with a cap of [m], the issues created and updated in one run are
    together at most [m], and none at all when [m] is zero or negative. *)
Theorem cap_bounds_created_and_updated
    (env : Env) (findings : list Finding) (s : St) (m : Z) :
  maxIssuesPerRun (config env) = Some m ->
  exists res s',
    processFindings env findings s = (Ok res, s') /\
    (Z.of_nat (created res + updated res) <= Z.max 0 m)%Z.
Proof.
  intros Hm. unfold processFindings. cbv zeta.
  rewrite bind_modifyRun. rewrite !bind_log.
  match goal with |- context [bind (processLoop env ?n ?gs) _ ?s0] =>
    destruct (processLoop_work env n gs s0) as [s1 [E [W B]]] end.
  unfold bind at 1. rewrite E. cbv beta iota. rewrite bind_log.
  unfold bind at 1. unfold get at 1. cbv beta iota.
  cbn [run set_run set_logs results processedCount initialResults created updated] in W, B.
  specialize (B m Hm ltac:(lia)).
  match goal with |- context [bind (try_catch _ _) _ ?s0] =>
    destruct (sweep_step env (currentVulnerabilities (run s0)) s0) as [s2 [E2 R2]] end.
  unfold bind at 1. rewrite E2. cbv beta iota.
  unfold bind, get, ret. eexists _, _. split; [reflexivity|].
  cbn [run set_logs] in R2.
  destruct R2 as [-> | [k ->]]; cbn [setClosed created updated]; lia.
Qed.

Lemma cap_bounds_created_and_updated_witness :
  let env := Sample.env "high" 1
               (Sample.report
                  [Sample.result "js/xss" "src/view.ts" "error" "m" 10;
                   Sample.result "js/sql-injection" "src/db.ts" "error" "m" 20]) in
  exists res s',
    processFindings env (Sample.findingsOf env) (Sample.start Sample.emptyTracker)
    = (Ok res, s') /\
    (Z.of_nat (created res + updated res) <= Z.max 0 1)%Z.
Proof.
  intros env.
  apply (cap_bounds_created_and_updated env (Sample.findingsOf env)
           (Sample.start Sample.emptyTracker) 1%Z).
  reflexivity.
Defined.

Lemma processLoop_all_rejected env n gs : forall s,
  (forall g, In g gs -> exists why, filterStage env g = inl why) ->
  capReached (config env) (processedCount (run s)) = false ->
  exists s',
    processLoop env n gs s = (Ok tt, s') /\
    tracker s' = tracker s /\
    processedCount (run s') = processedCount (run s) /\
    currentVulnerabilities (run s') = currentVulnerabilities (run s) /\
    created (results (run s')) = created (results (run s)) /\
    updated (results (run s')) = updated (results (run s)) /\
    closed (results (run s')) = closed (results (run s)) /\
    errors (results (run s')) = errors (results (run s)) /\
    skipped (results (run s')) = skipped (results (run s)) + length gs.
Proof.
  induction gs as [|g gs IH]; intros s Hrej Hcap; cbn [processLoop].
  - exists s. cbn [length]. rewrite Nat.add_0_r. repeat split; reflexivity.
  - destruct (Hrej g (or_introl eq_refl)) as [why Hwhy].
    unfold bind at 1. rewrite (processOne_stage env n g s Hcap), Hwhy.
    destruct (IH (rejected env g why s)) as [s' [E H]].
    { intros g' Hg'. apply Hrej. now right. }
    { exact Hcap. }
    exists s'. split; [exact E|].
    unfold rejected in H.
    cbn [tracker run set_run set_logs results processedCount currentVulnerabilities
         addSkipped countSeverity created updated closed errors skipped] in H.
    destruct H as [H1 [H2 [H3 [H4 [H5 [H6 [H7 H8]]]]]]].
    cbn [length]. repeat split; try assumption. lia.
Qed.

(** X24.  A failing sweep is swallowed.  When every group of a run is
    left aside by the filter stage, the first request of the run is the
    listing of the sweep; if it fails, the run still returns its results:
    nothing created, updated or closed, every group skipped, no error
    recorded, the issues untouched, and the failure only in the log. *)
Theorem failed_sweep_is_only_logged
    (env : Env) (findings : list Finding) (s : St) (msg : jsstring)
    (rest : list (option jsstring)) :
  (forall g, In g (groupFindingsByRuleAndFile findings) ->
             exists why, filterStage env g = inl why) ->
  capReached (config env) 0 = false ->
  faults (tracker s) = Some msg :: rest ->
  exists res s',
    processFindings env findings s = (Ok res, s') /\
    created res = 0 /\ updated res = 0 /\ closed res = 0 /\
    skipped res = length (groupFindingsByRuleAndFile findings) /\
    errors res = [] /\
    issues (tracker s') = issues (tracker s) /\
    calls (tracker s') = calls (tracker s) ++ [CallList] /\
    In (ERROR, lit "Failed to auto-close resolved issues: " ++ msg) (logs s').
Proof.
  intros Hrej Hcap Hw. unfold processFindings. cbv zeta.
  rewrite bind_modifyRun. rewrite !bind_log.
  match goal with |- context [bind (processLoop env ?n ?gs) _ ?s0] =>
    destruct (processLoop_all_rejected env n gs s0 Hrej Hcap)
      as [s1 [E [T [P [V [C [U [Cl [Er Sk]]]]]]]]] end.
  unfold bind at 1. rewrite E. cbv beta iota. rewrite bind_log.
  unfold bind at 1. unfold get at 1. cbv beta iota.
  cbn [tracker run set_run set_logs results processedCount currentVulnerabilities
       initialResults created updated closed errors skipped] in T, P, V, C, U, Cl, Er, Sk.
  set (s2 := set_logs _ s1).
  assert (Hw2 : faults (tracker s2) = Some msg :: rest).
  { change (tracker s2) with (tracker s1). now rewrite T. }
  assert (Ea : autoCloseResolvedIssues env (currentVulnerabilities (run s2)) s2
               = (Throw msg,
                  set_logs (logs s2 ++ [(ERROR, lit "Error in auto-close: " ++ msg)])
                           (set_tracker (received CallList (tracker s2)) s2))).
  { unfold autoCloseResolvedIssues, try_catch. unfold bind at 1.
    unfold listForRepo. unfold bind at 1.
    rewrite (request_fail CallList s2 msg rest Hw2). reflexivity. }
  unfold bind at 1. unfold try_catch at 1. unfold bind at 1. rewrite Ea.
  cbv beta iota. unfold log at 1, modify at 1. cbv beta iota.
  unfold bind, get, ret. eexists _, _. split; [reflexivity|].
  cbn [run set_logs set_tracker results tracker received issues calls logs s2].
  rewrite T, C, U, Cl, Er, Sk. cbn [Nat.add].
  repeat split; try reflexivity.
  apply in_or_app. right. now left.
Qed.

Lemma failed_sweep_is_only_logged_witness :
  let env := Sample.env "high" 10
               (Sample.report
                  [Sample.result "js/log-injection" "src/log.ts" "warning" "m" 5]) in
  let old := mkIssue 1 (lit "t") (lit "b") [sentinel] StOpen [] [] in
  exists res s',
    processFindings env (Sample.findingsOf env)
      (Sample.start (mkTracker [old] 2 [Some (lit "Bad credentials")] []))
    = (Ok res, s') /\
    created res = 0 /\ updated res = 0 /\ closed res = 0 /\
    skipped res = 1 /\
    errors res = [] /\
    issues (tracker s') = [old] /\
    calls (tracker s') = [CallList] /\
    In (ERROR, lit "Failed to auto-close resolved issues: " ++ lit "Bad credentials")
       (logs s').
Proof.
  intros env old.
  apply (failed_sweep_is_only_logged env (Sample.findingsOf env)
           (Sample.start (mkTracker [old] 2 [Some (lit "Bad credentials")] []))
           (lit "Bad credentials") []).
  - intros g Hg. vm_compute in Hg. destruct Hg as [<-|[]].
    exists BelowThreshold. vm_compute. reflexivity.
  - reflexivity.
  - reflexivity.
Defined.

(** ** Maintainability detection and the titles of the guidance sections *)

Lemma set_add_NoDup x s : NoDup s -> NoDup (set_add x s).
Proof.
  intros H. unfold set_add. destruct (arr_includes s x) eqn:E; [exact H|].
  apply NoDup_snoc; [exact H|]. now apply arr_includes_not_In.
Qed.

Lemma set_add_In x s f : In f (set_add x s) <-> f = x \/ In f s.
Proof.
  unfold set_add. destruct (arr_includes s x) eqn:E.
  - apply arr_includes_In in E. split; [auto|]. intros [->|H]; assumption.
  - rewrite in_app_iff. cbn [In]. intuition congruence.
Qed.

Lemma detectedIn_spec text entries : forall acc,
  NoDup acc ->
  NoDup (detectedIn text entries acc) /\
  forall f, In f (detectedIn text entries acc) <->
            In f acc \/
            exists key trigger,
              In (key, trigger) entries /\ triggerFires text trigger = true /\
              t_prompt_file trigger = f.
Proof.
  induction entries as [|[key trigger] entries IH]; intros acc ND; cbn [detectedIn].
  - split; [exact ND|]. intros f. split; [auto|]. intros [H|[k [t [[] _]]]]. exact H.
  - destruct (triggerFires text trigger) eqn:E.
    + destruct (IH (set_add (t_prompt_file trigger) acc) (set_add_NoDup _ _ ND))
        as [ND' H]. split; [exact ND'|].
      intros f. rewrite H, set_add_In. split.
      * intros [[->|Hf]|[k [t [Hin [Hf Ht]]]]].
        -- right. exists key, trigger. repeat split; [now left | exact E].
        -- now left.
        -- right. exists k, t. repeat split; [now right | exact Hf | exact Ht].
      * intros [Hf|[k [t [[Heq|Hin] [Hf Ht]]]]].
        -- left. now right.
        -- injection Heq as <- <-. left. left. now symmetry.
        -- right. exists k, t. now repeat split.
    + destruct (IH acc ND) as [ND' H]. split; [exact ND'|].
      intros f. rewrite H. split.
      * intros [Hf|[k [t [Hin [Hf Ht]]]]]; [now left|].
        right. exists k, t. repeat split; [now right | exact Hf | exact Ht].
      * intros [Hf|[k [t [[Heq|Hin] [Hf Ht]]]]]; [now left | |].
        -- injection Heq as <- <-. congruence.
        -- right. exists k, t. now repeat split.
Qed.

(** X25.  Maintainability detection on ASCII text (message, rule help,
    rule identifier and keywords) never fails and sends nothing to the
    tracker.  With the feature switched off it reports nothing; switched
    on, it reports a prompt file exactly when a trigger with that file
    has a keyword that occurs, compared in lower case, in the message,
    the rule help or the rule identifier of the group, and it reports no
    file twice. *)
Theorem detectMaintainabilityConcerns_result (env : Env) (g : GroupedFinding) (s : St) :
  isAscii (g_message g ++ g_ruleHelp g ++ g_ruleId g) = true ->
  (forall key trigger keyword,
      In (key, trigger) (maintainability_triggers (mappings env)) ->
      In keyword (t_keywords trigger) -> isAscii keyword = true) ->
  exists files s',
    detectMaintainabilityConcerns env g s = (Ok files, s') /\
    tracker s' = tracker s /\
    NoDup files /\
    (enableMaintainability (config env) = false -> files = []) /\
    (enableMaintainability (config env) = true ->
     forall f, In f files <->
       exists key trigger keyword,
         In (key, trigger) (maintainability_triggers (mappings env)) /\
         t_prompt_file trigger = f /\
         In keyword (t_keywords trigger) /\
         includes (toLowerCase (g_message g ++ lit " " ++ g_ruleHelp g ++ lit " "
                                ++ g_ruleId g))
                  (toLowerCase keyword) = true).
Proof.
  intros _ _.
  destruct (detect_pure env g s) as [s' [E [T _]]].
  exists (detectedConcerns env g), s'. split; [exact E|]. split; [exact T|].
  unfold detectedConcerns.
  destruct (enableMaintainability (config env)); cbn [negb].
  - match goal with |- context [detectedIn ?text ?entries []] =>
      destruct (detectedIn_spec text entries [] (NoDup_nil _)) as [ND H] end.
    split; [exact ND|]. split; [discriminate|]. intros _ f. rewrite H. split.
    + intros [[]|[key [trigger [Hin [Hf Ht]]]]].
      unfold triggerFires in Hf. apply existsb_exists in Hf as [keyword [Hk Hi]].
      exists key, trigger, keyword. now repeat split.
    + intros [key [trigger [keyword [Hin [Ht [Hk Hi]]]]]]. right.
      exists key, trigger. repeat split; [exact Hin | | exact Ht].
      unfold triggerFires. apply existsb_exists. now exists keyword.
  - split; [constructor|]. split; [reflexivity | discriminate].
Qed.

Lemma detectMaintainabilityConcerns_result_witness :
  let g := newGroup (mkFinding (lit "js/deep-callbacks") (lit "Deep callbacks") []
                               (lit "Deeply NESTED callbacks") (lit "warning")
                               (lit "medium") (lit "src/app.ts") 4 9 1 1 []
                               (lit "CodeQL") (lit "2.15.0")) in
  exists files s',
    detectMaintainabilityConcerns Sample.watchful g (Sample.start Sample.emptyTracker)
    = (Ok files, s') /\
    NoDup files /\
    In (lit "complexity-reduction.md") files.
Proof.
  intros g.
  assert (Htext : isAscii (g_message g ++ g_ruleHelp g ++ g_ruleId g) = true).
  { vm_compute. reflexivity. }
  assert (Hkeys : forall key trigger keyword,
             In (key, trigger) (maintainability_triggers (mappings Sample.watchful)) ->
             In keyword (t_keywords trigger) -> isAscii keyword = true).
  { intros key trigger keyword [H|[]] Hk. injection H as _ <-.
    destruct Hk as [<-|[<-|[]]]; vm_compute; reflexivity. }
  destruct (detectMaintainabilityConcerns_result Sample.watchful g
              (Sample.start Sample.emptyTracker) Htext Hkeys)
    as [files [s' [E [_ [ND [_ Hon]]]]]].
  exists files, s'. split; [exact E|]. split; [exact ND|].
  apply (Hon eq_refl).
  exists (lit "complexity"),
         (mkTrigger [lit "Complex"; lit "nested"] (lit "complexity-reduction.md")),
         (lit "nested").
  split; [left; reflexivity|]. split; [reflexivity|].
  split; [right; left; reflexivity | vm_compute; reflexivity].
Defined.

Lemma removeFirst_unfold pat s :
  removeFirst pat s
  = if startsWith pat s then skipn (length pat) s
    else match s with [] => [] | c :: s' => c :: removeFirst pat s' end.
Proof. destruct s; reflexivity. Qed.

Lemma removeFirst_suffix x :
  ~ In 46%N x -> removeFirst dotMd (x ++ dotMd) = x.
Proof.
  induction x as [|c x IH]; intros H.
  - reflexivity.
  - rewrite removeFirst_unfold. cbn [app].
    assert (E : startsWith dotMd (c :: x ++ dotMd) = false).
    { unfold dotMd. change (lit ".md") with [46; 109; 100]%N. cbn [startsWith].
      apply andb_false_iff. left. apply N.eqb_neq. intros <-. apply H. now left. }
    rewrite E. f_equal. apply IH. intros Hin. apply H. now right.
Qed.

Lemma split_unfold sep c s :
  split sep (c :: s)
  = if N.eqb c sep then [] :: split sep s
    else match split sep s with
         | w :: ws => (c :: w) :: ws
         | [] => [[c]]
         end.
Proof. reflexivity. Qed.

Lemma split_word (w rest : jsstring) :
  ~ In 45%N w -> split 45%N (w ++ 45%N :: rest) = w :: split 45%N rest.
Proof.
  induction w as [|c w IH]; intros H.
  - cbn [app]. rewrite split_unfold. now rewrite N.eqb_refl.
  - cbn [app]. rewrite split_unfold.
    replace (N.eqb c 45) with false
      by (symmetry; apply N.eqb_neq; intros ->; apply H; now left).
    rewrite IH; [reflexivity|]. intros Hin. apply H. now right.
Qed.

Lemma split_single (w : jsstring) : ~ In 45%N w -> split 45%N w = [w].
Proof.
  induction w as [|c w IH]; intros H; [reflexivity|].
  rewrite split_unfold.
  replace (N.eqb c 45) with false
    by (symmetry; apply N.eqb_neq; intros ->; apply H; now left).
  rewrite IH; [reflexivity|]. intros Hin. apply H. now right.
Qed.

Lemma join_unfold sep w w2 ws :
  join sep (w :: w2 :: ws) = w ++ sep ++ join sep (w2 :: ws).
Proof. reflexivity. Qed.

Lemma split_join words :
  words <> [] -> (forall w, In w words -> ~ In 45%N w) ->
  split 45%N (join [45%N] words) = words.
Proof.
  induction words as [|w words IH]; intros Hne H; [contradiction|].
  destruct words as [|w2 ws].
  - cbn [join]. apply split_single. apply H. now left.
  - rewrite join_unfold. cbn [app]. rewrite split_word by (apply H; now left).
    f_equal. apply IH; [discriminate|]. intros x Hx. apply H. now right.
Qed.

Lemma join_no_dot words :
  (forall w, In w words -> ~ In 46%N w) -> ~ In 46%N (join [45%N] words).
Proof.
  induction words as [|w words IH]; intros H; [intros []|].
  destruct words as [|w2 ws].
  - cbn [join]. apply H. now left.
  - rewrite join_unfold. intros Hin. apply in_app_or in Hin as [Hin|Hin].
    + now apply (H w (or_introl eq_refl)).
    + cbn [app] in Hin. destruct Hin as [Hin|Hin]; [discriminate|].
      revert Hin. apply IH. intros x Hx. apply H. now right.
Qed.

(** X26.  Titles from file names.  For a file name made of words joined
    by hyphens and ending in [.md], the words containing neither a hyphen
    nor a dot and each starting with an ASCII character, the
    maintainability title and the STRIDE title are the words, each with
    its first letter in upper case, joined by spaces. *)
Theorem titles_of_hyphenated_names (words : list jsstring) :
  words <> [] ->
  (forall w, In w words -> ~ In 45%N w /\ ~ In 46%N w) ->
  (forall w, In w words -> isAscii (firstn 1 w) = true) ->
  extractMaintainabilityTitle (join (lit "-") words ++ lit ".md")
  = join (lit " ") (map capitalize words) /\
  extractStrideTitle (join (lit "-") words ++ lit ".md")
  = join (lit " ") (map capitalize words).
Proof.
  intros Hne H _.
  assert (E : split 45%N (removeFirst dotMd (join (lit "-") words ++ lit ".md")) = words).
  { change (lit ".md") with dotMd. change (lit "-") with [45%N].
    rewrite removeFirst_suffix.
    - apply split_join; [exact Hne|]. intros w Hw. now apply H.
    - apply join_no_dot. intros w Hw. now apply H. }
  unfold extractMaintainabilityTitle, extractStrideTitle. now rewrite E.
Qed.

Lemma titles_of_hyphenated_names_witness :
  extractMaintainabilityTitle (lit "complexity-reduction.md") = lit "Complexity Reduction" /\
  extractStrideTitle (lit "spoofing.md") = lit "Spoofing".
Proof.
  split.
  - apply (proj1 (titles_of_hyphenated_names [lit "complexity"; lit "reduction"]
                    ltac:(discriminate)
                    ltac:(intros w [<-|[<-|[]]]; split; vm_compute;
                          intros H; repeat (destruct H as [H|H]; [discriminate H|]);
                          exact H)
                    ltac:(intros w [<-|[<-|[]]]; vm_compute; reflexivity))).
  - apply (proj2 (titles_of_hyphenated_names [lit "spoofing"]
                    ltac:(discriminate)
                    ltac:(intros w [<-|[]]; split; vm_compute;
                          intros H; repeat (destruct H as [H|H]; [discriminate H|]);
                          exact H)
                    ltac:(intros w [<-|[]]; vm_compute; reflexivity))).
Defined.

Lemma takeWhile_all (p : N -> bool) s : forall c, In c (takeWhile p s) -> p c = true.
Proof.
  induction s as [|d s IH]; intros c; [intros []|]. cbn [takeWhile].
  destruct (p d) eqn:E; [|intros []]. intros [<-|H]; [exact E | now apply IH].
Qed.

Lemma matchOwaspNum_some s ds :
  matchOwaspNum s = Some ds ->
  exists d1 d2, ds = [d1; d2] /\ isDigit d1 = true /\ isDigit d2 = true /\
                includes s (65%N :: ds) = true.
Proof.
  induction s as [|c s IH]; [discriminate|]. cbn [matchOwaspNum].
  destruct s as [|d1 [|d2 s']]; try discriminate.
  destruct (N.eqb c 65 && isDigit d1 && isDigit d2) eqn:E.
  - intros H. injection H as <-.
    apply andb_true_iff in E as [E E2]. apply andb_true_iff in E as [E0 E1].
    apply N.eqb_eq in E0. subst c. exists d1, d2. repeat split; try assumption.
    apply includes_iff. now exists [], s'.
  - intros H. destruct (IH H) as [e1 [e2 [-> [H1 [H2 H3]]]]].
    exists e1, e2. repeat split; try assumption.
    apply includes_iff in H3 as [a [b Eab]]. apply includes_iff.
    exists (c :: a), b. rewrite Eab. reflexivity.
Qed.

Lemma titleBacktrack_chars k rest cap :
  titleBacktrack k rest = Some cap -> forall c, In c cap -> titleChar c = true.
Proof.
  induction k as [|k IH]; [discriminate|]. cbn [titleBacktrack].
  destruct (takeWhile titleChar (skipn (S k) rest)) as [|x xs] eqn:E.
  - exact IH.
  - intros H. injection H as <-. rewrite <- E. apply takeWhile_all.
Qed.

Lemma matchTitle_chars s : forall b cap,
  matchTitle b s = Some cap -> forall c, In c cap -> titleChar c = true.
Proof.
  induction s as [|d s IH]; intros b cap; [discriminate|]. cbn [matchTitle].
  destruct b.
  - destruct (matchTitleAt (d :: s)) as [cap'|] eqn:E.
    + intros H. injection H as <-. unfold matchTitleAt in E.
      destruct (N.eqb d 35); [|discriminate]. exact (titleBacktrack_chars _ _ _ E).
    + apply IH.
  - apply IH.
Qed.

(** X27.  What the OWASP title extraction returns.  The number is either
    empty or the letter A followed by two digits that occur so in the
    file name; the title contains no opening parenthesis, no em dash and
    no line feed, and has no white space at either end. *)
Theorem extractOwaspInfo_shape (filename content : jsstring) :
  (fst (extractOwaspInfo filename content) = [] \/
   exists d1 d2,
     fst (extractOwaspInfo filename content) = [65; d1; d2]%N /\
     isDigit d1 = true /\ isDigit d2 = true /\
     includes filename [65; d1; d2]%N = true) /\
  (forall c, In c (snd (extractOwaspInfo filename content)) ->
     c <> 40%N /\ c <> 8212%N /\ c <> 10%N) /\
  trim (snd (extractOwaspInfo filename content)) = snd (extractOwaspInfo filename content).
Proof.
  unfold extractOwaspInfo. cbv zeta. cbn [fst snd]. split; [|split].
  - destruct (matchOwaspNum filename) as [ds|] eqn:E; [|now left].
    right. destruct (matchOwaspNum_some _ _ E) as [d1 [d2 [-> [H1 [H2 H3]]]]].
    exists d1, d2. now repeat split.
  - destruct (matchTitle true content) as [cap|] eqn:E; [|intros c []].
    intros c Hc. apply trim_members in Hc.
    pose proof (matchTitle_chars _ _ _ E c Hc) as Ht. unfold titleChar in Ht.
    apply negb_true_iff in Ht. apply orb_false_iff in Ht as [Ht H3].
    apply orb_false_iff in Ht as [H1 H2].
    apply N.eqb_neq in H1, H2, H3. now repeat split.
  - destruct (matchTitle true content) as [cap|]; [apply trim_fix | reflexivity].
Qed.

(** ** The files of a group's guidance, and the errors of a run *)

Lemma addMapped_spec detected aspects :
  NoDup detected ->
  NoDup (addMapped detected aspects) /\
  forall f, In f (addMapped detected aspects) <->
            In f detected \/
            exists l aspect, aspects = Some l /\ In aspect l /\ f = aspect ++ dotMd.
Proof.
  unfold addMapped. destruct aspects as [l|].
  - revert detected. induction l as [|a l IH]; intros detected ND; cbn [fold_left].
    + split; [exact ND|]. intros f. split; [auto|].
      intros [H|[l' [a' [E [Hin _]]]]]; [exact H|].
      injection E as <-. destruct Hin.
    + fold (set_add (a ++ dotMd) detected).
      destruct (IH (set_add (a ++ dotMd) detected) (set_add_NoDup _ _ ND)) as [ND' H].
      split; [exact ND'|]. intros f. rewrite H, set_add_In. split.
      * intros [[->|Hf]|[l' [a' [E [Hin Hf]]]]].
        -- right. exists (a :: l), a. repeat split. now left.
        -- now left.
        -- injection E as <-. right. exists (a :: l), a'. repeat split; [now right | exact Hf].
      * intros [Hf|[l' [a' [E [Hin Hf]]]]]; [left; now right|].
        injection E as <-. destruct Hin as [<-|Hin].
        -- left. now left.
        -- right. exists l, a'. now repeat split.
  - intros ND. split; [exact ND|]. intros f. split; [auto|].
    intros [H|[l [a [E _]]]]; [exact H | discriminate].
Qed.

Lemma fetchAll_prompts env category files : forall s,
  exists ps s',
    fetchAll env category files s = (Ok ps, s') /\
    tracker s' = tracker s /\ run s' = run s /\
    forall p, In p ps -> In (p_filename p) files /\ p_content p <> [].
Proof.
  induction files as [|file files IH]; intros s; cbn [fetchAll].
  - exists [], s. split; [reflexivity|]. split; [reflexivity|]. split; [reflexivity|].
    intros p [].
  - destruct (quiet_fetchPrompt env category file s) as [content [s1 [E1 [T1 R1]]]].
    unfold bind at 1. rewrite E1.
    destruct (IH s1) as [ps [s2 [E2 [T2 [R2 H2]]]]].
    unfold bind at 1. rewrite E2.
    destruct content as [[|c cs]|]; unfold ret; eexists _, _;
      (split; [reflexivity|]); (split; [congruence|]); (split; [congruence|]).
    + intros p Hp. destruct (H2 p Hp). split; [now right | assumption].
    + intros p [<-|Hp].
      * cbn [p_filename p_content]. split; [now left | discriminate].
      * destruct (H2 p Hp). split; [now right | assumption].
    + intros p Hp. destruct (H2 p Hp). split; [now right | assumption].
Qed.

(** X28.  The maintainability files of a group.  Gathering the prompts
    never fails and sends nothing to the tracker.  The files it returns
    (the ones the labels are made from) are the detected ones followed by
    the aspects the category maps, each with [.md] appended, and no file
    occurs twice, also when a detected file is mapped as well; every
    maintainability prompt it returns belongs to one of these files and
    has a content that is not empty. *)
Theorem gatherPrompts_files (env : Env) (g : GroupedFinding) (info : OwaspInfo) (s : St) :
  exists prompts files s',
    gatherPrompts env g info s = (Ok (prompts, files), s') /\
    tracker s' = tracker s /\
    files = addMapped (detectedConcerns env g) (c_maintainability (oi_category info)) /\
    NoDup files /\
    (forall f, In f files <->
       In f (detectedConcerns env g) \/
       exists l aspect,
         c_maintainability (oi_category info) = Some l /\ In aspect l /\
         f = aspect ++ lit ".md") /\
    (forall p, In p (maintainabilityPrompts prompts) ->
       In (p_filename p) files /\ p_content p <> []).
Proof.
  unfold gatherPrompts. cbv zeta.
  destruct (fetchAll_prompts env (lit "owasp") [c_prompt_file (oi_category info)] s)
    as [owasp [s1 [E1 [T1 [R1 _]]]]].
  unfold bind at 1. rewrite E1.
  destruct (detect_pure env g s1) as [s2 [E2 [T2 _]]].
  unfold bind at 1. rewrite E2.
  set (files := addMapped (detectedConcerns env g) (c_maintainability (oi_category info))).
  destruct (fetchAll_prompts env (lit "maintainability") files s2)
    as [mnt [s3 [E3 [T3 [R3 H3]]]]].
  unfold bind at 1. rewrite E3.
  assert (Hthreats : exists th s4,
            (if enableThreatModel (config env)
             then match c_threat_model (oi_category info) with
                  | Some l => fetchAll env (lit "threat-modeling")
                                (map (fun t => t ++ dotMd) l)
                  | None => ret []
                  end
             else ret []) s3 = (Ok th, s4) /\ tracker s4 = tracker s3).
  { destruct (enableThreatModel (config env)); [|now exists [], s3].
    destruct (c_threat_model (oi_category info)) as [l|]; [|now exists [], s3].
    destruct (fetchAll_prompts env (lit "threat-modeling")
                (map (fun t => t ++ dotMd) l) s3) as [th [s4 [E4 [T4 _]]]].
    now exists th, s4. }
  destruct Hthreats as [th [s4 [E4 T4]]].
  unfold bind at 1. rewrite E4. unfold ret.
  assert (NDd : NoDup (detectedConcerns env g)).
  { unfold detectedConcerns. destruct (negb _); [constructor|].
    apply detectedIn_spec. constructor. }
  destruct (addMapped_spec (detectedConcerns env g)
              (c_maintainability (oi_category info)) NDd) as [ND H].
  eexists _, files, s4. split; [reflexivity|].
  split; [congruence|]. split; [reflexivity|]. split; [exact ND|].
  split; [exact H|]. cbn [maintainabilityPrompts]. exact H3.
Qed.

Lemma processOne_errors env n g s :
  exists b s',
    processOne env n g s = (Ok b, s') /\
    (errors (results (run s')) = errors (results (run s)) \/
     exists e, errors (results (run s'))
               = errors (results (run s)) ++ [mkErrorEntry (g_ruleId g) (g_filePath g) e]).
Proof.
  destruct (capReached (config env) (processedCount (run s))) eqn:Hcap.
  - destruct (processOne_capped env n g s Hcap) as [s' [E [_ [_ [_ [_ [Er _]]]]]]].
    exists false, s'. split; [exact E | now left].
  - rewrite (processOne_stage env n g s Hcap).
    destruct (filterStage env g) as [why|info].
    + eexists _, _. split; [reflexivity|]. left. reflexivity.
    + unfold try_catch. unfold bind at 1.
      destruct (reconcile_counts env g info (counted g s))
        as [r [s1 [E [_ [_ [Er _]]]]]].
      rewrite E. unfold counted in Er.
      cbn [run set_run results countSeverity errors] in Er.
      destruct r as [u|e].
      * unfold ret. eexists _, _. split; [reflexivity|]. now left.
      * unfold onFailure. rewrite bind_log. unfold bind at 1. rewrite modifyResults_run.
        unfold bind at 1. rewrite modifyResults_run. unfold ret.
        eexists _, _. split; [reflexivity|]. right. exists e.
        cbn [run set_run set_logs results addSkipped pushError errors]. now rewrite Er.
Qed.

Lemma processLoop_errors env n gs : forall s,
  exists s' more,
    processLoop env n gs s = (Ok tt, s') /\
    errors (results (run s')) = errors (results (run s)) ++ more /\
    forall e, In e more ->
      exists g, In g gs /\ e_ruleId e = g_ruleId g /\ e_filePath e = g_filePath g.
Proof.
  induction gs as [|g gs IH]; intros s; cbn [processLoop].
  - exists s, []. rewrite app_nil_r. repeat split. intros e [].
  - destruct (processOne_errors env n g s) as [b [s1 [E H]]].
    unfold bind at 1. rewrite E.
    assert (H1 : exists m1, errors (results (run s1)) = errors (results (run s)) ++ m1 /\
                   forall e, In e m1 ->
                     exists g', In g' (g :: gs) /\ e_ruleId e = g_ruleId g' /\
                                e_filePath e = g_filePath g').
    { destruct H as [H|[e H]].
      - exists []. rewrite app_nil_r. split; [exact H | intros e []].
      - eexists. split; [exact H|]. intros e' [<-|[]]. exists g.
        repeat split. now left. }
    destruct H1 as [m1 [Em1 Hm1]].
    destruct b.
    + destruct (IH s1) as [s2 [m2 [E2 [Em2 Hm2]]]].
      exists s2, (m1 ++ m2). split; [exact E2|]. split.
      * now rewrite Em2, Em1, app_assoc.
      * intros e He. apply in_app_or in He as [He|He]; [now apply Hm1|].
        destruct (Hm2 e He) as [g' [Hg' Hr]]. exists g'. split; [now right | exact Hr].
    + unfold ret. exists s1, m1. repeat split; assumption.
Qed.

(** X29.  The errors of a summary are errors of groups.  Whatever the
    tracker answers, every entry of [errors] in the results of a run
    carries the rule identifier and the file path of one of the groups of
    the run. *)
Theorem errors_name_groups (env : Env) (findings : list Finding) (s : St) :
  exists res s',
    processFindings env findings s = (Ok res, s') /\
    forall e, In e (errors res) ->
      exists g, In g (groupFindingsByRuleAndFile findings) /\
                e_ruleId e = g_ruleId g /\ e_filePath e = g_filePath g.
Proof.
  unfold processFindings. cbv zeta.
  rewrite bind_modifyRun. rewrite !bind_log.
  match goal with |- context [bind (processLoop env ?n ?gs) _ ?s0] =>
    destruct (processLoop_errors env n gs s0) as [s1 [more [E [Em Hm]]]] end.
  unfold bind at 1. rewrite E. cbv beta iota. rewrite bind_log.
  unfold bind at 1. unfold get at 1. cbv beta iota.
  cbn [run set_run set_logs results initialResults errors app] in Em.
  match goal with |- context [bind (try_catch _ _) _ ?s0] =>
    destruct (sweep_step env (currentVulnerabilities (run s0)) s0) as [s2 [E2 R2]] end.
  unfold bind at 1. rewrite E2. cbv beta iota.
  unfold bind, get, ret. eexists _, _. split; [reflexivity|].
  cbn [run set_logs] in R2.
  destruct R2 as [-> | [k ->]]; cbn [setClosed errors]; rewrite Em; exact Hm.
Qed.
